(** * Global assembly and static condensation in Nektar++

    A shallow embedding of the linear-system core of the library:
    - [TetExp::CreateStaticCondMatrix]         (LocalRegions/TetExp.cpp)
    - [ExpList::GenGlobalMatrix],
      [ExpList::GenGlobalMatrixFull],
      [ExpList::GenGlobalLinSysStaticCond]      (MultiRegions/ExpList.cpp)
    - [GlobalLinSysIterative::v_SolveLinearSystem]
                                                (MultiRegions/GlobalLinSysIterative.cpp)
    - the block sizes of [CoupledLinearNS::SetUpCoupledMatrix]
                                                (IncNavierStokesSolver)
    - the storage of an expansion list and the copies between the list
      and its elements, [ExpList::GetFieldDefinitions],
      [ExpList::AppendFieldData], [ExpList::ExtractDataToCoeffs],
      [ExpList::GenBlockMatrix]                 (MultiRegions/ExpList.cpp)
    - [TetExp::CreateMatrix], [TetExp::MultiplyByQuadratureMetric]
                                                (LocalRegions/TetExp.cpp)
    - the element matrices of [CoupledLinearNS::SetUpCoupledMatrix] and
      the packing loops of [CoupledLinearNS::SolveLinearNS]
                                                (IncNavierStokesSolver)

    [NekDouble] is kept abstract: the development is parametric in a type
    of scalars with the operations the code applies to doubles.  No
    algebraic law is assumed unless a statement lists it, so that the
    statements without such a premise hold for IEEE doubles as they do
    for exact arithmetic. *)

From Stdlib Require Import ZArith Lia String.
From stdpp Require Import base option list gmap.

Local Open Scope Z_scope.

(** ** Scalars *)

Class Scalar (F : Type) := {
  fzero : F;
  fone  : F;
  fadd  : F -> F -> F;
  fsub  : F -> F -> F;
  fmul  : F -> F -> F;
  fdiv  : F -> F -> F;
  fsqrt : F -> F;
  fltb  : F -> F -> bool
}.

(** The laws of exact arithmetic that some statements rely on; doubles
    satisfy the two commutativity laws, and associativity up to rounding. *)
Class ExactArithmetic (F : Type) `{Scalar F} : Prop := {
  fadd_comm : forall x y : F, fadd x y = fadd y x;
  fadd_assoc : forall x y z : F, fadd (fadd x y) z = fadd x (fadd y z);
  fmul_comm : forall x y : F, fmul x y = fmul y x
}.

Declare Scope scalar_scope.
Delimit Scope scalar_scope with F.
Infix "+" := fadd : scalar_scope.
Infix "-" := fsub : scalar_scope.
Infix "*" := fmul : scalar_scope.
Infix "/" := fdiv : scalar_scope.
Infix "<?" := fltb : scalar_scope.

(** ** Fatal errors

    [ASSERTL0(false, msg)], [NEKERROR(efatal, msg)] and a failing LAPACK
    factorisation abort the computation with a message. *)

Inductive result (A : Type) : Type :=
| Ok (a : A)
| Fatal (msg : string).
Arguments Ok {A} a.
Arguments Fatal {A} msg.

(** The assertion macros [ASSERTL0], [ASSERTL1] and [ASSERTL2] of
    ErrorUtil.hpp, which is not among the embedded sources: each takes a
    condition and a message.  An assertion [checks] when it lets a true
    condition pass and makes a false one a fatal error with its message;
    it [passes] when it lets a true condition pass. *)
Class ErrorUtil : Type := {
  ASSERTL0 : bool -> string -> result unit;
  ASSERTL1 : bool -> string -> result unit;
  ASSERTL2 : bool -> string -> result unit
}.

Definition checks (assertion : bool -> string -> result unit) : Prop :=
  forall (condition : bool) (msg : string),
    assertion condition msg = if condition then Ok tt else Fatal msg.

Definition passes (assertion : bool -> string -> result unit) : Prop :=
  forall msg : string, assertion true msg = Ok tt.

(** [NEKERROR(ErrorUtil::efatal, msg)] *)
Definition NEKERROR {A} (msg : string) : result A := Fatal msg.

#[global] Instance result_ret : MRet result := fun _ a => Ok a.
#[global] Instance result_bind : MBind result := fun _ _ k x =>
  match x with
  | Ok a => k a
  | Fatal msg => Fatal msg
  end.

(** ** Machine integers

    [int] values are kept as integers; storing one in an [unsigned int],
    or mixing it with one in an expression, reduces it modulo [2^32]. *)
Definition to_unsigned (z : Z) : Z := z mod 2 ^ 32.

(** ** StdRegions / SpatialDomains enumerations

    Only the enumerators that the embedded functions discriminate on are
    kept apart; every other matrix type is [eOtherMatrixType]. *)

Inductive MatrixType : Type :=
| eMass
| eInvMass
| eLaplacian
| eHelmholtz
| eBwdTrans
| eIProductWRTBase
| eHybridDGHelmBndLam
| eOtherMatrixType (n : nat).

Inductive GeomType : Type :=
| eNoGeomType
| eRegular
| eDeformed.

Inductive MatrixStorage : Type :=
| eFULL
| eDIAGONAL
| ePOSITIVE_DEFINITE_SYMMETRIC
| ePOSITIVE_DEFINITE_SYMMETRIC_BANDED.

Definition MatrixStorage_eqb (a b : MatrixStorage) : bool :=
  match a, b with
  | eFULL, eFULL
  | eDIAGONAL, eDIAGONAL
  | ePOSITIVE_DEFINITE_SYMMETRIC, ePOSITIVE_DEFINITE_SYMMETRIC
  | ePOSITIVE_DEFINITE_SYMMETRIC_BANDED, ePOSITIVE_DEFINITE_SYMMETRIC_BANDED => true
  | _, _ => false
  end.

(** ** Dense matrices *)

Module LinearAlgebra.
Section Dense.
Context {F : Type} `{Scalar F}.

(** A [DNekMat] with full storage: its sizes and its rows. *)
Record DNekMat : Type := mkMat {
  m_rows : nat;
  m_cols : nat;
  m_data : list (list F)
}.

(** [MemoryManager<DNekMat>::AllocateSharedPtr(rows, cols)]; the fresh
    buffer is taken to hold zeros. *)
Definition AllocateSharedPtr (rows cols : nat) : DNekMat :=
  mkMat rows cols (replicate rows (replicate cols fzero)).

(** [m(i,j)] read and [m(i,j) = v] write.  A write outside the sizes is
    undefined in the source; here it leaves the matrix as it is. *)
Definition GetValue (m : DNekMat) (i j : nat) : F :=
  default fzero (m_data m !! i ≫= (.!! j)).

Definition SetValue (m : DNekMat) (i j : nat) (v : F) : DNekMat :=
  mkMat (m_rows m) (m_cols m) (alter (<[j := v]>) i (m_data m)).

(** A matrix given by its entries. *)
Definition tabulate (rows cols : nat) (f : nat -> nat -> F) : DNekMat :=
  mkMat rows cols
    (map (fun i => map (fun j => f i j) (seq 0 cols)) (seq 0 rows)).

(** [a * b] and [a - b] of [NekMatrix]; the product sums over the inner
    index from the left, starting at zero. *)
Definition row_col (a b : DNekMat) (i j : nat) : F :=
  foldl (fun s k => (s + GetValue a i k * GetValue b k j)%F)
        fzero (seq 0 (m_cols a)).

Definition mmul (a b : DNekMat) : DNekMat :=
  tabulate (m_rows a) (m_cols b) (row_col a b).

Definition msub (a b : DNekMat) : DNekMat :=
  tabulate (m_rows a) (m_cols a)
    (fun i j => (GetValue a i j - GetValue b i j)%F).

(** [DNekScalMat]: a scale factor and the matrix it owns; reading an
    entry multiplies by the scale. *)
Record DNekScalMat : Type := mkScal {
  Scale : F;
  Owned : DNekMat
}.

Definition ScalGet (m : DNekScalMat) (i j : nat) : F :=
  (Scale m * GetValue (Owned m) i j)%F.

Definition GetRows (m : DNekScalMat) : nat := m_rows (Owned m).
Definition GetColumns (m : DNekScalMat) : nat := m_cols (Owned m).

(** [DNekScalBlkMat]: block sizes and the blocks set so far. *)
Record DNekScalBlkMat : Type := mkBlk {
  blk_row_sizes : list Z;
  blk_col_sizes : list Z;
  blk_storage : MatrixStorage;
  blk_blocks : gmap (nat * nat) DNekScalMat
}.

Definition AllocateBlk (rs cs : list Z) (st : MatrixStorage) : DNekScalBlkMat :=
  mkBlk rs cs st ∅.

Definition SetBlock (m : DNekScalBlkMat) (i j : nat) (b : DNekScalMat)
  : DNekScalBlkMat :=
  mkBlk (blk_row_sizes m) (blk_col_sizes m) (blk_storage m)
        (<[(i, j) := b]> (blk_blocks m)).

Definition GetBlock (m : DNekScalBlkMat) (i j : nat) : option DNekScalMat :=
  blk_blocks m !! (i, j).
End Dense.
Arguments DNekMat F : clear implicits.
Arguments DNekScalMat F : clear implicits.
Arguments DNekScalBlkMat F : clear implicits.
End LinearAlgebra.
Import LinearAlgebra.

(** ** LocalRegions/TetExp.cpp *)

Module TetExp.
Section StaticCond.
Context {F : Type} `{Scalar F} `{ErrorUtil}.

(** [D->Invert()]: the LAPACK-backed inversion of [NekMatrix], which is
    not part of the embedded sources; it either yields the inverse or
    aborts. *)
Variable Invert : DNekMat F -> result (DNekMat F).

(** What [CreateStaticCondMatrix] reads from the expansion. *)
Record Exp : Type := mkExp {
  m_ncoeffs : Z;
  NumBndryCoeffs : Z;
  GetBoundaryMap : list nat;
  GetInteriorMap : list nat;
  GetGtype : GeomType;
  GetLocMatrix : MatrixType -> DNekScalMat F;
  GetStdStaticCondMatrix : MatrixType -> nat -> nat -> DNekMat F
}.

(** The two labelled blocks the [switch] jumps to. *)
Inductive Branch : Type := UseLocRegionsMatrix | UseStdRegionsMatrix.

Definition select_branch (e : Exp) (mtype : MatrixType) : Branch * F :=
  match mtype with
  | eLaplacian | eHelmholtz => (UseLocRegionsMatrix, fone)
  | _ =>
      match GetGtype e with
      | eDeformed => (UseLocRegionsMatrix, fone)
      | _ => (UseStdRegionsMatrix, Scale (GetLocMatrix e mtype))
      end
  end.

(** The four gather loops. *)
Definition fill_row (mat : DNekScalMat F) (rmap cmap : list nat) (ncols : nat)
    (i : nat) (m : DNekMat F) : DNekMat F :=
  foldl (fun m j => SetValue m i j (ScalGet mat (rmap !!! i) (cmap !!! j)))
        m (seq 0 ncols).

Definition gather_AB (mat : DNekScalMat F) (bmap imap : list nat)
    (nbdry nint : nat) (AB : DNekMat F * DNekMat F) : DNekMat F * DNekMat F :=
  foldl (fun '(A, B) i =>
           (fill_row mat bmap bmap nbdry i A, fill_row mat bmap imap nint i B))
        AB (seq 0 nbdry).

Definition gather_CD (mat : DNekScalMat F) (bmap imap : list nat)
    (nbdry nint : nat) (CD : DNekMat F * DNekMat F) : DNekMat F * DNekMat F :=
  foldl (fun '(C, D) i =>
           (fill_row mat imap bmap nbdry i C, fill_row mat imap imap nint i D))
        CD (seq 0 nint).

(** [unsigned int exp_size[] = {nbdry, nint}] and the allocation of the
    two-by-two block matrix. *)
Definition empty_blk (nbdry nint : Z) : DNekScalBlkMat F :=
  let exp_size := [to_unsigned nbdry; to_unsigned nint] in
  AllocateBlk exp_size exp_size eFULL.

Definition geom_is_set (g : GeomType) : bool :=
  match g with eNoGeomType => false | _ => true end.

Definition CreateStaticCondMatrix (e : Exp) (mtype : MatrixType)
  : result (DNekScalBlkMat F) :=
  _ ← ASSERTL2 (geom_is_set (GetGtype e))
               "Geometric information is not set up";
  let nbdry := NumBndryCoeffs e in
  let nint := m_ncoeffs e - nbdry in
  let returnval := empty_blk nbdry nint in
  let '(branch, factor) := select_branch e mtype in
  match branch with
  | UseStdRegionsMatrix =>
      let invfactor := (fone / factor)%F in
      let one := fone in
      let mat := GetStdStaticCondMatrix e mtype in
      let returnval := SetBlock returnval 0 0 (mkScal factor (mat 0 0)%nat) in
      let returnval := SetBlock returnval 0 1 (mkScal one (mat 0 1)%nat) in
      let returnval := SetBlock returnval 1 0 (mkScal factor (mat 1 0)%nat) in
      let returnval := SetBlock returnval 1 1 (mkScal invfactor (mat 1 1)%nat) in
      Ok returnval
  | UseLocRegionsMatrix =>
      let invfactor := (fone / factor)%F in
      let one := fone in
      let mat := GetLocMatrix e mtype in
      let nb := Z.to_nat nbdry in
      let ni := Z.to_nat nint in
      let A := AllocateSharedPtr nb nb in
      let B := AllocateSharedPtr nb ni in
      let C := AllocateSharedPtr ni nb in
      let D := AllocateSharedPtr ni ni in
      let bmap := GetBoundaryMap e in
      let imap := GetInteriorMap e in
      let '(A, B) := gather_AB mat bmap imap nb ni (A, B) in
      let '(C, D) := gather_CD mat bmap imap nb ni (C, D) in
      '(A, B, D) ←
        (if nint =? 0 then Ok (A, B, D)
         else
           D ← Invert D;
           let B := mmul B D in
           let A := msub A (mmul B C) in
           Ok (A, B, D));
      let returnval := SetBlock returnval 0 0 (mkScal factor A) in
      let returnval := SetBlock returnval 0 1 (mkScal one B) in
      let returnval := SetBlock returnval 1 0 (mkScal factor C) in
      let returnval := SetBlock returnval 1 1 (mkScal invfactor D) in
      Ok returnval
  end.

(** The condensation as the specification words it: gather the four
    blocks by index, invert [D], form [B·D⁻¹] and [A − (B·D⁻¹)·C]. *)
Definition block_of (mat : DNekScalMat F) (rmap cmap : list nat)
    (nr nc : nat) : DNekMat F :=
  tabulate nr nc (fun i j => ScalGet mat (rmap !!! i) (cmap !!! j)).

Record Condensed : Type := mkCondensed {
  cS : DNekMat F;
  cBDinv : DNekMat F;
  cC : DNekMat F;
  cDinv : DNekMat F
}.

Definition condense (localMatrix : DNekScalMat F)
    (boundaryMap interiorMap : list nat) (nbdry nint : nat)
  : result Condensed :=
  let A := block_of localMatrix boundaryMap boundaryMap nbdry nbdry in
  let B := block_of localMatrix boundaryMap interiorMap nbdry nint in
  let C := block_of localMatrix interiorMap boundaryMap nint nbdry in
  let D := block_of localMatrix interiorMap interiorMap nint nint in
  Dinv ← Invert D;
  let BDinv := mmul B Dinv in
  Ok (mkCondensed (msub A (mmul BDinv C)) BDinv C Dinv).
End StaticCond.
Arguments Exp F : clear implicits.
Arguments Condensed F : clear implicits.
End TetExp.

(** ** LocalRegions/TetExp.cpp: the local matrices *)

Module TetExpMatrix.

(** The six second-derivative matrices of the standard element are
    matrix types of their own. *)
Definition eLaplacian00 : MatrixType := eOtherMatrixType 0.
Definition eLaplacian01 : MatrixType := eOtherMatrixType 1.
Definition eLaplacian02 : MatrixType := eOtherMatrixType 2.
Definition eLaplacian11 : MatrixType := eOtherMatrixType 3.
Definition eLaplacian12 : MatrixType := eOtherMatrixType 4.
Definition eLaplacian22 : MatrixType := eOtherMatrixType 5.

Section CreateMatrix.
Context {F : Type} `{Scalar F} `{ErrorUtil}.

(** [mat->Invert()], as in the static condensation. *)
Variable Invert : DNekMat F -> result (DNekMat F).

(** A [MatrixKey] of this expansion: its matrix type and constants.
    [GetConstant(0)] of a key without constants is undefined in the
    source and reads as zero here. *)
Record MatrixKey : Type := mkMatrixKey {
  GetMatrixType : MatrixType;
  GetConstants : list F
}.

Definition GetConstant (mkey : MatrixKey) (i : nat) : F :=
  default fzero (GetConstants mkey !! i).

(** What [CreateMatrix] reads from the expansion: the geometric
    factors [GetJac()[0]] and [GetGmat()[i][0]], and the matrices of
    the standard element, generated or looked up, for the standard key
    of a key. *)
Record Exp : Type := mkExp {
  GetGtype : GeomType;
  GetJac0 : F;
  GetGmat0 : Z -> F;
  GenMatrix : MatrixKey -> DNekMat F;
  GetStdMatrix : MatrixKey -> DNekMat F
}.

(** The sum, the multiple and the transpose of [NekMatrix], entry by
    entry; the sizes are those of the first operand. *)
Definition madd (a b : DNekMat F) : DNekMat F :=
  tabulate (m_rows a) (m_cols a)
    (fun i j => (GetValue a i j + GetValue b i j)%F).

Definition mscale (s : F) (a : DNekMat F) : DNekMat F :=
  tabulate (m_rows a) (m_cols a) (fun i j => (s * GetValue a i j)%F).

Definition Transpose (a : DNekMat F) : DNekMat F :=
  tabulate (m_cols a) (m_rows a) (fun i j => GetValue a j i).

(** [LapMat + factor*MassMat] of two scaled matrices. *)
Definition helmholtz_sum (LapMat MassMat : DNekScalMat F) (factor : F)
  : DNekMat F :=
  tabulate (GetRows LapMat) (GetColumns LapMat)
    (fun i j => (ScalGet LapMat i j + factor * ScalGet MassMat i j)%F).

(** The Laplacian of an element of regular geometry. *)
Definition regular_Laplacian (e : Exp) : DNekMat F :=
  let lap00 := GetStdMatrix e (mkMatrixKey eLaplacian00 []) in
  let lap01 := GetStdMatrix e (mkMatrixKey eLaplacian01 []) in
  let lap02 := GetStdMatrix e (mkMatrixKey eLaplacian02 []) in
  let lap11 := GetStdMatrix e (mkMatrixKey eLaplacian11 []) in
  let lap12 := GetStdMatrix e (mkMatrixKey eLaplacian12 []) in
  let lap22 := GetStdMatrix e (mkMatrixKey eLaplacian22 []) in
  let gmat := GetGmat0 e in
  madd
    (madd
       (madd
          (madd
             (madd
                (mscale (gmat 0 * gmat 0 + gmat 3 * gmat 3
                         + gmat 6 * gmat 6)%F lap00)
                (mscale (gmat 1 * gmat 1 + gmat 4 * gmat 4
                         + gmat 7 * gmat 7)%F lap11))
             (mscale (gmat 2 * gmat 2 + gmat 5 * gmat 5
                      + gmat 8 * gmat 8)%F lap22))
          (mscale (gmat 0 * gmat 1 + gmat 3 * gmat 4
                   + gmat 6 * gmat 7)%F
                  (madd lap01 (Transpose lap01))))
       (mscale (gmat 0 * gmat 2 + gmat 3 * gmat 5 + gmat 6 * gmat 8)%F
               (madd lap02 (Transpose lap02))))
    (mscale (gmat 1 * gmat 2 + gmat 4 * gmat 5 + gmat 7 * gmat 8)%F
            (madd lap12 (Transpose lap12))).

(** The cases of the [switch] other than [eHelmholtz]. *)
Definition create (e : Exp) (mkey : MatrixKey) : result (DNekScalMat F) :=
  let one := fone in
  match GetMatrixType mkey with
  | eMass | eIProductWRTBase =>
      match GetGtype e with
      | eDeformed => Ok (mkScal one (GenMatrix e mkey))
      | _ => let jac := GetJac0 e in Ok (mkScal jac (GetStdMatrix e mkey))
      end
  | eInvMass =>
      match GetGtype e with
      | eDeformed =>
          let masskey := mkMatrixKey eMass [] in
          mat ← Invert (GenMatrix e masskey);
          Ok (mkScal one mat)
      | _ =>
          let fac := (fone / GetJac0 e)%F in
          Ok (mkScal fac (GetStdMatrix e mkey))
      end
  | eLaplacian =>
      match GetGtype e with
      | eDeformed => Ok (mkScal one (GenMatrix e mkey))
      | _ => let jac := GetJac0 e in Ok (mkScal jac (regular_Laplacian e))
      end
  | _ => Ok (mkScal one (GenMatrix e mkey))
  end.

(** [m_matrixManager[key]] for a key that is not a Helmholtz key: the
    manager hands the key to [CreateMatrix], its registered creator,
    which asserts and enters the [switch]. *)
Definition m_matrixManager (e : Exp) (key : MatrixKey)
  : result (DNekScalMat F) :=
  _ ← ASSERTL2 (TetExp.geom_is_set (GetGtype e))
               "Geometric information is not set up";
  create e key.

Definition CreateMatrix (e : Exp) (mkey : MatrixKey)
  : result (DNekScalMat F) :=
  _ ← ASSERTL2 (TetExp.geom_is_set (GetGtype e))
               "Geometric information is not set up";
  match GetMatrixType mkey with
  | eHelmholtz =>
      let factor := GetConstant mkey 0%nat in
      MassMat ← m_matrixManager e (mkMatrixKey eMass []);
      LapMat ← m_matrixManager e (mkMatrixKey eLaplacian []);
      let one := fone in
      Ok (mkScal one (helmholtz_sum LapMat MassMat factor))
  | _ => create e mkey
  end.

(** A square matrix that equals its transpose. *)
Definition symmetric (n : nat) (m : DNekMat F) : Prop :=
  m_rows m = n /\ m_cols m = n
  /\ forall i j, GetValue m i j = GetValue m j i.

Definition square (n : nat) (m : DNekMat F) : Prop :=
  m_rows m = n /\ m_cols m = n.
End CreateMatrix.
Arguments MatrixKey F : clear implicits.
Arguments Exp F : clear implicits.
End TetExpMatrix.

(** ** LocalRegions/TetExp.cpp: the quadrature metric *)

Module TetExpMetric.

(** The enumerators of [LibUtilities::PointsType] that
    [MultiplyByQuadratureMetric] tells apart. *)
Inductive PointsType : Type :=
| eGaussLobattoLegendre
| eGaussRadauMAlpha1Beta0
| eGaussRadauMAlpha2Beta0
| eOtherPointsType (n : nat).

Section Metric.
Context {F : Type} `{Scalar F}.

(** The doubles [0.5] and [0.25]. *)
Variables half quarter : F.

(** What the routine reads from the expansion: the numbers of points,
    weights and zeros of the three bases, their point types, and the
    Jacobian of the geometry. *)
Record Exp : Type := mkExp {
  nquad0 : Z;
  nquad1 : Z;
  nquad2 : Z;
  GetJac : list F;
  GetGtype : GeomType;
  w0 : list F;
  w1 : list F;
  w2 : list F;
  z1 : list F;
  z2 : list F;
  PointsType1 : PointsType;
  PointsType2 : PointsType
}.

(** [x[i]]; a read behind the end of an array is undefined in the
    source and gives zero here. *)
Definition rd (x : list F) (i : Z) : F := default fzero (x !! Z.to_nat i).

Definition range (n : Z) : list Z := seqZ 0 n.

(** [Vmath::Vmul(n, x, 1, y, 1, z, 1)]: [z[i] = x[i] * y[i]]. *)
Definition Vmul (n : Z) (x y z : list F) : list F :=
  foldl (fun z i => <[Z.to_nat i := (rd x i * rd y i)%F]> z) z (range n).

(** [Vmath::Smul(n, alpha, x, 1, y, 1)]: [y[i] = alpha * x[i]]. *)
Definition Smul (n : Z) (alpha : F) (x y : list F) : list F :=
  foldl (fun y i => <[Z.to_nat i := (alpha * rd x i)%F]> y) y (range n).

(** The loops of [Vmath] and [Blas] that work in place on [n] entries
    from [x + off] on, entry [i] of them by [g i]. *)
Definition pointwise (g : Z -> F -> F) (off n : Z) (x : list F) : list F :=
  foldl (fun x i => alter (g i) (Z.to_nat (off + i)) x) x (range n).

(** [Vmath::Vmul(n, x + off, 1, y, 1, x + off, 1)] *)
Definition Vmul_at (n off : Z) (y x : list F) : list F :=
  pointwise (fun i v => (v * rd y i)%F) off n x.

(** [Blas::Dscal(n, alpha, x + off, 1)] and
    [Vmath::Smul(n, alpha, x + off, 1, x + off, 1)] *)
Definition Smul_at (n : Z) (alpha : F) (off : Z) (x : list F) : list F :=
  pointwise (fun _ v => (alpha * v)%F) off n x.

(** The four parts of the routine: the Jacobian, the weights of the
    first direction, and the two [switch] statements. *)
Definition multiply_by_jacobian (e : Exp) (inarray outarray : list F)
  : list F :=
  let nqtot := nquad0 e * nquad1 e * nquad2 e in
  let jac := GetJac e in
  match GetGtype e with
  | eDeformed => Vmul nqtot jac inarray outarray
  | _ => Smul nqtot (rd jac 0) inarray outarray
  end.

Definition multiply_by_w0 (e : Exp) (outarray : list F) : list F :=
  foldl (fun outarray i => Vmul_at (nquad0 e) (i * nquad0 e) (w0 e) outarray)
        outarray (range (nquad1 e * nquad2 e)).

Definition scale_direction1 (e : Exp) (outarray : list F) : list F :=
  match PointsType1 e with
  | eGaussLobattoLegendre =>
      foldl (fun outarray j =>
               foldl (fun outarray i =>
                        Smul_at (nquad0 e)
                                (half * (fone - rd (z1 e) i)
                                 * rd (w1 e) i)%F
                                (i * nquad0 e + j * nquad0 e * nquad1 e)
                                outarray)
                     outarray (range (nquad1 e)))
            outarray (range (nquad2 e))
  | eGaussRadauMAlpha1Beta0 =>
      foldl (fun outarray i =>
               Smul_at (nquad0 e) (half * rd (w1 e) (Z.rem i (nquad2 e)))%F
                       (i * nquad0 e) outarray)
            outarray (range (nquad1 e * nquad2 e))
  | _ => outarray
  end.

Definition scale_direction2 (e : Exp) (outarray : list F) : list F :=
  match PointsType2 e with
  | eGaussLobattoLegendre =>
      foldl (fun outarray i =>
               Smul_at (nquad0 e * nquad1 e)
                       (quarter * (fone - rd (z2 e) i)
                        * (fone - rd (z2 e) i) * rd (w2 e) i)%F
                       (i * nquad0 e * nquad1 e) outarray)
            outarray (range (nquad2 e))
  | eGaussRadauMAlpha2Beta0 =>
      foldl (fun outarray i =>
               Smul_at (nquad0 e * nquad1 e) (quarter * rd (w2 e) i)%F
                       (i * nquad0 e * nquad1 e) outarray)
            outarray (range (nquad2 e))
  | _ => outarray
  end.

Definition MultiplyByQuadratureMetric (e : Exp) (inarray outarray : list F)
  : list F :=
  scale_direction2 e
    (scale_direction1 e
       (multiply_by_w0 e (multiply_by_jacobian e inarray outarray))).

(** *** The factors in words

    The Jacobian at a point, and the factors of the second and third
    direction at the point [(i1, i2)] of those directions. *)
Definition jac_at (e : Exp) (p : Z) : F :=
  match GetGtype e with
  | eDeformed => rd (GetJac e) p
  | _ => rd (GetJac e) 0
  end.

Definition metric1 (e : Exp) (i1 i2 : Z) (v : F) : F :=
  match PointsType1 e with
  | eGaussLobattoLegendre =>
      (half * (fone - rd (z1 e) i1) * rd (w1 e) i1 * v)%F
  | eGaussRadauMAlpha1Beta0 =>
      (half * rd (w1 e) (Z.rem (i1 + i2 * nquad1 e) (nquad2 e)) * v)%F
  | _ => v
  end.

Definition metric2 (e : Exp) (i2 : Z) (v : F) : F :=
  match PointsType2 e with
  | eGaussLobattoLegendre =>
      (quarter * (fone - rd (z2 e) i2) * (fone - rd (z2 e) i2)
       * rd (w2 e) i2 * v)%F
  | eGaussRadauMAlpha2Beta0 => (quarter * rd (w2 e) i2 * v)%F
  | _ => v
  end.
End Metric.
Arguments Exp F : clear implicits.
End TetExpMetric.

(** ** MultiRegions/ExpList.cpp *)

Module ExpList.
Section Assembly.
Context {F : Type} `{Scalar F} `{ErrorUtil}.

(** The accessors of [LocalToGlobalC0ContMap] the assembly calls. *)
Record LocalToGlobalC0ContMap : Type := mkL2G {
  GetLocalToGlobalMap : nat -> Z;
  GetLocalToGlobalSign : nat -> F;
  GetNumGlobalCoeffs : Z;
  GetNumGlobalDirBndCoeffs : Z;
  GetFullSystemBandWidth : Z
}.

(** One entry of [m_exp], as far as the assembly looks at it. *)
Record Expansion : Type := mkExpansion {
  GetNcoeffs : nat;
  GetTotPoints : nat;
  GetLocMatrix : MatrixType -> DNekScalMat F;
  GetLocStaticCondMatrix : MatrixType -> result (DNekScalBlkMat F)
}.

Record GlobalMatrixKey : Type := mkKey {
  GetMatrixType : MatrixType;
  GetNvariableCoefficients : Z
}.

(** *** GenGlobalMatrix *)

Record GlobalMatrix : Type := mkGlobalMatrix {
  glob_rows : Z;
  glob_cols : Z;
  spcoomat : gmap (Z * Z) F
}.

Record Dims : Type := mkDims {
  d_rows : Z;
  d_cols : Z;
  assembleFirstDim : bool;
  assembleSecondDim : bool
}.

Definition select_dims (mtype : MatrixType) (m_npoints : Z)
    (locToGloMap : LocalToGlobalC0ContMap) : result Dims :=
  match mtype with
  | eBwdTrans =>
      Ok (mkDims m_npoints (GetNumGlobalCoeffs locToGloMap) false true)
  | eIProductWRTBase =>
      Ok (mkDims (GetNumGlobalCoeffs locToGloMap) m_npoints true false)
  | eMass | eHelmholtz | eLaplacian =>
      Ok (mkDims (GetNumGlobalCoeffs locToGloMap)
                 (GetNumGlobalCoeffs locToGloMap) true true)
  | _ => NEKERROR
           "Global Matrix creation not defined for this type of matrix"
  end.

(** [if (spcoomat.count(coord) == 0) spcoomat[coord] = v;
     else spcoomat[coord] += v;] *)
Definition sparse_fill (sp : gmap (Z * Z) F) (coord : Z * Z) (v : F)
  : gmap (Z * Z) F :=
  match sp !! coord with
  | None => <[coord := v]> sp
  | Some old => <[coord := (old + v)%F]> sp
  end.

Definition gid_sign (assemble : bool) (locToGloMap : LocalToGlobalC0ContMap)
    (idx : nat) : Z * F :=
  if assemble
  then (GetLocalToGlobalMap locToGloMap idx,
        GetLocalToGlobalSign locToGloMap idx)
  else (Z.of_nat idx, fone).

Definition fill_element (d : Dims) (locToGloMap : LocalToGlobalC0ContMap)
    (loc_mat : DNekScalMat F) (cntdim1 cntdim2 : nat)
    (sp : gmap (Z * Z) F) : gmap (Z * Z) F :=
  foldl (fun sp i =>
    let '(gid1, sign1) :=
      gid_sign (assembleFirstDim d) locToGloMap (cntdim1 + i)%nat in
    foldl (fun sp j =>
      let '(gid2, sign2) :=
        gid_sign (assembleSecondDim d) locToGloMap (cntdim2 + j)%nat in
      sparse_fill sp (gid1, gid2) (sign1 * sign2 * ScalGet loc_mat i j)%F)
      sp (seq 0 (GetColumns loc_mat)))
    sp (seq 0 (GetRows loc_mat)).

Fixpoint fill_global (mkey : GlobalMatrixKey) (d : Dims)
    (locToGloMap : LocalToGlobalC0ContMap) (m_exp : list Expansion)
    (cntdim1 cntdim2 : nat) (sp : gmap (Z * Z) F)
  : result (gmap (Z * Z) F) :=
  match m_exp with
  | [] => Ok sp
  | e :: rest =>
      _ ← (if 0 <? GetNvariableCoefficients mkey
           then ASSERTL0 false "method not set up for non-Dirichlet conditions"
           else Ok tt);
      let loc_mat := GetLocMatrix e (GetMatrixType mkey) in
      let sp := fill_element d locToGloMap loc_mat cntdim1 cntdim2 sp in
      fill_global mkey d locToGloMap rest
                  (cntdim1 + GetRows loc_mat)%nat
                  (cntdim2 + GetColumns loc_mat)%nat sp
  end.

Definition GenGlobalMatrix (m_exp : list Expansion) (m_npoints : Z)
    (mkey : GlobalMatrixKey) (locToGloMap : LocalToGlobalC0ContMap)
  : result GlobalMatrix :=
  d ← select_dims (GetMatrixType mkey) m_npoints locToGloMap;
  sp ← fill_global mkey d locToGloMap m_exp 0%nat 0%nat ∅;
  Ok (mkGlobalMatrix (d_rows d) (d_cols d) sp).

(** *** GenGlobalMatrixFull *)

(** Modelled from the spec: the global [NekMatrix] with a storage
    policy, whose code is not among the embedded sources.  A symmetric
    policy (full or banded) keeps one value for the unordered pair of
    indices, so that [(i,j)] and [(j,i)] name the same slot -- which is why
    the assembly below adds the upper triangle only, "in order to avoid
    entries to be entered twice"; every slot starts at the value the
    allocation was given.  The band widths are kept as data and not
    enforced. *)
Record GlobalNekMat : Type := mkGmat {
  g_rows : Z;
  g_cols : Z;
  g_init : F;
  g_storage : MatrixStorage;
  g_sub : Z;
  g_super : Z;
  g_data : gmap (Z * Z) F
}.

Definition slot (st : MatrixStorage) (i j : Z) : Z * Z :=
  match st with
  | ePOSITIVE_DEFINITE_SYMMETRIC
  | ePOSITIVE_DEFINITE_SYMMETRIC_BANDED => if j <? i then (j, i) else (i, j)
  | _ => (i, j)
  end.

Definition AllocateGmat (rows cols : Z) (init : F) (st : MatrixStorage)
    (sub super : Z) : GlobalNekMat :=
  mkGmat rows cols init st sub super ∅.

Definition GmatGetValue (m : GlobalNekMat) (i j : Z) : F :=
  default (g_init m) (g_data m !! slot (g_storage m) i j).

Definition GmatSetValue (m : GlobalNekMat) (i j : Z) (v : F) : GlobalNekMat :=
  mkGmat (g_rows m) (g_cols m) (g_init m) (g_storage m) (g_sub m) (g_super m)
         (<[slot (g_storage m) i j := v]> (g_data m)).

Definition select_storage (mtype : MatrixType) (bwidth rows : Z)
  : MatrixStorage :=
  match mtype with
  | eHelmholtz | eLaplacian =>
      if to_unsigned (2 * (bwidth + 1)) <? rows
      then ePOSITIVE_DEFINITE_SYMMETRIC_BANDED
      else ePOSITIVE_DEFINITE_SYMMETRIC
  | _ => eFULL
  end.

Definition allocate_Gmat (mtype : MatrixType) (bwidth rows cols : Z)
  : GlobalNekMat :=
  let zero := fzero in
  match select_storage mtype bwidth rows with
  | ePOSITIVE_DEFINITE_SYMMETRIC_BANDED =>
      AllocateGmat rows cols zero ePOSITIVE_DEFINITE_SYMMETRIC_BANDED
                   bwidth bwidth
  | st => AllocateGmat rows cols zero st 0 0
  end.

Definition fill_element_full (locToGloMap : LocalToGlobalC0ContMap)
    (NumDirBCs : Z) (loc_mat : DNekScalMat F) (cnt : nat)
    (Gmat : GlobalNekMat) : GlobalNekMat :=
  let loc_lda := GetColumns loc_mat in
  foldl (fun Gmat i =>
    let gid1 := GetLocalToGlobalMap locToGloMap (cnt + i)%nat - NumDirBCs in
    let sign1 := GetLocalToGlobalSign locToGloMap (cnt + i)%nat in
    if 0 <=? gid1 then
      foldl (fun Gmat j =>
        let gid2 := GetLocalToGlobalMap locToGloMap (cnt + j)%nat - NumDirBCs in
        let sign2 := GetLocalToGlobalSign locToGloMap (cnt + j)%nat in
        if 0 <=? gid2 then
          if MatrixStorage_eqb (g_storage Gmat) eFULL || (gid1 <=? gid2) then
            let value :=
              (GmatGetValue Gmat gid1 gid2
               + sign1 * sign2 * ScalGet loc_mat i j)%F in
            GmatSetValue Gmat gid1 gid2 value
          else Gmat
        else Gmat)
        Gmat (seq 0 loc_lda)
    else Gmat)
    Gmat (seq 0 loc_lda).

Fixpoint fill_global_full (mkey : GlobalMatrixKey)
    (locToGloMap : LocalToGlobalC0ContMap) (NumDirBCs : Z)
    (m_exp : list Expansion) (cnt : nat) (Gmat : GlobalNekMat)
  : result GlobalNekMat :=
  match m_exp with
  | [] => Ok Gmat
  | e :: rest =>
      _ ← (if 0 <? GetNvariableCoefficients mkey
           then ASSERTL0 false "method not set up for non-Dirichlet conditions"
           else Ok tt);
      let loc_mat := GetLocMatrix e (GetMatrixType mkey) in
      let Gmat := fill_element_full locToGloMap NumDirBCs loc_mat cnt Gmat in
      fill_global_full mkey locToGloMap NumDirBCs rest
                       (cnt + GetNcoeffs e)%nat Gmat
  end.

Definition GenGlobalMatrixFull (m_exp : list Expansion)
    (mkey : GlobalMatrixKey) (locToGloMap : LocalToGlobalC0ContMap)
  : result GlobalNekMat :=
  let totDofs := GetNumGlobalCoeffs locToGloMap in
  let NumDirBCs := GetNumGlobalDirBndCoeffs locToGloMap in
  let rows := to_unsigned (totDofs - NumDirBCs) in
  let cols := to_unsigned (totDofs - NumDirBCs) in
  let bwidth := GetFullSystemBandWidth locToGloMap in
  let Gmat := allocate_Gmat (GetMatrixType mkey) bwidth rows cols in
  fill_global_full mkey locToGloMap NumDirBCs m_exp 0%nat Gmat.

(** *** The assembly as the specification words it

    Every element [e] and local pair [(i,j)] contributes the term
    [sign[e][i] * sign[e][j] * M_e[i][j]] to the entry at
    [(map[e][i], map[e][j])]; the terms are listed in the order of the
    loops, and an entry is the sum of the terms that land on it. *)
Definition local_terms (d : Dims) (locToGloMap : LocalToGlobalC0ContMap)
    (loc_mat : DNekScalMat F) (cntdim1 cntdim2 : nat) : list (Z * Z * F) :=
  i ← seq 0 (GetRows loc_mat);
  j ← seq 0 (GetColumns loc_mat);
  let gs1 := gid_sign (assembleFirstDim d) locToGloMap (cntdim1 + i)%nat in
  let gs2 := gid_sign (assembleSecondDim d) locToGloMap (cntdim2 + j)%nat in
  [(gs1.1, gs2.1, (gs1.2 * gs2.2 * ScalGet loc_mat i j)%F)].

Fixpoint global_terms (mtype : MatrixType) (d : Dims)
    (locToGloMap : LocalToGlobalC0ContMap) (m_exp : list Expansion)
    (cntdim1 cntdim2 : nat) : list (Z * Z * F) :=
  match m_exp with
  | [] => []
  | e :: rest =>
      let loc_mat := GetLocMatrix e mtype in
      local_terms d locToGloMap loc_mat cntdim1 cntdim2
      ++ global_terms mtype d locToGloMap rest
           (cntdim1 + GetRows loc_mat)%nat (cntdim2 + GetColumns loc_mat)%nat
  end.

(** The same for the free system, whose indices are shifted down by the
    number of Dirichlet coefficients. *)
Definition local_terms_full (locToGloMap : LocalToGlobalC0ContMap)
    (NumDirBCs : Z) (loc_mat : DNekScalMat F) (cnt : nat)
  : list (Z * Z * F) :=
  i ← seq 0 (GetColumns loc_mat);
  j ← seq 0 (GetColumns loc_mat);
  [(GetLocalToGlobalMap locToGloMap (cnt + i)%nat - NumDirBCs,
    GetLocalToGlobalMap locToGloMap (cnt + j)%nat - NumDirBCs,
    (GetLocalToGlobalSign locToGloMap (cnt + i)%nat
     * GetLocalToGlobalSign locToGloMap (cnt + j)%nat
     * ScalGet loc_mat i j)%F)].

Fixpoint global_terms_full (mtype : MatrixType)
    (locToGloMap : LocalToGlobalC0ContMap) (NumDirBCs : Z)
    (m_exp : list Expansion) (cnt : nat) : list (Z * Z * F) :=
  match m_exp with
  | [] => []
  | e :: rest =>
      local_terms_full locToGloMap NumDirBCs (GetLocMatrix e mtype) cnt
      ++ global_terms_full mtype locToGloMap NumDirBCs rest
           (cnt + GetNcoeffs e)%nat
  end.

(** The values of the terms that land on [coord]. *)
Definition at_coord (terms : list (Z * Z * F)) (coord : Z * Z) : list F :=
  t ← terms; if decide (t.1 = coord) then [t.2] else [].

(** The terms both of whose indices belong to free unknowns. *)
Definition free_terms (terms : list (Z * Z * F)) : list (Z * Z * F) :=
  filter (fun t => 0 <= t.1.1 /\ 0 <= t.1.2) terms.

Definition sum_from (init : F) (vs : list F) : F := foldl fadd init vs.

Definition sum_of (vs : list F) : option F :=
  match vs with
  | [] => None
  | v :: vs => Some (sum_from v vs)
  end.

(** One more value on an entry that may still be absent. *)
Definition fill_step (o : option F) (v : F) : option F :=
  Some (match o with None => v | Some old => (old + v)%F end).

(** One scatter-add into the global matrix, without the Dirichlet test. *)
Definition add_term (Gmat : GlobalNekMat) (t : Z * Z * F) : GlobalNekMat :=
  if MatrixStorage_eqb (g_storage Gmat) eFULL || (t.1.1 <=? t.1.2) then
    GmatSetValue Gmat t.1.1 t.1.2 (GmatGetValue Gmat t.1.1 t.1.2 + t.2)%F
  else Gmat.

(** *** GenGlobalLinSysStaticCond *)

Record GlobalLinSys : Type := mkLinSys {
  SchurCompl : DNekScalBlkMat F;
  BinvD : DNekScalBlkMat F;
  Cblk : DNekScalBlkMat F;
  invD : DNekScalBlkMat F
}.

(** [dst->SetBlock(n, n, tmp_mat = src->GetBlock(i, j))] *)
Definition copy_block (src : DNekScalBlkMat F) (i j : nat)
    (dst : DNekScalBlkMat F) (n : nat) : DNekScalBlkMat F :=
  match GetBlock src i j with
  | Some b => SetBlock dst n n b
  | None => dst
  end.

Fixpoint static_cond_blocks (mkey : GlobalMatrixKey)
    (m_exp : list Expansion) (n : nat) (sys : GlobalLinSys)
  : result GlobalLinSys :=
  match m_exp with
  | [] => Ok sys
  | e :: rest =>
      _ ← (if 0 <? GetNvariableCoefficients mkey
           then ASSERTL0 false "method not set up for non-Dirichlet conditions"
           else Ok tt);
      loc_mat ← GetLocStaticCondMatrix e (GetMatrixType mkey);
      let sys :=
        mkLinSys (copy_block loc_mat 0 0 (SchurCompl sys) n)
                 (copy_block loc_mat 0 1 (BinvD sys) n)
                 (copy_block loc_mat 1 0 (Cblk sys) n)
                 (copy_block loc_mat 1 1 (invD sys) n) in
      static_cond_blocks mkey rest (S n) sys
  end.

Definition GenGlobalLinSysStaticCond (m_exp : list Expansion)
    (mkey : GlobalMatrixKey) (nbdry_size nint_size : list Z)
  : result GlobalLinSys :=
  let blkmatStorage := eDIAGONAL in
  let sys :=
    mkLinSys (AllocateBlk nbdry_size nbdry_size blkmatStorage)
             (AllocateBlk nbdry_size nint_size blkmatStorage)
             (AllocateBlk nint_size nbdry_size blkmatStorage)
             (AllocateBlk nint_size nint_size blkmatStorage) in
  static_cond_blocks mkey m_exp 0%nat sys.
End Assembly.
Arguments LocalToGlobalC0ContMap F : clear implicits.
Arguments Expansion F : clear implicits.
Arguments GlobalMatrix F : clear implicits.
Arguments GlobalNekMat F : clear implicits.
Arguments GlobalLinSys F : clear implicits.
End ExpList.

(** ** MultiRegions/ExpList.cpp: the storage of coefficients and values *)

Module ExpListStorage.
Section Storage.
Context {F : Type} `{Scalar F} `{ErrorUtil}.

(** [Vmath::Vcopy(n, x, 1, y, 1)]: [y[i] = x[i]] for [i < n].  Reading
    behind the end of [x] and writing behind the end of [y] are undefined
    in the source; here such a read gives zero and such a write is
    dropped. *)
Definition Vcopy (n : nat) (x y : list F) : list F :=
  foldl (fun y i => <[i := default fzero (x !! i)]> y) y (seq 0 n).

(** [Vmath::Vcopy(n, x, 1, &y[cnt], 1)] *)
Definition Vcopy_to (n : nat) (x y : list F) (cnt : nat) : list F :=
  take cnt y ++ Vcopy n x (drop cnt y).

(** An entry of [m_exp] with the arrays it owns: the coefficients
    behind [UpdateCoeffs()] and the values at the quadrature points
    behind [UpdatePhys()] and [GetPhys()]. *)
Record Element : Type := mkElement {
  expansion : ExpList.Expansion F;
  GetNumPoints0 : nat;
  UpdateCoeffs : list F;
  UpdatePhys : list F
}.

Definition GetNcoeffs (e : Element) : nat := ExpList.GetNcoeffs (expansion e).
Definition GetTotPoints (e : Element) : nat :=
  ExpList.GetTotPoints (expansion e).

Definition with_coeffs (e : Element) (c : list F) : Element :=
  mkElement (expansion e) (GetNumPoints0 e) c (UpdatePhys e).

Definition with_phys (e : Element) (p : list F) : Element :=
  mkElement (expansion e) (GetNumPoints0 e) (UpdateCoeffs e) p.

(** The members of [ExpList] that the copies read and write. *)
Record Storage : Type := mkStorage {
  m_exp : list Element;
  m_ncoeffs : nat;
  m_npoints : nat;
  m_coeffs : list F;
  m_phys : list F;
  m_coeff_offset : list nat;
  m_phys_offset : list nat
}.

Definition with_exp (s : Storage) (exps : list Element) : Storage :=
  mkStorage exps (m_ncoeffs s) (m_npoints s) (m_coeffs s) (m_phys s)
            (m_coeff_offset s) (m_phys_offset s).

Definition with_m_coeffs (s : Storage) (c : list F) : Storage :=
  mkStorage (m_exp s) (m_ncoeffs s) (m_npoints s) c (m_phys s)
            (m_coeff_offset s) (m_phys_offset s).

(** *** SetCoeffPhys *)

(** The loop variables: [i], the two offset arrays, [m_ncoeffs] and
    [m_npoints]. *)
Record Layout : Type := mkLayout {
  l_i : nat;
  l_coeff_offset : list nat;
  l_phys_offset : list nat;
  l_ncoeffs : nat;
  l_npoints : nat
}.

Definition layout_step (l : Layout) (e : Element) : Layout :=
  mkLayout (S (l_i l))
           (<[l_i l := l_ncoeffs l]> (l_coeff_offset l))
           (<[l_i l := l_npoints l]> (l_phys_offset l))
           (l_ncoeffs l + GetNcoeffs e)%nat
           (l_npoints l + GetNumPoints0 e)%nat.

(** The two fresh arrays of values are not filled by the source; they
    are taken to hold zeros. *)
Definition SetCoeffPhys (s : Storage) : Storage :=
  let size := length (m_exp s) in
  let l := foldl layout_step
                 (mkLayout 0 (replicate size 0%nat) (replicate size 0%nat)
                           0 0)
                 (m_exp s) in
  mkStorage (m_exp s) (l_ncoeffs l) (l_npoints l)
            (replicate (l_ncoeffs l) fzero) (replicate (l_npoints l) fzero)
            (l_coeff_offset l) (l_phys_offset l).

(** *** Copies between [m_coeffs] and the elements *)

Fixpoint put_coeffs (coeffs : list F) (cnt : nat) (exps : list Element)
  : list Element :=
  match exps with
  | [] => []
  | e :: rest =>
      let order_e := GetNcoeffs e in
      with_coeffs e (Vcopy order_e (drop cnt coeffs) (UpdateCoeffs e))
      :: put_coeffs coeffs (cnt + order_e)%nat rest
  end.

Definition PutCoeffsInToElmtExp (s : Storage) : Storage :=
  with_exp s (put_coeffs (m_coeffs s) 0 (m_exp s)).

(** The copies of one element look the element and its offset up; an
    index outside the list is undefined in the source, and here copies
    nothing. *)
Definition PutCoeffsInToElmtExp_eid (s : Storage) (eid : nat) : Storage :=
  match m_exp s !! eid, m_coeff_offset s !! eid with
  | Some e, Some cnt =>
      let order_e := GetNcoeffs e in
      with_exp s
        (<[eid := with_coeffs e (Vcopy order_e (drop cnt (m_coeffs s))
                                       (UpdateCoeffs e))]> (m_exp s))
  | _, _ => s
  end.

Fixpoint put_elmt_coeffs (exps : list Element) (cnt : nat) (coeffs : list F)
  : list F :=
  match exps with
  | [] => coeffs
  | e :: rest =>
      let order_e := GetNcoeffs e in
      put_elmt_coeffs rest (cnt + order_e)%nat
                      (Vcopy_to order_e (UpdateCoeffs e) coeffs cnt)
  end.

Definition PutElmtExpInToCoeffs (s : Storage) : Storage :=
  with_m_coeffs s (put_elmt_coeffs (m_exp s) 0 (m_coeffs s)).

Definition PutElmtExpInToCoeffs_eid (s : Storage) (eid : nat) : Storage :=
  match m_exp s !! eid, m_coeff_offset s !! eid with
  | Some e, Some cnt =>
      let order_e := GetNcoeffs e in
      with_m_coeffs s (Vcopy_to order_e (UpdateCoeffs e) (m_coeffs s) cnt)
  | _, _ => s
  end.

(** *** Copies of the values at the quadrature points *)

Fixpoint put_phys (inarray : list F) (cnt : nat) (exps : list Element)
  : list Element :=
  match exps with
  | [] => []
  | e :: rest =>
      let npoints_e := GetTotPoints e in
      with_phys e (Vcopy npoints_e (drop cnt inarray) (UpdatePhys e))
      :: put_phys inarray (cnt + npoints_e)%nat rest
  end.

Definition PutPhysInToElmtExp_in (s : Storage) (inarray : list F) : Storage :=
  with_exp s (put_phys inarray 0 (m_exp s)).

Definition PutPhysInToElmtExp (s : Storage) : Storage :=
  PutPhysInToElmtExp_in s (m_phys s).

Fixpoint put_elmt_phys (exps : list Element) (cnt : nat) (out : list F)
  : list F :=
  match exps with
  | [] => out
  | e :: rest =>
      let npoints_e := GetTotPoints e in
      put_elmt_phys rest (cnt + npoints_e)%nat
                    (Vcopy_to npoints_e (UpdatePhys e) out cnt)
  end.

Definition PutElmtExpInToPhys (s : Storage) (out : list F) : list F :=
  put_elmt_phys (m_exp s) 0 out.

Definition PutElmtExpInToPhys_eid (s : Storage) (eid : nat) (out : list F)
  : list F :=
  match m_exp s !! eid, m_phys_offset s !! eid with
  | Some e, Some cnt =>
      let npoints_e := GetTotPoints e in
      Vcopy_to npoints_e (UpdatePhys e) out cnt
  | _, _ => out
  end.

(** *** Field data *)

(** [fielddata.insert(fielddata.end(), &m_coeffs[offset],
    &m_coeffs[offset] + datalen)] for every listed element. *)
Definition AppendFieldData (s : Storage) (m_ElementIDs : list nat)
    (fielddata : list F) : list F :=
  foldl (fun fielddata eid =>
           match m_exp s !! eid, m_coeff_offset s !! eid with
           | Some e, Some offset =>
               let datalen := GetNcoeffs e in
               fielddata ++ take datalen (drop offset (m_coeffs s))
           | _, _ => fielddata
           end)
        fielddata m_ElementIDs.

(** The search loop with its [break]: the index of the first field of
    that name, or the number of fields. *)
Fixpoint field_index (m_Fields : list string) (field : string) : nat :=
  match m_Fields with
  | [] => 0
  | f :: rest =>
      if String.eqb f field then 0%nat else S (field_index rest field)
  end.

Definition extract_step (s : Storage) (fielddata : list F) (offset : nat)
    (acc : list F * nat) (eid : nat) : list F * nat :=
  let '(coeffs, cnt) := acc in
  match m_exp s !! eid, m_coeff_offset s !! eid with
  | Some e, Some off =>
      let datalen := GetNcoeffs e in
      (Vcopy_to datalen (drop (offset + cnt) fielddata) coeffs off,
       (cnt + datalen)%nat)
  | _, _ => acc
  end.

(** The quotient [a / b] of two sizes; the division by zero is
    undefined, and nothing is said of a program that makes it. *)
Definition divide (a b : nat) : option nat :=
  if (b =? 0)%nat then None else Some (a / b)%nat.

(** The first statement divides by the number of fields: with a
    definition without fields the call is undefined ([None]), before the
    search and the assertion are reached. *)
Definition ExtractDataToCoeffs (s : Storage) (m_Fields : list string)
    (m_ElementIDs : list nat) (fielddata : list F) (field : string)
  : option (result Storage) :=
  datalen ← divide (length fielddata) (length m_Fields);
  let i := field_index m_Fields field in
  let offset := (i * datalen)%nat in
  Some (_ ← ASSERTL0 (negb (i =? length m_Fields)%nat)
                     "Field not found in data file";
        Ok (with_m_coeffs s
              (foldl (extract_step s fielddata offset) (m_coeffs s, 0%nat)
                     m_ElementIDs).1)).

(** *** The layout in words

    The coefficients of element [i] follow those of the elements in
    front of it. *)
Definition coeffs_before (exps : list Element) (i : nat) : nat :=
  sum_list (GetNcoeffs <$> take i exps).

Definition points0_before (exps : list Element) (i : nat) : nat :=
  sum_list (GetNumPoints0 <$> take i exps).

Definition points_before (exps : list Element) (i : nat) : nat :=
  sum_list (GetTotPoints <$> take i exps).

(** Where the coefficients of element [eid] lie in [m_coeffs]: their
    offset and their number. *)
Definition coeff_slot (s : Storage) (eid : nat) : option (nat * nat) :=
  match m_exp s !! eid, m_coeff_offset s !! eid with
  | Some e, Some offset => Some (offset, GetNcoeffs e)
  | _, _ => None
  end.

(** The positions of [m_coeffs] that belong to element [eid]. *)
Definition in_slice (s : Storage) (eid p : nat) : Prop :=
  exists offset n,
    coeff_slot s eid = Some (offset, n) /\ (offset <= p < offset + n)%nat.

(** The coefficients of element [eid] as they stand in [m_coeffs]. *)
Definition element_data (s : Storage) (eid : nat) : list F :=
  match coeff_slot s eid with
  | Some (offset, n) => take n (drop offset (m_coeffs s))
  | None => []
  end.

(** The data of several fields over the same elements, one field after
    the other, as [AppendFieldData] leaves it when called for each field
    in turn. *)
Definition written_data (fields : list Storage) (m_ElementIDs : list nat)
  : list F :=
  foldl (fun fielddata s => AppendFieldData s m_ElementIDs fielddata)
        [] fields.

(** Two expansion lists over the same elements: every listed element
    has the same offset and number of coefficients in both, and its
    coefficients lie inside both arrays. *)
Definition conforms (m_ElementIDs : list nat) (s t : Storage) : Prop :=
  Forall (fun eid =>
            exists offset n,
              coeff_slot s eid = Some (offset, n)
              /\ coeff_slot t eid = Some (offset, n)
              /\ (offset + n <= length (m_coeffs s))%nat
              /\ (offset + n <= length (m_coeffs t))%nat)
         m_ElementIDs.
(** The element whose coefficients are the values of [e] at the
    quadrature points: the copies of values treat [e] as the copies of
    coefficients treat this element. *)
Definition values_as_coeffs (e : Element) : Element :=
  mkElement
    (ExpList.mkExpansion (GetTotPoints e) (GetNcoeffs e)
                         (ExpList.GetLocMatrix (expansion e))
                         (ExpList.GetLocStaticCondMatrix (expansion e)))
    (GetNumPoints0 e) (UpdatePhys e) (UpdateCoeffs e).
End Storage.
Arguments Element F : clear implicits.
Arguments Storage F : clear implicits.
End ExpListStorage.

(** ** MultiRegions/ExpList.cpp: the block matrix of the local matrices *)

Module ExpListBlock.
Section BlockMatrix.
Context {F : Type} `{Scalar F}.

(** A [GlobalMatrixKey] with its variable coefficients and constants;
    a constant behind the last is undefined in the source and reads as
    zero here. *)
Record GlobalMatrixKey : Type := mkGlobalMatrixKey {
  GetMatrixType : MatrixType;
  GetVariableCoefficient : list (list F);
  GetConstants : list F
}.

Definition GetNvariableCoefficients (gkey : GlobalMatrixKey) : Z :=
  Z.of_nat (length (GetVariableCoefficient gkey)).

Definition GetNconstants (gkey : GlobalMatrixKey) : Z :=
  Z.of_nat (length (GetConstants gkey)).

Definition GetConstant (gkey : GlobalMatrixKey) (i : Z) : F :=
  default fzero (GetConstants gkey !! Z.to_nat i).

(** The arguments of the [LocalRegions::MatrixKey] that is handed to
    the element. *)
Record MatrixKey : Type := mkMatrixKey {
  key_type : MatrixType;
  key_Constants : list F;
  key_varcoeffs : list (list F);
  key_matrixid : Z
}.

Record Element : Type := mkElement {
  GetNcoeffs : Z;
  GetTotPoints : Z;
  NumDGBndryCoeffs : Z;
  GetCoordim : Z;
  GetLocMatrix : MatrixKey -> DNekScalMat F
}.

(** The [switch] that fills [nrows] and [ncols]; the matrix types
    [eInvHybridDGHelmholtz] and [eHybridDGLamToU] are the other types
    6 and 7. *)
Definition sizes_of (f g : Element -> Z) (m_exp : list Element)
  : list Z * list Z :=
  ((fun e => to_unsigned (f e)) <$> m_exp,
   (fun e => to_unsigned (g e)) <$> m_exp).

Definition block_sizes (mtype : MatrixType) (m_exp : list Element)
  : result (list Z * list Z) :=
  match mtype with
  | eBwdTrans => Ok (sizes_of GetTotPoints GetNcoeffs m_exp)
  | eIProductWRTBase => Ok (sizes_of GetNcoeffs GetTotPoints m_exp)
  | eMass | eInvMass | eHelmholtz | eLaplacian | eOtherMatrixType 6 =>
      Ok (sizes_of GetNcoeffs GetNcoeffs m_exp)
  | eOtherMatrixType 7 => Ok (sizes_of GetNcoeffs NumDGBndryCoeffs m_exp)
  | _ => NEKERROR "Global Matrix creation not defined for this type of matrix"
  end.

(** The variables of the loop over the elements. *)
Record Loop : Type := mkLoop {
  cnt1 : Z;
  matrixid : Z;
  varcoeffs : list (list F);
  BlkMatrix : DNekScalBlkMat F
}.

(** [varcoeffs[j]] of an element: [totnq] zeros, overwritten with the
    values of the [j]-th coefficient from [cnt1] on. *)
Definition slice (cnt1 totnq : Z) (coefficient : list F) : list F :=
  ExpListStorage.Vcopy (Z.to_nat totnq) (drop (Z.to_nat cnt1) coefficient)
                       (replicate (Z.to_nat totnq) fzero).

(** [Array<OneD, NekDouble> Constants(Nconstants)] is allocated anew in
    every pass of the loop and is not initialised: [unset i j] is what
    its entry [j] holds in pass [i] before anything is written to it.
    Nothing is known of these values. *)
Variable unset : nat -> nat -> F.

Definition fresh_Constants (i : nat) (Nconstants : Z) : list F :=
  unset i <$> seq 0 (Z.to_nat Nconstants).

(** The array [Constants] of pass [i]: two entries are written when
    there are two constants or more, none otherwise; every other entry
    stays as it was allocated. *)
Definition Constants_of (gkey : GlobalMatrixKey) (i : nat) : list F :=
  let Nconstants := GetNconstants gkey in
  let Constants := fresh_Constants i Nconstants in
  if 2 <? Nconstants then
    <[1%nat := GetConstant gkey (Nconstants - 1)]>
      (<[0%nat := GetConstant gkey (Z.of_nat i)]> Constants)
  else if Nconstants =? 2 then
    <[1%nat := GetConstant gkey 1]> (<[0%nat := GetConstant gkey 0]> Constants)
  else Constants.

Definition block_step (gkey : GlobalMatrixKey) (st : Loop) (i : nat)
    (e : Element) : Loop :=
  let nvarcoeffs := GetNvariableCoefficients gkey in
  let totnq := GetCoordim e * GetTotPoints e in
  let st :=
    if 0 <? nvarcoeffs then
      mkLoop (cnt1 st + totnq) (matrixid st + 1)
             (slice (cnt1 st) totnq <$> GetVariableCoefficient gkey)
             (BlkMatrix st)
    else st in
  let matkey := mkMatrixKey (GetMatrixType gkey)
                            (Constants_of gkey i)
                            (varcoeffs st) (matrixid st) in
  let loc_mat := GetLocMatrix e matkey in
  mkLoop (cnt1 st) (matrixid st) (varcoeffs st)
         (SetBlock (BlkMatrix st) i i loc_mat).

Fixpoint block_loop (gkey : GlobalMatrixKey) (exps : list Element)
    (i : nat) (st : Loop) : Loop :=
  match exps with
  | [] => st
  | e :: rest => block_loop gkey rest (S i) (block_step gkey st i e)
  end.

Definition GenBlockMatrix (m_exp : list Element) (gkey : GlobalMatrixKey)
  : result (DNekScalBlkMat F) :=
  '(nrows, ncols) ← block_sizes (GetMatrixType gkey) m_exp;
  let blkmatStorage := eDIAGONAL in
  let nvarcoeffs := GetNvariableCoefficients gkey in
  let st := mkLoop 0 0 (replicate (Z.to_nat nvarcoeffs) [])
                   (AllocateBlk nrows ncols blkmatStorage) in
  Ok (BlkMatrix (block_loop gkey m_exp 0 st)).

(** *** The key of an element in words

    The points of the elements in front of element [i], counted with
    their coordinate dimension, and the key that element [i] gets. *)
Definition totnq_before (m_exp : list Element) (i : nat) : Z :=
  foldr Z.add 0 ((fun e => GetCoordim e * GetTotPoints e) <$> take i m_exp).

Definition key_of (gkey : GlobalMatrixKey) (m_exp : list Element)
    (i : nat) (e : Element) : MatrixKey :=
  mkMatrixKey (GetMatrixType gkey) (Constants_of gkey i)
              (slice (totnq_before m_exp i) (GetCoordim e * GetTotPoints e)
                 <$> GetVariableCoefficient gkey)
              (if 0 <? GetNvariableCoefficients gkey
               then Z.of_nat i + 1 else 0).
End BlockMatrix.
Arguments GlobalMatrixKey F : clear implicits.
Arguments MatrixKey F : clear implicits.
Arguments Element F : clear implicits.
Arguments Loop F : clear implicits.
End ExpListBlock.

(** ** MultiRegions/ExpList.cpp: the field definitions *)

Module ExpListFields.

(** The enumerators of [SpatialDomains::GeomShapeType] that
    [GetFieldDefinitions] names, as the integers it casts them to; the
    enumeration is not among the embedded sources. *)
Class GeomShapeType : Type := {
  eSegment : Z;
  eTriangle : Z;
  eQuadrilateral : Z;
  eTetrahedron : Z;
  eHexahedron : Z
}.

Section FieldDefinitions.
Context `{ErrorUtil} `{GeomShapeType}.

(** What [startenum], [endenum] and [shape] hold before they are set:
    the source does not initialise them. *)
Variables startenum0 endenum0 shape0 : Z.

(** What the routine asks of an entry of [m_exp]: its geometry, and the
    type and number of modes of its bases. *)
Record Element : Type := mkElement {
  GetShapeDimension : Z;
  GetGeomShapeType : Z;
  GetGlobalID : Z;
  GetNumBases : Z;
  GetBasisType : nat -> Z;
  GetNumModes : nat -> Z
}.

Record FieldDefinitions : Type := mkFieldDefinitions {
  m_ShapeType : Z;
  m_ElementIDs : list Z;
  m_Basis : list Z;
  m_UniOrder : bool;
  m_NumModes : list Z;
  m_Fields : list string
}.

(** The variables declared in the body of the loop over the shapes. *)
Record Locals : Type := mkLocals {
  shape : Z;
  elementIDs : list Z;
  basis : list Z;
  numModes : list Z;
  first : bool;
  UniOrder : bool
}.

(** The values of [j] in [for(j = 0; j < GetNumBases(); ++j)]. *)
Definition bases (e : Element) : list nat := seq 0 (Z.to_nat (GetNumBases e)).

(** The bodies of the two loops over the bases. *)
Definition push_basis (e : Element) (l : Locals) (j : nat) : Locals :=
  mkLocals (shape l) (elementIDs l)
           (basis l ++ [GetBasisType e j])
           (numModes l ++ [to_unsigned (GetNumModes e j)])
           (first l) (UniOrder l).

Definition check_modes (e : Element) (l : Locals) (j : nat) : Locals :=
  let numModes := numModes l ++ [to_unsigned (GetNumModes e j)] in
  mkLocals (shape l) (elementIDs l) (basis l) numModes (first l)
           (if negb (default 0 (numModes !! j)
                     =? to_unsigned (GetNumModes e j))
            then false else UniOrder l).

Definition first_element (s : Z) (e : Element) (l : Locals) : Locals :=
  let l := mkLocals s (elementIDs l) (basis l) (numModes l) (first l)
                    (UniOrder l) in
  let l := foldl (push_basis e) l (bases e) in
  mkLocals (shape l) (elementIDs l) (basis l) (numModes l) false (UniOrder l).

Definition later_element (e : Element) (l : Locals) : Locals :=
  foldl (check_modes e) l (bases e).

(** The body of the loop over the elements.  [basis[0]] of an empty
    vector is undefined in the source; here the comparison with it
    fails. *)
Definition element_step (s : Z) (l : Locals) (e : Element) : result Locals :=
  if GetGeomShapeType e =? s then
    let l := mkLocals (shape l)
                      (elementIDs l ++ [to_unsigned (GetGlobalID e)])
                      (basis l) (numModes l) (first l) (UniOrder l) in
    if first l then Ok (first_element s e l)
    else
      _ ← ASSERTL0 (bool_decide (basis l !! 0%nat = Some (GetBasisType e 0)))
            "Routine is not yet set up for multiple basese definitions";
      Ok (later_element e l)
  else Ok l.

Fixpoint elements_loop (s : Z) (exps : list Element) (l : Locals)
  : result Locals :=
  match exps with
  | [] => Ok l
  | e :: rest => l ← element_step s l e; elements_loop s rest l
  end.

Definition shape_step (m_exp : list Element)
    (returnval : list FieldDefinitions) (s : Z)
  : result (list FieldDefinitions) :=
  let fields := [] in
  l ← elements_loop s m_exp (mkLocals shape0 [] [] [] true true);
  if (0 <? length (elementIDs l))%nat then
    Ok (returnval
        ++ [mkFieldDefinitions (shape l) (elementIDs l) (basis l)
                               (UniOrder l) (numModes l) fields])
  else Ok returnval.

Fixpoint shapes_loop (m_exp : list Element) (shapes : list Z)
    (returnval : list FieldDefinitions) : result (list FieldDefinitions) :=
  match shapes with
  | [] => Ok returnval
  | s :: rest =>
      returnval ← shape_step m_exp returnval s;
      shapes_loop m_exp rest returnval
  end.

(** The [switch] on the dimension of the first element; there is no
    [default], and the first entry of an empty [m_exp] is undefined in
    the source: the two bounds then stay as they were. *)
Definition shape_range (m_exp : list Element) : Z * Z :=
  match GetShapeDimension <$> m_exp !! 0%nat with
  | Some 1 => (eSegment, eSegment)
  | Some 2 => (eTriangle, eQuadrilateral)
  | Some 3 => (eTetrahedron, eHexahedron)
  | _ => (startenum0, endenum0)
  end.

(** The values of [s] in [for(s = startenum; s <= endenum; ++s)]. *)
Definition shapes (m_exp : list Element) : list Z :=
  let '(startenum, endenum) := shape_range m_exp in
  seqZ startenum (endenum - startenum + 1).

Definition GetFieldDefinitions (m_exp : list Element)
  : result (list FieldDefinitions) :=
  shapes_loop m_exp (shapes m_exp) [].

(** *** The definitions in words *)

Definition of_shape (s : Z) (exps : list Element) : list Element :=
  filter (fun e => GetGeomShapeType e = s) exps.

Definition ids (exps : list Element) : list Z :=
  (fun e => to_unsigned (GetGlobalID e)) <$> exps.

Definition modes (e : Element) : list Z :=
  (fun j => to_unsigned (GetNumModes e j)) <$> bases e.

Definition basis_types (e : Element) : list Z := GetBasisType e <$> bases e.

(** A definition without its flag. *)
Definition contents (d : FieldDefinitions)
  : Z * list Z * list Z * list Z * list string :=
  (m_ShapeType d, m_ElementIDs d, m_Basis d, m_NumModes d, m_Fields d).

(** What is written for a shape: nothing when no element has it, and
    else the ids of its elements, the bases of the first of them and
    the numbers of modes of all of them. *)
Definition contents_of_shape (m_exp : list Element) (s : Z)
  : list (Z * list Z * list Z * list Z * list string) :=
  match of_shape s m_exp with
  | [] => []
  | e :: rest =>
      [(s, ids (e :: rest), basis_types e, (e :: rest) ≫= modes, [])]
  end.
End FieldDefinitions.
End ExpListFields.

(** ** MultiRegions/GlobalLinSysIterative.cpp *)

Module GlobalLinSysIterative.
Section ConjugateGradient.
Context {F : Type} `{Scalar F} `{ErrorUtil}.

(** What the solver takes from its surroundings: the two tolerances of
    [NekConstants], the communicator's sum reduction, the distributed
    dot product, the operator evaluation of the derived class, the map
    of unique degrees of freedom and the preconditioner. *)
Record Env : Type := mkEnv {
  kNekZeroTol : F;
  kNekIterativeTol : F;
  AllReduce : list F -> list F;
  Ddot2 : nat -> list F -> list F -> list Z -> F;
  v_DoMatrixMultiply : list F -> list F -> list F;
  m_map : list Z;
  m_preconditioner : option (DNekMat F);
  v_ComputePreconditioner : DNekMat F
}.

Variable env : Env.

(** *** Vectors

    A [NekVector] wrapper of [n] entries over an array is the list of
    its first [n] entries; the operands of every vector statement of the
    solver have [nNonDir] entries. *)
Definition vadd (x y : list F) : list F := zip_with fadd x y.
Definition vsub (x y : list F) : list F := zip_with fsub x y.
Definition smul (a : F) (x : list F) : list F := map (fmul a) x.

Definition at_ (x : list F) (i : nat) : F := default fzero (x !! i).

(** [M * x] *)
Definition matvec (M : DNekMat F) (x : list F) : list F :=
  map (fun i =>
         foldl (fun s k => (s + GetValue M i k * at_ x k)%F)
               fzero (seq 0 (m_cols M)))
      (seq 0 (m_rows M)).

(** [Vmath::Dot2(n, w, x, y)]: the entries whose flag in [y] is 1 are
    multiplied and summed, the others add zero. *)
Definition Dot2 (n : nat) (w x : list F) (y : list Z) : F :=
  foldl (fun sum i =>
           (sum + (if default 0 (y !! i) =? 1
                   then at_ w i * at_ x i else fzero))%F)
        fzero (seq 0 n).

(** Assignment through a wrapper: the values replace the leading entries
    of the wrapped array, the entries behind them stay. *)
Definition write (v a : list F) : list F := v ++ drop (length v) a.

(** [out = out + c] on the wrapper of [n] entries over the array [a]. *)
Definition accumulate (n : nat) (a c : list F) : list F :=
  write (vadd (take n a) c) a.

(** [Vmath::Zero(n, x, 1)] *)
Definition Zero (n : nat) (x : list F) : list F :=
  foldl (fun x i => <[i := fzero]> x) x (seq 0 n).

(** *** The state of the loop *)
Record State : Type := mkState {
  d_A : list F;
  p_A : list F;
  z_A : list F;
  r_A : list F;
  pOutput : list F;
  k : Z;
  matmuls : nat;
  reductions : nat
}.

Inductive outcome : Type :=
  | Returned (st : State)
  | Aborted (msg : string)
  | OutOfFuel.

(** What one pass of the loop body computes up to the convergence test. *)
Record Pass : Type := mkPass {
  ps_p_A : list F;
  ps_alpha : F;
  ps_pOutput : list F;
  ps_r_new : list F;
  ps_z_new : list F;
  ps_beta : F;
  ps_normsq : F
}.

Definition pass (M : DNekMat F) (nDir nNonDir : nat) (st : State) : Pass :=
  let p_A := v_DoMatrixMultiply env (d_A st) (p_A st) in
  let d := drop nDir (d_A st) in
  let p := drop nDir p_A in
  let map := drop nDir (m_map env) in
  let vExchange :=
    AllReduce env [Dot2 nNonDir d p map;
                   Dot2 nNonDir (z_A st) (r_A st) map;
                   Dot2 nNonDir (r_A st) (z_A st) map] in
  let alpha := (at_ vExchange 1 / at_ vExchange 0)%F in
  let pOutput := accumulate nNonDir (pOutput st) (smul alpha d) in
  let r_new := vsub (r_A st) (smul alpha p) in
  let z_new := matvec M r_new in
  let vExchange :=
    AllReduce env [(Dot2 nNonDir r_new z_new map / at_ vExchange 2)%F;
                   Dot2 nNonDir r_new r_new map;
                   at_ vExchange 2] in
  mkPass p_A alpha pOutput r_new z_new (at_ vExchange 0) (at_ vExchange 1).

Definition MAXITER : Z := 20000.

Definition converged (M : DNekMat F) (nDir nNonDir : nat) (st : State)
  : bool :=
  (fsqrt (ps_normsq (pass M nDir nNonDir st)) <? kNekIterativeTol env)%F.

(** The state in which the loop is left by [break]. *)
Definition leave (st : State) (ps : Pass) : State :=
  mkState (d_A st) (ps_p_A ps) (z_A st) (r_A st) (ps_pOutput ps)
          (k st) (S (matmuls st)) (2 + reductions st).

(** The state after the rest of the body: new direction, [r = r_new],
    [z = z_new], [k++]. *)
Definition advance (nDir : nat) (st : State) (ps : Pass) : State :=
  let d := vadd (ps_z_new ps) (smul (ps_beta ps) (drop nDir (d_A st))) in
  mkState (take nDir (d_A st) ++ write d (drop nDir (d_A st)))
          (ps_p_A ps) (ps_z_new ps) (ps_r_new ps) (ps_pOutput ps)
          (k st + 1) (S (matmuls st)) (2 + reductions st).

Fixpoint cg_loop (fuel : nat) (M : DNekMat F) (nDir nNonDir : nat)
    (st : State) : outcome :=
  match fuel with
  | O => OutOfFuel
  | S fuel =>
      let ps := pass M nDir nNonDir st in
      if (fsqrt (ps_normsq ps) <? kNekIterativeTol env)%F then
        Returned (leave st ps)
      else
        let st' := advance nDir st ps in
        match ASSERTL1 (k st' <? MAXITER)
                "Exceeded maximum number of iterations (20000)" with
        | Fatal msg => Aborted msg
        | Ok _ => cg_loop fuel M nDir nNonDir st'
        end
  end.

(** The state on entry to the loop. *)
Definition init_state (M : DNekMat F) (nGlobal nDir : Z)
    (pInput pOutput : list F) : State :=
  let nNonDir := Z.to_nat (nGlobal - nDir) in
  let d_A := replicate (Z.to_nat nGlobal) fzero in
  let p_A := replicate (Z.to_nat nGlobal) fzero in
  let r := take nNonDir pInput in
  let z := matvec M r in
  mkState (take (Z.to_nat nDir) d_A ++ write z (drop (Z.to_nat nDir) d_A))
          p_A z r pOutput 0 0 0.

Definition preconditioner : DNekMat F :=
  match m_preconditioner env with
  | Some M => M
  | None => v_ComputePreconditioner env
  end.

(** The test on the initial residual. *)
Definition zero_residual (nGlobal : Z) (pInput : list F) (nDir : Z) : bool :=
  let nNonDir := Z.to_nat (nGlobal - nDir) in
  let r_A := take nNonDir pInput in
  (Ddot2 env nNonDir r_A r_A (drop (Z.to_nat nDir) (m_map env))
   <? kNekZeroTol env)%F.

Definition v_SolveLinearSystem (fuel : nat) (nGlobal : Z)
    (pInput pOutput : list F) (nDir : Z) : outcome :=
  let M := preconditioner in
  let nNonDir := Z.to_nat (nGlobal - nDir) in
  let st := init_state M nGlobal nDir pInput pOutput in
  let vExchange0 :=
    Ddot2 env nNonDir (r_A st) (r_A st) (drop (Z.to_nat nDir) (m_map env)) in
  if (vExchange0 <? kNekZeroTol env)%F then
    Returned (mkState (d_A st) (p_A st) (z_A st) (r_A st)
                      (Zero nNonDir pOutput) (k st) (matmuls st)
                      (reductions st))
  else cg_loop fuel M (Z.to_nat nDir) nNonDir st.

(** *** The run of the loop, pass by pass *)

(** The state after [n] passes none of which left the loop. *)
Fixpoint state_after (n : nat) (M : DNekMat F) (nDir nNonDir : nat)
    (st : State) : State :=
  match n with
  | O => st
  | S n =>
      state_after n M nDir nNonDir
                  (advance nDir st (pass M nDir nNonDir st))
  end.

Definition set_out (o : list F) (st : State) : State :=
  mkState (d_A st) (p_A st) (z_A st) (r_A st) o
          (k st) (matmuls st) (reductions st).

(** The corrections [alpha * d] that the passes add to the output, up to
    the pass that leaves the loop. *)
Fixpoint corrections (fuel : nat) (M : DNekMat F) (nDir nNonDir : nat)
    (st : State) : list (list F) :=
  match fuel with
  | O => []
  | S fuel =>
      let ps := pass M nDir nNonDir st in
      let c := smul (ps_alpha ps) (drop nDir (d_A st)) in
      if (fsqrt (ps_normsq ps) <? kNekIterativeTol env)%F then [c]
      else c :: corrections fuel M nDir nNonDir (advance nDir st ps)
  end.

(** *** The calls of a run

    The body once more, with the calls of [v_DoMatrixMultiply] and of
    [vComm->AllReduce] recorded where the source makes them: a
    computation yields its value and the calls it made, in order. *)
Inductive Call : Type :=
  | DoMatrixMultiply_call
  | AllReduce_call.

Definition Traced (A : Type) : Type := A * list Call.

Definition unit_traced {A : Type} (a : A) : Traced A := (a, []).

Definition bind_traced {A B : Type} (x : Traced A) (f : A -> Traced B)
  : Traced B :=
  ((f x.1).1, x.2 ++ (f x.1).2).

Definition call_DoMatrixMultiply (pInput pOutput : list F)
  : Traced (list F) :=
  (v_DoMatrixMultiply env pInput pOutput, [DoMatrixMultiply_call]).

Definition call_AllReduce (vExchange : list F) : Traced (list F) :=
  (AllReduce env vExchange, [AllReduce_call]).

Definition pass_calls (M : DNekMat F) (nDir nNonDir : nat) (st : State)
  : Traced Pass :=
  bind_traced (call_DoMatrixMultiply (d_A st) (p_A st)) (fun p_A =>
  let d := drop nDir (d_A st) in
  let p := drop nDir p_A in
  let map := drop nDir (m_map env) in
  bind_traced
    (call_AllReduce [Dot2 nNonDir d p map;
                     Dot2 nNonDir (z_A st) (r_A st) map;
                     Dot2 nNonDir (r_A st) (z_A st) map]) (fun vExchange =>
  let alpha := (at_ vExchange 1 / at_ vExchange 0)%F in
  let pOutput := accumulate nNonDir (pOutput st) (smul alpha d) in
  let r_new := vsub (r_A st) (smul alpha p) in
  let z_new := matvec M r_new in
  bind_traced
    (call_AllReduce [(Dot2 nNonDir r_new z_new map / at_ vExchange 2)%F;
                     Dot2 nNonDir r_new r_new map;
                     at_ vExchange 2]) (fun vExchange =>
  unit_traced
    (mkPass p_A alpha pOutput r_new z_new
            (at_ vExchange 0) (at_ vExchange 1))))).

Fixpoint cg_loop_calls (fuel : nat) (M : DNekMat F) (nDir nNonDir : nat)
    (st : State) : Traced outcome :=
  match fuel with
  | O => unit_traced OutOfFuel
  | S fuel =>
      bind_traced (pass_calls M nDir nNonDir st) (fun ps =>
      if (fsqrt (ps_normsq ps) <? kNekIterativeTol env)%F then
        unit_traced (Returned (leave st ps))
      else
        let st' := advance nDir st ps in
        match ASSERTL1 (k st' <? MAXITER)
                "Exceeded maximum number of iterations (20000)" with
        | Fatal msg => unit_traced (Aborted msg)
        | Ok _ => cg_loop_calls fuel M nDir nNonDir st'
        end)
  end.

Definition v_SolveLinearSystem_calls (fuel : nat) (nGlobal : Z)
    (pInput pOutput : list F) (nDir : Z) : Traced outcome :=
  let M := preconditioner in
  let nNonDir := Z.to_nat (nGlobal - nDir) in
  let st := init_state M nGlobal nDir pInput pOutput in
  let vExchange0 :=
    Ddot2 env nNonDir (r_A st) (r_A st) (drop (Z.to_nat nDir) (m_map env)) in
  if (vExchange0 <? kNekZeroTol env)%F then
    unit_traced
      (Returned (mkState (d_A st) (p_A st) (z_A st) (r_A st)
                         (Zero nNonDir pOutput) (k st) (matmuls st)
                         (reductions st)))
  else cg_loop_calls fuel M (Z.to_nat nDir) nNonDir st.

(** The calls of one pass, and the number of calls of a kind. *)
Definition pass_trace : list Call :=
  [DoMatrixMultiply_call; AllReduce_call; AllReduce_call].

Definition same_call (a b : Call) : bool :=
  match a, b with
  | DoMatrixMultiply_call, DoMatrixMultiply_call => true
  | AllReduce_call, AllReduce_call => true
  | _, _ => false
  end.

Definition count_calls (c : Call) (calls : list Call) : nat :=
  length (List.filter (same_call c) calls).
End ConjugateGradient.
Arguments Env F : clear implicits.
Arguments State F : clear implicits.
Arguments outcome F : clear implicits.
End GlobalLinSysIterative.

(** ** IncNavierStokesSolver/EquationSystems/CoupledLinearNS.cpp *)

Module CoupledLinearNS.

(** What the block-size loop of [SetUpCoupledMatrix] reads: the number of
    elements and velocity components, the element offsets, and the
    coefficient counts of the velocity and pressure expansions. *)
Record Fields : Type := mkFields {
  nel : nat;
  nvel : Z;
  GetOffset_Elmt_Id : nat -> nat;
  NumBndryCoeffs : nat -> Z;
  GetNcoeffs : nat -> Z;
  pressure_GetNcoeffs : nat -> Z;
  m_singleMode : bool
}.

Definition nz_loc (HomogeneousMode : Z) (m_singleMode : bool) : Z :=
  if negb (HomogeneousMode =? 0) then 2
  else if m_singleMode then 2 else 1.

Record BlockSizes : Type := mkSizes {
  nsize_bndry : list Z;
  nsize_bndry_p1 : list Z;
  nsize_int : list Z;
  nsize_p : list Z;
  nsize_p_m1 : list Z
}.

Definition alloc_sizes (nel : nat) : BlockSizes :=
  let a := replicate nel 0 in mkSizes a a a a a.

Definition size_step (f : Fields) (nz_loc : Z) (s : BlockSizes) (n : nat)
  : BlockSizes :=
  let eid := GetOffset_Elmt_Id f n in
  let bndry := <[n := to_unsigned (nvel f * NumBndryCoeffs f eid * nz_loc)]>
                 (nsize_bndry s) in
  let bndry_p1 := <[n := to_unsigned (bndry !!! n + nz_loc)]>
                    (nsize_bndry_p1 s) in
  let int := <[n := to_unsigned (nvel f * GetNcoeffs f eid * nz_loc
                                 - bndry !!! n)]> (nsize_int s) in
  let p := <[n := to_unsigned (pressure_GetNcoeffs f eid * nz_loc)]>
             (nsize_p s) in
  let p_m1 := <[n := to_unsigned (p !!! n - nz_loc)]> (nsize_p_m1 s) in
  mkSizes bndry bndry_p1 int p p_m1.

Definition block_sizes (f : Fields) (HomogeneousMode : Z) : BlockSizes :=
  foldl (size_step f (nz_loc HomogeneousMode (m_singleMode f)))
        (alloc_sizes (nel f)) (seq 0 (nel f)).

(** The values stored for element [n] in [nsize_bndry] and [nsize_p]. *)
Definition bndry_of (f : Fields) (nz : Z) (n : nat) : Z :=
  to_unsigned (nvel f * NumBndryCoeffs f (GetOffset_Elmt_Id f n) * nz).
Definition p_of (f : Fields) (nz : Z) (n : nat) : Z :=
  to_unsigned (pressure_GetNcoeffs f (GetOffset_Elmt_Id f n) * nz).

End CoupledLinearNS.

(** ** CoupledLinearNS.cpp: the element matrices of the coupled system *)

Module CoupledBlocks.
Section Blocks.
Context {F : Type} `{Scalar F}.

(** The unary minus of doubles. *)
Variable fneg : F -> F.

(** The values of an [int] counter that starts at zero and runs while it
    is below [n]. *)
Definition range (n : Z) : list Z := seqZ 0 n.

(** [m(i,j)] and [m(i,j) = v] with the [int] indices of the loops. *)
Definition at_ix (m : DNekMat F) (i j : Z) : F :=
  GetValue m (Z.to_nat i) (Z.to_nat j).

Definition set_ix (m : DNekMat F) (i j : Z) (v : F) : DNekMat F :=
  SetValue m (Z.to_nat i) (Z.to_nat j) v.

(** [SubBlock(i,j)] of a block of the statically condensed matrix; a
    block that was never set is a null pointer in the source, and reads
    as an empty matrix here. *)
Definition SubBlock (CondMat : DNekScalBlkMat F) (r c : nat)
  : DNekScalMat F :=
  default (mkScal fone (mkMat 0 0 [])) (GetBlock CondMat r c).

Definition sub_ix (m : DNekScalMat F) (i j : Z) : F :=
  ScalGet m (Z.to_nat i) (Z.to_nat j).

(** *** The Stokes blocks

    Without advection terms the velocity blocks are filled from the
    statically condensed Helmholtz matrix of the element, once for every
    velocity component and plane. *)
Definition stokes_Ah (nvel nz_loc : Z) (m_kinvis : F)
    (CondMat : DNekScalBlkMat F) (Ah : DNekMat F) : DNekMat F :=
  foldl (fun Ah k =>
    let Sub := SubBlock CondMat 0 0 in
    let rows := Z.of_nat (GetRows Sub) in
    let cols := Z.of_nat (GetColumns Sub) in
    foldl (fun Ah i =>
      foldl (fun Ah j =>
        set_ix Ah (i + k * rows) (j + k * cols)
               (m_kinvis * sub_ix Sub i j)%F)
        Ah (range cols))
      Ah (range rows))
    Ah (range (nvel * nz_loc)).

Definition stokes_BC (nvel nz_loc : Z) (m_kinvis : F)
    (CondMat : DNekScalBlkMat F) (BC : DNekMat F * DNekMat F)
  : DNekMat F * DNekMat F :=
  foldl (fun BC k =>
    let Sub := SubBlock CondMat 0 1 in
    let Sub1 := SubBlock CondMat 1 0 in
    let rows := Z.of_nat (GetRows Sub) in
    let cols := Z.of_nat (GetColumns Sub) in
    foldl (fun BC i =>
      foldl (fun '(B, C) j =>
        (set_ix B (i + k * rows) (j + k * cols) (sub_ix Sub i j),
         set_ix C (i + k * rows) (j + k * cols)
                (m_kinvis * sub_ix Sub1 j i)%F))
        BC (range cols))
      BC (range rows))
    BC (range (nvel * nz_loc)).

Definition stokes_D (nvel nz_loc : Z) (m_kinvis : F)
    (CondMat : DNekScalBlkMat F) (D : DNekMat F) : DNekMat F :=
  foldl (fun D k =>
    let Sub := SubBlock CondMat 1 1 in
    let inv_kinvis := (fone / m_kinvis)%F in
    let rows := Z.of_nat (GetRows Sub) in
    let cols := Z.of_nat (GetColumns Sub) in
    foldl (fun D i =>
      foldl (fun D j =>
        set_ix D (i + k * rows) (j + k * cols)
               (inv_kinvis * sub_ix Sub i j)%F)
        D (range cols))
      D (range rows))
    D (range (nvel * nz_loc)).

(** The four velocity matrices of an element, allocated with zeros and
    filled: [k = nsize_bndry_p1[n]], [nbndry = nsize_bndry[n]] and
    [nint = nsize_int[n]]. *)
Record StokesBlocks : Type := mkStokes {
  sAh : DNekMat F;
  sB : DNekMat F;
  sC : DNekMat F;
  sD : DNekMat F
}.

Definition stokes_blocks (nvel nz_loc : Z) (m_kinvis : F)
    (CondMat : DNekScalBlkMat F) (k nbndry nint : Z) : StokesBlocks :=
  let Ah := AllocateSharedPtr (Z.to_nat k) (Z.to_nat k) in
  let B := AllocateSharedPtr (Z.to_nat nbndry) (Z.to_nat nint) in
  let C := AllocateSharedPtr (Z.to_nat nbndry) (Z.to_nat nint) in
  let D := AllocateSharedPtr (Z.to_nat nint) (Z.to_nat nint) in
  let Ah := stokes_Ah nvel nz_loc m_kinvis CondMat Ah in
  let '(B, C) := stokes_BC nvel nz_loc m_kinvis CondMat (B, C) in
  let D := stokes_D nvel nz_loc m_kinvis CondMat D in
  mkStokes Ah B C D.

(** *** The final set of matrices

    [nbp1] is [nsize_bndry_p1[n]], an [unsigned int]; an expression that
    mixes it with an [int] is reduced modulo [2^32]. *)
Definition copy_Dh (nz_loc psize : Z) (DintCinvDTint Dh : DNekMat F)
  : DNekMat F :=
  foldl (fun Dh n1 =>
    foldl (fun Dh i =>
      foldl (fun Dh n2 =>
        foldl (fun Dh j =>
          set_ix Dh (i + n1 * (psize - 1)) (j + n2 * (psize - 1))
                 (fneg (at_ix DintCinvDTint (i + 1 + n1 * psize)
                                            (j + 1 + n2 * psize))))
          Dh (range (psize - 1)))
        Dh (range nz_loc))
      Dh (range (psize - 1)))
    Dh (range nz_loc).

Definition copy_Ah_border (nz_loc psize nbp1 : Z)
    (BCinvDTint_m_DTbnd DintCinvBTtilde_m_Dbnd Ah : DNekMat F)
  : DNekMat F :=
  foldl (fun Ah n1 =>
    foldl (fun Ah i =>
      let Ah := set_ix Ah i (to_unsigned (nbp1 - nz_loc + n1))
                       (at_ix BCinvDTint_m_DTbnd i (n1 * psize)) in
      set_ix Ah (to_unsigned (nbp1 - nz_loc + n1)) i
             (at_ix DintCinvBTtilde_m_Dbnd (n1 * psize) i))
      Ah (range (to_unsigned (nbp1 - nz_loc))))
    Ah (range nz_loc).

Definition copy_Ah_corner (nz_loc psize nbp1 : Z)
    (DintCinvDTint Ah : DNekMat F) : DNekMat F :=
  foldl (fun Ah n1 =>
    foldl (fun Ah n2 =>
      set_ix Ah (to_unsigned (nbp1 - nz_loc + n1))
             (to_unsigned (nbp1 - nz_loc + n2))
             (fneg (at_ix DintCinvDTint (n1 * psize) (n2 * psize))))
      Ah (range nz_loc))
    Ah (range nz_loc).

Definition copy_BhCh (nz_loc psize nbp1 : Z)
    (DintCinvDTint BCinvDTint_m_DTbnd DintCinvBTtilde_m_Dbnd : DNekMat F)
    (BhCh : DNekMat F * DNekMat F) : DNekMat F * DNekMat F :=
  foldl (fun BhCh n1 =>
    foldl (fun BhCh j =>
      let '(Bh, Ch) :=
        foldl (fun '(Bh, Ch) i =>
          (set_ix Bh i (j + n1 * (psize - 1))
                  (at_ix BCinvDTint_m_DTbnd i (j + 1 + n1 * psize)),
           set_ix Ch (j + n1 * (psize - 1)) i
                  (at_ix DintCinvBTtilde_m_Dbnd (j + 1 + n1 * psize) i)))
          BhCh (range (to_unsigned (nbp1 - nz_loc))) in
      (set_ix Bh (to_unsigned (nbp1 - nz_loc + n1)) (j + n1 * (psize - 1))
              (fneg (at_ix DintCinvDTint (n1 * psize) (j + 1 + n1 * psize))),
       set_ix Ch (j + n1 * (psize - 1)) (to_unsigned (nbp1 - nz_loc + n1))
              (fneg (at_ix DintCinvDTint (j + 1 + n1 * psize) (n1 * psize)))))
      BhCh (range (psize - 1)))
    BhCh (range nz_loc).

(** The four matrices of the second level of static condensation. *)
Record FinalBlocks : Type := mkFinal {
  fAh : DNekMat F;
  fBh : DNekMat F;
  fCh : DNekMat F;
  fDh : DNekMat F
}.

(** "Set up final set of matrices" and "Copy matrices into final
    structures", for the element whose sizes are [nbp1 =
    nsize_bndry_p1[n]] and [pm1 = nsize_p_m1[n]]. *)
Definition final_blocks (nz_loc psize nbp1 pm1 : Z)
    (DintCinvDTint BCinvDTint_m_DTbnd DintCinvBTtilde_m_Dbnd Ah : DNekMat F)
  : FinalBlocks :=
  let Bh := AllocateSharedPtr (Z.to_nat nbp1) (Z.to_nat pm1) in
  let Ch := AllocateSharedPtr (Z.to_nat pm1) (Z.to_nat nbp1) in
  let Dh := AllocateSharedPtr (Z.to_nat pm1) (Z.to_nat pm1) in
  let Dh := copy_Dh nz_loc psize DintCinvDTint Dh in
  let Ah := copy_Ah_border nz_loc psize nbp1 BCinvDTint_m_DTbnd
                           DintCinvBTtilde_m_Dbnd Ah in
  let Ah := copy_Ah_corner nz_loc psize nbp1 DintCinvDTint Ah in
  let '(Bh, Ch) := copy_BhCh nz_loc psize nbp1 DintCinvDTint
                             BCinvDTint_m_DTbnd DintCinvBTtilde_m_Dbnd
                             (Bh, Ch) in
  mkFinal Ah Bh Ch Dh.

(** *** Reading the loops

    A matrix whose buffer holds [r] rows of [c] entries, and one
    assignment to an entry. *)
Definition rect (m : DNekMat F) (r c : nat) : Prop :=
  length (m_data m) = r /\ Forall (fun row => length row = c) (m_data m).

Definition assign (m : DNekMat F) (t : nat * nat * F) : DNekMat F :=
  SetValue m t.1.1 t.1.2 t.2.
End Blocks.
Arguments StokesBlocks F : clear implicits.
Arguments FinalBlocks F : clear implicits.
End CoupledBlocks.

(** ** CoupledLinearNS.cpp: the forcing and the solution of SolveLinearNS *)

Module CoupledSolve.
Section Packing.
Context {F : Type} `{Scalar F}.

(** What the two loops ask of an element of a velocity field: its
    boundary and interior maps, arrays of [unsigned int], and the
    offset of its coefficients. *)
Record Elmt : Type := mkElmt {
  GetBoundaryMap : list Z;
  GetInteriorMap : list Z;
  GetCoeff_Offset : Z
}.

(** The fields as the loops see them: [fields[m_velocity[0]]], which
    numbers the elements and gives the number of coefficients of a
    plane, its elements, and the elements of [fields[0]]. *)
Record Fields : Type := mkFields {
  nel : nat;
  nvel : Z;
  nplanecoeffs : Z;
  GetOffset_Elmt_Id : nat -> nat;
  velocity_GetExp : nat -> Elmt;
  fields0_GetExp : nat -> Elmt
}.

Definition range (n : Z) : list Z := seqZ 0 n.

(** [x[i]] with an [int] or [unsigned int] index; a read behind the
    end is undefined in the source and gives zero here. *)
Definition rd (x : list F) (i : Z) : F := default fzero (x !! Z.to_nat i).

Definition map_at (m : list Z) (k : Z) : Z := default 0 (m !! Z.to_nat k).

(** [forcing[j][i]] and [fields[j]->SetCoeff(i, val)] on the arrays of
    the velocity components. *)
Definition rd2 (x : list (list F)) (j i : Z) : F :=
  rd (default [] (x !! Z.to_nat j)) i.

Definition SetCoeff (coeffs : list (list F)) (j i : Z) (val : F)
  : list (list F) :=
  alter (<[Z.to_nat i := val]>) (Z.to_nat j) coeffs.

(** [n*nplanecoeffs + offset + map[k]]: the sum of an [int] and an
    [unsigned int]. *)
Definition coeff_index (f : Fields) (e : Elmt) (n mapk : Z) : Z :=
  to_unsigned (n * nplanecoeffs f + GetCoeff_Offset e + mapk).

(** *** Assemble f_bnd and f_int *)

Record Assembly : Type := mkAssembly {
  a_cnt : Z;
  a_cnt1 : Z;
  f_bnd : list F;
  f_int : list F
}.

Definition assemble_plane (f : Fields) (forcing : list (list F)) (e : Elmt)
    (j : Z) (a : Assembly) (n : Z) : Assembly :=
  let bmap := GetBoundaryMap e in
  let imap := GetInteriorMap e in
  let nbnd := Z.of_nat (length bmap) in
  let nint := Z.of_nat (length imap) in
  let cnt := a_cnt a in
  let cnt1 := a_cnt1 a in
  let f_bnd :=
    foldl (fun f_bnd k =>
             <[Z.to_nat (cnt + k) :=
                 rd2 forcing j (coeff_index f e n (map_at bmap k))]> f_bnd)
          (f_bnd a) (range nbnd) in
  let f_int :=
    foldl (fun f_int k =>
             <[Z.to_nat (cnt1 + k) :=
                 rd2 forcing j (coeff_index f e n (map_at imap k))]> f_int)
          (f_int a) (range nint) in
  mkAssembly (cnt + nbnd) (cnt1 + nint) f_bnd f_int.

Definition assemble (f : Fields) (nz_loc : Z) (forcing : list (list F))
    (f_bnd f_int : list F) : Assembly :=
  foldl (fun a i =>
           let eid := GetOffset_Elmt_Id f i in
           let e := velocity_GetExp f eid in
           foldl (fun a j =>
                    foldl (assemble_plane f forcing e j) a (range nz_loc))
                 a (range (nvel f)))
        (mkAssembly 0 0 f_bnd f_int) (seq 0 (nel f)).

(** *** Unpack solution from Bnd and F_int to v_coeffs *)

Record Unpacking : Type := mkUnpacking {
  u_cnt : Z;
  u_cnt1 : Z;
  v_coeffs : list (list F)
}.

Definition unpack_plane (f : Fields) (f_bnd f_int : list F) (e : Elmt)
    (j : Z) (u : Unpacking) (n : Z) : Unpacking :=
  let bmap := GetBoundaryMap e in
  let imap := GetInteriorMap e in
  let nbnd := Z.of_nat (length bmap) in
  let nint := Z.of_nat (length imap) in
  let cnt := u_cnt u in
  let cnt1 := u_cnt1 u in
  let coeffs :=
    foldl (fun coeffs k =>
             SetCoeff coeffs j (coeff_index f e n (map_at bmap k))
                      (rd f_bnd (cnt + k)))
          (v_coeffs u) (range nbnd) in
  let coeffs :=
    foldl (fun coeffs k =>
             SetCoeff coeffs j (coeff_index f e n (map_at imap k))
                      (rd f_int (cnt1 + k)))
          coeffs (range nint) in
  mkUnpacking (cnt + nbnd) (cnt1 + nint) coeffs.

Definition unpack (f : Fields) (nz_loc : Z) (f_bnd f_int : list F)
    (coeffs : list (list F)) : Unpacking :=
  foldl (fun u i =>
           let eid := GetOffset_Elmt_Id f i in
           let e := fields0_GetExp f eid in
           foldl (fun u j =>
                    foldl (unpack_plane f f_bnd f_int e j) u (range nz_loc))
                 u (range (nvel f)))
        (mkUnpacking 0 0 coeffs) (seq 0 (nel f)).

(** *** The coefficients the loops touch

    The passes of the innermost loops in the order of the source:
    element, velocity component and plane; the coefficients of a pass,
    boundary ones first; and the number of boundary and of interior
    values of all passes. *)
Definition passes_of (f : Fields) (nz_loc : Z) : list (Elmt * Z * Z) :=
  seq 0 (nel f) ≫= fun i =>
  range (nvel f) ≫= fun j =>
  range nz_loc ≫= fun n =>
  [(velocity_GetExp f (GetOffset_Elmt_Id f i), j, n)].

Definition touched_by (f : Fields) (t : Elmt * Z * Z) : list (Z * Z) :=
  ((fun mapk => (t.1.2, coeff_index f t.1.1 t.2 mapk))
     <$> GetBoundaryMap t.1.1)
  ++ ((fun mapk => (t.1.2, coeff_index f t.1.1 t.2 mapk))
        <$> GetInteriorMap t.1.1).

Definition touched (f : Fields) (nz_loc : Z) : list (Z * Z) :=
  passes_of f nz_loc ≫= touched_by f.

(** The values a pass gathers, and the copy of the forcing value of a
    coefficient to the coefficient itself. *)
Definition bnd_values (f : Fields) (forcing : list (list F))
    (t : Elmt * Z * Z) : list F :=
  (fun mapk => rd2 forcing t.1.2 (coeff_index f t.1.1 t.2 mapk))
    <$> GetBoundaryMap t.1.1.

Definition int_values (f : Fields) (forcing : list (list F))
    (t : Elmt * Z * Z) : list F :=
  (fun mapk => rd2 forcing t.1.2 (coeff_index f t.1.1 t.2 mapk))
    <$> GetInteriorMap t.1.1.

Definition copy_coeff (forcing coeffs : list (list F)) (w : Z * Z)
  : list (list F) :=
  SetCoeff coeffs w.1 w.2 (rd2 forcing w.1 w.2).

Definition bnd_count (T : list (Elmt * Z * Z)) : nat :=
  sum_list ((fun t => length (GetBoundaryMap t.1.1)) <$> T).

Definition int_count (T : list (Elmt * Z * Z)) : nat :=
  sum_list ((fun t => length (GetInteriorMap t.1.1)) <$> T).

Definition total_bnd (f : Fields) (nz_loc : Z) : nat :=
  bnd_count (passes_of f nz_loc).

Definition total_int (f : Fields) (nz_loc : Z) : nat :=
  int_count (passes_of f nz_loc).
End Packing.
Arguments Assembly F : clear implicits.
Arguments Unpacking F : clear implicits.
End CoupledSolve.

(** ** Concrete data

    Integers as scalars, and small inputs on which the statements below
    are exercised. *)

Module Examples.
#[global] Instance Z_scalar : Scalar Z := {|
  fzero := 0; fone := 1;
  fadd := Z.add; fsub := Z.sub; fmul := Z.mul; fdiv := Z.div;
  fsqrt := Z.sqrt; fltb := Z.ltb
|}.

(** Assertions that check, at every level. *)
Definition assert_or_fatal (condition : bool) (msg : string) : result unit :=
  if condition then Ok tt else Fatal msg.

#[global] Instance checking : ErrorUtil := {|
  ASSERTL0 := assert_or_fatal;
  ASSERTL1 := assert_or_fatal;
  ASSERTL2 := assert_or_fatal
|}.

(** Assertions of level one and above that expand to nothing. *)
Definition no_assert (condition : bool) (msg : string) : result unit := Ok tt.

Definition unchecked : ErrorUtil := {|
  ASSERTL0 := assert_or_fatal;
  ASSERTL1 := no_assert;
  ASSERTL2 := no_assert
|}.

#[global] Instance Z_exact : ExactArithmetic Z.
Proof. split; simpl; intros; lia. Qed.

(** Inversion of a one-by-one matrix whose entry is a unit. *)
Definition Invert1 (m : DNekMat Z) : result (DNekMat Z) :=
  match m_data m with
  | [[1]] => Ok m
  | [[-1]] => Ok m
  | _ => Fatal "singular matrix"
  end.

Definition no_Invert (m : DNekMat Z) : result (DNekMat Z) :=
  Fatal "Invert called".

(** A 3x3 local matrix with two boundary modes and one interior mode. *)
Definition loc3 : DNekScalMat Z :=
  mkScal 1 (mkMat 3 3 [[4; 1; 2]; [1; 5; 3]; [2; 3; 1]]).

Definition tet3 : TetExp.Exp Z :=
  TetExp.mkExp 3 2 [0; 1]%nat [2]%nat eDeformed (fun _ => loc3)
               (fun _ _ _ => mkMat 0 0 []).

(** A 2x2 local matrix, all of whose modes are boundary modes. *)
Definition loc2 : DNekScalMat Z :=
  mkScal 1 (mkMat 2 2 [[4; 1]; [1; 5]]).

Definition tet2 : TetExp.Exp Z :=
  TetExp.mkExp 2 2 [0; 1]%nat [] eDeformed (fun _ => loc2)
               (fun _ _ _ => mkMat 0 0 []).

(** Two segments on a line with three global coefficients, the first of
    which is a Dirichlet coefficient. *)
Definition l2g_line : ExpList.LocalToGlobalC0ContMap Z :=
  ExpList.mkL2G (fun idx => nth idx [0; 1; 1; 2] 0) (fun _ => 1) 3 1 1.

Definition seg : ExpList.Expansion Z :=
  ExpList.mkExpansion 2 3
    (fun _ => mkScal 1 (mkMat 2 2 [[2; -1]; [-1; 2]]))
    (fun _ => Fatal "no static condensation").

Definition line_exp : list (ExpList.Expansion Z) := [seg; seg].

Definition key_helm : ExpList.GlobalMatrixKey := ExpList.mkKey eHelmholtz 0.
Definition key_mass : ExpList.GlobalMatrixKey := ExpList.mkKey eMass 0.

(** A one-by-one system [1 * x = b] on a single process: the operator and
    the preconditioner are the identity, and a residual is taken for zero
    when its square is below one. *)
Definition cg_env : GlobalLinSysIterative.Env Z :=
  GlobalLinSysIterative.mkEnv 1 1 (fun v => v) GlobalLinSysIterative.Dot2
    (fun d p => d) [1] (Some (mkMat 1 1 [[1]])) (mkMat 1 1 [[1]]).

(** The same system with an operator that maps every direction to zero:
    the step length is a division by zero and the residual never moves. *)
Definition stalled_env : GlobalLinSysIterative.Env Z :=
  GlobalLinSysIterative.mkEnv 1 1 (fun v => v) GlobalLinSysIterative.Dot2
    (fun d p => p) [1] (Some (mkMat 1 1 [[1]])) (mkMat 1 1 [[1]]).

(** Two elements of a two-dimensional Stokes problem: 9 boundary modes
    out of 16 for each velocity component, 9 pressure modes. *)
Definition stokes2 : CoupledLinearNS.Fields :=
  CoupledLinearNS.mkFields 2 2 (fun n => n) (fun _ => 9) (fun _ => 16)
                           (fun _ => 9) false.

(** The line of two segments without a Dirichlet coefficient. *)
Definition l2g_free : ExpList.LocalToGlobalC0ContMap Z :=
  ExpList.mkL2G (fun idx => nth idx [0; 1; 1; 2] 0) (fun _ => 1) 3 0 1.

Definition key_varcoeff : ExpList.GlobalMatrixKey := ExpList.mkKey eMass 1.

(** The element [tet3] with a singular interior block. *)
Definition tet3_singular : TetExp.Exp Z :=
  TetExp.mkExp 3 2 [0; 1]%nat [2]%nat eDeformed
    (fun _ => mkScal 1 (mkMat 3 3 [[4; 1; 2]; [1; 5; 3]; [2; 3; 0]]))
    (fun _ _ _ => mkMat 0 0 []).

(** An element of regular geometry with Jacobian 6, whose blocks on the
    standard element are told apart by their single entry. *)
Definition tet_regular : TetExp.Exp Z :=
  TetExp.mkExp 3 2 [0; 1]%nat [2]%nat eRegular
    (fun _ => mkScal 6 (mkMat 3 3 [[4; 1; 2]; [1; 5; 3]; [2; 3; 1]]))
    (fun _ i j => mkMat 1 1 [[Z.of_nat (2 * i + j)]]).

(** An entry of an expansion list that is a tetrahedron: its statically
    condensed matrix is the one [TetExp] creates. *)
Definition tet_entry (e : TetExp.Exp Z) : ExpList.Expansion Z :=
  ExpList.mkExpansion 3 4 (TetExp.GetLocMatrix e)
                      (TetExp.CreateStaticCondMatrix Invert1 e).

(** Two elements with two and three coefficients, and the storage of
    two fields [u] and [v] and of an empty field over them. *)
Definition elmt (n : nat) (c : list Z) : ExpListStorage.Element Z :=
  ExpListStorage.mkElement
    (ExpList.mkExpansion n n (fun _ => mkScal 1 (mkMat 0 0 []))
                         (fun _ => Fatal "no static condensation"))
    n c [].

Definition store (coeffs : list Z) : ExpListStorage.Storage Z :=
  ExpListStorage.mkStorage [elmt 2 [10; 11]; elmt 3 [20; 21; 22]] 5 5
                           coeffs [0; 0; 0; 0; 0] [0; 2]%nat [0; 2]%nat.

Definition store_u : ExpListStorage.Storage Z := store [1; 2; 3; 4; 5].
Definition store_v : ExpListStorage.Storage Z := store [6; 7; 8; 9; 10].
Definition store_0 : ExpListStorage.Storage Z := store [0; 0; 0; 0; 0].

(** The statically condensed Helmholtz matrix of an element with two
    boundary modes and one interior mode, and the products that enter
    the final matrices of an element with one boundary unknown, two
    pressure modes and two planes. *)
Definition cond_blk : DNekScalBlkMat Z :=
  SetBlock
    (SetBlock
       (SetBlock
          (SetBlock (AllocateBlk [2; 1] [2; 1] eFULL) 0 0
                    (mkScal 1 (mkMat 2 2 [[4; 1]; [1; 5]])))
          0 1 (mkScal 1 (mkMat 2 1 [[2]; [3]])))
       1 0 (mkScal 1 (mkMat 1 2 [[6; 7]])))
    1 1 (mkScal 1 (mkMat 1 1 [[1]])).

Definition DintCinvDTint4 : DNekMat Z :=
  mkMat 4 4 [[11; 12; 13; 14]; [21; 22; 23; 24];
             [31; 32; 33; 34]; [41; 42; 43; 44]].

Definition BCinvDTint_m_DTbnd4 : DNekMat Z := mkMat 1 4 [[51; 52; 53; 54]].

Definition DintCinvBTtilde_m_Dbnd4 : DNekMat Z :=
  mkMat 4 1 [[61]; [62]; [63]; [64]].

Definition Ah3 : DNekMat Z := mkMat 3 3 [[7; 0; 0]; [0; 0; 0]; [0; 0; 0]].
(** Two elements with two and one quadrature points and their values. *)
Definition elmt_phys (n : nat) (p : list Z) : ExpListStorage.Element Z :=
  ExpListStorage.mkElement
    (ExpList.mkExpansion n n (fun _ => mkScal 1 (mkMat 0 0 []))
                         (fun _ => Fatal "no static condensation"))
    n [] p.

Definition store_phys : ExpListStorage.Storage Z :=
  ExpListStorage.mkStorage [elmt_phys 2 [5; 6]; elmt_phys 1 [7]] 0 0
                           [] [] [] [].
(** The integers of the shape types, and a mesh of two triangles with
    a quadrilateral between them. *)
Definition shape_values : ExpListFields.GeomShapeType := {|
  ExpListFields.eSegment := 1;
  ExpListFields.eTriangle := 2;
  ExpListFields.eQuadrilateral := 3;
  ExpListFields.eTetrahedron := 4;
  ExpListFields.eHexahedron := 7
|}.

Definition e_tri (id modes1 : Z) : ExpListFields.Element :=
  ExpListFields.mkElement 2 2 id 2 (fun j => nth j [1; 2] 0)
                          (fun j => nth j [3; modes1] 0).

Definition e_quad (id : Z) : ExpListFields.Element :=
  ExpListFields.mkElement 2 3 id 2 (fun _ => 5) (fun _ => 4).

Definition mesh : list ExpListFields.Element :=
  [e_tri 10 3; e_quad 11; e_tri 12 4].

Definition mesh_defs : list ExpListFields.FieldDefinitions :=
  [ExpListFields.mkFieldDefinitions 2 [10; 12] [1; 2] false [3; 3; 3; 4] [];
   ExpListFields.mkFieldDefinitions 3 [11] [5; 5] true [4; 4] []].
(** A regular tetrahedron with two points in every direction and
    Gauss-Radau points in the second and third; the integers [2] and
    [4] stand in for the two constants. *)
Definition tet_metric : TetExpMetric.Exp Z :=
  TetExpMetric.mkExp 2 2 2 [3] eRegular [1; 2] [3; 4] [5; 6] [0; -1] [0; -1]
                     TetExpMetric.eGaussRadauMAlpha1Beta0
                     TetExpMetric.eGaussRadauMAlpha2Beta0.
(** A regular tetrahedron with two modes: the matrices of its standard
    element, of which the three mixed second-derivative matrices are
    not symmetric. *)
Definition std_matrix (key : TetExpMatrix.MatrixKey Z) : DNekMat Z :=
  match TetExpMatrix.GetMatrixType key with
  | eMass => mkMat 2 2 [[2; 1]; [1; 2]]
  | eOtherMatrixType 0 => mkMat 2 2 [[4; 1]; [1; 3]]
  | eOtherMatrixType 1 => mkMat 2 2 [[0; 1]; [2; 3]]
  | eOtherMatrixType 2 => mkMat 2 2 [[1; 5]; [0; 2]]
  | eOtherMatrixType 3 => mkMat 2 2 [[6; 2]; [2; 6]]
  | eOtherMatrixType 4 => mkMat 2 2 [[1; 0]; [7; 1]]
  | eOtherMatrixType 5 => mkMat 2 2 [[3; 1]; [1; 3]]
  | _ => mkMat 0 0 []
  end.

Definition tet_std : TetExpMatrix.Exp Z :=
  TetExpMatrix.mkExp eRegular 2 (fun i => i + 1) (fun _ => mkMat 0 0 [])
                     std_matrix.
(** An element whose local matrix shows the key it was asked with: the
    first constant as its scale, and the number of the matrix in front
    of the first variable coefficient as its row. *)
Definition shown_key (key : ExpListBlock.MatrixKey Z) : DNekScalMat Z :=
  let row := ExpListBlock.key_matrixid key
             :: default [] (ExpListBlock.key_varcoeffs key !! 0%nat) in
  mkScal (default 0 (ExpListBlock.key_Constants key !! 0%nat))
         (mkMat 1 (length row) [row]).

(** An element whose local matrix shows the constants of its key. *)
Definition shown_constants (key : ExpListBlock.MatrixKey Z) : DNekScalMat Z :=
  let row := ExpListBlock.key_Constants key in
  mkScal 1 (mkMat 1 (length row) [row]).

Definition blk_exp : list (ExpListBlock.Element Z) :=
  [ExpListBlock.mkElement 2 2 2 1 shown_key;
   ExpListBlock.mkElement 3 2 3 2 shown_constants].

(** Some content of the arrays that are allocated and not set. *)
Definition stale (i j : nat) : Z := - (100 * Z.of_nat i + Z.of_nat j).

Definition blk_key : ExpListBlock.GlobalMatrixKey Z :=
  ExpListBlock.mkGlobalMatrixKey eMass [[1; 2; 3; 4; 5; 6]] [7; 8; 9].
(** Two elements, numbered in reverse, of two velocity fields with ten
    coefficients a plane; the forcing, and arrays of zeros. *)
Definition packed_elmt (eid : nat) : CoupledSolve.Elmt :=
  match eid with
  | 0%nat => CoupledSolve.mkElmt [0; 2] [1] 0
  | _ => CoupledSolve.mkElmt [0; 1] [2; 3] 3
  end.

Definition packed_fields : CoupledSolve.Fields :=
  CoupledSolve.mkFields 2 2 10 (fun i => (1 - i)%nat) packed_elmt packed_elmt.

Definition packed_forcing : list (list Z) :=
  [[100; 101; 102; 103; 104; 105; 106; 107; 108; 109];
   [200; 201; 202; 203; 204; 205; 206; 207; 208; 209]].

Definition zero_coeffs : list (list Z) := [replicate 10 0; replicate 10 0].
End Examples.

(** * Properties *)

(** ** Loops that fill a list or a matrix *)

Section FillLoops.
Context {A : Type}.

Lemma foldl_insert_lookup (g : nat -> A) (n : nat) :
  forall (a : nat) (l : list A) (k : nat),
    foldl (fun l j => <[j := g j]> l) l (seq a n) !! k
    = if decide ((a <= k < a + n)%nat /\ (k < length l)%nat)
      then Some (g k) else l !! k.
Proof.
  induction n as [|n IH]; intros a l k; simpl.
  - case_decide; [lia | done].
  - rewrite IH, length_insert.
    destruct (decide (a = k)) as [->|Hne].
    + repeat case_decide; try lia.
      * by rewrite list_lookup_insert_eq by lia.
      * by rewrite list_insert_ge by lia.
    + rewrite list_lookup_insert_ne by done.
      repeat case_decide; try done; lia.
Qed.

Lemma foldl_insert_tabulate (g : nat -> A) (n : nat) (l : list A) :
  length l = n ->
  foldl (fun l j => <[j := g j]> l) l (seq 0 n) = map g (seq 0 n).
Proof.
  intros Hlen. apply list_eq. intros k.
  rewrite foldl_insert_lookup, list_lookup_fmap.
  destruct (decide (k < n)%nat) as [Hk|Hk].
  - rewrite lookup_seq_lt by done. simpl.
    case_decide; [done | lia].
  - rewrite lookup_seq_ge by lia. simpl.
    case_decide; [lia |]. apply lookup_ge_None_2. lia.
Qed.

Lemma foldl_alter_lookup (h : nat -> A -> A) (n : nat) :
  forall (a : nat) (l : list A) (k : nat),
    foldl (fun l i => alter (h i) i l) l (seq a n) !! k
    = if decide (a <= k < a + n)%nat then h k <$> l !! k else l !! k.
Proof.
  induction n as [|n IH]; intros a l k; simpl.
  - case_decide; [lia | done].
  - rewrite IH.
    destruct (decide (a = k)) as [->|Hne].
    + rewrite list_lookup_alter_eq.
      repeat case_decide; try lia; done.
    + rewrite list_lookup_alter_ne by done.
      repeat case_decide; try done; lia.
Qed.
End FillLoops.

Section Gather.
Context {F : Type} `{Scalar F}.

Lemma SetValue_fold (i : nat) (g : nat -> F) (js : list nat) :
  forall m : DNekMat F,
    foldl (fun m j => SetValue m i j (g j)) m js
    = mkMat (m_rows m) (m_cols m)
        (alter (fun row => foldl (fun row j => <[j := g j]> row) row js)
               i (m_data m)).
Proof.
  induction js as [|j js IH]; intros [r c d]; simpl.
  - f_equal. symmetry. by apply list_alter_id.
  - rewrite IH. simpl. f_equal.
    apply list_eq. intros k.
    destruct (decide (i = k)) as [->|Hne].
    + rewrite !list_lookup_alter_eq. by destruct (d !! k).
    + by rewrite !list_lookup_alter_ne.
Qed.

(** A row-by-row fill of a freshly allocated matrix yields the matrix of
    the values written. *)
Lemma fill_rows_tabulate (f : nat -> nat -> F) (nr nc : nat) :
  foldl (fun m i => foldl (fun m j => SetValue m i j (f i j)) m (seq 0 nc))
        (AllocateSharedPtr nr nc) (seq 0 nr)
  = tabulate nr nc f.
Proof.
  assert (Hgen : forall (rows : list nat) (m : DNekMat F),
    foldl (fun m i => foldl (fun m j => SetValue m i j (f i j)) m (seq 0 nc))
          m rows
    = mkMat (m_rows m) (m_cols m)
        (foldl (fun d i =>
                  alter (fun row =>
                           foldl (fun row j => <[j := f i j]> row) row
                                 (seq 0 nc)) i d)
               (m_data m) rows)).
  { induction rows as [|i rows IH]; intros m; simpl.
    - by destruct m.
    - rewrite SetValue_fold, IH. done. }
  rewrite Hgen. unfold tabulate, AllocateSharedPtr. simpl. f_equal.
  apply list_eq. intros k.
  rewrite (foldl_alter_lookup
             (fun i row => foldl (fun row j => <[j := f i j]> row) row
                                 (seq 0 nc))).
  rewrite list_lookup_fmap.
  destruct (decide (k < nr)%nat) as [Hk|Hk].
  - rewrite lookup_seq_lt, lookup_replicate_2 by done. simpl.
    case_decide; [|lia].
    f_equal. apply foldl_insert_tabulate. by rewrite length_replicate.
  - rewrite lookup_seq_ge by lia. simpl.
    case_decide; [lia |].
    apply lookup_replicate_None. lia.
Qed.

Lemma foldl_pair {X Y I : Type} (f : X -> I -> X) (g : Y -> I -> Y)
    (l : list I) :
  forall (x : X) (y : Y),
    foldl (fun '(x, y) i => (f x i, g y i)) (x, y) l
    = (foldl f x l, foldl g y l).
Proof. induction l as [|i l IH]; intros x y; simpl; [done | apply IH]. Qed.

Lemma gather_AB_blocks (mat : DNekScalMat F) (bmap imap : list nat)
    (nb ni : nat) :
  TetExp.gather_AB mat bmap imap nb ni
    (AllocateSharedPtr nb nb, AllocateSharedPtr nb ni)
  = (TetExp.block_of mat bmap bmap nb nb, TetExp.block_of mat bmap imap nb ni).
Proof.
  unfold TetExp.gather_AB, TetExp.block_of, TetExp.fill_row.
  rewrite (foldl_pair
    (fun A i => foldl (fun m j => SetValue m i j
                 (ScalGet mat (bmap !!! i) (bmap !!! j))) A (seq 0 nb))
    (fun B i => foldl (fun m j => SetValue m i j
                 (ScalGet mat (bmap !!! i) (imap !!! j))) B (seq 0 ni))).
  f_equal; apply fill_rows_tabulate.
Qed.

Lemma gather_CD_blocks (mat : DNekScalMat F) (bmap imap : list nat)
    (nb ni : nat) :
  TetExp.gather_CD mat bmap imap nb ni
    (AllocateSharedPtr ni nb, AllocateSharedPtr ni ni)
  = (TetExp.block_of mat imap bmap ni nb, TetExp.block_of mat imap imap ni ni).
Proof.
  unfold TetExp.gather_CD, TetExp.block_of, TetExp.fill_row.
  rewrite (foldl_pair
    (fun C i => foldl (fun m j => SetValue m i j
                 (ScalGet mat (imap !!! i) (bmap !!! j))) C (seq 0 nb))
    (fun D i => foldl (fun m j => SetValue m i j
                 (ScalGet mat (imap !!! i) (imap !!! j))) D (seq 0 ni))).
  f_equal; apply fill_rows_tabulate.
Qed.
End Gather.

(** ** Static condensation of one element *)

Section StaticCondensation.
Context {F : Type} `{Scalar F} `{ErrorUtil}.
Variable Invert : DNekMat F -> result (DNekMat F).

Import TetExp.

(** What the [UseLocRegionsMatrix] block hands back, in terms of the
    gathered blocks. *)
Lemma CreateStaticCondMatrix_loc (e : Exp F) (mtype : MatrixType) :
  passes ASSERTL2 ->
  geom_is_set (GetGtype e) = true ->
  fst (select_branch e mtype) = UseLocRegionsMatrix ->
  let nbdry := NumBndryCoeffs e in
  let nint := m_ncoeffs e - nbdry in
  let nb := Z.to_nat nbdry in
  let ni := Z.to_nat nint in
  let mat := GetLocMatrix e mtype in
  let A := block_of mat (GetBoundaryMap e) (GetBoundaryMap e) nb nb in
  let B := block_of mat (GetBoundaryMap e) (GetInteriorMap e) nb ni in
  let C := block_of mat (GetInteriorMap e) (GetBoundaryMap e) ni nb in
  let D := block_of mat (GetInteriorMap e) (GetInteriorMap e) ni ni in
  CreateStaticCondMatrix Invert e mtype
  = '(A', B', D') ←
      (if nint =? 0 then Ok (A, B, D)
       else D' ← Invert D;
            Ok (msub A (mmul (mmul B D') C), mmul B D', D'));
    Ok (SetBlock (SetBlock (SetBlock (SetBlock (empty_blk nbdry nint)
          0 0 (mkScal fone A')) 0 1 (mkScal fone B'))
          1 0 (mkScal fone C)) 1 1 (mkScal (fone / fone)%F D')).
Proof.
  intros Hpass Hgeom Hbranch. simpl.
  unfold CreateStaticCondMatrix. rewrite Hgeom, Hpass. simpl.
  assert (Hsel : select_branch e mtype = (UseLocRegionsMatrix, fone)).
  { unfold select_branch in *.
    destruct mtype; try done; destruct (GetGtype e); done. }
  rewrite Hsel, gather_AB_blocks, gather_CD_blocks.
  destruct (m_ncoeffs e - NumBndryCoeffs e =? 0); [done |].
  by destruct (Invert _).
Qed.

(** C1. With a positive number of interior modes and an interior block
    that [Invert] inverts to [Dinv], the static condensation of an element
    returns the blocks (S, B·D⁻¹, C, D⁻¹): block (0,0) is A − (B·D⁻¹)·C,
    block (0,1) is B·D⁻¹, block (1,0) is C and block (1,1) is D⁻¹, where
    A, B, C, D are the local matrix gathered through the boundary and
    interior maps; these are the blocks of [condense].  The element is one
    whose geometry is set up and whose matrix is built from the local
    matrix (the block [UseLocRegionsMatrix]); the scale factors of the
    blocks are one, one, one and one over one. *)
Theorem C1_static_condensation_blocks (e : Exp F) (mtype : MatrixType)
    (Dinv : DNekMat F) :
  let nbdry := NumBndryCoeffs e in
  let nint := m_ncoeffs e - nbdry in
  let nb := Z.to_nat nbdry in
  let ni := Z.to_nat nint in
  let mat := GetLocMatrix e mtype in
  let A := block_of mat (GetBoundaryMap e) (GetBoundaryMap e) nb nb in
  let B := block_of mat (GetBoundaryMap e) (GetInteriorMap e) nb ni in
  let C := block_of mat (GetInteriorMap e) (GetBoundaryMap e) ni nb in
  let D := block_of mat (GetInteriorMap e) (GetInteriorMap e) ni ni in
  passes ASSERTL2 ->
  geom_is_set (GetGtype e) = true ->
  fst (select_branch e mtype) = UseLocRegionsMatrix ->
  0 < nint ->
  Invert D = Ok Dinv ->
  condense Invert mat (GetBoundaryMap e) (GetInteriorMap e) nb ni
    = Ok (mkCondensed (msub A (mmul (mmul B Dinv) C)) (mmul B Dinv) C Dinv)
  /\ exists blk,
       CreateStaticCondMatrix Invert e mtype = Ok blk
       /\ GetBlock blk 0 0
          = Some (mkScal fone (msub A (mmul (mmul B Dinv) C)))
       /\ GetBlock blk 0 1 = Some (mkScal fone (mmul B Dinv))
       /\ GetBlock blk 1 0 = Some (mkScal fone C)
       /\ GetBlock blk 1 1 = Some (mkScal (fone / fone)%F Dinv).
Proof.
  intros nbdry nint nb ni mat A B C D Hpass Hgeom Hbranch Hnint HD.
  split.
  - unfold condense. fold A B C D. by rewrite HD.
  - rewrite CreateStaticCondMatrix_loc by done.
    fold nbdry nint nb ni mat A B C D.
    destruct (Z.eqb_spec nint 0) as [?|_]; [lia |].
    rewrite HD. simpl.
    eexists; split; [reflexivity |].
    unfold GetBlock, SetBlock; simpl.
    repeat split; by simplify_map_eq.
Qed.

(** C9. With no interior mode the inversion and the Schur step are
    skipped: whatever [Invert] would do, also if it always fails, the call
    succeeds, block (0,0) is the gathered boundary block A itself, and the
    blocks B, C and D have no entry. *)
Theorem C9_no_interior_modes (e : Exp F) (mtype : MatrixType) :
  let nbdry := NumBndryCoeffs e in
  let nb := Z.to_nat nbdry in
  let mat := GetLocMatrix e mtype in
  let A := block_of mat (GetBoundaryMap e) (GetBoundaryMap e) nb nb in
  passes ASSERTL2 ->
  geom_is_set (GetGtype e) = true ->
  fst (select_branch e mtype) = UseLocRegionsMatrix ->
  m_ncoeffs e - nbdry = 0 ->
  exists blk,
    CreateStaticCondMatrix Invert e mtype = Ok blk
    /\ GetBlock blk 0 0 = Some (mkScal fone A)
    /\ GetBlock blk 0 1 = Some (mkScal fone (mkMat nb 0 (replicate nb [])))
    /\ GetBlock blk 1 0 = Some (mkScal fone (mkMat 0 nb []))
    /\ GetBlock blk 1 1 = Some (mkScal (fone / fone)%F (mkMat 0 0 [])).
Proof.
  intros nbdry nb mat A Hpass Hgeom Hbranch Hnint.
  rewrite CreateStaticCondMatrix_loc by done.
  fold nbdry. rewrite Hnint. simpl.
  eexists; split; [reflexivity |].
  unfold GetBlock, SetBlock; simpl.
  repeat split; simplify_map_eq; try done.
  do 2 f_equal. unfold block_of, tabulate. simpl. f_equal.
  clear. generalize 0%nat. induction (Z.to_nat _) as [|n IH]; intros a; simpl;
    [done | by rewrite IH].
Qed.
End StaticCondensation.

Lemma C1_static_condensation_blocks_witness :
  exists blk,
    TetExp.CreateStaticCondMatrix Examples.Invert1 Examples.tet3 eHelmholtz
      = Ok blk
    /\ GetBlock blk 0 0 = Some (mkScal 1 (mkMat 2 2 [[0; -5]; [-5; -4]])).
Proof.
  destruct (C1_static_condensation_blocks Examples.Invert1 Examples.tet3
              eHelmholtz (mkMat 1 1 [[1]]))
    as [_ (blk & Hblk & H00 & _)]; try (intros ?; reflexivity); try reflexivity.
  exists blk. split; [exact Hblk | exact H00].
Defined.

Lemma C9_no_interior_modes_witness :
  exists blk,
    TetExp.CreateStaticCondMatrix Examples.no_Invert Examples.tet2 eHelmholtz
      = Ok blk
    /\ GetBlock blk 0 0 = Some (mkScal 1 (mkMat 2 2 [[4; 1]; [1; 5]])).
Proof.
  destruct (C9_no_interior_modes Examples.no_Invert Examples.tet2 eHelmholtz)
    as (blk & Hblk & H00 & _); try (intros ?; reflexivity); try reflexivity.
  exists blk. split; [exact Hblk | exact H00].
Defined.

(** ** Block sizes of the coupled velocity-pressure system *)

Section CoupledSizes.
Import CoupledLinearNS.
Variable f : Fields.
Variable nz : Z.

Lemma size_step_inserts (s : BlockSizes) (n : nat) :
  (n < length (nsize_bndry s))%nat ->
  (n < length (nsize_p s))%nat ->
  size_step f nz s n
  = mkSizes
      (<[n := bndry_of f nz n]> (nsize_bndry s))
      (<[n := to_unsigned (bndry_of f nz n + nz)]> (nsize_bndry_p1 s))
      (<[n := to_unsigned (nvel f * GetNcoeffs f (GetOffset_Elmt_Id f n) * nz
                           - bndry_of f nz n)]> (nsize_int s))
      (<[n := p_of f nz n]> (nsize_p s))
      (<[n := to_unsigned (p_of f nz n - nz)]> (nsize_p_m1 s)).
Proof.
  intros Hb Hp. unfold size_step.
  by rewrite !list_lookup_total_insert_eq by done.
Qed.

Lemma size_steps_inserts (L : nat) (l : list nat) :
  Forall (fun n => (n < L)%nat) l ->
  forall s : BlockSizes,
    length (nsize_bndry s) = L -> length (nsize_p s) = L ->
    foldl (size_step f nz) s l
    = mkSizes
        (foldl (fun a n => <[n := bndry_of f nz n]> a) (nsize_bndry s) l)
        (foldl (fun a n => <[n := to_unsigned (bndry_of f nz n + nz)]> a)
               (nsize_bndry_p1 s) l)
        (foldl (fun a n =>
                  <[n := to_unsigned
                           (nvel f * GetNcoeffs f (GetOffset_Elmt_Id f n) * nz
                            - bndry_of f nz n)]> a) (nsize_int s) l)
        (foldl (fun a n => <[n := p_of f nz n]> a) (nsize_p s) l)
        (foldl (fun a n => <[n := to_unsigned (p_of f nz n - nz)]> a)
               (nsize_p_m1 s) l).
Proof.
  induction 1 as [|n l Hn _ IH]; intros s Hb Hp; simpl.
  - by destruct s.
  - rewrite size_step_inserts by lia.
    rewrite IH; simpl; by rewrite ?length_insert.
Qed.

Lemma to_unsigned_range (z : Z) : 0 <= to_unsigned z < 2 ^ 32.
Proof. unfold to_unsigned. apply Z.mod_pos_bound. lia. Qed.

Lemma to_unsigned_small (z : Z) : 0 <= z < 2 ^ 32 -> to_unsigned z = z.
Proof. unfold to_unsigned. intros. by apply Z.mod_small. Qed.
End CoupledSizes.

Section CoupledSizesClaim.
Import CoupledLinearNS.

Lemma block_sizes_lookup (f : Fields) (HomogeneousMode : Z) (n : nat) :
  let nz := nz_loc HomogeneousMode (m_singleMode f) in
  let s := block_sizes f HomogeneousMode in
  (n < nel f)%nat ->
  nsize_bndry s !!! n = bndry_of f nz n
  /\ nsize_bndry_p1 s !!! n = to_unsigned (bndry_of f nz n + nz)
  /\ nsize_p s !!! n = p_of f nz n
  /\ nsize_p_m1 s !!! n = to_unsigned (p_of f nz n - nz).
Proof.
  intros nz s Hn. subst s. unfold block_sizes. fold nz.
  rewrite (size_steps_inserts f nz (nel f)).
  - simpl. repeat split; apply list_lookup_total_correct;
      rewrite foldl_insert_lookup, length_replicate;
      (case_decide; [done | lia]).
  - apply list.Forall_forall. intros i Hi%elem_of_seq. lia.
  - simpl. apply length_replicate.
  - simpl. apply length_replicate.
Qed.

(** C7. In the coupled solver one pressure mode per local plane goes to
    the boundary block of every element: with [nz_loc] planes (one or
    two), the enlarged boundary size is [nsize_bndry[n] + nz_loc] and the
    remaining pressure size is [nsize_p[n] - nz_loc], both as
    [unsigned int] values; they are these integers whenever the sum stays
    below 2^32 and the element has at least [nz_loc] pressure
    coefficients. *)
Theorem C7_pressure_mode_in_boundary (f : Fields) (HomogeneousMode : Z)
    (n : nat) :
  let nz := nz_loc HomogeneousMode (m_singleMode f) in
  let s := block_sizes f HomogeneousMode in
  (n < nel f)%nat ->
  (nz = 1 \/ nz = 2)
  /\ nsize_bndry_p1 s !!! n = to_unsigned (nsize_bndry s !!! n + nz)
  /\ nsize_p_m1 s !!! n = to_unsigned (nsize_p s !!! n - nz)
  /\ (nsize_bndry s !!! n + nz < 2 ^ 32 ->
      nsize_bndry_p1 s !!! n = nsize_bndry s !!! n + nz)
  /\ (nz <= nsize_p s !!! n ->
      nsize_p_m1 s !!! n = nsize_p s !!! n - nz).
Proof.
  intros nz s Hn.
  destruct (block_sizes_lookup f HomogeneousMode n Hn)
    as (Hb & Hb1 & Hp & Hp1).
  fold nz s in Hb, Hb1, Hp, Hp1.
  assert (Hnz : nz = 1 \/ nz = 2).
  { subst nz. unfold nz_loc.
    destruct (negb _), (m_singleMode f); auto. }
  pose proof (to_unsigned_range
                (nvel f * NumBndryCoeffs f (GetOffset_Elmt_Id f n) * nz)) as Rb.
  pose proof (to_unsigned_range
                (pressure_GetNcoeffs f (GetOffset_Elmt_Id f n) * nz)) as Rp.
  fold (bndry_of f nz n) in Rb. fold (p_of f nz n) in Rp.
  rewrite Hb, Hb1, Hp, Hp1.
  repeat split; try done.
  - intros Hlt. apply to_unsigned_small. lia.
  - intros Hle. apply to_unsigned_small. lia.
Qed.
End CoupledSizesClaim.

Lemma C7_pressure_mode_in_boundary_witness :
  CoupledLinearNS.nsize_bndry_p1
    (CoupledLinearNS.block_sizes Examples.stokes2 0) !!! 1%nat = 19
  /\ CoupledLinearNS.nsize_p_m1
       (CoupledLinearNS.block_sizes Examples.stokes2 0) !!! 1%nat = 8.
Proof.
  destruct (C7_pressure_mode_in_boundary Examples.stokes2 0 1)
    as (_ & Hb & Hp & _); [simpl; lia |].
  split; [rewrite Hb | rewrite Hp]; reflexivity.
Defined.

(** ** Global assembly *)

Section FoldLemmas.
Context {A B C : Type}.

Lemma foldl_bind (f : A -> B -> A) (g : C -> list B) (l : list C) :
  forall a : A,
    foldl f a (l ≫= g) = foldl (fun a x => foldl f a (g x)) a l.
Proof.
  induction l as [|x l IH]; intros a; simpl; [done |].
  by rewrite foldl_app, IH.
Qed.

Lemma foldl_filter (f : A -> B -> A) (P : B -> Prop)
    `{!forall x, Decision (P x)} (l : list B) :
  forall a : A,
    foldl f a (filter P l)
    = foldl (fun a x => if decide (P x) then f a x else a) a l.
Proof.
  induction l as [|x l IH]; intros a; simpl; [done |].
  rewrite filter_cons. case_decide; simpl; by rewrite IH.
Qed.

Lemma foldl_ext_in (f g : A -> B -> A) (l : list B) :
  (forall a x, x ∈ l -> f a x = g a x) ->
  forall a : A, foldl f a l = foldl g a l.
Proof.
  induction l as [|x l IH]; intros Hfg a; simpl; [done |].
  rewrite Hfg by apply list_elem_of_here.
  apply IH. intros a' y Hy. apply Hfg. by apply list_elem_of_further.
Qed.

Lemma foldl_id (l : list B) (a : A) : foldl (fun a _ => a) a l = a.
Proof. induction l; simpl; done. Qed.
End FoldLemmas.

Section SparseAssembly.
Context {F : Type} `{Scalar F} `{ErrorUtil}.
Import ExpList.

Lemma fill_step_sum (vs : list F) :
  forall a : F, foldl fill_step (Some a) vs = Some (sum_from a vs).
Proof. induction vs as [|v vs IH]; intros a; simpl; [done | apply IH]. Qed.

Lemma fill_steps_sum_of (vs : list F) : foldl fill_step None vs = sum_of vs.
Proof. destruct vs as [|v vs]; simpl; [done | apply fill_step_sum]. Qed.

Lemma sparse_fill_lookup (sp : gmap (Z * Z) F) (k coord : Z * Z) (v : F) :
  sparse_fill sp k v !! coord
  = if decide (k = coord) then fill_step (sp !! coord) v else sp !! coord.
Proof.
  unfold sparse_fill, fill_step.
  case_decide as Hk.
  - subst k. destruct (sp !! coord); by rewrite lookup_insert_eq.
  - destruct (sp !! k); by rewrite lookup_insert_ne.
Qed.

Lemma scatter_lookup (terms : list (Z * Z * F)) (coord : Z * Z) :
  forall sp : gmap (Z * Z) F,
    foldl (fun sp t => sparse_fill sp t.1 t.2) sp terms !! coord
    = foldl fill_step (sp !! coord) (at_coord terms coord).
Proof.
  induction terms as [|t terms IH]; intros sp; simpl; [done |].
  rewrite foldl_app, IH, sparse_fill_lookup.
  by case_decide.
Qed.

Lemma fill_element_terms (d : Dims) (l2g : LocalToGlobalC0ContMap F)
    (loc_mat : DNekScalMat F) (c1 c2 : nat) (sp : gmap (Z * Z) F) :
  fill_element d l2g loc_mat c1 c2 sp
  = foldl (fun sp t => sparse_fill sp t.1 t.2) sp
          (local_terms d l2g loc_mat c1 c2).
Proof.
  unfold fill_element, local_terms.
  rewrite foldl_bind. revert sp. apply foldl_ext_in. intros sp i _.
  rewrite foldl_bind.
  destruct (gid_sign (assembleFirstDim d) l2g (c1 + i)) as [gid1 sign1].
  revert sp. apply foldl_ext_in. intros sp j _.
  by destruct (gid_sign (assembleSecondDim d) l2g (c2 + j)) as [gid2 sign2].
Qed.

Lemma fill_global_terms (mkey : GlobalMatrixKey) (d : Dims)
    (l2g : LocalToGlobalC0ContMap F) (m_exp : list (Expansion F)) :
  GetNvariableCoefficients mkey <= 0 ->
  forall (c1 c2 : nat) (sp : gmap (Z * Z) F),
    fill_global mkey d l2g m_exp c1 c2 sp
    = Ok (foldl (fun sp t => sparse_fill sp t.1 t.2) sp
                (global_terms (GetMatrixType mkey) d l2g m_exp c1 c2)).
Proof.
  intros Hnv.
  induction m_exp as [|e rest IH]; intros c1 c2 sp; simpl; [done |].
  destruct (Z.ltb_spec 0 (GetNvariableCoefficients mkey)); [lia |].
  simpl. by rewrite IH, foldl_app, fill_element_terms.
Qed.

(** When both dimensions are assembled the terms are those of the
    assembly formula, with the map and the signs of the two local indices. *)
Lemma local_terms_assembled (rows cols : Z) (l2g : LocalToGlobalC0ContMap F)
    (loc_mat : DNekScalMat F) (c1 c2 : nat) :
  local_terms (mkDims rows cols true true) l2g loc_mat c1 c2
  = i ← seq 0 (GetRows loc_mat);
    j ← seq 0 (GetColumns loc_mat);
    [(GetLocalToGlobalMap l2g (c1 + i)%nat,
      GetLocalToGlobalMap l2g (c2 + j)%nat,
      (GetLocalToGlobalSign l2g (c1 + i)%nat
       * GetLocalToGlobalSign l2g (c2 + j)%nat
       * ScalGet loc_mat i j)%F)].
Proof. reflexivity. Qed.

(** The entries of the sparse global matrix. *)
Lemma GenGlobalMatrix_entries (m_exp : list (Expansion F)) (m_npoints : Z)
    (mkey : GlobalMatrixKey) (l2g : LocalToGlobalC0ContMap F) (d : Dims) :
  GetNvariableCoefficients mkey <= 0 ->
  select_dims (GetMatrixType mkey) m_npoints l2g = Ok d ->
  exists G,
    GenGlobalMatrix m_exp m_npoints mkey l2g = Ok G
    /\ glob_rows G = d_rows d /\ glob_cols G = d_cols d
    /\ forall coord,
         spcoomat G !! coord
         = sum_of (at_coord (global_terms (GetMatrixType mkey) d l2g m_exp
                                          0 0) coord).
Proof.
  intros Hnv Hd. unfold GenGlobalMatrix. rewrite Hd. simpl.
  rewrite fill_global_terms by done. simpl.
  eexists; repeat split. intros coord. simpl.
  by rewrite scatter_lookup, lookup_empty, fill_steps_sum_of.
Qed.
End SparseAssembly.

Section FullAssembly.
Context {F : Type} `{Scalar F} `{ErrorUtil}.
Import ExpList.

Lemma add_term_shape (G : GlobalNekMat F) (t : Z * Z * F) :
  g_rows (add_term G t) = g_rows G
  /\ g_cols (add_term G t) = g_cols G
  /\ g_init (add_term G t) = g_init G
  /\ g_storage (add_term G t) = g_storage G.
Proof. unfold add_term. by destruct (_ || _). Qed.

Lemma add_terms_shape (terms : list (Z * Z * F)) :
  forall G : GlobalNekMat F,
    g_rows (foldl add_term G terms) = g_rows G
    /\ g_cols (foldl add_term G terms) = g_cols G
    /\ g_init (foldl add_term G terms) = g_init G
    /\ g_storage (foldl add_term G terms) = g_storage G.
Proof.
  induction terms as [|t terms IH]; intros G; simpl; [done |].
  destruct (IH (add_term G t)) as (-> & -> & -> & ->).
  apply add_term_shape.
Qed.

Lemma fill_element_full_terms (l2g : LocalToGlobalC0ContMap F) (ND : Z)
    (loc_mat : DNekScalMat F) (cnt : nat) (G : GlobalNekMat F) :
  fill_element_full l2g ND loc_mat cnt G
  = foldl add_term G (free_terms (local_terms_full l2g ND loc_mat cnt)).
Proof.
  unfold fill_element_full, free_terms, local_terms_full.
  rewrite foldl_filter, foldl_bind.
  revert G. apply foldl_ext_in. intros G i _.
  rewrite foldl_bind.
  destruct (Z.leb_spec 0 (GetLocalToGlobalMap l2g (cnt + i) - ND)) as [Hi|Hi].
  - revert G. apply foldl_ext_in. intros G j _. simpl.
    destruct (Z.leb_spec 0 (GetLocalToGlobalMap l2g (cnt + j) - ND)).
    + case_decide; [done | lia].
    + case_decide; [lia | done].
  - rewrite <- (foldl_id (seq 0 (GetColumns loc_mat)) G) at 1.
    revert G. apply foldl_ext_in. intros G j _. simpl.
    case_decide; [lia | done].
Qed.

Lemma fill_global_full_terms (mkey : GlobalMatrixKey)
    (l2g : LocalToGlobalC0ContMap F) (ND : Z) (m_exp : list (Expansion F)) :
  GetNvariableCoefficients mkey <= 0 ->
  forall (cnt : nat) (G : GlobalNekMat F),
    fill_global_full mkey l2g ND m_exp cnt G
    = Ok (foldl add_term G
            (free_terms
               (global_terms_full (GetMatrixType mkey) l2g ND m_exp cnt))).
Proof.
  intros Hnv.
  induction m_exp as [|e rest IH]; intros cnt G; simpl; [done |].
  destruct (Z.ltb_spec 0 (GetNvariableCoefficients mkey)); [lia |].
  simpl. rewrite IH, fill_element_full_terms.
  unfold free_terms. by rewrite filter_app, foldl_app.
Qed.

(** A slot in the upper triangle, or any slot of a full matrix, is its
    own representative. *)
Lemma slot_upper (st : MatrixStorage) (r c : Z) :
  st = eFULL \/ r <= c -> slot st r c = (r, c).
Proof.
  intros [-> | Hrc]; [done |].
  unfold slot. destruct st; try done;
    by destruct (Z.ltb_spec c r); [lia |].
Qed.

Lemma add_term_entry (G : GlobalNekMat F) (t : Z * Z * F) (r c : Z) :
  g_storage G = eFULL \/ r <= c ->
  GmatGetValue (add_term G t) r c
  = if decide (t.1 = (r, c)) then (GmatGetValue G r c + t.2)%F
    else GmatGetValue G r c.
Proof.
  intros Hrc. destruct t as [[g1 g2] v]. unfold add_term. simpl.
  destruct (MatrixStorage_eqb (g_storage G) eFULL || (g1 <=? g2)) eqn:Hadm.
  - assert (Hg : g_storage G = eFULL \/ g1 <= g2).
    { apply orb_true_iff in Hadm as [Hst | Hle].
      - left. by destruct (g_storage G).
      - right. lia. }
    unfold GmatGetValue at 1, GmatSetValue. simpl.
    rewrite (slot_upper _ r c Hrc), (slot_upper _ g1 g2 Hg).
    case_decide as Heq.
    + injection Heq as -> ->. by rewrite lookup_insert_eq.
    + rewrite lookup_insert_ne by done.
      unfold GmatGetValue. by rewrite (slot_upper _ r c Hrc).
  - case_decide as Heq; [| done].
    injection Heq as -> ->.
    apply orb_false_iff in Hadm as [Hst Hle].
    destruct Hrc as [Hfull | Hle']; [by rewrite Hfull in Hst | lia].
Qed.

Lemma add_terms_entry (terms : list (Z * Z * F)) (r c : Z) :
  forall G : GlobalNekMat F,
    g_storage G = eFULL \/ r <= c ->
    GmatGetValue (foldl add_term G terms) r c
    = sum_from (GmatGetValue G r c) (at_coord terms (r, c)).
Proof.
  induction terms as [|t terms IH]; intros G Hrc; simpl; [done |].
  unfold sum_from. rewrite foldl_app. fold (sum_from).
  rewrite IH.
  - rewrite add_term_entry by done. by case_decide.
  - destruct (add_term_shape G t) as (_ & _ & _ & ->). done.
Qed.

Lemma at_coord_cons (t : Z * Z * F) (terms : list (Z * Z * F))
    (coord : Z * Z) :
  at_coord (t :: terms) coord
  = (if decide (t.1 = coord) then [t.2] else []) ++ at_coord terms coord.
Proof. reflexivity. Qed.

Lemma at_coord_app (ts1 ts2 : list (Z * Z * F)) (coord : Z * Z) :
  at_coord (ts1 ++ ts2) coord = at_coord ts1 coord ++ at_coord ts2 coord.
Proof. unfold at_coord. apply bind_app. Qed.

Lemma at_coord_free (terms : list (Z * Z * F)) (r c : Z) :
  0 <= r -> 0 <= c ->
  at_coord (free_terms terms) (r, c) = at_coord terms (r, c).
Proof.
  intros Hr Hc. unfold free_terms.
  induction terms as [|t terms IH]; [done |].
  rewrite filter_cons, at_coord_cons. case_decide as Hfree.
  - by rewrite at_coord_cons, IH.
  - rewrite IH. case_decide as Heq; [| done].
    destruct t as [[g1 g2] v]. simpl in *. injection Heq as -> ->. lia.
Qed.

Lemma GenGlobalMatrixFull_terms (m_exp : list (Expansion F))
    (mkey : GlobalMatrixKey) (l2g : LocalToGlobalC0ContMap F) :
  GetNvariableCoefficients mkey <= 0 ->
  GenGlobalMatrixFull m_exp mkey l2g
  = Ok (foldl add_term
          (allocate_Gmat (GetMatrixType mkey) (GetFullSystemBandWidth l2g)
             (to_unsigned (GetNumGlobalCoeffs l2g
                           - GetNumGlobalDirBndCoeffs l2g))
             (to_unsigned (GetNumGlobalCoeffs l2g
                           - GetNumGlobalDirBndCoeffs l2g)))
          (free_terms
             (global_terms_full (GetMatrixType mkey) l2g
                (GetNumGlobalDirBndCoeffs l2g) m_exp 0))).
Proof.
  intros Hnv. unfold GenGlobalMatrixFull.
  by rewrite fill_global_full_terms.
Qed.

Lemma allocate_Gmat_shape (mtype : MatrixType) (bw rows cols : Z) :
  let G := allocate_Gmat (F := F) mtype bw rows cols in
  g_rows G = rows /\ g_cols G = cols /\ g_init G = fzero
  /\ g_storage G = select_storage mtype bw rows /\ g_data G = ∅.
Proof.
  unfold allocate_Gmat. by destruct (select_storage mtype bw rows).
Qed.

(** The entry of the free system at a slot of the upper triangle (any
    slot for a full matrix) is the sum, from zero, of the terms that land
    on it. *)
Lemma GenGlobalMatrixFull_entries (m_exp : list (Expansion F))
    (mkey : GlobalMatrixKey) (l2g : LocalToGlobalC0ContMap F) :
  GetNvariableCoefficients mkey <= 0 ->
  exists G,
    GenGlobalMatrixFull m_exp mkey l2g = Ok G
    /\ g_storage G
       = select_storage (GetMatrixType mkey) (GetFullSystemBandWidth l2g)
           (to_unsigned (GetNumGlobalCoeffs l2g
                         - GetNumGlobalDirBndCoeffs l2g))
    /\ forall r c,
         0 <= r -> 0 <= c -> g_storage G = eFULL \/ r <= c ->
         GmatGetValue G r c
         = sum_from fzero
             (at_coord (global_terms_full (GetMatrixType mkey) l2g
                          (GetNumGlobalDirBndCoeffs l2g) m_exp 0) (r, c)).
Proof.
  intros Hnv. rewrite GenGlobalMatrixFull_terms by done.
  eexists; split; [reflexivity |].
  match goal with |- context [foldl add_term ?G0 ?ts] =>
    destruct (add_terms_shape ts G0) as (_ & _ & _ & Hst)
  end.
  destruct (allocate_Gmat_shape (GetMatrixType mkey)
              (GetFullSystemBandWidth l2g)
              (to_unsigned (GetNumGlobalCoeffs l2g
                            - GetNumGlobalDirBndCoeffs l2g))
              (to_unsigned (GetNumGlobalCoeffs l2g
                            - GetNumGlobalDirBndCoeffs l2g)))
    as (_ & _ & Hi & Hs & Hd).
  split; [by rewrite Hst |].
  intros r c Hr Hc Hrc. rewrite Hst in Hrc.
  rewrite add_terms_entry by done.
  rewrite at_coord_free by done. f_equal.
  unfold GmatGetValue. by rewrite Hd, lookup_empty, Hi.
Qed.
End FullAssembly.

Section AssemblyClaims.
Context {F : Type} `{Scalar F} `{ErrorUtil}.
Import ExpList.

(** C2. Global assembly is a scatter-add.  For the sparse global matrix
    of a mass, Helmholtz or Laplacian operator, the entry at a pair of
    global indices is the sum of the terms
    [sign[e][i] * sign[e][j] * M_e[i][j]] of all elements [e] and local
    pairs [(i,j)] that the map sends to that pair, and it is absent when
    there is none; no contribution overwrites another.  The dense free
    system sums the same terms, from zero, on every slot it fills. *)
Theorem C2_scatter_add (m_exp : list (Expansion F)) (m_npoints : Z)
    (mkey : GlobalMatrixKey) (l2g : LocalToGlobalC0ContMap F) :
  let mtype := GetMatrixType mkey in
  let d := mkDims (GetNumGlobalCoeffs l2g) (GetNumGlobalCoeffs l2g)
                  true true in
  GetNvariableCoefficients mkey <= 0 ->
  mtype = eMass \/ mtype = eHelmholtz \/ mtype = eLaplacian ->
  (exists G,
     GenGlobalMatrix m_exp m_npoints mkey l2g = Ok G
     /\ forall r c,
          spcoomat G !! (r, c)
          = sum_of (at_coord (global_terms mtype d l2g m_exp 0 0) (r, c)))
  /\ (exists Gm,
        GenGlobalMatrixFull m_exp mkey l2g = Ok Gm
        /\ forall r c,
             0 <= r -> 0 <= c -> g_storage Gm = eFULL \/ r <= c ->
             GmatGetValue Gm r c
             = sum_from fzero
                 (at_coord (global_terms_full mtype l2g
                              (GetNumGlobalDirBndCoeffs l2g) m_exp 0)
                           (r, c))).
Proof.
  intros mtype d Hnv Hty. split.
  - destruct (GenGlobalMatrix_entries m_exp m_npoints mkey l2g d Hnv)
      as (G & HG & _ & _ & Hent).
    { fold mtype. by destruct Hty as [-> | [-> | ->]]. }
    exists G. split; [done |]. intros r c. apply Hent.
  - destruct (GenGlobalMatrixFull_entries m_exp mkey l2g Hnv)
      as (Gm & HGm & _ & Hent).
    exists Gm. split; [done |]. apply Hent.
Qed.

Lemma add_terms_keys (terms : list (Z * Z * F)) :
  Forall (fun t => 0 <= t.1.1 /\ 0 <= t.1.2) terms ->
  forall G : GlobalNekMat F,
    (forall i j, is_Some (g_data G !! (i, j)) -> 0 <= i /\ 0 <= j) ->
    forall i j,
      is_Some (g_data (foldl add_term G terms) !! (i, j)) -> 0 <= i /\ 0 <= j.
Proof.
  induction 1 as [|t terms [Ht1 Ht2] _ IH]; intros G HG; simpl; [done |].
  apply IH. intros i j. unfold add_term.
  destruct (_ || _); [| apply HG].
  unfold GmatSetValue. simpl.
  destruct (decide (slot (g_storage G) t.1.1 t.1.2 = (i, j))) as [Heq|Hne].
  - intros _. unfold slot in Heq.
    destruct (g_storage G); try destruct (_ <? _);
      injection Heq as <- <-; done.
  - rewrite lookup_insert_ne by done. apply HG.
Qed.

(** C4. The global coefficients below [nDirichlet] are the Dirichlet
    ones and are left out of the assembled system: the free system has
    [nGlobal - nDirichlet] rows and columns, it is assembled from the
    terms both of whose global indices are at least [nDirichlet], shifted
    down by [nDirichlet], and it stores no slot of a Dirichlet row or
    column. *)
Theorem C4_dirichlet_excluded (m_exp : list (Expansion F))
    (mkey : GlobalMatrixKey) (l2g : LocalToGlobalC0ContMap F) :
  let nGlobal := GetNumGlobalCoeffs l2g in
  let nDirichlet := GetNumGlobalDirBndCoeffs l2g in
  let terms :=
    global_terms_full (GetMatrixType mkey) l2g nDirichlet m_exp 0 in
  GetNvariableCoefficients mkey <= 0 ->
  0 <= nDirichlet <= nGlobal -> nGlobal < 2 ^ 32 ->
  exists G,
    GenGlobalMatrixFull m_exp mkey l2g = Ok G
    /\ g_rows G = nGlobal - nDirichlet
    /\ g_cols G = nGlobal - nDirichlet
    /\ G = foldl add_term
             (allocate_Gmat (GetMatrixType mkey) (GetFullSystemBandWidth l2g)
                (nGlobal - nDirichlet) (nGlobal - nDirichlet))
             (filter (fun t => 0 <= t.1.1 /\ 0 <= t.1.2) terms)
    /\ forall i j, is_Some (g_data G !! (i, j)) -> 0 <= i /\ 0 <= j.
Proof.
  intros nGlobal nDirichlet terms Hnv Hnd Hng.
  rewrite GenGlobalMatrixFull_terms by done.
  fold nGlobal nDirichlet terms.
  rewrite (to_unsigned_small (nGlobal - nDirichlet)) by lia.
  eexists; split; [reflexivity |].
  match goal with |- context [foldl add_term ?G0 ?ts] =>
    destruct (add_terms_shape ts G0) as (Hr & Hc & _ & _)
  end.
  destruct (allocate_Gmat_shape (GetMatrixType mkey)
              (GetFullSystemBandWidth l2g)
              (nGlobal - nDirichlet) (nGlobal - nDirichlet))
    as (Hr0 & Hc0 & _ & _ & Hd).
  split; [by rewrite Hr |].
  split; [by rewrite Hc |].
  split; [reflexivity |].
  apply add_terms_keys.
  - apply list.Forall_forall. intros t Ht.
    by apply list_elem_of_filter in Ht as [? _].
  - intros i j. rewrite Hd, lookup_empty. by intros [? ?].
Qed.

(** C6. For a Helmholtz or Laplacian operator the free system is stored
    banded symmetric exactly when [2 * (bandwidth + 1)] is less than its
    number of rows, and full symmetric otherwise; for every other
    operator it is stored as a full matrix. *)
Theorem C6_storage_policy (m_exp : list (Expansion F))
    (mkey : GlobalMatrixKey) (l2g : LocalToGlobalC0ContMap F) :
  let nGlobal := GetNumGlobalCoeffs l2g in
  let nDirichlet := GetNumGlobalDirBndCoeffs l2g in
  let bwidth := GetFullSystemBandWidth l2g in
  GetNvariableCoefficients mkey <= 0 ->
  0 <= nDirichlet <= nGlobal -> nGlobal < 2 ^ 32 ->
  0 <= bwidth -> 2 * (bwidth + 1) < 2 ^ 32 ->
  exists G,
    GenGlobalMatrixFull m_exp mkey l2g = Ok G
    /\ g_rows G = nGlobal - nDirichlet
    /\ g_storage G
       = match GetMatrixType mkey with
         | eHelmholtz | eLaplacian =>
             if 2 * (bwidth + 1) <? nGlobal - nDirichlet
             then ePOSITIVE_DEFINITE_SYMMETRIC_BANDED
             else ePOSITIVE_DEFINITE_SYMMETRIC
         | _ => eFULL
         end.
Proof.
  intros nGlobal nDirichlet bwidth Hnv Hnd Hng Hbw Hbw2.
  rewrite GenGlobalMatrixFull_terms by done.
  fold nGlobal nDirichlet bwidth.
  rewrite (to_unsigned_small (nGlobal - nDirichlet)) by lia.
  eexists; split; [reflexivity |].
  match goal with |- context [foldl add_term ?G0 ?ts] =>
    destruct (add_terms_shape ts G0) as (Hr & _ & _ & Hst)
  end.
  destruct (allocate_Gmat_shape (GetMatrixType mkey) bwidth
              (nGlobal - nDirichlet) (nGlobal - nDirichlet))
    as (Hr0 & _ & _ & Hst0 & _).
  split; [by rewrite Hr |].
  rewrite Hst, Hst0. unfold select_storage.
  by rewrite (to_unsigned_small (2 * (bwidth + 1))) by lia.
Qed.
End AssemblyClaims.

Lemma C2_scatter_add_witness :
  exists G,
    ExpList.GenGlobalMatrix Examples.line_exp 6 Examples.key_mass
                            Examples.l2g_line = Ok G
    /\ ExpList.spcoomat G !! (1, 1) = Some 4.
Proof.
  destruct (C2_scatter_add Examples.line_exp 6 Examples.key_mass
              Examples.l2g_line) as [(G & HG & Hent) _];
    [simpl; lia | by left |].
  exists G. split; [exact HG |]. rewrite Hent. reflexivity.
Defined.

Lemma C4_dirichlet_excluded_witness :
  exists G,
    ExpList.GenGlobalMatrixFull Examples.line_exp Examples.key_mass
                                Examples.l2g_line = Ok G
    /\ ExpList.g_rows G = 2 /\ ExpList.g_cols G = 2.
Proof.
  destruct (C4_dirichlet_excluded Examples.line_exp Examples.key_mass
              Examples.l2g_line) as (G & HG & Hr & Hc & _);
    [simpl; lia | simpl; lia | simpl; lia |].
  exists G. split; [exact HG |]. split; [exact Hr | exact Hc].
Defined.

Lemma C6_storage_policy_witness :
  exists G,
    ExpList.GenGlobalMatrixFull Examples.line_exp Examples.key_helm
                                Examples.l2g_line = Ok G
    /\ ExpList.g_storage G = ePOSITIVE_DEFINITE_SYMMETRIC.
Proof.
  destruct (C6_storage_policy Examples.line_exp Examples.key_helm
              Examples.l2g_line) as (G & HG & _ & Hst);
    [simpl; lia | simpl; lia | simpl; lia | simpl; lia | simpl; lia |].
  exists G. split; [exact HG | exact Hst].
Defined.

(** ** The block-diagonal static-condensation system *)

Section StaticCondSystem.
Context {F : Type} `{Scalar F} `{ErrorUtil}.
Import ExpList.

Lemma copy_block_other (src dst : DNekScalBlkMat F) (i j n m : nat) :
  m <> n ->
  GetBlock (copy_block src i j dst n) m m = GetBlock dst m m.
Proof.
  intros Hne. unfold copy_block.
  destruct (GetBlock src i j); [| done].
  unfold GetBlock, SetBlock. simpl.
  apply lookup_insert_ne. congruence.
Qed.

Lemma copy_block_same (src dst : DNekScalBlkMat F) (i j n : nat)
    (b : DNekScalMat F) :
  GetBlock src i j = Some b ->
  GetBlock (copy_block src i j dst n) n n = Some b.
Proof.
  intros Hb. unfold copy_block. rewrite Hb.
  unfold GetBlock, SetBlock. simpl. apply lookup_insert_eq.
Qed.

(** Elements from [n] on leave the diagonal blocks below [n] alone. *)
Lemma static_cond_blocks_below (mkey : GlobalMatrixKey)
    (m_exp : list (Expansion F)) :
  forall (n : nat) (sys sys' : GlobalLinSys F),
    static_cond_blocks mkey m_exp n sys = Ok sys' ->
    forall m, (m < n)%nat ->
      GetBlock (SchurCompl sys') m m = GetBlock (SchurCompl sys) m m
      /\ GetBlock (BinvD sys') m m = GetBlock (BinvD sys) m m
      /\ GetBlock (Cblk sys') m m = GetBlock (Cblk sys) m m
      /\ GetBlock (invD sys') m m = GetBlock (invD sys) m m.
Proof.
  induction m_exp as [|e rest IH]; intros n sys sys' Hrun m Hm; simpl in Hrun.
  - by injection Hrun as <-.
  - destruct (if 0 <? GetNvariableCoefficients mkey
              then ASSERTL0 false _ else Ok tt); [| done].
    simpl in Hrun.
    destruct (GetLocStaticCondMatrix e (GetMatrixType mkey)) as [loc|];
      [| done].
    simpl in Hrun.
    destruct (IH _ _ _ Hrun m ltac:(lia)) as (-> & -> & -> & ->).
    simpl. by rewrite !copy_block_other by lia.
Qed.

(** [GenGlobalLinSysStaticCond] puts the four blocks of the [n]-th
    element on the diagonal of the four global block matrices. *)
Lemma GenGlobalLinSysStaticCond_blocks (mkey : GlobalMatrixKey)
    (m_exp : list (Expansion F)) (nbdry_size nint_size : list Z)
    (sys : GlobalLinSys F) (n : nat) (e : Expansion F)
    (loc : DNekScalBlkMat F) (b00 b01 b10 b11 : DNekScalMat F) :
  GenGlobalLinSysStaticCond m_exp mkey nbdry_size nint_size = Ok sys ->
  m_exp !! n = Some e ->
  GetLocStaticCondMatrix e (GetMatrixType mkey) = Ok loc ->
  GetBlock loc 0 0 = Some b00 -> GetBlock loc 0 1 = Some b01 ->
  GetBlock loc 1 0 = Some b10 -> GetBlock loc 1 1 = Some b11 ->
  GetBlock (SchurCompl sys) n n = Some b00
  /\ GetBlock (BinvD sys) n n = Some b01
  /\ GetBlock (Cblk sys) n n = Some b10
  /\ GetBlock (invD sys) n n = Some b11.
Proof.
  unfold GenGlobalLinSysStaticCond.
  generalize (mkLinSys (F := F)
                (AllocateBlk nbdry_size nbdry_size eDIAGONAL)
                (AllocateBlk nbdry_size nint_size eDIAGONAL)
                (AllocateBlk nint_size nbdry_size eDIAGONAL)
                (AllocateBlk nint_size nint_size eDIAGONAL)).
  intros sys0 Hrun He Hloc H00 H01 H10 H11.
  assert (Hgen : forall (l : list (Expansion F)) (k0 i : nat) (s0 : GlobalLinSys F),
            static_cond_blocks mkey l k0 s0 = Ok sys ->
            l !! i = Some e ->
            GetBlock (SchurCompl sys) (k0 + i) (k0 + i) = Some b00
            /\ GetBlock (BinvD sys) (k0 + i) (k0 + i) = Some b01
            /\ GetBlock (Cblk sys) (k0 + i) (k0 + i) = Some b10
            /\ GetBlock (invD sys) (k0 + i) (k0 + i) = Some b11).
  { induction l as [|e' rest IH]; intros k0 i s0 Hl Hi; [done |].
    simpl in Hl.
    destruct (if 0 <? GetNvariableCoefficients mkey
              then ASSERTL0 false _ else Ok tt); [| done].
    simpl in Hl.
    destruct i as [|i].
    - injection Hi as ->. rewrite Hloc in Hl. simpl in Hl.
      rewrite Nat.add_0_r.
      destruct (static_cond_blocks_below _ _ _ _ _ Hl k0 ltac:(lia))
        as (-> & -> & -> & ->).
      simpl. repeat split; by apply copy_block_same.
    - destruct (GetLocStaticCondMatrix e' (GetMatrixType mkey)); [| done].
      simpl in Hl, Hi.
      replace (k0 + S i)%nat with (S k0 + i)%nat by lia.
      by apply (IH _ _ _ Hl). }
  apply (Hgen m_exp 0%nat n sys0 Hrun He).
Qed.
End StaticCondSystem.

(** ** Symmetry of the assembled system *)

Lemma bind_nil_r {X Y : Type} (l : list X) : (l ≫= fun _ => @nil Y) = [].
Proof. induction l; simpl; done. Qed.

Lemma bind_app_perm {X Y : Type} (g h : X -> list Y) (l : list X) :
  (l ≫= fun x => g x ++ h x) ≡ₚ (l ≫= g) ++ (l ≫= h).
Proof.
  induction l as [|x l IH]; simpl; [done |].
  rewrite IH. solve_Permutation.
Qed.

(** Two nested loops may be exchanged, up to the order of what they
    produce. *)
Lemma bind_swap_perm {X Y Z : Type} (f : X -> Y -> list Z)
    (l1 : list X) (l2 : list Y) :
  (l1 ≫= fun i => l2 ≫= fun j => f i j)
  ≡ₚ (l2 ≫= fun j => l1 ≫= fun i => f i j).
Proof.
  induction l1 as [|a l1 IH].
  - change (@nil Z ≡ₚ l2 ≫= fun _ => []). by rewrite bind_nil_r.
  - change ((l2 ≫= f a) ++ (l1 ≫= fun i => l2 ≫= fun j => f i j)
            ≡ₚ l2 ≫= fun j => f a j ++ (l1 ≫= fun i => f i j)).
    by rewrite IH, bind_app_perm.
Qed.

Lemma bind_bind {X Y Z : Type} (f : X -> list Y) (g : Y -> list Z)
    (l : list X) :
  (l ≫= f) ≫= g = l ≫= fun x => f x ≫= g.
Proof.
  induction l as [|x l IH]; [done |].
  change ((f x ++ (l ≫= f)) ≫= g
          = (f x ≫= g) ++ (l ≫= fun x => f x ≫= g)).
  by rewrite bind_app, IH.
Qed.

Section Symmetry.
Context {F : Type} `{ExactArithmetic F} `{ErrorUtil}.
Import ExpList.

Lemma sum_from_perm (l1 l2 : list F) :
  l1 ≡ₚ l2 -> forall a : F, sum_from a l1 = sum_from a l2.
Proof.
  unfold sum_from.
  induction 1 as [|x l1 l2 _ IH|x y l|l1 l2 l3 _ IH1 _ IH2]; intros a; simpl.
  - done.
  - apply IH.
  - f_equal. rewrite !fadd_assoc. f_equal. apply fadd_comm.
  - by rewrite IH1.
Qed.

Lemma at_coord_local (l2g : LocalToGlobalC0ContMap F) (ND : Z)
    (loc_mat : DNekScalMat F) (cnt : nat) (coord : Z * Z) :
  at_coord (local_terms_full l2g ND loc_mat cnt) coord
  = seq 0 (GetColumns loc_mat) ≫= fun i =>
    seq 0 (GetColumns loc_mat) ≫= fun j =>
      if decide ((GetLocalToGlobalMap l2g (cnt + i)%nat - ND,
                  GetLocalToGlobalMap l2g (cnt + j)%nat - ND) = coord)
      then [(GetLocalToGlobalSign l2g (cnt + i)%nat
             * GetLocalToGlobalSign l2g (cnt + j)%nat
             * ScalGet loc_mat i j)%F]
      else [].
Proof.
  unfold at_coord, local_terms_full.
  rewrite bind_bind. apply list_bind_ext; [| done]. intros i.
  rewrite bind_bind. apply list_bind_ext; [| done]. intros j.
  simpl. by rewrite app_nil_r.
Qed.

Lemma at_coord_local_swap (l2g : LocalToGlobalC0ContMap F) (ND : Z)
    (loc_mat : DNekScalMat F) (cnt : nat) (r c : Z) :
  (forall i j, ScalGet loc_mat i j = ScalGet loc_mat j i) ->
  at_coord (local_terms_full l2g ND loc_mat cnt) (r, c)
  ≡ₚ at_coord (local_terms_full l2g ND loc_mat cnt) (c, r).
Proof.
  intros Hsym. rewrite !at_coord_local.
  rewrite (bind_swap_perm
    (fun i j =>
       if decide ((GetLocalToGlobalMap l2g (cnt + i)%nat - ND,
                   GetLocalToGlobalMap l2g (cnt + j)%nat - ND) = (c, r))
       then [(GetLocalToGlobalSign l2g (cnt + i)%nat
              * GetLocalToGlobalSign l2g (cnt + j)%nat
              * ScalGet loc_mat i j)%F]
       else [])).
  apply eq_subrelation; [apply _ |].
  apply list_bind_ext; [| done]. intros i.
  apply list_bind_ext; [| done]. intros j.
  repeat case_decide; try done.
  - do 2 f_equal; [apply fmul_comm | apply Hsym].
  - simplify_eq.
  - simplify_eq.
Qed.

Lemma at_coord_global_swap (mtype : MatrixType)
    (l2g : LocalToGlobalC0ContMap F) (ND : Z) (m_exp : list (Expansion F))
    (r c : Z) :
  Forall (fun e => forall i j,
            ScalGet (GetLocMatrix e mtype) i j
            = ScalGet (GetLocMatrix e mtype) j i) m_exp ->
  forall cnt,
    at_coord (global_terms_full mtype l2g ND m_exp cnt) (r, c)
    ≡ₚ at_coord (global_terms_full mtype l2g ND m_exp cnt) (c, r).
Proof.
  induction 1 as [|e rest He _ IH]; intros cnt; simpl; [done |].
  rewrite !at_coord_app.
  by rewrite IH, (at_coord_local_swap _ _ _ _ r c He).
Qed.

Lemma symmetric_local_entries (m_exp : list (Expansion F))
    (mkey : GlobalMatrixKey) (l2g : LocalToGlobalC0ContMap F) (r c : Z) :
  Forall (fun e => forall i j,
            ScalGet (GetLocMatrix e (GetMatrixType mkey)) i j
            = ScalGet (GetLocMatrix e (GetMatrixType mkey)) j i) m_exp ->
  sum_from fzero
    (at_coord (global_terms_full (GetMatrixType mkey) l2g
                 (GetNumGlobalDirBndCoeffs l2g) m_exp 0) (r, c))
  = sum_from fzero
      (at_coord (global_terms_full (GetMatrixType mkey) l2g
                   (GetNumGlobalDirBndCoeffs l2g) m_exp 0) (c, r)).
Proof.
  intros Hloc. apply sum_from_perm. by apply at_coord_global_swap.
Qed.
End Symmetry.

Section SymmetryClaim.
Context {F : Type} `{Scalar F} `{ErrorUtil}.
Import ExpList.

Lemma slot_sym (st : MatrixStorage) (r c : Z) :
  st = ePOSITIVE_DEFINITE_SYMMETRIC
  \/ st = ePOSITIVE_DEFINITE_SYMMETRIC_BANDED ->
  slot st r c = slot st c r.
Proof.
  intros [-> | ->]; simpl;
    destruct (Z.ltb_spec c r), (Z.ltb_spec r c); try done; try lia;
    by replace c with r by lia.
Qed.

(** C5. The assembled free system is symmetric.  For a Helmholtz or
    Laplacian operator it is so by its symmetric storage, of which only
    the upper triangle is accumulated; for any operator whose local
    matrices are symmetric it is so in exact arithmetic, where the two
    entries are sums of the same terms in a different order. *)
Theorem C5_assembled_symmetric (m_exp : list (Expansion F))
    (mkey : GlobalMatrixKey) (l2g : LocalToGlobalC0ContMap F) :
  let mtype := GetMatrixType mkey in
  GetNvariableCoefficients mkey <= 0 ->
  (mtype = eHelmholtz \/ mtype = eLaplacian)
  \/ (ExactArithmetic F
      /\ Forall (fun e => forall i j,
                   ScalGet (GetLocMatrix e mtype) i j
                   = ScalGet (GetLocMatrix e mtype) j i) m_exp) ->
  exists G,
    GenGlobalMatrixFull m_exp mkey l2g = Ok G
    /\ forall i j,
         0 <= i -> 0 <= j -> GmatGetValue G i j = GmatGetValue G j i.
Proof.
  intros mtype Hnv Hcase.
  destruct (GenGlobalMatrixFull_entries m_exp mkey l2g Hnv)
    as (G & HG & Hst & Hent).
  exists G. split; [done |]. intros i j Hi Hj.
  fold mtype in Hst, Hent.
  assert (Hsymst : forall st, g_storage G = st ->
            st = ePOSITIVE_DEFINITE_SYMMETRIC
            \/ st = ePOSITIVE_DEFINITE_SYMMETRIC_BANDED ->
            GmatGetValue G i j = GmatGetValue G j i).
  { intros st Hs Hsym. unfold GmatGetValue.
    by rewrite Hs, (slot_sym st i j Hsym). }
  destruct Hcase as [Hty | [Hexact Hloc]].
  - apply (Hsymst _ eq_refl). rewrite Hst. unfold select_storage.
    destruct Hty as [-> | ->]; destruct (_ <? _); auto.
  - destruct (g_storage G) eqn:Hs.
    + rewrite !Hent by auto.
      by apply symmetric_local_entries.
    + exfalso. revert Hst. unfold select_storage.
      destruct mtype; try destruct (_ <? _); done.
    + apply (Hsymst _ eq_refl). auto.
    + apply (Hsymst _ eq_refl). auto.
Qed.
End SymmetryClaim.

Lemma C5_assembled_symmetric_witness :
  exists G,
    ExpList.GenGlobalMatrixFull Examples.line_exp Examples.key_mass
                                Examples.l2g_line = Ok G
    /\ ExpList.GmatGetValue G 0 1 = ExpList.GmatGetValue G 1 0.
Proof.
  destruct (C5_assembled_symmetric Examples.line_exp Examples.key_mass
              Examples.l2g_line) as (G & HG & Hsym).
  - simpl; lia.
  - right. split; [apply _ |]. repeat constructor;
      intros [|[|i]] [|[|j]]; reflexivity.
  - exists G. split; [exact HG |]. apply Hsym; lia.
Defined.

(** ** The conjugate-gradient solve *)

Section CGClaims.
Context {F : Type} `{Scalar F} `{ErrorUtil}.
Import GlobalLinSysIterative.
Variable env : Env F.

Lemma Zero_lookup (n : nat) (x : list F) (i : nat) :
  Zero n x !! i
  = if decide (i < n /\ i < length x)%nat then Some fzero else x !! i.
Proof.
  unfold Zero.
  rewrite (foldl_insert_lookup (fun _ => fzero)).
  repeat case_decide; try done; lia.
Qed.

Lemma Zero_length (n : nat) (x : list F) : length (Zero n x) = length x.
Proof.
  unfold Zero. generalize (seq 0 n). intros l. revert x.
  induction l as [|i l IH]; intros x; simpl; [done |].
  by rewrite IH, length_insert.
Qed.

Lemma early_exit_state (fuel : nat) (nGlobal : Z)
    (pInput pOut : list F) (nDir : Z) :
  zero_residual env nGlobal pInput nDir = true ->
  v_SolveLinearSystem env fuel nGlobal pInput pOut nDir
  = Returned
      (set_out (Zero (Z.to_nat (nGlobal - nDir)) pOut)
               (init_state (preconditioner env) nGlobal nDir pInput pOut)).
Proof.
  intros Hzero. unfold v_SolveLinearSystem.
  unfold zero_residual in Hzero. simpl in *. by rewrite Hzero.
Qed.

(** C8. When the squared norm of the initial residual is below the zero
    tolerance the solve returns at once, whatever the fuel: the first
    [nNonDir] entries of the output array are zero, the others are
    untouched, and no pass of the loop was made (no operator evaluation,
    no reduction, [k = 0]). *)
Theorem C8_zero_residual_early_exit (fuel : nat) (nGlobal : Z)
    (pInput pOut : list F) (nDir : Z) :
  let nNonDir := Z.to_nat (nGlobal - nDir) in
  zero_residual env nGlobal pInput nDir = true ->
  exists st,
    v_SolveLinearSystem env fuel nGlobal pInput pOut nDir = Returned st
    /\ pOutput st = Zero nNonDir pOut
    /\ length (pOutput st) = length pOut
    /\ (forall i, (i < nNonDir)%nat -> (i < length pOut)%nat ->
                  pOutput st !! i = Some fzero)
    /\ (forall i, (nNonDir <= i)%nat -> pOutput st !! i = pOut !! i)
    /\ k st = 0 /\ matmuls st = 0%nat /\ reductions st = 0%nat.
Proof.
  intros nNonDir Hzero.
  rewrite early_exit_state by done. fold nNonDir.
  eexists; split; [reflexivity |]. simpl.
  split; [done |].
  split; [apply Zero_length |].
  split; [| split].
  - intros i Hi Hlen. rewrite Zero_lookup. case_decide; [done | lia].
  - intros i Hi. rewrite Zero_lookup. case_decide; [lia | done].
  - done.
Qed.

(** *** Termination *)

Section Loop.
Variable M : DNekMat F.
Variables nDir nNonDir : nat.

Lemma state_after_k (n : nat) :
  forall st, k (state_after env n M nDir nNonDir st) = k st + Z.of_nat n.
Proof.
  induction n as [|n IH]; intros st.
  - simpl. lia.
  - change (state_after env (S n) M nDir nNonDir st)
      with (state_after env n M nDir nNonDir
              (advance nDir st (pass env M nDir nNonDir st))).
    rewrite IH. simpl. lia.
Qed.

Lemma state_after_S (n : nat) :
  forall st,
    state_after env (S n) M nDir nNonDir st
    = advance nDir (state_after env n M nDir nNonDir st)
        (pass env M nDir nNonDir (state_after env n M nDir nNonDir st)).
Proof.
  induction n as [|n IH]; intros st; [done |].
  change (state_after env (S (S n)) M nDir nNonDir st)
    with (state_after env (S n) M nDir nNonDir
            (advance nDir st (pass env M nDir nNonDir st))).
  by rewrite IH.
Qed.

Lemma cg_loop_body (fuel : nat) (st : State F) :
  cg_loop env (S fuel) M nDir nNonDir st
  = if converged env M nDir nNonDir st
    then Returned (leave st (pass env M nDir nNonDir st))
    else match ASSERTL1 (k st + 1 <? MAXITER)
                 "Exceeded maximum number of iterations (20000)" with
         | Fatal msg => Aborted msg
         | Ok _ => cg_loop env fuel M nDir nNonDir
                     (advance nDir st (pass env M nDir nNonDir st))
         end.
Proof. reflexivity. Qed.

Section Passing.
Hypothesis ASSERTL1_passes : passes ASSERTL1.

(** Passes that neither converge nor reach the cap are run one after
    the other: their assertion is made on a true condition. *)
Lemma cg_loop_unroll (n : nat) :
  forall (st : State F) (fuel : nat),
    (forall m, (m < n)%nat ->
       converged env M nDir nNonDir (state_after env m M nDir nNonDir st)
       = false) ->
    k st + Z.of_nat n < MAXITER ->
    cg_loop env (n + fuel) M nDir nNonDir st
    = cg_loop env fuel M nDir nNonDir
              (state_after env n M nDir nNonDir st).
Proof.
  induction n as [|n IH]; intros st fuel Hnc Hk; [done |].
  change (S n + fuel)%nat with (S (n + fuel)).
  rewrite cg_loop_body.
  assert (Hst : converged env M nDir nNonDir st = false)
    by (apply (Hnc 0%nat); lia).
  rewrite Hst.
  destruct (Z.ltb_spec (k st + 1) MAXITER); [| lia].
  rewrite ASSERTL1_passes.
  change (state_after env (S n) M nDir nNonDir st)
    with (state_after env n M nDir nNonDir
            (advance nDir st (pass env M nDir nNonDir st))).
  apply IH.
  - intros m Hm. apply (Hnc (S m)). lia.
  - simpl. lia.
Qed.

(** The loop leaves at the first pass whose residual is below the
    tolerance. *)
Lemma cg_loop_converges (n : nat) (st : State F) (fuel : nat) :
  k st = 0 -> Z.of_nat n < MAXITER -> (n < fuel)%nat ->
  (forall m, (m < n)%nat ->
     converged env M nDir nNonDir (state_after env m M nDir nNonDir st)
     = false) ->
  converged env M nDir nNonDir (state_after env n M nDir nNonDir st)
  = true ->
  cg_loop env fuel M nDir nNonDir st
  = Returned (leave (state_after env n M nDir nNonDir st)
                    (pass env M nDir nNonDir
                          (state_after env n M nDir nNonDir st))).
Proof.
  intros Hk Hn Hfuel Hnc Hc.
  replace fuel with (n + S (fuel - S n))%nat by lia.
  rewrite cg_loop_unroll by (done || lia).
  by rewrite cg_loop_body, Hc.
Qed.
End Passing.

Section Checked.
Hypothesis ASSERTL1_checks : checks ASSERTL1.

Lemma checks_passes : passes ASSERTL1.
Proof. intros msg. by rewrite ASSERTL1_checks. Qed.

Lemma cg_loop_step (fuel : nat) (st : State F) :
  cg_loop env (S fuel) M nDir nNonDir st
  = if converged env M nDir nNonDir st
    then Returned (leave st (pass env M nDir nNonDir st))
    else if k st + 1 <? MAXITER
         then cg_loop env fuel M nDir nNonDir
                (advance nDir st (pass env M nDir nNonDir st))
         else Aborted "Exceeded maximum number of iterations (20000)".
Proof.
  rewrite cg_loop_body, ASSERTL1_checks.
  destruct (converged env M nDir nNonDir st); [done |].
  by destruct (_ <? _).
Qed.

(** The loop is aborted when the cap is reached. *)
Lemma cg_loop_cap (st : State F) (fuel : nat) :
  k st = 0 -> (Z.to_nat MAXITER <= fuel)%nat ->
  (forall m, Z.of_nat m < MAXITER ->
     converged env M nDir nNonDir (state_after env m M nDir nNonDir st)
     = false) ->
  cg_loop env fuel M nDir nNonDir st
  = Aborted "Exceeded maximum number of iterations (20000)".
Proof.
  intros Hk Hfuel Hnc.
  assert (HM : MAXITER = 20000) by reflexivity.
  replace fuel
    with (Z.to_nat (MAXITER - 1) + S (fuel - Z.to_nat MAXITER))%nat by lia.
  rewrite (cg_loop_unroll checks_passes).
  - rewrite cg_loop_step, Hnc by lia.
    rewrite state_after_k.
    destruct (Z.ltb_spec (k st + Z.of_nat (Z.to_nat (MAXITER - 1)) + 1)
                         MAXITER); [lia | done].
  - intros m Hm. apply Hnc. lia.
  - lia.
Qed.

End Checked.

(** With a level-one assertion that expands to nothing the cap has no
    effect: a run that never converges uses up any amount of fuel. *)
Lemma cg_loop_unchecked (st : State F) :
  (forall condition msg, ASSERTL1 condition msg = Ok tt) ->
  (forall m,
     converged env M nDir nNonDir (state_after env m M nDir nNonDir st)
     = false) ->
  forall fuel, cg_loop env fuel M nDir nNonDir st = OutOfFuel.
Proof.
  intros Hno Hnc fuel. revert st Hnc.
  induction fuel as [|fuel IH]; intros st Hnc; [done |].
  rewrite cg_loop_body, Hno.
  assert (Hst : converged env M nDir nNonDir st = false) by apply (Hnc 0%nat).
  rewrite Hst. apply IH. intros m. apply (Hnc (S m)).
Qed.

(** Among the first [n] passes either one converges first, or none
    does. *)
Lemma first_converged (st : State F) (n : nat) :
  (exists m, (m < n)%nat
     /\ converged env M nDir nNonDir (state_after env m M nDir nNonDir st)
        = true
     /\ forall m', (m' < m)%nat ->
          converged env M nDir nNonDir
                    (state_after env m' M nDir nNonDir st) = false)
  \/ (forall m, (m < n)%nat ->
        converged env M nDir nNonDir (state_after env m M nDir nNonDir st)
        = false).
Proof.
  induction n as [|n [(m & Hm & Hc & Hfirst) | Hnone]].
  - right. intros m Hm. lia.
  - left. exists m. split; [lia | done].
  - destruct (converged env M nDir nNonDir
                        (state_after env n M nDir nNonDir st)) eqn:Hc.
    + left. exists n. split; [lia |]. split; [done |]. exact Hnone.
    + right. intros m Hm.
      destruct (decide (m = n)) as [-> | Hne]; [done |].
      apply Hnone. lia.
Qed.
End Loop.


(** *** The output array *)

Lemma cg_loop_set_out (M : DNekMat F) (nD nN : nat) (fuel : nat) :
  forall (st : State F) (o : list F),
    cg_loop env fuel M nD nN (set_out o st)
    = match cg_loop env fuel M nD nN st with
      | Returned s =>
          Returned (set_out (foldl (accumulate nN) o
                                   (corrections env fuel M nD nN st)) s)
      | other => other
      end.
Proof.
  induction fuel as [|fuel IH]; intros st o; [done |].
  rewrite !cg_loop_body.
  change (converged env M nD nN (set_out o st))
    with (converged env M nD nN st).
  change (k (set_out o st)) with (k st).
  change (corrections env (S fuel) M nD nN st)
    with (if converged env M nD nN st
          then [smul (ps_alpha (pass env M nD nN st)) (drop nD (d_A st))]
          else smul (ps_alpha (pass env M nD nN st)) (drop nD (d_A st))
               :: corrections env fuel M nD nN
                    (advance nD st (pass env M nD nN st))).
  destruct (converged env M nD nN st); [done |].
  destruct (ASSERTL1 _ _); [| done].
  change (advance nD (set_out o st) (pass env M nD nN (set_out o st)))
    with (set_out (accumulate nN o
                     (smul (ps_alpha (pass env M nD nN st)) (drop nD (d_A st))))
                  (advance nD st (pass env M nD nN st))).
  apply IH.
Qed.

Lemma corrections_set_out (M : DNekMat F) (nD nN : nat) (fuel : nat) :
  forall (st : State F) (o : list F),
    corrections env fuel M nD nN (set_out o st)
    = corrections env fuel M nD nN st.
Proof.
  induction fuel as [|fuel IH]; intros st o; [done |].
  change (corrections env (S fuel) M nD nN (set_out o st))
    with (if converged env M nD nN st
          then [smul (ps_alpha (pass env M nD nN st)) (drop nD (d_A st))]
          else smul (ps_alpha (pass env M nD nN st)) (drop nD (d_A st))
               :: corrections env fuel M nD nN
                    (set_out (accumulate nN o
                       (smul (ps_alpha (pass env M nD nN st))
                             (drop nD (d_A st))))
                       (advance nD st (pass env M nD nN st)))).
  rewrite IH. reflexivity.
Qed.

(** The output of a run is the incoming output array to which the
    corrections of the passes were added; the corrections are those of the
    run on an empty output array. *)
Lemma solve_output (fuel : nat) (nGlobal : Z) (pInput pOut : list F)
    (nDir : Z) (s : State F) :
  let M := preconditioner env in
  let nD := Z.to_nat nDir in
  let nN := Z.to_nat (nGlobal - nDir) in
  zero_residual env nGlobal pInput nDir = false ->
  v_SolveLinearSystem env fuel nGlobal pInput pOut nDir = Returned s ->
  pOutput s
  = foldl (accumulate nN) pOut
      (corrections env fuel M nD nN (init_state M nGlobal nDir pInput [])).
Proof.
  intros M nD nN Hz. unfold v_SolveLinearSystem.
  unfold zero_residual in Hz. simpl in Hz. simpl. rewrite Hz.
  fold M nD nN.
  change (init_state M nGlobal nDir pInput pOut)
    with (set_out pOut (init_state M nGlobal nDir pInput [])).
  rewrite cg_loop_set_out.
  destruct (cg_loop env fuel M nD nN (init_state M nGlobal nDir pInput []));
    try done.
  by intros [= <-].
Qed.
End CGClaims.

(** C10. The solve does not set the output array to the zero initial
    guess.  Unless the initial residual is taken for zero, the output
    returned is the incoming content of the array with the correction
    [alpha * d] of every pass added to its first [nNonDir] entries, the
    corrections being independent of that content; so the result changes
    with the incoming content, as the two runs of the system [1 * x = 3]
    show, which return 3 from an array holding 0 and 8 from one holding 5. *)
Theorem C10_output_not_initialised :
  (forall (F : Type) (HF : Scalar F) (HE : ErrorUtil)
          (env : GlobalLinSysIterative.Env F)
          (fuel : nat) (nGlobal : Z) (pInput pOut : list F) (nDir : Z)
          (s : GlobalLinSysIterative.State F),
     GlobalLinSysIterative.zero_residual env nGlobal pInput nDir = false ->
     GlobalLinSysIterative.v_SolveLinearSystem env fuel nGlobal pInput pOut nDir
     = GlobalLinSysIterative.Returned s ->
     GlobalLinSysIterative.pOutput s
     = foldl (GlobalLinSysIterative.accumulate (Z.to_nat (nGlobal - nDir)))
         pOut
         (GlobalLinSysIterative.corrections env fuel
            (GlobalLinSysIterative.preconditioner env)
            (Z.to_nat nDir) (Z.to_nat (nGlobal - nDir))
            (GlobalLinSysIterative.init_state
               (GlobalLinSysIterative.preconditioner env)
               nGlobal nDir pInput [])))
  /\ (exists s0 s5,
        GlobalLinSysIterative.v_SolveLinearSystem Examples.cg_env 1 1 [3] [0] 0
        = GlobalLinSysIterative.Returned s0
        /\ GlobalLinSysIterative.v_SolveLinearSystem Examples.cg_env 1 1 [3] [5] 0
           = GlobalLinSysIterative.Returned s5
        /\ GlobalLinSysIterative.pOutput s0 = [3]
        /\ GlobalLinSysIterative.pOutput s5 = [8]).
Proof.
  split.
  - intros F HF HE env fuel nGlobal pInput pOut nDir s Hz Hs.
    by apply (solve_output env fuel nGlobal pInput pOut nDir s).
  - do 2 eexists. repeat split.
Qed.


Lemma C8_zero_residual_early_exit_witness :
  exists st,
    GlobalLinSysIterative.v_SolveLinearSystem Examples.cg_env 0 1 [0] [7] 0
    = GlobalLinSysIterative.Returned st
    /\ GlobalLinSysIterative.pOutput st = [0]
    /\ GlobalLinSysIterative.matmuls st = 0%nat.
Proof.
  destruct (C8_zero_residual_early_exit Examples.cg_env 0 1 [0] [7] 0)
    as (st & Hst & Hout & _ & _ & _ & _ & Hmm & _); [reflexivity |].
  exists st. split; [exact Hst |]. split; [exact Hout | exact Hmm].
Defined.

Lemma C10_output_not_initialised_witness :
  match GlobalLinSysIterative.v_SolveLinearSystem Examples.cg_env 1 1 [3] [5] 0
  with
  | GlobalLinSysIterative.Returned s => GlobalLinSysIterative.pOutput s = [8]
  | _ => False
  end.
Proof.
  destruct C10_output_not_initialised as [Hgen _].
  destruct (GlobalLinSysIterative.v_SolveLinearSystem Examples.cg_env 1 1
              [3] [5] 0) as [s | msg |] eqn:Hs.
  - rewrite (Hgen Z _ _ Examples.cg_env 1%nat 1 [3] [5] 0 s);
      [reflexivity | reflexivity | exact Hs].
  - discriminate Hs.
  - discriminate Hs.
Defined.

(** *** A run that the cap alone would stop

    With level-one assertions that expand to nothing, the solve of the
    stalled system uses up every amount of fuel: nothing but the assertion
    ends a run that does not converge. *)

Lemma stalled_pass (x : Z) (out : list Z) (k0 : Z) (mm rd : nat) :
  let st := GlobalLinSysIterative.mkState [x] [0] [3] [3] out k0 mm rd in
  GlobalLinSysIterative.converged Examples.stalled_env (mkMat 1 1 [[1]])
    0 1 st = false
  /\ exists out',
       GlobalLinSysIterative.advance 0 st
         (GlobalLinSysIterative.pass Examples.stalled_env (mkMat 1 1 [[1]])
            0 1 st)
       = GlobalLinSysIterative.mkState [3 + 1 * x] [0] [3] [3] out'
           (k0 + 1) (S mm) (2 + rd).
Proof.
  intros st. subst st.
  unfold GlobalLinSysIterative.converged, GlobalLinSysIterative.advance,
    GlobalLinSysIterative.pass, GlobalLinSysIterative.Dot2,
    GlobalLinSysIterative.at_, GlobalLinSysIterative.smul,
    GlobalLinSysIterative.vsub, GlobalLinSysIterative.vadd,
    GlobalLinSysIterative.matvec, GlobalLinSysIterative.write.
  simpl. rewrite Z.mul_0_r. simpl.
  split; [reflexivity |]. eexists. reflexivity.
Qed.

Lemma stalled_states (m : nat) :
  forall (x : Z) (out : list Z) (k0 : Z) (mm rd : nat),
    GlobalLinSysIterative.converged Examples.stalled_env (mkMat 1 1 [[1]]) 0 1
      (GlobalLinSysIterative.state_after Examples.stalled_env m
         (mkMat 1 1 [[1]]) 0 1
         (GlobalLinSysIterative.mkState [x] [0] [3] [3] out k0 mm rd))
    = false.
Proof.
  induction m as [|m IH]; intros x out k0 mm rd.
  - apply stalled_pass.
  - destruct (stalled_pass x out k0 mm rd) as [_ [out' Hadv]].
    change (GlobalLinSysIterative.state_after Examples.stalled_env (S m)
              (mkMat 1 1 [[1]]) 0 1
              (GlobalLinSysIterative.mkState [x] [0] [3] [3] out k0 mm rd))
      with (GlobalLinSysIterative.state_after Examples.stalled_env m
              (mkMat 1 1 [[1]]) 0 1
              (GlobalLinSysIterative.advance 0
                 (GlobalLinSysIterative.mkState [x] [0] [3] [3] out k0 mm rd)
                 (GlobalLinSysIterative.pass Examples.stalled_env
                    (mkMat 1 1 [[1]]) 0 1
                    (GlobalLinSysIterative.mkState [x] [0] [3] [3]
                       out k0 mm rd)))).
    rewrite Hadv. apply IH.
Qed.

Lemma stalled_run_unchecked (fuel : nat) :
  @GlobalLinSysIterative.v_SolveLinearSystem Z Examples.Z_scalar
    Examples.unchecked Examples.stalled_env fuel 1 [3] [0] 0
  = GlobalLinSysIterative.OutOfFuel.
Proof.
  change (@GlobalLinSysIterative.cg_loop Z Examples.Z_scalar
            Examples.unchecked Examples.stalled_env fuel (mkMat 1 1 [[1]]) 0 1
            (GlobalLinSysIterative.mkState [3] [0] [3] [3] [0] 0 0 0)
          = GlobalLinSysIterative.OutOfFuel).
  apply (@cg_loop_unchecked Z Examples.Z_scalar Examples.unchecked).
  - reflexivity.
  - intros m. apply stalled_states.
Qed.

Lemma stalled_run_checked :
  GlobalLinSysIterative.v_SolveLinearSystem Examples.stalled_env
    (Z.to_nat GlobalLinSysIterative.MAXITER) 1 [3] [0] 0
  = GlobalLinSysIterative.Aborted
      "Exceeded maximum number of iterations (20000)".
Proof.
  change (GlobalLinSysIterative.cg_loop Examples.stalled_env
            (Z.to_nat GlobalLinSysIterative.MAXITER) (mkMat 1 1 [[1]]) 0 1
            (GlobalLinSysIterative.mkState [3] [0] [3] [3] [0] 0 0 0)
          = GlobalLinSysIterative.Aborted
              "Exceeded maximum number of iterations (20000)").
  apply cg_loop_cap.
  - intros [] msg; reflexivity.
  - reflexivity.
  - apply Nat.le_refl.
  - intros m _. apply stalled_states.
Qed.


(** * Further properties of the embedded code *)

(** ** The solve: what it writes and what it costs *)

Section CGInvariants.
Context {F : Type} `{Scalar F} `{ErrorUtil}.
Import GlobalLinSysIterative.
Variable env : Env F.

Lemma write_length (v a : list F) :
  (length v <= length a)%nat -> length (write v a) = length a.
Proof.
  intros Hv. unfold write. rewrite length_app, length_drop. lia.
Qed.

Lemma write_tail (v a : list F) (i : nat) :
  (length v <= i)%nat -> write v a !! i = a !! i.
Proof.
  intros Hv. unfold write.
  rewrite lookup_app_r by done. rewrite lookup_drop. f_equal. lia.
Qed.

Lemma accumulate_length (n : nat) (a c : list F) :
  length (accumulate n a c) = length a.
Proof.
  unfold accumulate. apply write_length.
  unfold vadd. rewrite length_zip_with, length_take. lia.
Qed.

Lemma accumulate_tail (n : nat) (a c : list F) (i : nat) :
  (n <= i)%nat -> accumulate n a c !! i = a !! i.
Proof.
  intros Hi. unfold accumulate. apply write_tail.
  unfold vadd. rewrite length_zip_with, length_take. lia.
Qed.

Lemma accumulates_tail (n : nat) (cs : list (list F)) :
  forall a : list F,
    length (foldl (accumulate n) a cs) = length a
    /\ forall i, (n <= i)%nat -> foldl (accumulate n) a cs !! i = a !! i.
Proof.
  induction cs as [|c cs IH]; intros a; simpl; [done |].
  destruct (IH (accumulate n a c)) as [Hlen Htail]. split.
  - by rewrite Hlen, accumulate_length.
  - intros i Hi. by rewrite Htail, accumulate_tail.
Qed.

(** Whenever the solve returns, the output array has the length it came
    with and its entries from [nNonDir] on are the incoming ones: only
    the first [nNonDir] entries are ever written. *)
Theorem solve_writes_free_entries_only (fuel : nat) (nGlobal : Z)
    (pInput pOut : list F) (nDir : Z) (s : State F) :
  v_SolveLinearSystem env fuel nGlobal pInput pOut nDir = Returned s ->
  length (pOutput s) = length pOut
  /\ forall i, (Z.to_nat (nGlobal - nDir) <= i)%nat ->
               pOutput s !! i = pOut !! i.
Proof.
  intros Hrun.
  destruct (zero_residual env nGlobal pInput nDir) eqn:Hz.
  - rewrite early_exit_state in Hrun by done.
    injection Hrun as <-. simpl. split; [apply Zero_length |].
    intros i Hi. rewrite Zero_lookup. case_decide; [lia | done].
  - rewrite (solve_output env fuel nGlobal pInput pOut nDir s Hz Hrun).
    apply accumulates_tail.
Qed.

(** *** The Dirichlet part of the search direction *)

Section Direction.
Variable M : DNekMat F.
Variables nDir nNonDir : nat.

Lemma advance_dirichlet (st : State F) (ps : @Pass F) :
  (nDir <= length (d_A st))%nat ->
  take nDir (d_A (advance nDir st ps)) = take nDir (d_A st)
  /\ (nDir <= length (d_A (advance nDir st ps)))%nat.
Proof.
  intros Hlen. simpl. split.
  - rewrite take_app_le by (rewrite length_take; lia).
    rewrite take_take. f_equal. lia.
  - rewrite length_app, length_take. lia.
Qed.

Lemma state_after_dirichlet (n : nat) :
  forall st : State F,
    (nDir <= length (d_A st))%nat ->
    take nDir (d_A (state_after env n M nDir nNonDir st))
    = take nDir (d_A st)
    /\ (nDir <= length (d_A (state_after env n M nDir nNonDir st)))%nat.
Proof.
  induction n as [|n IH]; intros st Hlen; [done |].
  destruct (advance_dirichlet st (pass env M nDir nNonDir st) Hlen)
    as [Htake Hlen'].
  destruct (IH _ Hlen') as [IHtake IHlen].
  change (state_after env (S n) M nDir nNonDir st)
    with (state_after env n M nDir nNonDir
            (advance nDir st (pass env M nDir nNonDir st))).
  split; [by rewrite IHtake | done].
Qed.
End Direction.

Lemma init_state_dirichlet (M : DNekMat F) (nGlobal nDir : Z)
    (pInput pOut : list F) :
  0 <= nDir <= nGlobal ->
  take (Z.to_nat nDir) (d_A (init_state M nGlobal nDir pInput pOut))
  = replicate (Z.to_nat nDir) fzero
  /\ (Z.to_nat nDir
      <= length (d_A (init_state M nGlobal nDir pInput pOut)))%nat.
Proof.
  intros Hdir. simpl.
  assert (Hle : (Z.to_nat nDir <= Z.to_nat nGlobal)%nat) by lia.
  rewrite take_replicate, Nat.min_l by done. split.
  - rewrite take_app_le by (rewrite length_replicate; lia).
    rewrite take_replicate. f_equal. lia.
  - rewrite length_app, length_replicate. lia.
Qed.

(** On every pass of the loop the vector handed to the operator has
    zeros in its [nDir] Dirichlet entries: the search direction is only
    ever updated behind them. *)
Theorem direction_vanishes_on_dirichlet (n : nat) (nGlobal nDir : Z)
    (pInput pOut : list F) :
  let M := preconditioner env in
  let nD := Z.to_nat nDir in
  let nN := Z.to_nat (nGlobal - nDir) in
  0 <= nDir <= nGlobal ->
  take nD (d_A (state_after env n M nD nN
                  (init_state M nGlobal nDir pInput pOut)))
  = replicate nD fzero.
Proof.
  intros M nD nN Hdir.
  destruct (init_state_dirichlet M nGlobal nDir pInput pOut Hdir)
    as [Htake Hlen].
  destruct (state_after_dirichlet M nD nN n _ Hlen) as [Hn _].
  fold nD in Htake. by rewrite Hn.
Qed.

(** *** Operator evaluations and reductions *)

Lemma cg_loop_counts (M : DNekMat F) (nD nN : nat) (fuel : nat) :
  forall st s : State F,
    cg_loop env fuel M nD nN st = Returned s ->
    0 <= k st ->
    matmuls st = Z.to_nat (k st) ->
    reductions st = (2 * matmuls st)%nat ->
    0 <= k s
    /\ matmuls s = S (Z.to_nat (k s))
    /\ reductions s = (2 * matmuls s)%nat
    /\ (checks ASSERTL1 -> k st < MAXITER -> k s < MAXITER).
Proof.
  induction fuel as [|fuel IH]; intros st s Hrun Hk Hm Hr; [done |].
  rewrite cg_loop_body in Hrun.
  destruct (converged env M nD nN st).
  - injection Hrun as <-. simpl. repeat split; try lia; done.
  - destruct (ASSERTL1 _ _) eqn:Ha; [| done].
    apply IH in Hrun; simpl; try lia.
    destruct Hrun as (Hks & Hms & Hrs & Hcap).
    repeat split; try done.
    intros Hchk _. apply Hcap; [done |].
    rewrite Hchk in Ha. simpl in Ha |- *.
    destruct (Z.ltb_spec (k st + 1) MAXITER); [done | discriminate].
Qed.

(** *** The calls of a run *)

Lemma pass_calls_pass (M : DNekMat F) (nD nN : nat) (st : State F) :
  pass_calls env M nD nN st = (pass env M nD nN st, pass_trace).
Proof. reflexivity. Qed.

Lemma cg_loop_calls_body (M : DNekMat F) (nD nN : nat) (fuel : nat)
    (st : State F) :
  cg_loop_calls env (S fuel) M nD nN st
  = if converged env M nD nN st
    then (Returned (leave st (pass env M nD nN st)), pass_trace)
    else match ASSERTL1 (k st + 1 <? MAXITER)
                 "Exceeded maximum number of iterations (20000)" with
         | Fatal msg => (Aborted msg, pass_trace)
         | Ok _ =>
             let rest := cg_loop_calls env fuel M nD nN
                           (advance nD st (pass env M nD nN st)) in
             (rest.1, pass_trace ++ rest.2)
         end.
Proof.
  change (cg_loop_calls env (S fuel) M nD nN st)
    with (bind_traced (pass_calls env M nD nN st) (fun ps =>
            if (fsqrt (ps_normsq ps) <? kNekIterativeTol env)%F then
              unit_traced (Returned (leave st ps))
            else
              match ASSERTL1 (k (advance nD st ps) <? MAXITER)
                      "Exceeded maximum number of iterations (20000)" with
              | Fatal msg => unit_traced (Aborted msg)
              | Ok _ => cg_loop_calls env fuel M nD nN (advance nD st ps)
              end)).
  rewrite pass_calls_pass. unfold bind_traced, converged. cbn [fst snd].
  destruct (_ <? _)%F; [done |].
  change (k (advance nD st (pass env M nD nN st))) with (k st + 1).
  by destruct (ASSERTL1 _ _).
Qed.

Lemma cg_loop_calls_outcome (M : DNekMat F) (nD nN : nat) (fuel : nat) :
  forall st : State F,
    (cg_loop_calls env fuel M nD nN st).1 = cg_loop env fuel M nD nN st.
Proof.
  induction fuel as [|fuel IH]; intros st; [done |].
  rewrite cg_loop_calls_body, cg_loop_body.
  destruct (converged env M nD nN st); [done |].
  destruct (ASSERTL1 _ _); [| done]. apply IH.
Qed.

Lemma count_calls_app (c : Call) (t u : list Call) :
  count_calls c (t ++ u) = (count_calls c t + count_calls c u)%nat.
Proof.
  unfold count_calls. by rewrite List.filter_app, length_app.
Qed.

Lemma count_calls_passes (n : nat) :
  count_calls DoMatrixMultiply_call (concat (replicate n pass_trace)) = n
  /\ count_calls AllReduce_call (concat (replicate n pass_trace))
     = (2 * n)%nat.
Proof.
  induction n as [|n [IH1 IH2]]; [done |].
  change (concat (replicate (S n) pass_trace))
    with (pass_trace ++ concat (replicate n pass_trace)).
  rewrite !count_calls_app, IH1, IH2.
  change (count_calls DoMatrixMultiply_call pass_trace) with 1%nat.
  change (count_calls AllReduce_call pass_trace) with 2%nat.
  lia.
Qed.

(** The calls of a run of the loop that returns: those of one pass,
    once for every pass made. *)
Lemma cg_loop_calls_trace (M : DNekMat F) (nD nN : nat) (fuel : nat) :
  forall (st s : State F) (calls : list Call),
    cg_loop_calls env fuel M nD nN st = (Returned s, calls) ->
    exists n : nat,
      k s = k st + Z.of_nat n
      /\ calls = concat (replicate (S n) pass_trace).
Proof.
  induction fuel as [|fuel IH]; intros st s calls Hrun; [done |].
  rewrite cg_loop_calls_body in Hrun.
  destruct (converged env M nD nN st).
  - injection Hrun as <- <-. exists 0%nat. simpl. split; [lia | done].
  - destruct (ASSERTL1 _ _); [| done].
    destruct (cg_loop_calls env fuel M nD nN
                (advance nD st (pass env M nD nN st))) as [o rest] eqn:Hrest.
    simpl in Hrun. injection Hrun as -> <-.
    apply IH in Hrest as (n & Hk & ->).
    exists (S n). split; [simpl in Hk; lia | done].
Qed.

(** The calls of a solve that returns, in the order in which they are
    made.  The value of the run is that of [v_SolveLinearSystem].  When
    the initial residual is taken for zero the run calls neither the
    operator nor the reduction.  Otherwise, returning after [k]
    completed iterations, it has made [k + 1] times the calls of a
    pass, an evaluation of the operator followed by two reductions:
    [k + 1] evaluations and [2 (k + 1)] reductions in all, which are
    the numbers the counters of the returned state hold; when the
    level-one assertion is checked, [k] is below the cap of 20000. *)
Theorem solve_cost (fuel : nat) (nGlobal : Z) (pInput pOut : list F)
    (nDir : Z) (s : State F) (calls : list Call) :
  v_SolveLinearSystem_calls env fuel nGlobal pInput pOut nDir
  = (Returned s, calls) ->
  v_SolveLinearSystem env fuel nGlobal pInput pOut nDir = Returned s
  /\ 0 <= k s
  /\ (zero_residual env nGlobal pInput nDir = true -> calls = [] /\ k s = 0)
  /\ (zero_residual env nGlobal pInput nDir = false ->
      calls = concat (replicate (S (Z.to_nat (k s))) pass_trace))
  /\ matmuls s = count_calls DoMatrixMultiply_call calls
  /\ reductions s = count_calls AllReduce_call calls
  /\ (checks ASSERTL1 -> k s < MAXITER).
Proof.
  intros Hrun.
  assert (Hout : v_SolveLinearSystem env fuel nGlobal pInput pOut nDir
                 = Returned s).
  { transitivity
      (v_SolveLinearSystem_calls env fuel nGlobal pInput pOut nDir).1;
      [| by rewrite Hrun].
    unfold v_SolveLinearSystem_calls, v_SolveLinearSystem. simpl.
    destruct (_ <? _)%F; [done |]. symmetry. apply cg_loop_calls_outcome. }
  split; [exact Hout |].
  unfold v_SolveLinearSystem_calls in Hrun.
  unfold v_SolveLinearSystem in Hout.
  unfold zero_residual. simpl in *.
  destruct (_ <? _)%F.
  - injection Hrun as <- <-. simpl.
    split; [done |]. split; [done |]. split; [done |].
    split; [done |]. split; [done |]. intros _. unfold MAXITER. lia.
  - apply cg_loop_calls_trace in Hrun as (n & Hk & ->). simpl in Hk.
    apply cg_loop_counts in Hout as (Hks & Hm & Hr & Hcap); [| by simpl ..].
    destruct (count_calls_passes (S n)) as [Hc1 Hc2].
    assert (Hn : Z.to_nat (k s) = n) by lia.
    rewrite Hc1, Hc2, Hr, Hm, Hn.
    split; [done |]. split; [done |]. split; [done |].
    split; [done |]. split; [done |].
    intros Hchk. apply Hcap; [done |]. simpl. unfold MAXITER. lia.
Qed.
End CGInvariants.

Lemma solve_writes_free_entries_only_witness :
  match GlobalLinSysIterative.v_SolveLinearSystem Examples.cg_env 1 1
          [3] [5; 7] 0
  with
  | GlobalLinSysIterative.Returned s =>
      length (GlobalLinSysIterative.pOutput s) = 2%nat
      /\ GlobalLinSysIterative.pOutput s !! 1%nat = Some 7
  | _ => False
  end.
Proof.
  destruct (GlobalLinSysIterative.v_SolveLinearSystem Examples.cg_env 1 1
              [3] [5; 7] 0) as [s | msg |] eqn:Hs.
  - destruct (solve_writes_free_entries_only Examples.cg_env 1 1 [3] [5; 7]
                0 s Hs) as [Hlen Htail].
    split; [exact Hlen | apply Htail; simpl; lia].
  - discriminate Hs.
  - discriminate Hs.
Defined.

Lemma direction_vanishes_on_dirichlet_witness :
  take 1 (GlobalLinSysIterative.d_A
            (GlobalLinSysIterative.state_after Examples.cg_env 2
               (mkMat 1 1 [[1]]) 1 1
               (GlobalLinSysIterative.init_state (mkMat 1 1 [[1]]) 2 1
                  [3] [0])))
  = [0].
Proof.
  assert (Hdir : 0 <= 1 <= 2) by lia.
  exact (direction_vanishes_on_dirichlet Examples.cg_env 2 2 1 [3] [0] Hdir).
Defined.

Lemma solve_cost_witness :
  match GlobalLinSysIterative.v_SolveLinearSystem_calls Examples.cg_env 1 1
          [3] [0] 0
  with
  | (GlobalLinSysIterative.Returned s, calls) =>
      calls = [GlobalLinSysIterative.DoMatrixMultiply_call;
               GlobalLinSysIterative.AllReduce_call;
               GlobalLinSysIterative.AllReduce_call]
      /\ GlobalLinSysIterative.matmuls s = 1%nat
      /\ GlobalLinSysIterative.reductions s = 2%nat
  | _ => False
  end.
Proof.
  destruct (GlobalLinSysIterative.v_SolveLinearSystem_calls Examples.cg_env
              1 1 [3] [0] 0) as [[s | msg |] calls] eqn:Hrun;
    [| discriminate Hrun ..].
  destruct (solve_cost Examples.cg_env 1 1 [3] [0] 0 s calls Hrun)
    as (_ & _ & _ & Hcalls & Hm & Hr & _).
  injection Hrun as <- <-.
  split; [reflexivity |]. split; [exact Hm | exact Hr].
Defined.

(** ** The assembly: slots, agreement of the two routines, refusals *)

Lemma bind_ext_all {X Y : Type} (f g : X -> list Y) (l : list X) :
  (forall x, f x = g x) -> l ≫= f = l ≫= g.
Proof.
  intros Hfg. induction l as [|x l IH]; [done |].
  change ((x :: l) ≫= f) with (f x ++ (l ≫= f)).
  change ((x :: l) ≫= g) with (g x ++ (l ≫= g)).
  by rewrite Hfg, IH.
Qed.

Section AssemblyFurther.
Context {F : Type} `{Scalar F} `{ErrorUtil}.
Import ExpList.

Lemma MatrixStorage_eqb_eq (a b : MatrixStorage) :
  MatrixStorage_eqb a b = true <-> a = b.
Proof. destruct a, b; simpl; split; intros; congruence. Qed.

Lemma add_terms_slots (R : Z) (terms : list (Z * Z * F)) :
  Forall (fun t => 0 <= t.1.1 < R /\ 0 <= t.1.2 < R) terms ->
  forall G : GlobalNekMat F,
    (forall i j, is_Some (g_data G !! (i, j)) ->
       0 <= i < R /\ 0 <= j < R /\ (g_storage G <> eFULL -> i <= j)) ->
    forall i j,
      is_Some (g_data (foldl add_term G terms) !! (i, j)) ->
      0 <= i < R /\ 0 <= j < R /\ (g_storage G <> eFULL -> i <= j).
Proof.
  induction 1 as [|t terms [Ht1 Ht2] _ IH]; intros G HG; simpl; [done |].
  intros i j Hij.
  destruct (add_term_shape G t) as (_ & _ & _ & Hst).
  rewrite <- Hst. revert i j Hij. apply IH.
  intros i j. rewrite Hst. unfold add_term.
  destruct (MatrixStorage_eqb (g_storage G) eFULL || (t.1.1 <=? t.1.2))
    eqn:Hc; [| apply HG].
  apply orb_true_iff in Hc.
  assert (Hup : g_storage G = eFULL \/ t.1.1 <= t.1.2).
  { destruct Hc as [Hc|Hc]; [left; by apply MatrixStorage_eqb_eq | right; lia]. }
  unfold GmatSetValue. simpl. rewrite (slot_upper _ _ _ Hup).
  destruct (decide ((t.1.1, t.1.2) = (i, j))) as [Heq|Hne].
  - intros _. injection Heq as <- <-.
    split; [done |]. split; [done |].
    intros Hfull. by destruct Hup.
  - rewrite lookup_insert_ne by done. apply HG.
Qed.

Lemma global_terms_full_indices (mtype : MatrixType)
    (l2g : LocalToGlobalC0ContMap F) (ND : Z) (m_exp : list (Expansion F)) :
  forall (cnt : nat) (t : Z * Z * F),
    t ∈ global_terms_full mtype l2g ND m_exp cnt ->
    exists a b, t.1 = (GetLocalToGlobalMap l2g a - ND,
                       GetLocalToGlobalMap l2g b - ND).
Proof.
  induction m_exp as [|e rest IH]; intros cnt t Ht; simpl in Ht.
  - by apply elem_of_nil in Ht.
  - apply elem_of_app in Ht as [Ht|Ht]; [| by eapply IH].
    unfold local_terms_full in Ht.
    apply list_elem_of_bind in Ht as (i & Ht & _).
    apply list_elem_of_bind in Ht as (j & Ht & _).
    apply list_elem_of_singleton in Ht as ->. by do 2 eexists.
Qed.

(** Given a map that sends every local coefficient below the number of
    global ones, the assembled free system stores no slot outside its
    rows and columns, and under a symmetric policy none below the
    diagonal. *)
Theorem GenGlobalMatrixFull_slots_in_range (m_exp : list (Expansion F))
    (mkey : GlobalMatrixKey) (l2g : LocalToGlobalC0ContMap F) :
  let nGlobal := GetNumGlobalCoeffs l2g in
  let nDirichlet := GetNumGlobalDirBndCoeffs l2g in
  GetNvariableCoefficients mkey <= 0 ->
  0 <= nDirichlet <= nGlobal -> nGlobal < 2 ^ 32 ->
  (forall idx, GetLocalToGlobalMap l2g idx < nGlobal) ->
  exists G,
    GenGlobalMatrixFull m_exp mkey l2g = Ok G
    /\ forall i j, is_Some (g_data G !! (i, j)) ->
         0 <= i < g_rows G /\ 0 <= j < g_cols G
         /\ (g_storage G <> eFULL -> i <= j).
Proof.
  intros nGlobal nDirichlet Hnv Hnd Hng Hmap.
  rewrite GenGlobalMatrixFull_terms by done.
  fold nGlobal nDirichlet.
  rewrite (to_unsigned_small (nGlobal - nDirichlet)) by lia.
  eexists; split; [reflexivity |].
  match goal with |- context [foldl add_term ?G0 ?ts] =>
    destruct (add_terms_shape ts G0) as (Hr & Hc & _ & Hst);
    pose proof (add_terms_slots (nGlobal - nDirichlet) ts) as Hslots
  end.
  destruct (allocate_Gmat_shape (GetMatrixType mkey)
              (GetFullSystemBandWidth l2g)
              (nGlobal - nDirichlet) (nGlobal - nDirichlet))
    as (Hr0 & Hc0 & _ & _ & Hd).
  rewrite Hr, Hc, Hst, Hr0, Hc0. apply Hslots.
  - apply list.Forall_forall. intros t Ht.
    apply list_elem_of_filter in Ht as [[Ht1 Ht2] Ht].
    apply global_terms_full_indices in Ht as (a & b & Hab).
    destruct t as [[r c] v]. simpl in *. injection Hab as -> ->.
    pose proof (Hmap a). pose proof (Hmap b). lia.
  - intros i j. rewrite Hd, lookup_empty. by intros [? ?].
Qed.

(** *** The dense and the sparse assembly *)

Lemma local_terms_square (rows cols : Z) (l2g : LocalToGlobalC0ContMap F)
    (loc_mat : DNekScalMat F) (cnt : nat) :
  GetRows loc_mat = GetColumns loc_mat ->
  local_terms (mkDims rows cols true true) l2g loc_mat cnt cnt
  = local_terms_full l2g 0 loc_mat cnt.
Proof.
  intros Hsq. rewrite local_terms_assembled. unfold local_terms_full.
  rewrite Hsq. apply bind_ext_all. intros i. apply bind_ext_all. intros j.
  by rewrite !Z.sub_0_r.
Qed.

Lemma global_terms_square (mtype : MatrixType) (rows cols : Z)
    (l2g : LocalToGlobalC0ContMap F) (m_exp : list (Expansion F)) :
  Forall (fun e => GetRows (GetLocMatrix e mtype) = GetNcoeffs e
                   /\ GetColumns (GetLocMatrix e mtype) = GetNcoeffs e)
         m_exp ->
  forall cnt : nat,
    global_terms mtype (mkDims rows cols true true) l2g m_exp cnt cnt
    = global_terms_full mtype l2g 0 m_exp cnt.
Proof.
  induction 1 as [|e rest [Hr Hc] _ IH]; intros cnt; simpl; [done |].
  rewrite local_terms_square by congruence.
  by rewrite Hr, Hc, IH.
Qed.

(** Without Dirichlet coefficients, and with local matrices as large as
    their elements, the dense assembly holds at every stored position
    the entry of the sparse assembly, and zero where the sparse one has
    no entry -- provided adding to zero returns the summand. *)
Theorem dense_assembly_agrees_with_sparse (m_exp : list (Expansion F))
    (m_npoints : Z) (mkey : GlobalMatrixKey)
    (l2g : LocalToGlobalC0ContMap F) :
  let mtype := GetMatrixType mkey in
  (forall x : F, (fzero + x)%F = x) ->
  GetNvariableCoefficients mkey <= 0 ->
  mtype = eMass \/ mtype = eHelmholtz \/ mtype = eLaplacian ->
  GetNumGlobalDirBndCoeffs l2g = 0 ->
  Forall (fun e => GetRows (GetLocMatrix e mtype) = GetNcoeffs e
                   /\ GetColumns (GetLocMatrix e mtype) = GetNcoeffs e)
         m_exp ->
  exists G Gm,
    GenGlobalMatrix m_exp m_npoints mkey l2g = Ok G
    /\ GenGlobalMatrixFull m_exp mkey l2g = Ok Gm
    /\ forall r c,
         0 <= r -> 0 <= c -> g_storage Gm = eFULL \/ r <= c ->
         GmatGetValue Gm r c = default fzero (spcoomat G !! (r, c)).
Proof.
  intros mtype Hzero Hnv Hty Hnd Hsq.
  destruct (GenGlobalMatrix_entries m_exp m_npoints mkey l2g
              (mkDims (GetNumGlobalCoeffs l2g) (GetNumGlobalCoeffs l2g)
                      true true) Hnv)
    as (G & HG & _ & _ & Hent).
  { fold mtype. by destruct Hty as [-> | [-> | ->]]. }
  destruct (GenGlobalMatrixFull_entries m_exp mkey l2g Hnv)
    as (Gm & HGm & _ & Hfull).
  exists G, Gm. split; [done |]. split; [done |].
  intros r c Hr Hc Hup.
  rewrite Hfull, Hent by done. fold mtype.
  rewrite Hnd, global_terms_square by done.
  destruct (at_coord _ _) as [|v vs]; [done |].
  simpl. unfold sum_from. simpl. by rewrite Hzero.
Qed.

(** *** Variable coefficients *)

Lemma refuse_step (mkey : GlobalMatrixKey) :
  checks ASSERTL0 -> 0 < GetNvariableCoefficients mkey ->
  (if 0 <? GetNvariableCoefficients mkey
   then ASSERTL0 false "method not set up for non-Dirichlet conditions"
   else Ok tt)
  = Fatal "method not set up for non-Dirichlet conditions".
Proof.
  intros Hchk Hnv. rewrite Hchk.
  by destruct (Z.ltb_spec 0 (GetNvariableCoefficients mkey)); [| lia].
Qed.

(** A key with variable coefficients is refused by the three routines as
    soon as there is an element to assemble; the sparse routine may
    refuse the matrix type first. *)
Theorem variable_coefficients_refused (m_exp : list (Expansion F))
    (m_npoints : Z) (mkey : GlobalMatrixKey)
    (l2g : LocalToGlobalC0ContMap F) (nbdry_size nint_size : list Z) :
  let refusal := "method not set up for non-Dirichlet conditions"%string in
  checks ASSERTL0 ->
  0 < GetNvariableCoefficients mkey ->
  m_exp <> [] ->
  GenGlobalMatrixFull m_exp mkey l2g = Fatal refusal
  /\ GenGlobalLinSysStaticCond m_exp mkey nbdry_size nint_size
     = Fatal refusal
  /\ (GenGlobalMatrix m_exp m_npoints mkey l2g = Fatal refusal
      \/ GenGlobalMatrix m_exp m_npoints mkey l2g
         = Fatal "Global Matrix creation not defined for this type of matrix").
Proof.
  intros refusal Hchk Hnv Hne.
  destruct m_exp as [|e rest]; [done |].
  pose proof (refuse_step mkey Hchk Hnv) as Hstep.
  split; [| split].
  - unfold GenGlobalMatrixFull. simpl. by rewrite Hstep.
  - unfold GenGlobalLinSysStaticCond. simpl. by rewrite Hstep.
  - unfold GenGlobalMatrix.
    destruct (select_dims _ _ _) as [d|msg] eqn:Hd.
    + left. simpl. by rewrite Hstep.
    + right. unfold select_dims in Hd.
      destruct (GetMatrixType mkey); simpl in Hd; try discriminate;
        by injection Hd as <-.
Qed.
End AssemblyFurther.

(** ** Static condensation of an element: the other paths *)

Section StaticCondFurther.
Context {F : Type} `{Scalar F} `{ErrorUtil}.
Import TetExp.
Variable Invert : DNekMat F -> result (DNekMat F).

(** When the inversion of the interior block fails, so does the
    condensation, with the same message: no block matrix is returned. *)
Theorem CreateStaticCondMatrix_inversion_fails (e : Exp F)
    (mtype : MatrixType) (msg : string) :
  let nbdry := NumBndryCoeffs e in
  let nint := m_ncoeffs e - nbdry in
  let D := block_of (GetLocMatrix e mtype) (GetInteriorMap e)
                    (GetInteriorMap e) (Z.to_nat nint) (Z.to_nat nint) in
  passes ASSERTL2 ->
  geom_is_set (GetGtype e) = true ->
  fst (select_branch e mtype) = UseLocRegionsMatrix ->
  0 < nint ->
  Invert D = Fatal msg ->
  CreateStaticCondMatrix Invert e mtype = Fatal msg.
Proof.
  intros nbdry nint D Hpass Hgeom Hbranch Hnint HD.
  rewrite CreateStaticCondMatrix_loc by done.
  fold nbdry nint D.
  destruct (Z.eqb_spec nint 0) as [?|_]; [lia |].
  by rewrite HD.
Qed.

(** An element of regular geometry, for a matrix other than the
    Laplacian and the Helmholtz one, takes its four blocks from the
    standard element and only scales them: by the scale of the local
    matrix, one, that scale again and its reciprocal.  Nothing is
    gathered and nothing inverted, so the call succeeds whatever
    [Invert] does. *)
Theorem CreateStaticCondMatrix_regular (e : Exp F) (mtype : MatrixType) :
  let factor := Scale (GetLocMatrix e mtype) in
  let mat := GetStdStaticCondMatrix e mtype in
  passes ASSERTL2 ->
  GetGtype e = eRegular ->
  mtype <> eLaplacian -> mtype <> eHelmholtz ->
  exists blk,
    CreateStaticCondMatrix Invert e mtype = Ok blk
    /\ GetBlock blk 0 0 = Some (mkScal factor (mat 0 0)%nat)
    /\ GetBlock blk 0 1 = Some (mkScal fone (mat 0 1)%nat)
    /\ GetBlock blk 1 0 = Some (mkScal factor (mat 1 0)%nat)
    /\ GetBlock blk 1 1 = Some (mkScal (fone / factor)%F (mat 1 1)%nat)
    /\ blk_row_sizes blk
       = [to_unsigned (NumBndryCoeffs e);
          to_unsigned (m_ncoeffs e - NumBndryCoeffs e)].
Proof.
  intros factor mat Hpass Hreg Hlap Hhelm.
  unfold CreateStaticCondMatrix. rewrite Hreg, Hpass. simpl.
  assert (Hsel : select_branch e mtype = (UseStdRegionsMatrix, factor)).
  { unfold select_branch. rewrite Hreg. by destruct mtype. }
  rewrite Hsel.
  eexists; split; [reflexivity |].
  unfold GetBlock, SetBlock; simpl.
  repeat split; by simplify_map_eq.
Qed.
End StaticCondFurther.

(** ** The static-condensation system: placement and failure *)

Section StaticCondSystemFurther.
Context {F : Type} `{Scalar F} `{ErrorUtil}.
Import ExpList.

Lemma copy_block_lookup (src dst : DNekScalBlkMat F) (i j n a b : nat) :
  GetBlock (copy_block src i j dst n) a b
  = match GetBlock src i j with
    | Some blk => if decide ((n, n) = (a, b)) then Some blk
                  else GetBlock dst a b
    | None => GetBlock dst a b
    end.
Proof.
  unfold copy_block. destruct (GetBlock src i j) as [blk|]; [| done].
  unfold GetBlock, SetBlock. simpl.
  case_decide as Hab.
  - rewrite Hab. apply lookup_insert_eq.
  - by apply lookup_insert_ne.
Qed.

Lemma copy_block_layout (src dst : DNekScalBlkMat F) (i j n : nat) :
  blk_row_sizes (copy_block src i j dst n) = blk_row_sizes dst
  /\ blk_col_sizes (copy_block src i j dst n) = blk_col_sizes dst
  /\ blk_storage (copy_block src i j dst n) = blk_storage dst.
Proof. unfold copy_block. by destruct (GetBlock src i j). Qed.

(** What a run of the loop from element [n] on leaves in the four block
    matrices: blocks on the diagonal positions it went through, and the
    layout it started from. *)
Lemma static_cond_blocks_diagonal (mkey : GlobalMatrixKey)
    (m_exp : list (Expansion F)) :
  forall (n : nat) (sys sys' : GlobalLinSys F),
    static_cond_blocks mkey m_exp n sys = Ok sys' ->
    (forall a b,
       (is_Some (GetBlock (SchurCompl sys') a b) ->
        is_Some (GetBlock (SchurCompl sys) a b)
        \/ (a = b /\ n <= a < n + length m_exp)%nat)
       /\ (is_Some (GetBlock (BinvD sys') a b) ->
           is_Some (GetBlock (BinvD sys) a b)
           \/ (a = b /\ n <= a < n + length m_exp)%nat)
       /\ (is_Some (GetBlock (Cblk sys') a b) ->
           is_Some (GetBlock (Cblk sys) a b)
           \/ (a = b /\ n <= a < n + length m_exp)%nat)
       /\ (is_Some (GetBlock (invD sys') a b) ->
           is_Some (GetBlock (invD sys) a b)
           \/ (a = b /\ n <= a < n + length m_exp)%nat))
    /\ blk_storage (SchurCompl sys') = blk_storage (SchurCompl sys)
    /\ blk_storage (BinvD sys') = blk_storage (BinvD sys)
    /\ blk_storage (Cblk sys') = blk_storage (Cblk sys)
    /\ blk_storage (invD sys') = blk_storage (invD sys).
Proof.
  induction m_exp as [|e rest IH]; intros n sys sys' Hrun; simpl in Hrun.
  - injection Hrun as <-. split; [| done].
    intros r c. repeat split; by left.
  - destruct (if 0 <? GetNvariableCoefficients mkey
              then ASSERTL0 false _ else Ok tt); [| done].
    simpl in Hrun.
    destruct (GetLocStaticCondMatrix e (GetMatrixType mkey)) as [loc|];
      [| done].
    simpl in Hrun.
    destruct (IH _ _ _ Hrun) as (Hkeys & -> & -> & -> & ->). simpl.
    split.
    + intros r c. destruct (Hkeys r c) as (H1 & H2 & H3 & H4). simpl in *.
      repeat split; intros Hab;
        [apply H1 in Hab | apply H2 in Hab
         | apply H3 in Hab | apply H4 in Hab];
        (destruct Hab as [Hab|Hab]; [| right; lia]);
        rewrite copy_block_lookup in Hab;
        destruct (GetBlock loc _ _); try (by left);
        (case_decide as Heq; [right; injection Heq as <- <-; lia | by left]).
    + repeat split; apply copy_block_layout.
Qed.

(** Only diagonal blocks are set, one position for each element at
    most, and the four block matrices are marked block-diagonal. *)
Theorem GenGlobalLinSysStaticCond_block_diagonal (mkey : GlobalMatrixKey)
    (m_exp : list (Expansion F)) (nbdry_size nint_size : list Z)
    (sys : GlobalLinSys F) :
  GenGlobalLinSysStaticCond m_exp mkey nbdry_size nint_size = Ok sys ->
  (forall a b,
     is_Some (GetBlock (SchurCompl sys) a b)
     \/ is_Some (GetBlock (BinvD sys) a b)
     \/ is_Some (GetBlock (Cblk sys) a b)
     \/ is_Some (GetBlock (invD sys) a b) ->
     a = b /\ (a < length m_exp)%nat)
  /\ blk_storage (SchurCompl sys) = eDIAGONAL
  /\ blk_storage (BinvD sys) = eDIAGONAL
  /\ blk_storage (Cblk sys) = eDIAGONAL
  /\ blk_storage (invD sys) = eDIAGONAL.
Proof.
  unfold GenGlobalLinSysStaticCond. intros Hrun.
  apply static_cond_blocks_diagonal in Hrun as (Hkeys & Hst).
  split; [| exact Hst].
  intros a b Hab. destruct (Hkeys a b) as (H1 & H2 & H3 & H4).
  simpl in *. unfold GetBlock, AllocateBlk in *. simpl in *.
  destruct Hab as [Hab | [Hab | [Hab | Hab]]];
    [apply H1 in Hab | apply H2 in Hab | apply H3 in Hab | apply H4 in Hab];
    (destruct Hab as [Hab|Hab];
     [rewrite lookup_empty in Hab; by destruct Hab | split; lia]).
Qed.

(** The run of the loop when every element yields its matrix. *)
Lemma static_cond_blocks_succeeds (mkey : GlobalMatrixKey)
    (m_exp : list (Expansion F)) :
  GetNvariableCoefficients mkey <= 0 ->
  Forall (fun e => exists loc,
            GetLocStaticCondMatrix e (GetMatrixType mkey) = Ok loc) m_exp ->
  forall (n : nat) (sys : GlobalLinSys F),
    exists sys', static_cond_blocks mkey m_exp n sys = Ok sys'.
Proof.
  intros Hnv. induction 1 as [|e rest [loc Hloc] _ IH]; intros n sys; simpl.
  - by eexists.
  - destruct (Z.ltb_spec 0 (GetNvariableCoefficients mkey)); [lia |].
    simpl. rewrite Hloc. simpl. apply IH.
Qed.

Lemma static_cond_blocks_placed (mkey : GlobalMatrixKey)
    (sys' : GlobalLinSys F) (e : Expansion F) (loc : DNekScalBlkMat F) :
  GetLocStaticCondMatrix e (GetMatrixType mkey) = Ok loc ->
  forall (m_exp : list (Expansion F)) (n i : nat) (sys : GlobalLinSys F),
    static_cond_blocks mkey m_exp n sys = Ok sys' ->
    m_exp !! i = Some e ->
    GetBlock (SchurCompl sys) (n + i) (n + i) = None ->
    GetBlock (BinvD sys) (n + i) (n + i) = None ->
    GetBlock (Cblk sys) (n + i) (n + i) = None ->
    GetBlock (invD sys) (n + i) (n + i) = None ->
    GetBlock (SchurCompl sys') (n + i) (n + i) = GetBlock loc 0 0
    /\ GetBlock (BinvD sys') (n + i) (n + i) = GetBlock loc 0 1
    /\ GetBlock (Cblk sys') (n + i) (n + i) = GetBlock loc 1 0
    /\ GetBlock (invD sys') (n + i) (n + i) = GetBlock loc 1 1.
Proof.
  intros Hloc.
  induction m_exp as [|e' rest IH]; intros n i sys Hrun Hi H1 H2 H3 H4;
    [done |].
  simpl in Hrun.
  destruct (if 0 <? GetNvariableCoefficients mkey
            then ASSERTL0 false _ else Ok tt); [| done].
  simpl in Hrun.
  destruct i as [|i].
  - injection Hi as ->. rewrite Hloc in Hrun. simpl in Hrun.
    rewrite Nat.add_0_r in *.
    destruct (static_cond_blocks_below _ _ _ _ _ Hrun n ltac:(lia))
      as (-> & -> & -> & ->).
    simpl. rewrite !copy_block_lookup, H1, H2, H3, H4.
    repeat split;
      match goal with |- context [GetBlock loc ?i ?j] =>
        destruct (GetBlock loc i j) end; try done; by case_decide.
  - destruct (GetLocStaticCondMatrix e' (GetMatrixType mkey)) as [loc'|];
      [| done].
    simpl in Hrun, Hi.
    replace (n + S i)%nat with (S n + i)%nat in * by lia.
    apply (IH _ _ _ Hrun Hi); simpl; rewrite copy_block_lookup;
      match goal with |- context [GetBlock loc' ?i ?j] =>
        destruct (GetBlock loc' i j) end; try done;
      case_decide as Heq; try done; injection Heq; lia.
Qed.

(** When every element yields its statically condensed matrix, the
    system is set up, and position [(n,n)] of the four block matrices
    holds the blocks (0,0), (0,1), (1,0) and (1,1) of the [n]-th
    element. *)
Theorem GenGlobalLinSysStaticCond_places_blocks (mkey : GlobalMatrixKey)
    (m_exp : list (Expansion F)) (nbdry_size nint_size : list Z) :
  GetNvariableCoefficients mkey <= 0 ->
  Forall (fun e => exists loc,
            GetLocStaticCondMatrix e (GetMatrixType mkey) = Ok loc) m_exp ->
  exists sys,
    GenGlobalLinSysStaticCond m_exp mkey nbdry_size nint_size = Ok sys
    /\ forall n e loc,
         m_exp !! n = Some e ->
         GetLocStaticCondMatrix e (GetMatrixType mkey) = Ok loc ->
         GetBlock (SchurCompl sys) n n = GetBlock loc 0 0
         /\ GetBlock (BinvD sys) n n = GetBlock loc 0 1
         /\ GetBlock (Cblk sys) n n = GetBlock loc 1 0
         /\ GetBlock (invD sys) n n = GetBlock loc 1 1.
Proof.
  intros Hnv Hall. unfold GenGlobalLinSysStaticCond.
  match goal with |- context [static_cond_blocks _ _ _ ?s] =>
    destruct (static_cond_blocks_succeeds mkey m_exp Hnv Hall 0 s)
      as [sys Hsys]
  end.
  exists sys. split; [exact Hsys |].
  intros n e loc He Hloc.
  apply (static_cond_blocks_placed mkey sys e loc Hloc m_exp 0 n _ Hsys He);
    apply lookup_empty.
Qed.

(** The first element whose statically condensed matrix cannot be made
    stops the set-up with its message. *)
Theorem GenGlobalLinSysStaticCond_first_failure (mkey : GlobalMatrixKey)
    (before after : list (Expansion F)) (e : Expansion F) (msg : string)
    (nbdry_size nint_size : list Z) :
  GetNvariableCoefficients mkey <= 0 ->
  Forall (fun e' => exists loc,
            GetLocStaticCondMatrix e' (GetMatrixType mkey) = Ok loc)
         before ->
  GetLocStaticCondMatrix e (GetMatrixType mkey) = Fatal msg ->
  GenGlobalLinSysStaticCond (before ++ e :: after) mkey nbdry_size nint_size
  = Fatal msg.
Proof.
  intros Hnv Hbefore He. unfold GenGlobalLinSysStaticCond.
  generalize 0%nat.
  generalize (mkLinSys (F := F)
                (AllocateBlk nbdry_size nbdry_size eDIAGONAL)
                (AllocateBlk nbdry_size nint_size eDIAGONAL)
                (AllocateBlk nint_size nbdry_size eDIAGONAL)
                (AllocateBlk nint_size nint_size eDIAGONAL)).
  induction Hbefore as [|e' rest [loc Hloc] _ IH]; intros sys n; simpl.
  - destruct (Z.ltb_spec 0 (GetNvariableCoefficients mkey)); [lia |].
    simpl. by rewrite He.
  - destruct (Z.ltb_spec 0 (GetNvariableCoefficients mkey)); [lia |].
    simpl. rewrite Hloc. simpl. apply IH.
Qed.
End StaticCondSystemFurther.

Lemma GenGlobalMatrixFull_slots_in_range_witness :
  exists G,
    ExpList.GenGlobalMatrixFull Examples.line_exp Examples.key_helm
                                Examples.l2g_line = Ok G
    /\ (is_Some (ExpList.g_data G !! (1, 1)) -> 1 < ExpList.g_rows G).
Proof.
  destruct (GenGlobalMatrixFull_slots_in_range Examples.line_exp
              Examples.key_helm Examples.l2g_line) as (G & HG & Hslots);
    [simpl; lia | simpl; lia | simpl; lia | |].
  - intros [|[|[|[|[|idx]]]]]; simpl; lia.
  - exists G. split; [exact HG |].
    intros Hsome. destruct (Hslots 1 1 Hsome) as ((_ & Hrow) & _).
    exact Hrow.
Defined.

Lemma dense_assembly_agrees_with_sparse_witness :
  exists G Gm,
    ExpList.GenGlobalMatrix Examples.line_exp 6 Examples.key_mass
                            Examples.l2g_free = Ok G
    /\ ExpList.GenGlobalMatrixFull Examples.line_exp Examples.key_mass
                                   Examples.l2g_free = Ok Gm
    /\ ExpList.GmatGetValue Gm 1 1
       = default 0 (ExpList.spcoomat G !! (1, 1)).
Proof.
  destruct (dense_assembly_agrees_with_sparse Examples.line_exp 6
              Examples.key_mass Examples.l2g_free)
    as (G & Gm & HG & HGm & Hent).
  - intros x. reflexivity.
  - simpl; lia.
  - by left.
  - reflexivity.
  - repeat constructor.
  - exists G, Gm. split; [exact HG |]. split; [exact HGm |].
    apply Hent; [lia | lia | right; lia].
Defined.

Lemma variable_coefficients_refused_witness :
  ExpList.GenGlobalMatrixFull Examples.line_exp Examples.key_varcoeff
                              Examples.l2g_line
  = Fatal "method not set up for non-Dirichlet conditions".
Proof.
  destruct (variable_coefficients_refused Examples.line_exp 6
              Examples.key_varcoeff Examples.l2g_line [] [])
    as (Hfull & _).
  - intros [] msg; reflexivity.
  - simpl; lia.
  - discriminate.
  - exact Hfull.
Defined.

Lemma CreateStaticCondMatrix_inversion_fails_witness :
  TetExp.CreateStaticCondMatrix Examples.Invert1 Examples.tet3_singular
                                eHelmholtz
  = Fatal "singular matrix".
Proof.
  apply (CreateStaticCondMatrix_inversion_fails Examples.Invert1
           Examples.tet3_singular eHelmholtz);
    try (intros ?; reflexivity); try reflexivity.
Defined.

Lemma CreateStaticCondMatrix_regular_witness :
  exists blk,
    TetExp.CreateStaticCondMatrix Examples.no_Invert Examples.tet_regular
                                  eMass = Ok blk
    /\ GetBlock blk 0 0 = Some (mkScal 6 (mkMat 1 1 [[0]]))
    /\ GetBlock blk 1 1 = Some (mkScal (1 / 6) (mkMat 1 1 [[3]])).
Proof.
  destruct (CreateStaticCondMatrix_regular Examples.no_Invert
              Examples.tet_regular eMass)
    as (blk & Hblk & H00 & _ & _ & H11 & _);
    try (intros ?; reflexivity); try reflexivity; try discriminate.
  exists blk. split; [exact Hblk |]. split; [exact H00 | exact H11].
Defined.

Lemma GenGlobalLinSysStaticCond_block_diagonal_witness :
  match ExpList.GenGlobalLinSysStaticCond
          [Examples.tet_entry Examples.tet3] Examples.key_helm [2] [1]
  with
  | Ok sys =>
      ~ is_Some (GetBlock (ExpList.SchurCompl sys) 0 1)
      /\ blk_storage (ExpList.SchurCompl sys) = eDIAGONAL
  | Fatal _ => False
  end.
Proof.
  destruct (ExpList.GenGlobalLinSysStaticCond
              [Examples.tet_entry Examples.tet3] Examples.key_helm [2] [1])
    as [sys | msg] eqn:Hsys.
  - destruct (GenGlobalLinSysStaticCond_block_diagonal Examples.key_helm
                [Examples.tet_entry Examples.tet3] [2] [1] sys Hsys)
      as (Hdiag & Hst & _).
    split; [| exact Hst].
    intros Hsome. destruct (Hdiag 0%nat 1%nat (or_introl Hsome)) as [Heq _].
    discriminate Heq.
  - discriminate Hsys.
Defined.

Lemma GenGlobalLinSysStaticCond_places_blocks_witness :
  exists sys,
    ExpList.GenGlobalLinSysStaticCond
      [Examples.tet_entry Examples.tet2; Examples.tet_entry Examples.tet3]
      Examples.key_helm [2; 2] [0; 1] = Ok sys
    /\ GetBlock (ExpList.SchurCompl sys) 1 1
       = Some (mkScal 1 (mkMat 2 2 [[0; -5]; [-5; -4]])).
Proof.
  destruct (GenGlobalLinSysStaticCond_places_blocks Examples.key_helm
              [Examples.tet_entry Examples.tet2;
               Examples.tet_entry Examples.tet3] [2; 2] [0; 1])
    as (sys & Hsys & Hblocks).
  - simpl; lia.
  - repeat constructor; eexists; reflexivity.
  - exists sys. split; [exact Hsys |].
    destruct (Hblocks 1%nat (Examples.tet_entry Examples.tet3) _
                eq_refl eq_refl) as (H00 & _).
    exact H00.
Defined.

Lemma GenGlobalLinSysStaticCond_first_failure_witness :
  ExpList.GenGlobalLinSysStaticCond
    ([Examples.tet_entry Examples.tet3]
     ++ Examples.tet_entry Examples.tet3_singular
     :: [Examples.tet_entry Examples.tet2])
    Examples.key_helm [2; 2; 2] [1; 1; 0]
  = Fatal "singular matrix".
Proof.
  apply (GenGlobalLinSysStaticCond_first_failure Examples.key_helm
           [Examples.tet_entry Examples.tet3]
           [Examples.tet_entry Examples.tet2]
           (Examples.tet_entry Examples.tet3_singular)).
  - simpl; lia.
  - repeat constructor; eexists; reflexivity.
  - reflexivity.
Defined.

(** ** The storage of an expansion list *)

Section CopyLemmas.
Context {A : Type}.

Lemma foldl_insert_length (g : nat -> A) (js : list nat) :
  forall l : list A,
    length (foldl (fun l j => <[j := g j]> l) l js) = length l.
Proof.
  induction js as [|j js IH]; intros l; simpl; [done |].
  by rewrite IH, length_insert.
Qed.

Lemma sum_list_app (l1 l2 : list nat) :
  sum_list (l1 ++ l2) = (sum_list l1 + sum_list l2)%nat.
Proof. induction l1 as [|x l1 IH]; simpl; [done | rewrite IH; lia]. Qed.
End CopyLemmas.

Section StorageProperties.
Context {F : Type} `{Scalar F} `{ErrorUtil}.
Import ExpListStorage.

Lemma Vcopy_lookup (n : nat) (x y : list F) (i : nat) :
  Vcopy n x y !! i
  = if decide (i < n /\ i < length y)%nat
    then Some (default fzero (x !! i)) else y !! i.
Proof.
  unfold Vcopy.
  rewrite (foldl_insert_lookup (fun i => default fzero (x !! i))).
  repeat case_decide; try done; lia.
Qed.

Lemma Vcopy_length (n : nat) (x y : list F) :
  length (Vcopy n x y) = length y.
Proof.
  unfold Vcopy.
  apply (foldl_insert_length (fun i => default fzero (x !! i))).
Qed.

Lemma Vcopy_exact (n : nat) (x y : list F) :
  (n <= length x)%nat -> (n <= length y)%nat ->
  Vcopy n x y = take n x ++ drop n y.
Proof.
  intros Hx Hy. apply list_eq. intros i. rewrite Vcopy_lookup.
  case_decide as Hi.
  - rewrite lookup_app_l by (rewrite length_take; lia).
    rewrite lookup_take_lt by lia.
    destruct (lookup_lt_is_Some_2 x i ltac:(lia)) as [v ->]. done.
  - destruct (decide (i < n)%nat) as [Hlt|Hge]; [lia |].
    rewrite lookup_app_r by (rewrite length_take; lia).
    rewrite length_take, lookup_drop. f_equal. lia.
Qed.

Lemma Vcopy_to_length (n : nat) (x y : list F) (cnt : nat) :
  length (Vcopy_to n x y cnt) = length y.
Proof.
  unfold Vcopy_to.
  rewrite length_app, length_take, Vcopy_length, length_drop. lia.
Qed.

Lemma Vcopy_to_lookup (n : nat) (x y : list F) (cnt p : nat) :
  Vcopy_to n x y cnt !! p
  = if decide ((cnt <= p < cnt + n)%nat /\ (p < length y)%nat)
    then Some (default fzero (x !! (p - cnt)%nat)) else y !! p.
Proof.
  unfold Vcopy_to.
  destruct (decide (p < cnt)%nat) as [Hlt|Hge].
  - rewrite decide_False by lia.
    destruct (decide (p < length y)%nat) as [Hp|Hp].
    + rewrite lookup_app_l by (rewrite length_take; lia).
      by rewrite lookup_take_lt.
    + rewrite (lookup_ge_None_2 y p) by lia.
      apply lookup_ge_None_2.
      rewrite length_app, length_take, Vcopy_length, length_drop. lia.
  - destruct (decide (cnt <= length y)%nat) as [Hc|Hc].
    + rewrite lookup_app_r by (rewrite length_take; lia).
      rewrite length_take, Nat.min_l by done.
      rewrite Vcopy_lookup, length_drop, lookup_drop.
      repeat case_decide; try lia; try done.
      f_equal. lia.
    + rewrite decide_False by lia.
      rewrite (lookup_ge_None_2 y p) by lia.
      apply lookup_ge_None_2.
      rewrite length_app, length_take, Vcopy_length, length_drop. lia.
Qed.

(** *** SetCoeffPhys *)

Lemma coeffs_before_S (exps : list (Element F)) (i : nat) (e : Element F) :
  exps !! i = Some e ->
  coeffs_before exps (S i) = (coeffs_before exps i + GetNcoeffs e)%nat
  /\ points0_before exps (S i)
     = (points0_before exps i + GetNumPoints0 e)%nat
  /\ points_before exps (S i) = (points_before exps i + GetTotPoints e)%nat.
Proof.
  intros He. unfold coeffs_before, points0_before, points_before.
  rewrite (take_S_r _ _ _ He), !fmap_app, !sum_list_app. simpl. lia.
Qed.

Lemma coeffs_before_mono (exps : list (Element F)) (i j : nat) :
  (i <= j)%nat -> (coeffs_before exps i <= coeffs_before exps j)%nat.
Proof.
  induction 1 as [|j _ IH]; [done |].
  destruct (exps !! j) as [e|] eqn:He.
  - destruct (coeffs_before_S exps j e He) as [-> _]. lia.
  - unfold coeffs_before in *.
    apply lookup_ge_None_1 in He.
    rewrite (take_ge exps (S j)) by lia.
    by rewrite (take_ge exps j) in IH by lia.
Qed.

Lemma layout_fold (exps : list (Element F)) :
  forall (rest front : list (Element F)) (l : Layout),
    exps = front ++ rest ->
    l_i l = length front ->
    l_ncoeffs l = coeffs_before exps (length front) ->
    l_npoints l = points0_before exps (length front) ->
    length (l_coeff_offset l) = length exps ->
    length (l_phys_offset l) = length exps ->
    (forall j, (j < length front)%nat ->
       l_coeff_offset l !! j = Some (coeffs_before exps j)
       /\ l_phys_offset l !! j = Some (points0_before exps j)) ->
    let l' := foldl layout_step l rest in
    l_ncoeffs l' = coeffs_before exps (length exps)
    /\ l_npoints l' = points0_before exps (length exps)
    /\ length (l_coeff_offset l') = length exps
    /\ length (l_phys_offset l') = length exps
    /\ forall j, (j < length exps)%nat ->
         l_coeff_offset l' !! j = Some (coeffs_before exps j)
         /\ l_phys_offset l' !! j = Some (points0_before exps j).
Proof.
  induction rest as [|e rest IH];
    intros front l Hexps Hi Hnc Hnp Hlc Hlp Hoff; simpl.
  - rewrite app_nil_r in Hexps. subst front. done.
  - assert (He : exps !! length front = Some e).
    { rewrite Hexps. by apply list_lookup_middle. }
    destruct (coeffs_before_S exps _ e He) as (Hc & Hp & _).
    apply (IH (front ++ [e])); simpl.
    + by rewrite <- app_assoc.
    + rewrite length_app. simpl. lia.
    + rewrite length_app. simpl.
      replace (length front + 1)%nat with (S (length front)) by lia.
      rewrite Hc. lia.
    + rewrite length_app. simpl.
      replace (length front + 1)%nat with (S (length front)) by lia.
      rewrite Hp. lia.
    + by rewrite length_insert.
    + by rewrite length_insert.
    + intros j Hj. rewrite length_app in Hj. simpl in Hj.
      assert (Hlen : (length front < length exps)%nat).
      { by apply lookup_lt_is_Some_1. }
      rewrite Hi.
      destruct (decide (j = length front)) as [->|Hne].
      * rewrite !list_lookup_insert_eq by lia. by rewrite Hnc, Hnp.
      * rewrite !list_lookup_insert_ne by done. apply Hoff. lia.
Qed.

(** [SetCoeffPhys] lays the elements out one behind the other: the
    offset of an element is the number of coefficients (of points in the
    first direction) of the elements in front of it, the totals are
    those of all elements, the arrays have the lengths of the totals,
    and the coefficients of every element lie inside [m_coeffs]. *)
Theorem SetCoeffPhys_layout (s : Storage F) :
  let exps := m_exp s in
  let s' := SetCoeffPhys s in
  m_exp s' = exps
  /\ m_ncoeffs s' = coeffs_before exps (length exps)
  /\ m_npoints s' = points0_before exps (length exps)
  /\ length (m_coeffs s') = m_ncoeffs s'
  /\ length (m_phys s') = m_npoints s'
  /\ m_coeff_offset s' = map (coeffs_before exps) (seq 0 (length exps))
  /\ m_phys_offset s' = map (points0_before exps) (seq 0 (length exps))
  /\ forall i e, exps !! i = Some e ->
       (coeffs_before exps i + GetNcoeffs e <= m_ncoeffs s')%nat.
Proof.
  intros exps s'.
  destruct (layout_fold exps exps []
              (mkLayout 0 (replicate (length exps) 0%nat)
                        (replicate (length exps) 0%nat) 0 0))
    as (Hnc & Hnp & Hlc & Hlp & Hoff);
    try done; try (simpl; by rewrite length_replicate);
    try (intros j Hj; simpl in Hj; lia).
  unfold s', SetCoeffPhys. fold exps. simpl.
  split; [done |]. split; [done |]. split; [done |].
  split; [by rewrite length_replicate |].
  split; [by rewrite length_replicate |].
  split; [| split].
  - apply list_eq. intros j. rewrite list_lookup_fmap.
    destruct (decide (j < length exps)%nat) as [Hj|Hj].
    + rewrite lookup_seq_lt by done. simpl. by apply Hoff.
    + rewrite lookup_seq_ge by lia. apply lookup_ge_None_2. lia.
  - apply list_eq. intros j. rewrite list_lookup_fmap.
    destruct (decide (j < length exps)%nat) as [Hj|Hj].
    + rewrite lookup_seq_lt by done. simpl. by apply Hoff.
    + rewrite lookup_seq_ge by lia. apply lookup_ge_None_2. lia.
  - intros i e He. rewrite Hnc.
    destruct (coeffs_before_S exps i e He) as [<- _].
    apply coeffs_before_mono. by apply lookup_lt_Some in He.
Qed.

(** *** One element and all elements *)

Lemma put_coeffs_length (coeffs : list F) (exps : list (Element F)) :
  forall cnt, length (put_coeffs coeffs cnt exps) = length exps.
Proof. induction exps as [|e rest IH]; intros cnt; simpl; [done | by rewrite IH]. Qed.

Lemma put_coeffs_lookup (coeffs : list F) (exps : list (Element F)) :
  forall (cnt i : nat),
    put_coeffs coeffs cnt exps !! i
    = (fun e => with_coeffs e
                  (Vcopy (GetNcoeffs e)
                         (drop (cnt + coeffs_before exps i) coeffs)
                         (UpdateCoeffs e)))
      <$> exps !! i.
Proof.
  induction exps as [|e rest IH]; intros cnt i; [done |].
  destruct i as [|i]; simpl.
  - unfold coeffs_before. simpl. by rewrite Nat.add_0_r.
  - rewrite IH. unfold coeffs_before. simpl.
    by rewrite Nat.add_assoc.
Qed.

Lemma put_elmt_coeffs_app (front rest : list (Element F)) :
  forall (cnt : nat) (coeffs : list F),
    put_elmt_coeffs (front ++ rest) cnt coeffs
    = put_elmt_coeffs rest
        (cnt + sum_list (GetNcoeffs <$> front))
        (put_elmt_coeffs front cnt coeffs).
Proof.
  induction front as [|e front IH]; intros cnt coeffs; simpl.
  - by rewrite Nat.add_0_r.
  - rewrite IH. by rewrite Nat.add_assoc.
Qed.

Lemma insert_take_drop_next {X : Type} (P E : list X) (i : nat) (v : X) :
  P !! i = Some v -> (i < length E)%nat ->
  <[i := v]> (take i P ++ drop i E) = take (S i) P ++ drop (S i) E.
Proof.
  intros HP HE.
  assert (Hlen : length (take i P) = i).
  { rewrite length_take. apply lookup_lt_Some in HP. lia. }
  destruct (lookup_lt_is_Some_2 E i HE) as [x Hx].
  rewrite (drop_S E x i Hx), (take_S_r P i v HP).
  rewrite insert_app_r_alt by lia.
  rewrite Hlen, Nat.sub_diag. simpl. by rewrite <- app_assoc.
Qed.

(** When the offsets are those of the layout, copying the elements one
    by one through their offsets is the copy of all elements, in both
    directions. *)
Theorem element_copies_make_the_full_copy (s : Storage F) :
  let size := length (m_exp s) in
  m_coeff_offset s = map (coeffs_before (m_exp s)) (seq 0 size) ->
  foldl PutCoeffsInToElmtExp_eid s (seq 0 size) = PutCoeffsInToElmtExp s
  /\ foldl PutElmtExpInToCoeffs_eid s (seq 0 size) = PutElmtExpInToCoeffs s.
Proof.
  intros size Hoff.
  assert (Hlook : forall i, (i < size)%nat ->
            m_coeff_offset s !! i = Some (coeffs_before (m_exp s) i)).
  { intros i Hi. rewrite Hoff, list_lookup_fmap, lookup_seq_lt by done.
    done. }
  split.
  - assert (Hgen : forall n, (n <= size)%nat ->
              foldl PutCoeffsInToElmtExp_eid s (seq 0 n)
              = with_exp s (take n (put_coeffs (m_coeffs s) 0 (m_exp s))
                            ++ drop n (m_exp s))).
    { induction n as [|n IH]; intros Hn.
      - simpl. rewrite drop_0. by destruct s.
      - rewrite seq_S, foldl_app, IH by lia. simpl.
        destruct (lookup_lt_is_Some_2 (m_exp s) n ltac:(lia)) as [e He].
        unfold PutCoeffsInToElmtExp_eid. simpl.
        rewrite lookup_app_r
          by (rewrite length_take, put_coeffs_length; lia).
        rewrite length_take, put_coeffs_length, Nat.min_l by lia.
        rewrite lookup_drop, Nat.sub_diag, Nat.add_0_r, He, (Hlook n) by lia.
        unfold with_exp. simpl. f_equal.
        apply insert_take_drop_next; [| lia].
        by rewrite put_coeffs_lookup, He. }
    rewrite Hgen by done. unfold PutCoeffsInToElmtExp, size. f_equal.
    rewrite drop_all, app_nil_r.
    apply take_ge. by rewrite put_coeffs_length.
  - assert (Hgen : forall n, (n <= size)%nat ->
              foldl PutElmtExpInToCoeffs_eid s (seq 0 n)
              = with_m_coeffs s
                  (put_elmt_coeffs (take n (m_exp s)) 0 (m_coeffs s))).
    { induction n as [|n IH]; intros Hn.
      - simpl. by destruct s.
      - rewrite seq_S, foldl_app, IH by lia. simpl.
        destruct (lookup_lt_is_Some_2 (m_exp s) n ltac:(lia)) as [e He].
        unfold PutElmtExpInToCoeffs_eid. simpl.
        rewrite He, (Hlook n) by lia.
        unfold with_m_coeffs. simpl. f_equal.
        by rewrite (take_S_r _ _ _ He), put_elmt_coeffs_app. }
    rewrite Hgen by done. unfold PutElmtExpInToCoeffs, size.
    by rewrite take_ge by done.
Qed.

(** *** What the full copies do *)

Lemma put_elmt_coeffs_concat (exps : list (Element F)) :
  Forall (fun e => (GetNcoeffs e <= length (UpdateCoeffs e))%nat) exps ->
  forall (cnt : nat) (coeffs : list F),
    (cnt + sum_list (GetNcoeffs <$> exps) <= length coeffs)%nat ->
    put_elmt_coeffs exps cnt coeffs
    = take cnt coeffs
      ++ (exps ≫= fun e => take (GetNcoeffs e) (UpdateCoeffs e))
      ++ drop (cnt + sum_list (GetNcoeffs <$> exps)) coeffs.
Proof.
  induction 1 as [|e rest He _ IH]; intros cnt coeffs Hlen.
  - simpl. by rewrite Nat.add_0_r, take_drop.
  - change (sum_list (GetNcoeffs <$> e :: rest))
      with (GetNcoeffs e + sum_list (GetNcoeffs <$> rest))%nat in *.
    change (put_elmt_coeffs (e :: rest) cnt coeffs)
      with (put_elmt_coeffs rest (cnt + GetNcoeffs e)
              (Vcopy_to (GetNcoeffs e) (UpdateCoeffs e) coeffs cnt)).
    change ((e :: rest) ≫= (fun e0 => take (GetNcoeffs e0) (UpdateCoeffs e0)))
      with (take (GetNcoeffs e) (UpdateCoeffs e)
            ++ (rest ≫= fun e0 => take (GetNcoeffs e0) (UpdateCoeffs e0))).
    generalize dependent (GetNcoeffs e). intros n He Hlen.
    generalize dependent (sum_list (GetNcoeffs <$> rest)). intros m IH Hlen.
    assert (Hstep : Vcopy_to n (UpdateCoeffs e) coeffs cnt
                    = (take cnt coeffs ++ take n (UpdateCoeffs e))
                      ++ drop (cnt + n) coeffs).
    { unfold Vcopy_to.
      rewrite Vcopy_exact by (try rewrite length_drop; lia).
      by rewrite drop_drop, app_assoc. }
    rewrite IH by (rewrite Vcopy_to_length; lia).
    rewrite Hstep.
    assert (Hl : (cnt + n)%nat
                 = length (take cnt coeffs ++ take n (UpdateCoeffs e)))
      by (rewrite length_app, !length_take; lia).
    rewrite (take_app_length' _ _ _ Hl), (drop_app_add' _ _ _ _ Hl).
    by rewrite drop_drop, <- !app_assoc, Nat.add_assoc.
Qed.

(** After [PutElmtExpInToCoeffs] the array [m_coeffs] begins with the
    coefficients of the elements one after the other, each with its
    [GetNcoeffs()] leading coefficients; what lies behind them stays. *)
Theorem PutElmtExpInToCoeffs_concatenates (s : Storage F) :
  let total := sum_list (GetNcoeffs <$> m_exp s) in
  Forall (fun e => (GetNcoeffs e <= length (UpdateCoeffs e))%nat)
         (m_exp s) ->
  (total <= length (m_coeffs s))%nat ->
  m_coeffs (PutElmtExpInToCoeffs s)
  = (m_exp s ≫= fun e => take (GetNcoeffs e) (UpdateCoeffs e))
    ++ drop total (m_coeffs s).
Proof.
  intros total Hel Hlen. unfold PutElmtExpInToCoeffs. simpl.
  by rewrite put_elmt_coeffs_concat by done.
Qed.

(** *** Round trips *)

Lemma Vcopy_back (n cnt : nat) (c coeffs : list F) :
  (n <= length c)%nat ->
  Vcopy_to n (Vcopy n (drop cnt coeffs) c) coeffs cnt = coeffs.
Proof.
  intros Hn. apply list_eq. intros p. rewrite Vcopy_to_lookup.
  case_decide as Hp; [| done].
  rewrite Vcopy_lookup, decide_True by lia.
  rewrite lookup_drop.
  replace (cnt + (p - cnt))%nat with p by lia.
  destruct (lookup_lt_is_Some_2 coeffs p ltac:(lia)) as [v ->]. done.
Qed.

Lemma put_elmt_coeffs_back (coeffs : list F) (exps : list (Element F)) :
  Forall (fun e => (GetNcoeffs e <= length (UpdateCoeffs e))%nat) exps ->
  forall cnt : nat,
    put_elmt_coeffs (put_coeffs coeffs cnt exps) cnt coeffs = coeffs.
Proof.
  induction 1 as [|e rest He _ IH]; intros cnt; [done |].
  change (put_elmt_coeffs (put_coeffs coeffs cnt (e :: rest)) cnt coeffs)
    with (put_elmt_coeffs
            (put_coeffs coeffs (cnt + GetNcoeffs e) rest)
            (cnt + GetNcoeffs e)
            (Vcopy_to (GetNcoeffs e)
               (Vcopy (GetNcoeffs e) (drop cnt coeffs) (UpdateCoeffs e))
               coeffs cnt)).
  by rewrite Vcopy_back, IH.
Qed.

(** Handing the coefficients to the elements and collecting them again
    gives back [m_coeffs] as it was, whatever its length, as long as
    every element has room for its coefficients. *)
Theorem coefficients_round_trip (s : Storage F) :
  Forall (fun e => (GetNcoeffs e <= length (UpdateCoeffs e))%nat)
         (m_exp s) ->
  m_coeffs (PutElmtExpInToCoeffs (PutCoeffsInToElmtExp s)) = m_coeffs s.
Proof.
  intros Hel. unfold PutElmtExpInToCoeffs, PutCoeffsInToElmtExp. simpl.
  by apply put_elmt_coeffs_back.
Qed.

(** *** Field data *)

Lemma AppendFieldData_data (s : Storage F) (ids : list nat) :
  forall fielddata : list F,
    AppendFieldData s ids fielddata = fielddata ++ (ids ≫= element_data s).
Proof.
  induction ids as [|eid ids IH]; intros fielddata.
  - simpl. by rewrite app_nil_r.
  - change ((eid :: ids) ≫= element_data s)
      with (element_data s eid ++ (ids ≫= element_data s)).
    unfold AppendFieldData in *. simpl. rewrite IH.
    unfold element_data, coeff_slot.
    destruct (m_exp s !! eid), (m_coeff_offset s !! eid); simpl;
      by rewrite ?app_assoc, ?app_nil_r.
Qed.

Lemma written_data_blocks (fields : list (Storage F)) (ids : list nat) :
  written_data fields ids = fields ≫= fun s => ids ≫= element_data s.
Proof.
  unfold written_data.
  assert (Hgen : forall fielddata : list F,
            foldl (fun fd s => AppendFieldData s ids fd) fielddata fields
            = fielddata ++ (fields ≫= fun s => ids ≫= element_data s)).
  { induction fields as [|s fields IH]; intros fielddata; simpl.
    - by rewrite app_nil_r.
    - rewrite IH, AppendFieldData_data.
      change ((s :: fields) ≫= (fun s0 => ids ≫= element_data s0))
        with ((ids ≫= element_data s)
              ++ (fields ≫= fun s0 => ids ≫= element_data s0)).
      by rewrite app_assoc. }
  apply (Hgen []).
Qed.

Lemma extract_step_slot (t : Storage F) (data : list F) (offset : nat)
    (cur : list F) (cnt eid : nat) :
  extract_step t data offset (cur, cnt) eid
  = match coeff_slot t eid with
    | Some (off, n) =>
        (Vcopy_to n (drop (offset + cnt) data) cur off, (cnt + n)%nat)
    | None => (cur, cnt)
    end.
Proof.
  unfold extract_step, coeff_slot.
  by destruct (m_exp t !! eid), (m_coeff_offset t !! eid).
Qed.

Lemma conforms_block_length (ids : list nat) (s t : Storage F) :
  conforms ids s t ->
  length (ids ≫= element_data s)
  = sum_list ((fun eid => default 0%nat (snd <$> coeff_slot t eid)) <$> ids).
Proof.
  induction 1 as [|eid ids (off & n & Hs & Ht & Hr & _) _ IH]; [done |].
  change ((eid :: ids) ≫= element_data s)
    with (element_data s eid ++ (ids ≫= element_data s)).
  rewrite length_app, IH. simpl. rewrite Ht. simpl. f_equal.
  unfold element_data. rewrite Hs, length_take, length_drop. lia.
Qed.

Lemma blocks_length {X : Type} (f : X -> list F) (L : nat) (ws : list X) :
  Forall (fun w => length (f w) = L) ws ->
  length (ws ≫= f) = (L * length ws)%nat.
Proof.
  induction 1 as [|w ws Hw _ IH]; [simpl; lia |].
  change ((w :: ws) ≫= f) with (f w ++ (ws ≫= f)).
  rewrite length_app, IH, Hw. simpl. lia.
Qed.

Lemma blocks_drop {X : Type} (f : X -> list F) (L : nat) (ws : list X) :
  Forall (fun w => length (f w) = L) ws ->
  forall (i : nat) (w : X),
    ws !! i = Some w ->
    drop (i * L) (ws ≫= f) = f w ++ (drop (S i) ws ≫= f).
Proof.
  induction 1 as [|w0 ws Hw _ IH]; intros i w Hi; [done |].
  change ((w0 :: ws) ≫= f) with (f w0 ++ (ws ≫= f)).
  destruct i as [|i].
  - injection Hi as ->. simpl. by rewrite drop_0.
  - simpl in Hi. change (S i * L)%nat with (L + i * L)%nat.
    rewrite drop_app_add' by done. by apply IH.
Qed.

Lemma extract_fold (s t : Storage F) (data : list F) (offset : nat) :
  forall (ids : list nat) (cur : list F) (cnt : nat) (tail : list F),
    conforms ids s t ->
    length cur = length (m_coeffs t) ->
    drop (offset + cnt) data = (ids ≫= element_data s) ++ tail ->
    let res := (foldl (extract_step t data offset) (cur, cnt) ids).1 in
    length res = length cur
    /\ forall p,
         ((cur !! p = m_coeffs s !! p
           \/ exists eid, eid ∈ ids /\ in_slice s eid p) ->
          res !! p = m_coeffs s !! p)
         /\ ((forall eid, eid ∈ ids -> ~ in_slice s eid p) ->
             res !! p = cur !! p).
Proof.
  induction ids as [|eid ids IH]; intros cur cnt tail Hconf Hlen Hdata;
    cbv zeta.
  - simpl. split; [done |]. intros p. split; [| done].
    intros [Hp | (eid & Hin & _)]; [done | by apply elem_of_nil in Hin].
  - apply Forall_cons in Hconf as [(off & n & Hs & Ht & Hr & Hr') Hconf].
    change ((eid :: ids) ≫= element_data s)
      with (element_data s eid ++ (ids ≫= element_data s)) in Hdata.
    assert (Hchunk : element_data s eid = take n (drop off (m_coeffs s))).
    { unfold element_data. by rewrite Hs. }
    assert (Hclen : length (element_data s eid) = n).
    { rewrite Hchunk, length_take, length_drop. lia. }
    assert (Hdata' : drop (offset + (cnt + n)) data
                     = (ids ≫= element_data s) ++ tail).
    { rewrite Nat.add_assoc, <- drop_drop, Hdata, <- app_assoc.
      by apply drop_app_length'. }
    cbn [foldl]. rewrite extract_step_slot, Ht.
    set (cur' := Vcopy_to n (drop (offset + cnt) data) cur off).
    assert (Hcur' : forall p,
              cur' !! p = if decide (off <= p < off + n)%nat
                          then m_coeffs s !! p else cur !! p).
    { intros p. unfold cur'. rewrite Vcopy_to_lookup.
      destruct (decide (off <= p < off + n)%nat) as [Hp|Hp].
      - rewrite decide_True by lia.
        rewrite Hdata, <- app_assoc, lookup_app_l by lia.
        rewrite Hchunk, lookup_take_lt, lookup_drop by lia.
        replace (off + (p - off))%nat with p by lia.
        destruct (lookup_lt_is_Some_2 (m_coeffs s) p ltac:(lia)) as [v ->].
        done.
      - by rewrite decide_False by lia. }
    destruct (IH cur' (cnt + n)%nat tail Hconf) as [Hl Hres].
    { unfold cur'. by rewrite Vcopy_to_length. }
    { exact Hdata'. }
    split; [rewrite Hl; unfold cur'; by rewrite Vcopy_to_length |].
    intros p. destruct (Hres p) as [H1 H2]. split.
    + intros Hp. apply H1. rewrite Hcur'.
      case_decide as Hrange; [by left |].
      destruct Hp as [Hp | (eid' & Hin & Hsl)]; [by left |].
      apply elem_of_cons in Hin as [-> | Hin].
      * destruct Hsl as (off' & n' & Hs2 & Hrange').
        rewrite Hs in Hs2. injection Hs2 as <- <-. lia.
      * right. by exists eid'.
    + intros Hno. rewrite H2.
      * rewrite Hcur'. case_decide as Hrange; [| done].
        exfalso. apply (Hno eid); [by left |]. by exists off, n.
      * intros eid' Hin. apply Hno. by right.
Qed.

(** The data of several fields, appended field after field for the
    same list of elements, is read back by [ExtractDataToCoeffs]: asked
    for the [i]-th field name it sets the coefficients of every listed
    element to those the [i]-th field had, and touches no coefficient of
    another element. *)
Theorem field_data_round_trip (fields : list (Storage F))
    (m_Fields : list string) (ids : list nat) (t : Storage F) (i : nat)
    (s : Storage F) (field : string) :
  passes ASSERTL0 ->
  length m_Fields = length fields ->
  field_index m_Fields field = i ->
  fields !! i = Some s ->
  Forall (fun w => conforms ids w t) fields ->
  exists restored,
    ExtractDataToCoeffs t m_Fields ids (written_data fields ids) field
    = Some (Ok restored)
    /\ m_exp restored = m_exp t
    /\ m_coeff_offset restored = m_coeff_offset t
    /\ length (m_coeffs restored) = length (m_coeffs t)
    /\ forall p,
         ((exists eid, eid ∈ ids /\ in_slice s eid p) ->
          m_coeffs restored !! p = m_coeffs s !! p)
         /\ ((forall eid, eid ∈ ids -> ~ in_slice s eid p) ->
             m_coeffs restored !! p = m_coeffs t !! p).
Proof.
  intros Hpass Hlen Hidx Hs Hconf.
  pose (L := sum_list ((fun eid => default 0%nat (snd <$> coeff_slot t eid))
                       <$> ids)).
  assert (Hblocks : Forall (fun w => length (ids ≫= element_data w) = L)
                           fields).
  { eapply Forall_impl; [exact Hconf |]. intros w Hw.
    by apply conforms_block_length. }
  assert (Hi : (i < length fields)%nat) by (by apply lookup_lt_Some in Hs).
  unfold ExtractDataToCoeffs, divide. rewrite Hidx.
  destruct (Nat.eqb_spec (length m_Fields) 0) as [?|_]; [lia |].
  destruct (Nat.eqb_spec i (length m_Fields)) as [?|_]; [lia |].
  simpl. rewrite Hpass. simpl.
  eexists; split; [reflexivity |]. simpl.
  split; [done |]. split; [done |].
  rewrite written_data_blocks.
  rewrite (blocks_length _ L) by done.
  rewrite Hlen, Nat.div_mul by lia.
  assert (Hc : conforms ids s t).
  { rewrite list.Forall_forall in Hconf. apply Hconf.
    by eapply list_elem_of_lookup_2. }
  destruct (extract_fold s t
              (fields ≫= fun w => ids ≫= element_data w) (i * L)
              ids (m_coeffs t) 0
              (drop (S i) fields ≫= fun w => ids ≫= element_data w) Hc)
    as [Hl Hres]; [done | |].
  { rewrite Nat.add_0_r.
    by apply (blocks_drop (fun w => ids ≫= element_data w)). }
  split; [exact Hl |].
  intros p. destruct (Hres p) as [H1 H2]. split.
  - intros Hp. apply H1. by right.
  - exact H2.
Qed.

Lemma field_index_bound (m_Fields : list string) (field : string) :
  (field_index m_Fields field <= length m_Fields)%nat.
Proof.
  induction m_Fields as [|f rest IH]; simpl; [done |].
  destruct (String.eqb f field); lia.
Qed.

Lemma field_index_missing (m_Fields : list string) (field : string) :
  field_index m_Fields field = length m_Fields <-> field ∉ m_Fields.
Proof.
  induction m_Fields as [|f rest IH]; simpl.
  - split; [intros _; apply not_elem_of_nil | done].
  - rewrite not_elem_of_cons.
    destruct (String.eqb_spec f field) as [->|Hne].
    + split; [discriminate | by intros [? _]].
    + split.
      * intros [= Hidx]. split; [congruence | by apply IH].
      * intros [_ Hnot]. f_equal. by apply IH.
Qed.

(** Without a field the call divides by zero. *)
Lemma ExtractDataToCoeffs_no_field (t : Storage F) (ids : list nat)
    (fielddata : list F) (field : string) :
  ExtractDataToCoeffs t [] ids fielddata field = None.
Proof. reflexivity. Qed.

(** With a checked assertion and a definition that has a field at
    least, the extraction fails with "Field not found in data file"
    exactly when no field of the definition has the name asked for;
    nothing is copied then.  (Without a field the call divides by zero
    before it comes to the assertion.) *)
Theorem ExtractDataToCoeffs_unknown_field (t : Storage F)
    (m_Fields : list string) (ids : list nat) (fielddata : list F)
    (field : string) :
  checks ASSERTL0 ->
  m_Fields <> [] ->
  ExtractDataToCoeffs t m_Fields ids fielddata field
  = Some (Fatal "Field not found in data file")
  <-> field ∉ m_Fields.
Proof.
  intros Hchk Hfields. rewrite <- field_index_missing.
  unfold ExtractDataToCoeffs, divide.
  destruct (Nat.eqb_spec (length m_Fields) 0) as [Hnone|_].
  { by destruct m_Fields. }
  simpl. rewrite Hchk.
  destruct (Nat.eqb_spec (field_index m_Fields field) (length m_Fields))
    as [Heq|Hne]; simpl; split; try done.
Qed.
(** *** The values at the quadrature points *)

Lemma put_phys_as_coeffs (inarray : list F) (exps : list (Element F)) :
  forall cnt,
    values_as_coeffs <$> put_phys inarray cnt exps
    = put_coeffs inarray cnt (values_as_coeffs <$> exps).
Proof.
  induction exps as [|e rest IH]; intros cnt; [done |].
  change (values_as_coeffs <$> put_phys inarray cnt (e :: rest))
    with (values_as_coeffs
            (with_phys e (Vcopy (GetTotPoints e) (drop cnt inarray)
                                (UpdatePhys e)))
          :: (values_as_coeffs
                <$> put_phys inarray (cnt + GetTotPoints e) rest)).
  by rewrite IH.
Qed.

Lemma put_elmt_phys_as_coeffs (exps : list (Element F)) :
  forall (cnt : nat) (out : list F),
    put_elmt_phys exps cnt out
    = put_elmt_coeffs (values_as_coeffs <$> exps) cnt out.
Proof.
  induction exps as [|e rest IH]; intros cnt out; [done |].
  change (put_elmt_phys (e :: rest) cnt out)
    with (put_elmt_phys rest (cnt + GetTotPoints e)
            (Vcopy_to (GetTotPoints e) (UpdatePhys e) out cnt)).
  by rewrite IH.
Qed.

Lemma put_elmt_phys_app (front rest : list (Element F)) :
  forall (cnt : nat) (out : list F),
    put_elmt_phys (front ++ rest) cnt out
    = put_elmt_phys rest
        (cnt + sum_list (GetTotPoints <$> front))
        (put_elmt_phys front cnt out).
Proof.
  induction front as [|e front IH]; intros cnt out; simpl.
  - by rewrite Nat.add_0_r.
  - rewrite IH. by rewrite Nat.add_assoc.
Qed.

Lemma put_coeffs_shape (coeffs : list F) (exps : list (Element F)) :
  Forall (fun e => (GetNcoeffs e <= length (UpdateCoeffs e))%nat) exps ->
  forall cnt,
    GetNcoeffs <$> put_coeffs coeffs cnt exps = GetNcoeffs <$> exps
    /\ Forall (fun e => (GetNcoeffs e <= length (UpdateCoeffs e))%nat)
              (put_coeffs coeffs cnt exps).
Proof.
  induction 1 as [|e rest He _ IH]; intros cnt; [done |].
  destruct (IH (cnt + GetNcoeffs e)%nat) as [Hn Hroom].
  change (put_coeffs coeffs cnt (e :: rest))
    with (with_coeffs e (Vcopy (GetNcoeffs e) (drop cnt coeffs)
                               (UpdateCoeffs e))
          :: put_coeffs coeffs (cnt + GetNcoeffs e) rest).
  split.
  - rewrite !fmap_cons, Hn. done.
  - constructor; [| done].
    unfold with_coeffs, GetNcoeffs in *. simpl. by rewrite Vcopy_length.
Qed.

Lemma put_elmt_coeffs_transfer (coeffs out : list F)
    (exps : list (Element F)) :
  let total := sum_list (GetNcoeffs <$> exps) in
  Forall (fun e => (GetNcoeffs e <= length (UpdateCoeffs e))%nat) exps ->
  (total <= length coeffs)%nat -> (total <= length out)%nat ->
  put_elmt_coeffs (put_coeffs coeffs 0 exps) 0 out
  = take total coeffs ++ drop total out.
Proof.
  intros total Hroom Hc Ho.
  destruct (put_coeffs_shape coeffs exps Hroom 0) as [Hn Hroom'].
  pose proof (put_elmt_coeffs_back coeffs exps Hroom 0) as Hback.
  rewrite put_elmt_coeffs_concat in Hback
    by (try done; rewrite Hn; simpl; fold total; lia).
  rewrite put_elmt_coeffs_concat
    by (try done; rewrite Hn; simpl; fold total; lia).
  rewrite Hn in *. fold total in Hback |- *. simpl in Hback |- *.
  set (data := put_coeffs coeffs 0 exps
               ≫= fun e => take (GetNcoeffs e) (UpdateCoeffs e)) in *.
  assert (Hlen : length data = total).
  { apply (f_equal length) in Hback.
    rewrite length_app, length_drop in Hback. lia. }
  f_equal.
  transitivity (take total (data ++ drop total coeffs));
    [by rewrite take_app_length' by done | by rewrite Hback].
Qed.

(** Values handed to the elements by [PutPhysInToElmtExp(in)] and
    collected by [PutElmtExpInToPhys(out)] pass through unchanged: as
    many leading values of [in] as the elements have points are copied
    to the front of [out], and the rest of [out] stays. *)
Theorem physical_values_pass_through (s : Storage F)
    (inarray out : list F) :
  let total := sum_list (GetTotPoints <$> m_exp s) in
  Forall (fun e => (GetTotPoints e <= length (UpdatePhys e))%nat)
         (m_exp s) ->
  (total <= length inarray)%nat -> (total <= length out)%nat ->
  PutElmtExpInToPhys (PutPhysInToElmtExp_in s inarray) out
  = take total inarray ++ drop total out.
Proof.
  intros total Hroom Hin Hout.
  unfold PutElmtExpInToPhys, PutPhysInToElmtExp_in. simpl.
  rewrite put_elmt_phys_as_coeffs, put_phys_as_coeffs.
  assert (Htot : sum_list (GetNcoeffs <$> (values_as_coeffs <$> m_exp s))
                 = total).
  { unfold total. by rewrite <- list_fmap_compose. }
  rewrite put_elmt_coeffs_transfer; rewrite ?Htot; try done.
  apply list.Forall_forall. intros e' He'.
  apply list_elem_of_fmap in He' as (e & -> & He).
  by apply (proj1 (list.Forall_forall _ _) Hroom).
Qed.

Lemma points0_are_points (exps : list (Element F)) (i : nat) :
  Forall (fun e => GetNumPoints0 e = GetTotPoints e) exps ->
  points0_before exps i = points_before exps i.
Proof.
  intros Hsame. unfold points0_before, points_before. f_equal.
  apply list_fmap_ext. intros j e He.
  apply lookup_take_Some in He as [He _].
  by apply (proj1 (Forall_lookup _ _) Hsame j).
Qed.

(** For elements whose number of points in the first direction is
    their total number of points, the offsets that [SetCoeffPhys] sets
    are those the copies of values count up: collecting the values
    element by element through [m_phys_offset] is the collection of
    all elements. *)
Theorem PutElmtExpInToPhys_by_element (s : Storage F) (out : list F) :
  let s' := SetCoeffPhys s in
  Forall (fun e => GetNumPoints0 e = GetTotPoints e) (m_exp s) ->
  foldl (fun out eid => PutElmtExpInToPhys_eid s' eid out) out
        (seq 0 (length (m_exp s)))
  = PutElmtExpInToPhys s' out.
Proof.
  intros s' Hsame.
  set (exps := m_exp s).
  destruct (layout_fold exps exps []
              (mkLayout 0 (replicate (length exps) 0%nat)
                        (replicate (length exps) 0%nat) 0 0))
    as (_ & _ & _ & _ & Hoff);
    try done; try (simpl; by rewrite length_replicate);
    try (intros j Hj; simpl in Hj; lia).
  assert (Hexp : m_exp s' = exps) by done.
  assert (Hlook : forall i, (i < length exps)%nat ->
            m_phys_offset s' !! i = Some (points_before exps i)).
  { intros i Hi. rewrite <- points0_are_points by done.
    by apply Hoff. }
  assert (Hgen : forall n, (n <= length exps)%nat ->
            foldl (fun out eid => PutElmtExpInToPhys_eid s' eid out) out
                  (seq 0 n)
            = put_elmt_phys (take n exps) 0 out).
  { induction n as [|n IH]; intros Hn; [done |].
    rewrite seq_S, foldl_app, IH by lia. simpl.
    destruct (lookup_lt_is_Some_2 exps n ltac:(lia)) as [e He].
    unfold PutElmtExpInToPhys_eid.
    rewrite Hexp, He, (Hlook n) by lia.
    by rewrite (take_S_r _ _ _ He), put_elmt_phys_app. }
  rewrite Hgen by done.
  unfold PutElmtExpInToPhys. rewrite Hexp. by rewrite take_ge by done.
Qed.
End StorageProperties.

Lemma element_copies_make_the_full_copy_witness :
  foldl ExpListStorage.PutElmtExpInToCoeffs_eid Examples.store_u [0; 1]%nat
  = ExpListStorage.PutElmtExpInToCoeffs Examples.store_u.
Proof.
  destruct (element_copies_make_the_full_copy Examples.store_u) as [_ Hall].
  - reflexivity.
  - exact Hall.
Defined.

Lemma PutElmtExpInToCoeffs_concatenates_witness :
  ExpListStorage.m_coeffs
    (ExpListStorage.PutElmtExpInToCoeffs Examples.store_u)
  = [10; 11; 20; 21; 22].
Proof.
  apply (PutElmtExpInToCoeffs_concatenates Examples.store_u).
  - repeat constructor.
  - simpl. lia.
Defined.

Lemma coefficients_round_trip_witness :
  ExpListStorage.m_coeffs
    (ExpListStorage.PutElmtExpInToCoeffs
       (ExpListStorage.PutCoeffsInToElmtExp Examples.store_u))
  = [1; 2; 3; 4; 5].
Proof.
  apply (coefficients_round_trip Examples.store_u).
  repeat constructor.
Defined.

Lemma field_data_round_trip_witness :
  exists restored,
    ExpListStorage.ExtractDataToCoeffs Examples.store_0 ["u"; "v"]%string
      [1%nat]
      (ExpListStorage.written_data [Examples.store_u; Examples.store_v]
                                   [1%nat])
      "v"
    = Some (Ok restored)
    /\ ExpListStorage.m_coeffs restored !! 2%nat = Some 8
    /\ ExpListStorage.m_coeffs restored !! 1%nat = Some 0.
Proof.
  destruct (field_data_round_trip [Examples.store_u; Examples.store_v]
              ["u"; "v"]%string [1%nat] Examples.store_0 1 Examples.store_v
              "v")
    as (restored & Hrun & _ & _ & _ & Hvalues).
  - intros msg. reflexivity.
  - reflexivity.
  - reflexivity.
  - reflexivity.
  - repeat constructor; exists 2%nat, 3%nat;
      (split; [reflexivity |]); (split; [reflexivity |]); simpl; lia.
  - exists restored. split; [exact Hrun |]. split.
    + destruct (Hvalues 2%nat) as [Hin _]. rewrite Hin; [reflexivity |].
      exists 1%nat. split; [constructor |].
      exists 2%nat, 3%nat. split; [reflexivity | lia].
    + destruct (Hvalues 1%nat) as [_ Hout]. rewrite Hout; [reflexivity |].
      intros eid Heid (off & n & Hslot & Hrange).
      apply list_elem_of_singleton in Heid as ->.
      injection Hslot as <- <-. lia.
Defined.

Lemma ExtractDataToCoeffs_unknown_field_witness :
  ExpListStorage.ExtractDataToCoeffs Examples.store_0 ["u"; "v"]%string
    [1%nat] [1; 2; 3; 4; 5; 6] "w"
  = Some (Fatal "Field not found in data file").
Proof.
  apply (ExtractDataToCoeffs_unknown_field Examples.store_0).
  - intros [] msg; reflexivity.
  - discriminate.
  - intros Hin. repeat (apply elem_of_cons in Hin as [Hin|Hin];
                        [discriminate Hin |]).
    by apply elem_of_nil in Hin.
Defined.

(** ** The element matrices of the coupled system *)

Section CoupledBlockProperties.
Context {F : Type} `{Scalar F}.
Import CoupledBlocks.
Variable fneg : F -> F.

Lemma rect_AllocateSharedPtr (r c : nat) :
  rect (AllocateSharedPtr (F := F) r c) r c.
Proof.
  split; simpl; [by rewrite length_replicate |].
  apply Forall_replicate. by rewrite length_replicate.
Qed.

Lemma GetValue_AllocateSharedPtr (r c a b : nat) :
  GetValue (AllocateSharedPtr (F := F) r c) a b = fzero.
Proof.
  unfold GetValue, AllocateSharedPtr. simpl.
  destruct (replicate r (replicate c fzero) !! a) as [row|] eqn:Hrow;
    [| done].
  apply lookup_replicate in Hrow as [-> _]. simpl.
  destruct (replicate c fzero !! b) as [x|] eqn:Hx; [| done].
  by apply lookup_replicate in Hx as [-> _].
Qed.

Lemma rect_SetValue (m : DNekMat F) (r c i j : nat) (v : F) :
  rect m r c -> rect (SetValue m i j v) r c.
Proof.
  intros [Hr Hc]. split; simpl; [by rewrite length_alter |].
  apply Forall_lookup. intros k row Hk.
  rewrite Forall_lookup in Hc.
  destruct (decide (i = k)) as [->|Hne].
  - rewrite list_lookup_alter_eq in Hk.
    destruct (m_data m !! k) as [row0|] eqn:Hrow0; [| done].
    injection Hk as <-. rewrite length_insert. by eapply Hc.
  - rewrite list_lookup_alter_ne in Hk by done. by eapply Hc.
Qed.

Lemma GetValue_SetValue_ne (m : DNekMat F) (i j a b : nat) (v : F) :
  (i, j) <> (a, b) -> GetValue (SetValue m i j v) a b = GetValue m a b.
Proof.
  intros Hne. unfold GetValue, SetValue. simpl.
  destruct (decide (i = a)) as [->|Hi].
  - rewrite list_lookup_alter_eq.
    destruct (m_data m !! a) as [row|]; [| done]. simpl.
    rewrite list_lookup_insert_ne; [done | congruence].
  - by rewrite list_lookup_alter_ne.
Qed.

Lemma GetValue_SetValue_eq (m : DNekMat F) (r c i j : nat) (v : F) :
  rect m r c -> (i < r)%nat -> (j < c)%nat ->
  GetValue (SetValue m i j v) i j = v.
Proof.
  intros [Hr Hc] Hi Hj. unfold GetValue, SetValue. simpl.
  rewrite list_lookup_alter_eq.
  destruct (lookup_lt_is_Some_2 (m_data m) i ltac:(lia)) as [row Hrow].
  rewrite Hrow. simpl.
  rewrite Forall_lookup in Hc. specialize (Hc i row Hrow).
  by rewrite list_lookup_insert_eq by lia.
Qed.

Lemma assigns_rect (ts : list (nat * nat * F)) (r c : nat) :
  forall m : DNekMat F,
    rect m r c -> rect (foldl assign m ts) r c.
Proof.
  induction ts as [|t ts IH]; intros m Hm; [done |].
  simpl. apply IH. by apply rect_SetValue.
Qed.

Lemma assigns_untouched (ts : list (nat * nat * F)) (a b : nat) :
  (forall t, t ∈ ts -> t.1 <> (a, b)) ->
  forall m : DNekMat F,
    GetValue (foldl assign m ts) a b = GetValue m a b.
Proof.
  induction ts as [|t ts IH]; intros Hts m; [done |].
  simpl. rewrite IH.
  - apply GetValue_SetValue_ne. destruct t as [[i j] v].
    apply (Hts (i, j, v)). by left.
  - intros t' Ht'. apply Hts. by right.
Qed.

(** The entry at a position inside the matrix that at least one
    assignment of the list aims at, all of them with the same value. *)
Lemma assigns_value (ts : list (nat * nat * F)) (r c a b : nat) (v : F) :
  (a < r)%nat -> (b < c)%nat ->
  (exists t, t ∈ ts /\ t.1 = (a, b)) ->
  (forall t, t ∈ ts -> t.1 = (a, b) -> t.2 = v) ->
  forall m : DNekMat F,
    rect m r c -> GetValue (foldl assign m ts) a b = v.
Proof.
  intros Ha Hb.
  induction ts as [|t ts IH] using rev_ind; intros Hex Hval m Hm.
  - destruct Hex as (t & Ht & _). by apply elem_of_nil in Ht.
  - rewrite foldl_app. simpl. unfold assign at 1.
    destruct t as [[i j] v']. simpl.
    destruct (decide ((i, j) = (a, b))) as [Heq|Hne].
    + injection Heq as -> ->.
      rewrite (GetValue_SetValue_eq _ r c) by (try apply assigns_rect; done).
      apply (Hval (a, b, v')); [| done].
      apply elem_of_app. right. by left.
    + rewrite GetValue_SetValue_ne by done.
      apply IH; [| | done].
      * destruct Hex as (t & Ht & Htab).
        apply elem_of_app in Ht as [Ht|Ht]; [by exists t |].
        apply list_elem_of_singleton in Ht as ->. done.
      * intros t Ht. apply Hval. apply elem_of_app. by left.
Qed.

(** *** The pressure block without the mean modes *)

Lemma copy_Dh_assigns (nz_loc psize : Z) (DCD Dh : DNekMat F) :
  copy_Dh fneg nz_loc psize DCD Dh
  = foldl assign Dh
      (range nz_loc ≫= fun n1 => range (psize - 1) ≫= fun i =>
       range nz_loc ≫= fun n2 => range (psize - 1) ≫= fun j =>
       [(Z.to_nat (i + n1 * (psize - 1)), Z.to_nat (j + n2 * (psize - 1)),
         fneg (at_ix DCD (i + 1 + n1 * psize) (j + 1 + n2 * psize)))]).
Proof.
  unfold copy_Dh.
  rewrite foldl_bind. apply foldl_ext_in. intros m1 n1 _.
  rewrite foldl_bind. apply foldl_ext_in. intros m2 i _.
  rewrite foldl_bind. apply foldl_ext_in. intros m3 n2 _.
  rewrite foldl_bind. apply foldl_ext_in. intros m4 j _.
  reflexivity.
Qed.

(** [Dh] is the pressure block [Dint Cinv Dint^T] with the mean mode of
    every plane left out and the sign changed: its entry [(a,b)] comes
    from the entry whose indices are [a] and [b] moved up by one for
    every mean mode at or in front of them.  Every entry of [Dh] is set,
    and none outside. *)
Lemma copy_Dh_entries (nz_loc psize : Z) (DCD Dh0 : DNekMat F) :
  let pm1 := nz_loc * (psize - 1) in
  let Dh := copy_Dh fneg nz_loc psize DCD Dh0 in
  0 <= nz_loc ->
  rect Dh0 (Z.to_nat pm1) (Z.to_nat pm1) ->
  rect Dh (Z.to_nat pm1) (Z.to_nat pm1)
  /\ forall a b,
       0 <= a < pm1 -> 0 <= b < pm1 ->
       at_ix Dh a b
       = fneg (at_ix DCD (a + a / (psize - 1) + 1) (b + b / (psize - 1) + 1)).
Proof.
  intros pm1 Dh Hnz Hrect. unfold Dh. rewrite copy_Dh_assigns.
  split; [by apply assigns_rect |].
  intros a b Ha Hb.
  assert (Hq : 0 < psize - 1) by nia.
  set (q := psize - 1) in *.
  unfold at_ix at 1.
  apply (assigns_value _ (Z.to_nat pm1) (Z.to_nat pm1)); try lia; try done.
  - exists (Z.to_nat (a mod q + a / q * q), Z.to_nat (b mod q + b / q * q),
            fneg (at_ix DCD (a mod q + 1 + a / q * psize)
                            (b mod q + 1 + b / q * psize))).
    pose proof (Z.mod_pos_bound a q Hq). pose proof (Z.mod_pos_bound b q Hq).
    pose proof (Z.div_mod a q ltac:(lia)). pose proof (Z.div_mod b q ltac:(lia)).
    assert (0 <= a / q < nz_loc).
    { split; [apply Z.div_pos; lia |]. apply Z.div_lt_upper_bound; lia. }
    assert (0 <= b / q < nz_loc).
    { split; [apply Z.div_pos; lia |]. apply Z.div_lt_upper_bound; lia. }
    split.
    + apply list_elem_of_bind. exists (a / q).
      split; [| apply elem_of_seqZ; lia].
      apply list_elem_of_bind. exists (a mod q).
      split; [| apply elem_of_seqZ; lia].
      apply list_elem_of_bind. exists (b / q).
      split; [| apply elem_of_seqZ; lia].
      apply list_elem_of_bind. exists (b mod q).
      split; [| apply elem_of_seqZ; lia].
      by left.
    + simpl. f_equal; f_equal; lia.
  - intros t Ht Htab.
    apply list_elem_of_bind in Ht as (n1 & Ht & Hn1).
    apply list_elem_of_bind in Ht as (i & Ht & Hi).
    apply list_elem_of_bind in Ht as (n2 & Ht & Hn2).
    apply list_elem_of_bind in Ht as (j & Ht & Hj).
    apply list_elem_of_singleton in Ht as ->.
    apply elem_of_seqZ in Hn1, Hi, Hn2, Hj.
    simpl in Htab. injection Htab as Hta Htb. simpl.
    assert (Hai : a = q * n1 + i) by lia.
    assert (Hbj : b = q * n2 + j) by lia.
    rewrite <- (Z.div_unique_pos a q n1 i) by lia.
    rewrite <- (Z.div_unique_pos b q n2 j) by lia.
    unfold at_ix. do 3 f_equal; unfold q in *; lia.
Qed.

(** *** The boundary block with the mean pressure modes *)

Lemma final_blocks_parts (nz_loc psize nbp1 pm1 : Z)
    (DCD BmD DmD Ah0 : DNekMat F) :
  let b := final_blocks fneg nz_loc psize nbp1 pm1 DCD BmD DmD Ah0 in
  let BhCh := copy_BhCh fneg nz_loc psize nbp1 DCD BmD DmD
                (AllocateSharedPtr (Z.to_nat nbp1) (Z.to_nat pm1),
                 AllocateSharedPtr (Z.to_nat pm1) (Z.to_nat nbp1)) in
  fAh b = copy_Ah_corner fneg nz_loc psize nbp1 DCD
            (copy_Ah_border nz_loc psize nbp1 BmD DmD Ah0)
  /\ fBh b = BhCh.1 /\ fCh b = BhCh.2
  /\ fDh b = copy_Dh fneg nz_loc psize DCD
               (AllocateSharedPtr (Z.to_nat pm1) (Z.to_nat pm1)).
Proof.
  simpl. unfold final_blocks.
  by destruct (copy_BhCh _ _ _ _ _ _ _ _).
Qed.

Lemma copy_Ah_border_assigns (nz_loc psize nbp1 : Z)
    (BmD DmD Ah : DNekMat F) :
  copy_Ah_border nz_loc psize nbp1 BmD DmD Ah
  = foldl assign Ah
      (range nz_loc ≫= fun n1 =>
       range (to_unsigned (nbp1 - nz_loc)) ≫= fun i =>
       [(Z.to_nat i, Z.to_nat (to_unsigned (nbp1 - nz_loc + n1)),
         at_ix BmD i (n1 * psize));
        (Z.to_nat (to_unsigned (nbp1 - nz_loc + n1)), Z.to_nat i,
         at_ix DmD (n1 * psize) i)]).
Proof.
  unfold copy_Ah_border.
  rewrite foldl_bind. apply foldl_ext_in. intros m1 n1 _.
  rewrite foldl_bind. apply foldl_ext_in. intros m2 i _. reflexivity.
Qed.

Lemma copy_Ah_corner_assigns (nz_loc psize nbp1 : Z) (DCD Ah : DNekMat F) :
  copy_Ah_corner fneg nz_loc psize nbp1 DCD Ah
  = foldl assign Ah
      (range nz_loc ≫= fun n1 => range nz_loc ≫= fun n2 =>
       [(Z.to_nat (to_unsigned (nbp1 - nz_loc + n1)),
         Z.to_nat (to_unsigned (nbp1 - nz_loc + n2)),
         fneg (at_ix DCD (n1 * psize) (n2 * psize)))]).
Proof.
  unfold copy_Ah_corner.
  rewrite foldl_bind. apply foldl_ext_in. intros m1 n1 _.
  rewrite foldl_bind. apply foldl_ext_in. intros m2 n2 _. reflexivity.
Qed.

Lemma copy_Ah_assigns (nz_loc psize nbp1 : Z) (DCD BmD DmD Ah : DNekMat F) :
  copy_Ah_corner fneg nz_loc psize nbp1 DCD
    (copy_Ah_border nz_loc psize nbp1 BmD DmD Ah)
  = foldl assign Ah
      ((range nz_loc ≫= fun n1 =>
        range (to_unsigned (nbp1 - nz_loc)) ≫= fun i =>
        [(Z.to_nat i, Z.to_nat (to_unsigned (nbp1 - nz_loc + n1)),
          at_ix BmD i (n1 * psize));
         (Z.to_nat (to_unsigned (nbp1 - nz_loc + n1)), Z.to_nat i,
          at_ix DmD (n1 * psize) i)])
       ++ (range nz_loc ≫= fun n1 => range nz_loc ≫= fun n2 =>
           [(Z.to_nat (to_unsigned (nbp1 - nz_loc + n1)),
             Z.to_nat (to_unsigned (nbp1 - nz_loc + n2)),
             fneg (at_ix DCD (n1 * psize) (n2 * psize)))])).
Proof.
  by rewrite copy_Ah_corner_assigns, copy_Ah_border_assigns, foldl_app.
Qed.

(** [Ah] keeps its velocity block, and gets one more row and column
    for the mean pressure mode of every plane: the column is the column
    of that mode in [B Cinv Dint^T - Dbnd^T], the row its row in
    [Dint Cinv Btilde^T - Dbnd], and the corner the entries of
    [-Dint Cinv Dint^T] between mean modes. *)
Theorem final_blocks_Ah (nz_loc psize nbp1 pm1 : Z)
    (DCD BmD DmD Ah0 : DNekMat F) :
  let nb := nbp1 - nz_loc in
  let Ah := fAh (final_blocks fneg nz_loc psize nbp1 pm1 DCD BmD DmD Ah0) in
  0 <= nz_loc <= nbp1 -> nbp1 < 2 ^ 32 ->
  rect Ah0 (Z.to_nat nbp1) (Z.to_nat nbp1) ->
  (forall i j, 0 <= i < nb -> 0 <= j < nb -> at_ix Ah i j = at_ix Ah0 i j)
  /\ (forall i n1, 0 <= i < nb -> 0 <= n1 < nz_loc ->
        at_ix Ah i (nb + n1) = at_ix BmD i (n1 * psize)
        /\ at_ix Ah (nb + n1) i = at_ix DmD (n1 * psize) i)
  /\ (forall n1 n2, 0 <= n1 < nz_loc -> 0 <= n2 < nz_loc ->
        at_ix Ah (nb + n1) (nb + n2)
        = fneg (at_ix DCD (n1 * psize) (n2 * psize))).
Proof.
  intros nb Ah Hnz Hnbp1 Hrect. unfold Ah.
  destruct (final_blocks_parts nz_loc psize nbp1 pm1 DCD BmD DmD Ah0)
    as (-> & _).
  rewrite copy_Ah_assigns.
  assert (Hu : forall n, 0 <= n < nz_loc ->
            to_unsigned (nbp1 - nz_loc + n) = nb + n).
  { intros n Hn. apply to_unsigned_small. unfold nb. lia. }
  assert (Hnb : to_unsigned (nbp1 - nz_loc) = nb).
  { apply to_unsigned_small. unfold nb. lia. }
  rewrite Hnb.
  assert (Hmem : forall t,
            t ∈ ((range nz_loc ≫= fun n1 => range nb ≫= fun i =>
                  [(Z.to_nat i, Z.to_nat (to_unsigned (nbp1 - nz_loc + n1)),
                    at_ix BmD i (n1 * psize));
                   (Z.to_nat (to_unsigned (nbp1 - nz_loc + n1)), Z.to_nat i,
                    at_ix DmD (n1 * psize) i)])
                 ++ (range nz_loc ≫= fun n1 => range nz_loc ≫= fun n2 =>
                     [(Z.to_nat (to_unsigned (nbp1 - nz_loc + n1)),
                       Z.to_nat (to_unsigned (nbp1 - nz_loc + n2)),
                       fneg (at_ix DCD (n1 * psize) (n2 * psize)))]))
            <-> (exists n1 i, 0 <= n1 < nz_loc /\ 0 <= i < nb
                   /\ (t = (Z.to_nat i, Z.to_nat (nb + n1),
                            at_ix BmD i (n1 * psize))
                       \/ t = (Z.to_nat (nb + n1), Z.to_nat i,
                               at_ix DmD (n1 * psize) i)))
                \/ (exists n1 n2, 0 <= n1 < nz_loc /\ 0 <= n2 < nz_loc
                      /\ t = (Z.to_nat (nb + n1), Z.to_nat (nb + n2),
                              fneg (at_ix DCD (n1 * psize) (n2 * psize))))).
  { intros t. rewrite elem_of_app. unfold range. split.
    - intros [Ht|Ht]; [left | right].
      + apply list_elem_of_bind in Ht as (n1 & Ht & Hn1).
        apply list_elem_of_bind in Ht as (i & Ht & Hi).
        apply elem_of_seqZ in Hn1, Hi. exists n1, i.
        rewrite <- (Hu n1) by lia.
        split; [lia |]. split; [lia |].
        apply elem_of_cons in Ht as [-> | Ht]; [by left |].
        apply list_elem_of_singleton in Ht as ->. by right.
      + apply list_elem_of_bind in Ht as (n1 & Ht & Hn1).
        apply list_elem_of_bind in Ht as (n2 & Ht & Hn2).
        apply elem_of_seqZ in Hn1, Hn2. exists n1, n2.
        rewrite <- (Hu n1), <- (Hu n2) by lia.
        split; [lia |]. split; [lia |].
        by apply list_elem_of_singleton in Ht.
    - intros [(n1 & i & Hn1 & Hi & Ht) | (n1 & n2 & Hn1 & Hn2 & ->)];
        [left | right].
      + apply list_elem_of_bind. exists n1.
        split; [| apply elem_of_seqZ; lia].
        apply list_elem_of_bind. exists i.
        split; [| apply elem_of_seqZ; lia].
        rewrite (Hu n1) by lia.
        destruct Ht as [-> | ->]; [by left | right; by left].
      + apply list_elem_of_bind. exists n1.
        split; [| apply elem_of_seqZ; lia].
        apply list_elem_of_bind. exists n2.
        split; [| apply elem_of_seqZ; lia].
        rewrite (Hu n1), (Hu n2) by lia. by left. }
  split; [| split].
  - intros i j Hi Hj. unfold at_ix.
    apply assigns_untouched. intros t Ht. apply Hmem in Ht.
    destruct Ht as [(n1 & i' & Hn1 & Hi' & [-> | ->])
                   | (n1 & n2 & Hn1 & Hn2 & ->)]; simpl; intros [=]; lia.
  - intros i n1 Hi Hn1. split; unfold at_ix at 1.
    + apply (assigns_value _ (Z.to_nat nbp1) (Z.to_nat nbp1));
        try (unfold nb in *; lia); try done.
      * exists (Z.to_nat i, Z.to_nat (nb + n1), at_ix BmD i (n1 * psize)).
        split; [| done]. apply Hmem. left. exists n1, i.
        split; [done |]. split; [done |]. by left.
      * intros t Ht Htab. apply Hmem in Ht.
        destruct Ht as [(n1' & i' & Hn1' & Hi' & [-> | ->])
                       | (n1' & n2 & Hn1' & Hn2 & ->)];
          simpl in *; injection Htab as Ha Hb; try lia.
        assert (i' = i) as -> by lia. assert (n1' = n1) as -> by lia. done.
    + apply (assigns_value _ (Z.to_nat nbp1) (Z.to_nat nbp1));
        try (unfold nb in *; lia); try done.
      * exists (Z.to_nat (nb + n1), Z.to_nat i, at_ix DmD (n1 * psize) i).
        split; [| done]. apply Hmem. left. exists n1, i.
        split; [done |]. split; [done |]. by right.
      * intros t Ht Htab. apply Hmem in Ht.
        destruct Ht as [(n1' & i' & Hn1' & Hi' & [-> | ->])
                       | (n1' & n2 & Hn1' & Hn2 & ->)];
          simpl in *; injection Htab as Ha Hb; try lia.
        assert (i' = i) as -> by lia. assert (n1' = n1) as -> by lia. done.
  - intros n1 n2 Hn1 Hn2. unfold at_ix at 1.
    apply (assigns_value _ (Z.to_nat nbp1) (Z.to_nat nbp1));
      try (unfold nb in *; lia); try done.
    + exists (Z.to_nat (nb + n1), Z.to_nat (nb + n2),
              fneg (at_ix DCD (n1 * psize) (n2 * psize))).
      split; [| done]. apply Hmem. right. by exists n1, n2.
    + intros t Ht Htab. apply Hmem in Ht.
      destruct Ht as [(n1' & i' & Hn1' & Hi' & [-> | ->])
                     | (n1' & n2' & Hn1' & Hn2' & ->)];
        simpl in *; injection Htab as Ha Hb; try lia.
      assert (n1' = n1) as -> by lia. assert (n2' = n2) as -> by lia. done.
Qed.

(** *** The coupling with the remaining pressure modes *)

Lemma foldl_pair_ext {X Y I : Type} (step : X * Y -> I -> X * Y)
    (f : X -> I -> X) (g : Y -> I -> Y) (l : list I) :
  (forall x y i, step (x, y) i = (f x i, g y i)) ->
  forall (x : X) (y : Y), foldl step (x, y) l = (foldl f x l, foldl g y l).
Proof.
  intros Hstep. induction l as [|i l IH]; intros x y; [done |].
  simpl. by rewrite Hstep, IH.
Qed.

Lemma copy_BhCh_assigns (nz_loc psize nbp1 : Z) (DCD BmD DmD : DNekMat F)
    (Bh Ch : DNekMat F) :
  copy_BhCh fneg nz_loc psize nbp1 DCD BmD DmD (Bh, Ch)
  = (foldl assign Bh
       (range nz_loc ≫= fun n1 => range (psize - 1) ≫= fun j =>
        (range (to_unsigned (nbp1 - nz_loc)) ≫= fun i =>
         [(Z.to_nat i, Z.to_nat (j + n1 * (psize - 1)),
           at_ix BmD i (j + 1 + n1 * psize))])
        ++ [(Z.to_nat (to_unsigned (nbp1 - nz_loc + n1)),
             Z.to_nat (j + n1 * (psize - 1)),
             fneg (at_ix DCD (n1 * psize) (j + 1 + n1 * psize)))]),
     foldl assign Ch
       (range nz_loc ≫= fun n1 => range (psize - 1) ≫= fun j =>
        (range (to_unsigned (nbp1 - nz_loc)) ≫= fun i =>
         [(Z.to_nat (j + n1 * (psize - 1)), Z.to_nat i,
           at_ix DmD (j + 1 + n1 * psize) i)])
        ++ [(Z.to_nat (j + n1 * (psize - 1)),
             Z.to_nat (to_unsigned (nbp1 - nz_loc + n1)),
             fneg (at_ix DCD (j + 1 + n1 * psize) (n1 * psize)))])).
Proof.
  unfold copy_BhCh.
  rewrite !(foldl_bind assign _ (range nz_loc)).
  apply foldl_pair_ext. intros x y n1.
  rewrite !(foldl_bind assign _ (range (psize - 1))).
  apply foldl_pair_ext. intros x' y' j.
  rewrite !foldl_app, !(foldl_bind assign).
  rewrite (foldl_pair
             (fun Bh i => set_ix Bh i (j + n1 * (psize - 1))
                            (at_ix BmD i (j + 1 + n1 * psize)))
             (fun Ch i => set_ix Ch (j + n1 * (psize - 1)) i
                            (at_ix DmD (j + 1 + n1 * psize) i))).
  reflexivity.
Qed.

(** [Bh] and [Ch] couple the boundary system with the pressure modes
    that are not mean modes.  Against a velocity coefficient they hold
    the entries of [B Cinv Dint^T - Dbnd^T] and
    [Dint Cinv Btilde^T - Dbnd]; against the mean mode of plane [n1]
    they hold the entries of [-Dint Cinv Dint^T] for the modes of that
    plane, and zero for the modes of another plane. *)
Theorem final_blocks_BhCh (nz_loc psize nbp1 pm1 : Z)
    (DCD BmD DmD Ah0 : DNekMat F) :
  let nb := nbp1 - nz_loc in
  let q := psize - 1 in
  let blocks := final_blocks fneg nz_loc psize nbp1 pm1 DCD BmD DmD Ah0 in
  0 <= nz_loc <= nbp1 -> nbp1 < 2 ^ 32 ->
  pm1 = nz_loc * q ->
  (forall i c, 0 <= i < nb -> 0 <= c < pm1 ->
     at_ix (fBh blocks) i c = at_ix BmD i (c + c / q + 1)
     /\ at_ix (fCh blocks) c i = at_ix DmD (c + c / q + 1) i)
  /\ (forall n1 c, 0 <= n1 < nz_loc -> 0 <= c < pm1 ->
        at_ix (fBh blocks) (nb + n1) c
        = (if decide (c / q = n1)
           then fneg (at_ix DCD (n1 * psize) (c + c / q + 1)) else fzero)
        /\ at_ix (fCh blocks) c (nb + n1)
           = (if decide (c / q = n1)
              then fneg (at_ix DCD (c + c / q + 1) (n1 * psize))
              else fzero)).
Proof.
  intros nb q blocks Hnz Hnbp1 Hpm1. unfold blocks.
  destruct (final_blocks_parts nz_loc psize nbp1 pm1 DCD BmD DmD Ah0)
    as (_ & -> & -> & _).
  rewrite copy_BhCh_assigns. simpl fst. simpl snd.
  assert (Hu : forall n, 0 <= n < nz_loc ->
            to_unsigned (nbp1 - nz_loc + n) = nb + n).
  { intros n Hn. apply to_unsigned_small. unfold nb. lia. }
  assert (Hnb : to_unsigned (nbp1 - nz_loc) = nb).
  { apply to_unsigned_small. unfold nb. lia. }
  rewrite Hnb. fold q.
  assert (HmemB : forall t,
    t ∈ (range nz_loc ≫= fun n1 => range q ≫= fun j =>
         (range nb ≫= fun i =>
          [(Z.to_nat i, Z.to_nat (j + n1 * q),
            at_ix BmD i (j + 1 + n1 * psize))])
         ++ [(Z.to_nat (to_unsigned (nbp1 - nz_loc + n1)),
              Z.to_nat (j + n1 * q),
              fneg (at_ix DCD (n1 * psize) (j + 1 + n1 * psize)))])
    <-> exists n1 j, 0 <= n1 < nz_loc /\ 0 <= j < q
          /\ ((exists i, 0 <= i < nb
                 /\ t = (Z.to_nat i, Z.to_nat (j + n1 * q),
                         at_ix BmD i (j + 1 + n1 * psize)))
              \/ t = (Z.to_nat (nb + n1), Z.to_nat (j + n1 * q),
                      fneg (at_ix DCD (n1 * psize) (j + 1 + n1 * psize))))).
  { intros t. unfold range. split.
    - intros Ht.
      apply list_elem_of_bind in Ht as (n1 & Ht & Hn1).
      apply list_elem_of_bind in Ht as (j & Ht & Hj).
      apply elem_of_seqZ in Hn1, Hj. exists n1, j.
      split; [lia |]. split; [lia |].
      apply elem_of_app in Ht as [Ht|Ht]; [left | right].
      + apply list_elem_of_bind in Ht as (i & Ht & Hi).
        apply elem_of_seqZ in Hi. exists i. split; [lia |].
        by apply list_elem_of_singleton in Ht.
      + apply list_elem_of_singleton in Ht as ->. by rewrite Hu by lia.
    - intros (n1 & j & Hn1 & Hj & Ht).
      apply list_elem_of_bind. exists n1.
      split; [| apply elem_of_seqZ; lia].
      apply list_elem_of_bind. exists j.
      split; [| apply elem_of_seqZ; lia].
      apply elem_of_app. destruct Ht as [(i & Hi & ->) | ->]; [left | right].
      + apply list_elem_of_bind. exists i.
        split; [by left | apply elem_of_seqZ; lia].
      + rewrite Hu by lia. by left. }
  assert (HmemC : forall t,
    t ∈ (range nz_loc ≫= fun n1 => range q ≫= fun j =>
         (range nb ≫= fun i =>
          [(Z.to_nat (j + n1 * q), Z.to_nat i,
            at_ix DmD (j + 1 + n1 * psize) i)])
         ++ [(Z.to_nat (j + n1 * q),
              Z.to_nat (to_unsigned (nbp1 - nz_loc + n1)),
              fneg (at_ix DCD (j + 1 + n1 * psize) (n1 * psize)))])
    <-> exists n1 j, 0 <= n1 < nz_loc /\ 0 <= j < q
          /\ ((exists i, 0 <= i < nb
                 /\ t = (Z.to_nat (j + n1 * q), Z.to_nat i,
                         at_ix DmD (j + 1 + n1 * psize) i))
              \/ t = (Z.to_nat (j + n1 * q), Z.to_nat (nb + n1),
                      fneg (at_ix DCD (j + 1 + n1 * psize) (n1 * psize))))).
  { intros t. unfold range. split.
    - intros Ht.
      apply list_elem_of_bind in Ht as (n1 & Ht & Hn1).
      apply list_elem_of_bind in Ht as (j & Ht & Hj).
      apply elem_of_seqZ in Hn1, Hj. exists n1, j.
      split; [lia |]. split; [lia |].
      apply elem_of_app in Ht as [Ht|Ht]; [left | right].
      + apply list_elem_of_bind in Ht as (i & Ht & Hi).
        apply elem_of_seqZ in Hi. exists i. split; [lia |].
        by apply list_elem_of_singleton in Ht.
      + apply list_elem_of_singleton in Ht as ->. by rewrite Hu by lia.
    - intros (n1 & j & Hn1 & Hj & Ht).
      apply list_elem_of_bind. exists n1.
      split; [| apply elem_of_seqZ; lia].
      apply list_elem_of_bind. exists j.
      split; [| apply elem_of_seqZ; lia].
      apply elem_of_app. destruct Ht as [(i & Hi & ->) | ->]; [left | right].
      + apply list_elem_of_bind. exists i.
        split; [by left | apply elem_of_seqZ; lia].
      + rewrite Hu by lia. by left. }
  assert (Hdiv : forall c n j, 0 <= j < q -> c = j + n * q ->
            c / q = n /\ j + 1 + n * psize = c + c / q + 1).
  { intros c n j Hj ->.
    assert (Hn : (j + n * q) / q = n)
      by (symmetry; apply (Z.div_unique_pos _ q n j); lia).
    rewrite Hn. split; [done |]. unfold q. lia. }
  assert (Hsplit : forall c, 0 <= c < pm1 ->
            0 < q /\ 0 <= c / q < nz_loc /\ 0 <= c mod q < q
            /\ c = c mod q + c / q * q).
  { intros c Hc. assert (Hq : 0 < q) by nia.
    pose proof (Z.mod_pos_bound c q Hq).
    pose proof (Z.div_mod c q ltac:(lia)).
    split; [done |]. split; [| split; [done | lia]].
    split; [apply Z.div_pos; lia |]. apply Z.div_lt_upper_bound; lia. }
  split.
  - intros i c Hi Hc.
    destruct (Hsplit c Hc) as (Hq & Hcq & Hcm & Hceq).
    split; unfold at_ix at 1.
    + apply (assigns_value _ (Z.to_nat nbp1) (Z.to_nat pm1));
        try (unfold nb in *; lia); [| | apply rect_AllocateSharedPtr].
      * exists (Z.to_nat i, Z.to_nat (c mod q + c / q * q),
                at_ix BmD i (c mod q + 1 + c / q * psize)).
        split; [| simpl; do 2 f_equal; lia].
        apply HmemB. exists (c / q), (c mod q).
        split; [done |]. split; [done |]. left. by exists i.
      * intros t Ht Htab. apply HmemB in Ht.
        destruct Ht as (n1 & j & Hn1 & Hj & [(i' & Hi' & ->) | ->]);
          simpl in *; injection Htab as Ha Hb; [| unfold nb in *; lia].
        assert (i' = i) as -> by lia.
        destruct (Hdiv c n1 j Hj ltac:(lia)) as [_ ->]. done.
    + apply (assigns_value _ (Z.to_nat pm1) (Z.to_nat nbp1));
        try (unfold nb in *; lia); [| | apply rect_AllocateSharedPtr].
      * exists (Z.to_nat (c mod q + c / q * q), Z.to_nat i,
                at_ix DmD (c mod q + 1 + c / q * psize) i).
        split; [| simpl; do 2 f_equal; lia].
        apply HmemC. exists (c / q), (c mod q).
        split; [done |]. split; [done |]. left. by exists i.
      * intros t Ht Htab. apply HmemC in Ht.
        destruct Ht as (n1 & j & Hn1 & Hj & [(i' & Hi' & ->) | ->]);
          simpl in *; injection Htab as Ha Hb; [| unfold nb in *; lia].
        assert (i' = i) as -> by lia.
        destruct (Hdiv c n1 j Hj ltac:(lia)) as [_ ->]. done.
  - intros n1 c Hn1 Hc.
    destruct (Hsplit c Hc) as (Hq & Hcq & Hcm & Hceq).
    split; unfold at_ix at 1; case_decide as Hplane.
    + apply (assigns_value _ (Z.to_nat nbp1) (Z.to_nat pm1));
        try (unfold nb in *; lia); [| | apply rect_AllocateSharedPtr].
      * exists (Z.to_nat (nb + n1), Z.to_nat (c mod q + n1 * q),
                fneg (at_ix DCD (n1 * psize) (c mod q + 1 + n1 * psize))).
        split; [| simpl; do 2 f_equal; lia].
        apply HmemB. exists n1, (c mod q).
        split; [done |]. split; [done |]. by right.
      * intros t Ht Htab. apply HmemB in Ht.
        destruct Ht as (n1' & j & Hn1' & Hj & [(i' & Hi' & ->) | ->]);
          simpl in *; injection Htab as Ha Hb; [unfold nb in *; lia |].
        assert (n1' = n1) as -> by lia.
        destruct (Hdiv c n1 j Hj ltac:(lia)) as [_ ->]. done.
    + rewrite assigns_untouched; [apply GetValue_AllocateSharedPtr |].
      intros t Ht Htab. apply HmemB in Ht.
      destruct Ht as (n1' & j & Hn1' & Hj & [(i' & Hi' & ->) | ->]);
        simpl in *; injection Htab as Ha Hb; [unfold nb in *; lia |].
      assert (n1' = n1) as -> by lia.
      destruct (Hdiv c n1 j Hj ltac:(lia)) as [Hcn _]. done.
    + apply (assigns_value _ (Z.to_nat pm1) (Z.to_nat nbp1));
        try (unfold nb in *; lia); [| | apply rect_AllocateSharedPtr].
      * exists (Z.to_nat (c mod q + n1 * q), Z.to_nat (nb + n1),
                fneg (at_ix DCD (c mod q + 1 + n1 * psize) (n1 * psize))).
        split; [| simpl; do 2 f_equal; lia].
        apply HmemC. exists n1, (c mod q).
        split; [done |]. split; [done |]. by right.
      * intros t Ht Htab. apply HmemC in Ht.
        destruct Ht as (n1' & j & Hn1' & Hj & [(i' & Hi' & ->) | ->]);
          simpl in *; injection Htab as Ha Hb; [unfold nb in *; lia |].
        assert (n1' = n1) as -> by lia.
        destruct (Hdiv c n1 j Hj ltac:(lia)) as [_ ->]. done.
    + rewrite assigns_untouched; [apply GetValue_AllocateSharedPtr |].
      intros t Ht Htab. apply HmemC in Ht.
      destruct Ht as (n1' & j & Hn1' & Hj & [(i' & Hi' & ->) | ->]);
        simpl in *; injection Htab as Ha Hb; [unfold nb in *; lia |].
      assert (n1' = n1) as -> by lia.
      destruct (Hdiv c n1 j Hj ltac:(lia)) as [Hcn _]. done.
Qed.

(** With the sizes of the block-size loop, [Dh] of the final set of
    matrices is the pressure block without the mean modes. *)
Theorem final_blocks_Dh (nz_loc psize nbp1 pm1 : Z)
    (DCD BmD DmD Ah0 : DNekMat F) :
  let q := psize - 1 in
  let Dh := fDh (final_blocks fneg nz_loc psize nbp1 pm1 DCD BmD DmD Ah0) in
  0 <= nz_loc -> pm1 = nz_loc * q ->
  rect Dh (Z.to_nat pm1) (Z.to_nat pm1)
  /\ forall a b,
       0 <= a < pm1 -> 0 <= b < pm1 ->
       at_ix Dh a b = fneg (at_ix DCD (a + a / q + 1) (b + b / q + 1)).
Proof.
  intros q Dh Hnz ->. unfold Dh.
  destruct (final_blocks_parts nz_loc psize nbp1 (nz_loc * q)
              DCD BmD DmD Ah0) as (_ & _ & _ & ->).
  apply copy_Dh_entries; [done |]. apply rect_AllocateSharedPtr.
Qed.

(** *** The Stokes blocks *)

Lemma diagonal_copies (K rows cols : Z) (g : Z -> Z -> F) (M0 : DNekMat F)
    (r c : nat) :
  let M := foldl assign M0
             (range K ≫= fun k => range rows ≫= fun i =>
              range cols ≫= fun j =>
              [(Z.to_nat (i + k * rows), Z.to_nat (j + k * cols), g i j)]) in
  rect M0 r c ->
  K * rows <= Z.of_nat r -> K * cols <= Z.of_nat c ->
  forall k k' i j,
    0 <= k < K -> 0 <= k' < K -> 0 <= i < rows -> 0 <= j < cols ->
    at_ix M (i + k * rows) (j + k' * cols)
    = if decide (k = k') then g i j
      else at_ix M0 (i + k * rows) (j + k' * cols).
Proof.
  intros M Hrect Hr Hc k k' i j Hk Hk' Hi Hj. unfold M, at_ix.
  assert (Hmem : forall t,
    t ∈ (range K ≫= fun k => range rows ≫= fun i =>
         range cols ≫= fun j =>
         [(Z.to_nat (i + k * rows), Z.to_nat (j + k * cols), g i j)])
    <-> exists k i j, 0 <= k < K /\ 0 <= i < rows /\ 0 <= j < cols
          /\ t = (Z.to_nat (i + k * rows), Z.to_nat (j + k * cols), g i j)).
  { intros t. unfold range. split.
    - intros Ht.
      apply list_elem_of_bind in Ht as (k0 & Ht & Hk0).
      apply list_elem_of_bind in Ht as (i0 & Ht & Hi0).
      apply list_elem_of_bind in Ht as (j0 & Ht & Hj0).
      apply elem_of_seqZ in Hk0, Hi0, Hj0.
      apply list_elem_of_singleton in Ht as ->.
      exists k0, i0, j0. repeat split; lia.
    - intros (k0 & i0 & j0 & Hk0 & Hi0 & Hj0 & ->).
      apply list_elem_of_bind. exists k0.
      split; [| apply elem_of_seqZ; lia].
      apply list_elem_of_bind. exists i0.
      split; [| apply elem_of_seqZ; lia].
      apply list_elem_of_bind. exists j0.
      split; [by left | apply elem_of_seqZ; lia]. }
  assert (Huniq : forall n x k0 x0 k1 x1,
            0 <= x0 < n -> 0 <= x1 < n -> 0 <= k0 -> 0 <= k1 ->
            x = x0 + k0 * n -> x = x1 + k1 * n -> k0 = k1 /\ x0 = x1).
  { intros n x k0 x0 k1 x1 Hx0 Hx1 Hk0 Hk1 E0 E1.
    assert (k0 = x / n)
      by (apply (Z.div_unique_pos x n k0 x0); lia).
    assert (k1 = x / n)
      by (apply (Z.div_unique_pos x n k1 x1); lia).
    lia. }
  case_decide as Hkk.
  - subst k'.
    apply (assigns_value _ r c); try nia; try done.
    + exists (Z.to_nat (i + k * rows), Z.to_nat (j + k * cols), g i j).
      split; [| done]. apply Hmem. exists k, i, j. repeat split; lia.
    + intros t Ht Htab. apply Hmem in Ht.
      destruct Ht as (k0 & i0 & j0 & Hk0 & Hi0 & Hj0 & ->).
      simpl in *. injection Htab as Ha Hb.
      assert (0 <= i0 + k0 * rows) by nia.
      assert (0 <= j0 + k0 * cols) by nia.
      assert (0 <= i + k * rows) by nia.
      assert (0 <= j + k * cols) by nia.
      destruct (Huniq rows (i + k * rows) k0 i0 k i) as [-> ->];
        try lia.
      destruct (Huniq cols (j + k * cols) k j0 k j) as [_ ->];
        try lia.
      done.
  - apply assigns_untouched. intros t Ht Htab. apply Hmem in Ht.
    destruct Ht as (k0 & i0 & j0 & Hk0 & Hi0 & Hj0 & ->).
    simpl in *. injection Htab as Ha Hb.
    assert (0 <= i0 + k0 * rows) by nia.
    assert (0 <= j0 + k0 * cols) by nia.
    assert (0 <= i + k * rows) by nia.
    assert (0 <= j + k' * cols) by nia.
    destruct (Huniq rows (i + k * rows) k0 i0 k i) as [-> _]; try lia.
    destruct (Huniq cols (j + k' * cols) k j0 k' j) as [-> _]; lia.
Qed.

Lemma stokes_Ah_assigns (nvel nz_loc : Z) (m_kinvis : F)
    (CondMat : DNekScalBlkMat F) (Ah : DNekMat F) :
  let Sub := SubBlock CondMat 0 0 in
  stokes_Ah nvel nz_loc m_kinvis CondMat Ah
  = foldl assign Ah
      (range (nvel * nz_loc) ≫= fun k =>
       range (Z.of_nat (GetRows Sub)) ≫= fun i =>
       range (Z.of_nat (GetColumns Sub)) ≫= fun j =>
       [(Z.to_nat (i + k * Z.of_nat (GetRows Sub)),
         Z.to_nat (j + k * Z.of_nat (GetColumns Sub)),
         (m_kinvis * sub_ix Sub i j)%F)]).
Proof.
  intros Sub. unfold stokes_Ah. fold Sub.
  rewrite foldl_bind. apply foldl_ext_in. intros m1 k _.
  rewrite foldl_bind. apply foldl_ext_in. intros m2 i _.
  rewrite foldl_bind. apply foldl_ext_in. intros m3 j _.
  reflexivity.
Qed.

Lemma stokes_D_assigns (nvel nz_loc : Z) (m_kinvis : F)
    (CondMat : DNekScalBlkMat F) (D : DNekMat F) :
  let Sub := SubBlock CondMat 1 1 in
  stokes_D nvel nz_loc m_kinvis CondMat D
  = foldl assign D
      (range (nvel * nz_loc) ≫= fun k =>
       range (Z.of_nat (GetRows Sub)) ≫= fun i =>
       range (Z.of_nat (GetColumns Sub)) ≫= fun j =>
       [(Z.to_nat (i + k * Z.of_nat (GetRows Sub)),
         Z.to_nat (j + k * Z.of_nat (GetColumns Sub)),
         (fone / m_kinvis * sub_ix Sub i j)%F)]).
Proof.
  intros Sub. unfold stokes_D. fold Sub.
  rewrite foldl_bind. apply foldl_ext_in. intros m1 k _.
  rewrite foldl_bind. apply foldl_ext_in. intros m2 i _.
  rewrite foldl_bind. apply foldl_ext_in. intros m3 j _.
  reflexivity.
Qed.

Lemma stokes_BC_assigns (nvel nz_loc : Z) (m_kinvis : F)
    (CondMat : DNekScalBlkMat F) (B C : DNekMat F) :
  let Sub := SubBlock CondMat 0 1 in
  let Sub1 := SubBlock CondMat 1 0 in
  stokes_BC nvel nz_loc m_kinvis CondMat (B, C)
  = (foldl assign B
       (range (nvel * nz_loc) ≫= fun k =>
        range (Z.of_nat (GetRows Sub)) ≫= fun i =>
        range (Z.of_nat (GetColumns Sub)) ≫= fun j =>
        [(Z.to_nat (i + k * Z.of_nat (GetRows Sub)),
          Z.to_nat (j + k * Z.of_nat (GetColumns Sub)),
          sub_ix Sub i j)]),
     foldl assign C
       (range (nvel * nz_loc) ≫= fun k =>
        range (Z.of_nat (GetRows Sub)) ≫= fun i =>
        range (Z.of_nat (GetColumns Sub)) ≫= fun j =>
        [(Z.to_nat (i + k * Z.of_nat (GetRows Sub)),
          Z.to_nat (j + k * Z.of_nat (GetColumns Sub)),
          (m_kinvis * sub_ix Sub1 j i)%F)])).
Proof.
  intros Sub Sub1. unfold stokes_BC. fold Sub Sub1.
  rewrite !(foldl_bind assign _ (range (nvel * nz_loc))).
  apply foldl_pair_ext. intros x y k.
  rewrite !(foldl_bind assign _ (range (Z.of_nat (GetRows Sub)))).
  apply foldl_pair_ext. intros x' y' i.
  rewrite !(foldl_bind assign).
  by rewrite (foldl_pair
                (fun B j => set_ix B (i + k * Z.of_nat (GetRows Sub))
                              (j + k * Z.of_nat (GetColumns Sub))
                              (sub_ix Sub i j))
                (fun C j => set_ix C (i + k * Z.of_nat (GetRows Sub))
                              (j + k * Z.of_nat (GetColumns Sub))
                              (m_kinvis * sub_ix Sub1 j i)%F)).
Qed.

(** Without advection terms the four velocity matrices of an element
    are block diagonal over the velocity components and planes: copy
    [k] holds the statically condensed Helmholtz blocks -- (0,0) times
    the viscosity in [Ah], (0,1) in [B], the transpose of (1,0) times
    the viscosity in [C], (1,1) over the viscosity in [D] -- and the
    entries between two different copies are zero. *)
Theorem stokes_blocks_block_diagonal (nvel nz_loc : Z) (m_kinvis : F)
    (CondMat : DNekScalBlkMat F) (S00 S01 S10 S11 : DNekScalMat F)
    (kk nbndry nint : Z) :
  let K := nvel * nz_loc in
  let rows (S : DNekScalMat F) := Z.of_nat (GetRows S) in
  let cols (S : DNekScalMat F) := Z.of_nat (GetColumns S) in
  let blocks := stokes_blocks nvel nz_loc m_kinvis CondMat kk nbndry nint in
  GetBlock CondMat 0 0 = Some S00 -> GetBlock CondMat 0 1 = Some S01 ->
  GetBlock CondMat 1 0 = Some S10 -> GetBlock CondMat 1 1 = Some S11 ->
  K * rows S00 <= kk -> K * cols S00 <= kk ->
  K * rows S01 <= nbndry -> K * cols S01 <= nint ->
  K * rows S11 <= nint -> K * cols S11 <= nint ->
  forall k k', 0 <= k < K -> 0 <= k' < K ->
    (forall i j, 0 <= i < rows S00 -> 0 <= j < cols S00 ->
       at_ix (sAh blocks) (i + k * rows S00) (j + k' * cols S00)
       = if decide (k = k') then (m_kinvis * sub_ix S00 i j)%F else fzero)
    /\ (forall i j, 0 <= i < rows S01 -> 0 <= j < cols S01 ->
          at_ix (sB blocks) (i + k * rows S01) (j + k' * cols S01)
          = (if decide (k = k') then sub_ix S01 i j else fzero)
          /\ at_ix (sC blocks) (i + k * rows S01) (j + k' * cols S01)
             = (if decide (k = k') then (m_kinvis * sub_ix S10 j i)%F
                else fzero))
    /\ (forall i j, 0 <= i < rows S11 -> 0 <= j < cols S11 ->
          at_ix (sD blocks) (i + k * rows S11) (j + k' * cols S11)
          = if decide (k = k') then (fone / m_kinvis * sub_ix S11 i j)%F
            else fzero).
Proof.
  intros K rows cols blocks H00 H01 H10 H11 Hr00 Hc00 Hr01 Hc01 Hr11 Hc11
         k k' Hk Hk'.
  assert (Hparts :
    sAh blocks = stokes_Ah nvel nz_loc m_kinvis CondMat
                   (AllocateSharedPtr (Z.to_nat kk) (Z.to_nat kk))
    /\ (sB blocks, sC blocks)
       = stokes_BC nvel nz_loc m_kinvis CondMat
           (AllocateSharedPtr (Z.to_nat nbndry) (Z.to_nat nint),
            AllocateSharedPtr (Z.to_nat nbndry) (Z.to_nat nint))
    /\ sD blocks = stokes_D nvel nz_loc m_kinvis CondMat
                     (AllocateSharedPtr (Z.to_nat nint) (Z.to_nat nint))).
  { unfold blocks, stokes_blocks. by destruct (stokes_BC _ _ _ _ _). }
  destruct Hparts as (HAh & HBC & HD).
  rewrite stokes_BC_assigns in HBC. injection HBC as HB HC.
  rewrite HAh, HB, HC, HD, stokes_Ah_assigns, stokes_D_assigns.
  unfold SubBlock. rewrite H00, H01, H10, H11. simpl default.
  fold (rows S00) (cols S00) (rows S01) (cols S01) (rows S11) (cols S11).
  fold K.
  split; [| split].
  - intros i j Hi Hj.
    rewrite (diagonal_copies K (rows S00) (cols S00)
               (fun i j => (m_kinvis * sub_ix S00 i j)%F) _
               (Z.to_nat kk) (Z.to_nat kk));
      try done; try lia; [| apply rect_AllocateSharedPtr].
    case_decide; [done | apply GetValue_AllocateSharedPtr].
  - intros i j Hi Hj. split.
    + rewrite (diagonal_copies K (rows S01) (cols S01)
                 (fun i j => sub_ix S01 i j) _
                 (Z.to_nat nbndry) (Z.to_nat nint));
        try done; try lia; [| apply rect_AllocateSharedPtr].
      case_decide; [done | apply GetValue_AllocateSharedPtr].
    + rewrite (diagonal_copies K (rows S01) (cols S01)
                 (fun i j => (m_kinvis * sub_ix S10 j i)%F) _
                 (Z.to_nat nbndry) (Z.to_nat nint));
        try done; try lia; [| apply rect_AllocateSharedPtr].
      case_decide; [done | apply GetValue_AllocateSharedPtr].
  - intros i j Hi Hj.
    rewrite (diagonal_copies K (rows S11) (cols S11)
               (fun i j => (fone / m_kinvis * sub_ix S11 i j)%F) _
               (Z.to_nat nint) (Z.to_nat nint));
      try done; try lia; [| apply rect_AllocateSharedPtr].
    case_decide; [done | apply GetValue_AllocateSharedPtr].
Qed.
End CoupledBlockProperties.

Lemma stokes_blocks_block_diagonal_witness :
  let blocks := CoupledBlocks.stokes_blocks 2 1 3 Examples.cond_blk 5 4 2 in
  CoupledBlocks.at_ix (CoupledBlocks.sAh blocks) 3 2 = 3
  /\ CoupledBlocks.at_ix (CoupledBlocks.sAh blocks) 3 1 = 0
  /\ CoupledBlocks.at_ix (CoupledBlocks.sC blocks) 3 1 = 21.
Proof.
  pose proof (stokes_blocks_block_diagonal 2 1 3 Examples.cond_blk
                _ _ _ _ 5 4 2 eq_refl eq_refl eq_refl eq_refl) as Hs.
  assert (H25 : 2 * 1 * Z.of_nat 2 <= 5) by lia.
  assert (H24 : 2 * 1 * Z.of_nat 2 <= 4) by lia.
  assert (H12 : 2 * 1 * Z.of_nat 1 <= 2) by lia.
  assert (H1 : 0 <= 1 < 2) by lia. assert (H0 : 0 <= 0 < 2) by lia.
  assert (H01 : 0 <= 0 < 1) by lia.
  split; [| split].
  - destruct (Hs H25 H25 H24 H12 H12 H12 1 1 H1 H1) as (HA & _).
    exact (HA 1 0 H1 H0).
  - destruct (Hs H25 H25 H24 H12 H12 H12 1 0 H1 H0) as (HA & _).
    exact (HA 1 1 H1 H1).
  - destruct (Hs H25 H25 H24 H12 H12 H12 1 1 H1 H1) as (_ & HBC & _).
    exact (proj2 (HBC 1 0 H1 H01)).
Defined.

Lemma final_blocks_Dh_witness :
  let Dh := CoupledBlocks.fDh
              (CoupledBlocks.final_blocks Z.opp 2 2 3 2
                 Examples.DintCinvDTint4 Examples.BCinvDTint_m_DTbnd4
                 Examples.DintCinvBTtilde_m_Dbnd4 Examples.Ah3) in
  CoupledBlocks.rect Dh 2 2
  /\ CoupledBlocks.at_ix Dh 1 0 = -42.
Proof.
  assert (Hnz : 0 <= 2) by lia.
  destruct (final_blocks_Dh Z.opp 2 2 3 2
              Examples.DintCinvDTint4 Examples.BCinvDTint_m_DTbnd4
              Examples.DintCinvBTtilde_m_Dbnd4 Examples.Ah3 Hnz eq_refl)
    as (Hr & He).
  split; [exact Hr |].
  assert (H1 : 0 <= 1 < 2) by lia. assert (H0 : 0 <= 0 < 2) by lia.
  exact (He 1 0 H1 H0).
Defined.

Lemma final_blocks_Ah_witness :
  let Ah := CoupledBlocks.fAh
              (CoupledBlocks.final_blocks Z.opp 2 2 3 2
                 Examples.DintCinvDTint4 Examples.BCinvDTint_m_DTbnd4
                 Examples.DintCinvBTtilde_m_Dbnd4 Examples.Ah3) in
  CoupledBlocks.at_ix Ah 0 0 = 7
  /\ CoupledBlocks.at_ix Ah 0 2 = 53
  /\ CoupledBlocks.at_ix Ah 2 0 = 63
  /\ CoupledBlocks.at_ix Ah 2 1 = -31.
Proof.
  assert (Hnz : 0 <= 2 <= 3) by lia.
  assert (Hlt : 3 < 2 ^ 32) by lia.
  assert (Hrect : CoupledBlocks.rect Examples.Ah3 (Z.to_nat 3) (Z.to_nat 3)).
  { vm_compute. repeat split; repeat constructor. }
  destruct (final_blocks_Ah Z.opp 2 2 3 2
              Examples.DintCinvDTint4 Examples.BCinvDTint_m_DTbnd4
              Examples.DintCinvBTtilde_m_Dbnd4 Examples.Ah3 Hnz Hlt Hrect)
    as (Hv & Hb & Hc).
  assert (H1 : 0 <= 1 < 2) by lia. assert (H0 : 0 <= 0 < 2) by lia.
  assert (H01 : 0 <= 0 < 3 - 2) by lia.
  split; [| split; [| split]].
  - exact (Hv 0 0 H01 H01).
  - exact (proj1 (Hb 0 1 H01 H1)).
  - exact (proj2 (Hb 0 1 H01 H1)).
  - exact (Hc 1 0 H1 H0).
Defined.

Lemma final_blocks_BhCh_witness :
  let blocks := CoupledBlocks.final_blocks Z.opp 2 2 3 2
                  Examples.DintCinvDTint4 Examples.BCinvDTint_m_DTbnd4
                  Examples.DintCinvBTtilde_m_Dbnd4 Examples.Ah3 in
  CoupledBlocks.at_ix (CoupledBlocks.fBh blocks) 0 1 = 54
  /\ CoupledBlocks.at_ix (CoupledBlocks.fCh blocks) 1 0 = 64
  /\ CoupledBlocks.at_ix (CoupledBlocks.fBh blocks) 2 1 = -34
  /\ CoupledBlocks.at_ix (CoupledBlocks.fBh blocks) 1 1 = 0.
Proof.
  assert (Hnz : 0 <= 2 <= 3) by lia.
  assert (Hlt : 3 < 2 ^ 32) by lia.
  destruct (final_blocks_BhCh Z.opp 2 2 3 2
              Examples.DintCinvDTint4 Examples.BCinvDTint_m_DTbnd4
              Examples.DintCinvBTtilde_m_Dbnd4 Examples.Ah3 Hnz Hlt eq_refl)
    as (Hb & Hm).
  assert (H1 : 0 <= 1 < 2) by lia. assert (H0 : 0 <= 0 < 2) by lia.
  assert (H01 : 0 <= 0 < 3 - 2) by lia.
  split; [| split; [| split]].
  - exact (proj1 (Hb 0 1 H01 H1)).
  - exact (proj2 (Hb 0 1 H01 H1)).
  - exact (proj1 (Hm 1 1 H1 H1)).
  - exact (proj1 (Hm 0 1 H0 H1)).
Defined.

Lemma physical_values_pass_through_witness :
  ExpListStorage.PutElmtExpInToPhys
    (ExpListStorage.PutPhysInToElmtExp_in Examples.store_phys [1; 2; 3; 4])
    [9; 9; 9; 9]
  = [1; 2; 3; 9].
Proof.
  apply (physical_values_pass_through Examples.store_phys
           [1; 2; 3; 4] [9; 9; 9; 9]).
  - repeat constructor.
  - simpl. lia.
  - simpl. lia.
Defined.

Lemma PutElmtExpInToPhys_by_element_witness :
  foldl (fun out eid =>
           ExpListStorage.PutElmtExpInToPhys_eid
             (ExpListStorage.SetCoeffPhys Examples.store_phys) eid out)
        [9; 9; 9; 9] (seq 0 2)
  = ExpListStorage.PutElmtExpInToPhys
      (ExpListStorage.SetCoeffPhys Examples.store_phys) [9; 9; 9; 9]
  /\ ExpListStorage.PutElmtExpInToPhys
       (ExpListStorage.SetCoeffPhys Examples.store_phys) [9; 9; 9; 9]
     = [5; 6; 7; 9].
Proof.
  split; [| reflexivity].
  apply (PutElmtExpInToPhys_by_element Examples.store_phys [9; 9; 9; 9]).
  repeat constructor.
Defined.

(** ** The field definitions of an expansion list *)

Section FieldProperties.
Context `{ErrorUtil} `{ExpListFields.GeomShapeType}.
Variables startenum0 endenum0 shape0 : Z.
Import ExpListFields.

Lemma first_fold (e : Element) (js : list nat) :
  forall l,
    foldl (push_basis e) l js
    = mkLocals (shape l) (elementIDs l)
               (basis l ++ (GetBasisType e <$> js))
               (numModes l
                ++ ((fun j => to_unsigned (GetNumModes e j)) <$> js))
               (first l) (UniOrder l).
Proof.
  induction js as [|j js IH]; intros l; simpl.
  - rewrite !app_nil_r. by destruct l.
  - rewrite IH. simpl. by rewrite <- !app_assoc.
Qed.

Lemma first_element_fields (s : Z) (e : Element) (l : Locals) :
  first_element s e l
  = mkLocals s (elementIDs l) (basis l ++ basis_types e)
             (numModes l ++ modes e) false (UniOrder l).
Proof. unfold first_element. by rewrite first_fold. Qed.

Lemma later_fold (e e0 : Element) (tail : list Z) (k : nat) :
  forall l,
    numModes l = modes e0 ++ tail ->
    (k <= Z.to_nat (GetNumBases e0))%nat ->
    let l' := foldl (check_modes e) l (seq 0 k) in
    shape l' = shape l /\ elementIDs l' = elementIDs l
    /\ basis l' = basis l /\ first l' = first l
    /\ numModes l'
       = numModes l ++ ((fun j => to_unsigned (GetNumModes e j)) <$> seq 0 k)
    /\ (UniOrder l' = true
        <-> UniOrder l = true
            /\ forall j, (j < k)%nat ->
                 to_unsigned (GetNumModes e j)
                 = to_unsigned (GetNumModes e0 j)).
Proof.
  induction k as [|k IH]; intros l Hmodes Hk.
  - simpl. rewrite app_nil_r. repeat split; try done; try tauto.
    intros j Hj. lia.
  - cbv zeta. rewrite seq_S, foldl_app.
    destruct (IH l Hmodes ltac:(lia)) as (Hs & Hi & Hb & Hf & Hn & Hu).
    clear IH.
    set (lk := foldl (check_modes e) l (seq 0 k)) in *.
    simpl. unfold check_modes. simpl.
    rewrite Hs, Hi, Hb, Hf, Hn, fmap_app. simpl.
    assert (Hlook : ((numModes l
                      ++ ((fun j => to_unsigned (GetNumModes e j))
                            <$> seq 0 k))
                     ++ [to_unsigned (GetNumModes e k)]) !! k
                    = Some (to_unsigned (GetNumModes e0 k))).
    { rewrite Hmodes, <- !app_assoc.
      rewrite lookup_app_l
        by (unfold modes, bases; rewrite length_fmap, length_seq; lia).
      unfold modes, bases. rewrite list_lookup_fmap, lookup_seq_lt by lia.
      done. }
    rewrite Hlook. simpl.
    split; [done |]. split; [done |]. split; [done |]. split; [done |].
    split; [by rewrite <- app_assoc |].
    destruct (Z.eqb_spec (to_unsigned (GetNumModes e0 k))
                         (to_unsigned (GetNumModes e k))) as [Heq|Hne];
      simpl.
    + rewrite Hu. split.
      * intros [Hl Hall]. split; [done |]. intros j Hj.
        destruct (decide (j = k)) as [->|Hjk]; [done |].
        apply Hall. lia.
      * intros [Hl Hall]. split; [done |]. intros j Hj. apply Hall. lia.
    + split; [done |]. intros [_ Hall]. destruct Hne.
      symmetry. apply Hall. lia.
Qed.

Lemma modes_agree (e e0 : Element) :
  GetNumBases e = GetNumBases e0 ->
  (forall j, (j < Z.to_nat (GetNumBases e0))%nat ->
     to_unsigned (GetNumModes e j) = to_unsigned (GetNumModes e0 j))
  <-> modes e = modes e0.
Proof.
  intros Hnb. unfold modes, bases. rewrite Hnb. split.
  - intros Hall. apply list_fmap_ext. intros i j Hj.
    apply lookup_seq in Hj as [-> Hlt]. by apply Hall.
  - intros Heq j Hj.
    apply (f_equal (fun l => l !! j)) in Heq.
    rewrite !list_lookup_fmap, !lookup_seq_lt in Heq by done.
    by injection Heq.
Qed.

Lemma later_element_fields (e e0 : Element) (tail : list Z) (l : Locals) :
  numModes l = modes e0 ++ tail ->
  GetNumBases e = GetNumBases e0 ->
  let l' := later_element e l in
  shape l' = shape l /\ elementIDs l' = elementIDs l
  /\ basis l' = basis l /\ first l' = first l
  /\ numModes l' = numModes l ++ modes e
  /\ (UniOrder l' = true <-> UniOrder l = true /\ modes e = modes e0).
Proof.
  intros Hmodes Hnb.
  destruct (later_fold e e0 tail (Z.to_nat (GetNumBases e)) l Hmodes
              ltac:(lia)) as (Hs & Hi & Hb & Hf & Hn & Hu).
  unfold later_element, bases. cbv zeta.
  split; [done |]. split; [done |]. split; [done |]. split; [done |].
  split; [done |].
  rewrite Hu, Hnb. by rewrite (modes_agree e e0 Hnb).
Qed.

(** Without a premise on the numbers of bases, everything but the flag
    is as above. *)
Lemma later_element_contents (e : Element) (l : Locals) :
  let l' := later_element e l in
  shape l' = shape l /\ elementIDs l' = elementIDs l
  /\ basis l' = basis l /\ first l' = first l
  /\ numModes l' = numModes l ++ modes e.
Proof.
  unfold later_element, modes. generalize (bases e). intros js.
  generalize l. clear l.
  induction js as [|j js IH]; intros l; simpl.
  - by rewrite app_nil_r.
  - destruct (IH (check_modes e l j)) as (Hs & Hi & Hb & Hf & Hn).
    rewrite Hs, Hi, Hb, Hf, Hn. simpl.
    by rewrite <- app_assoc.
Qed.

Lemma of_shape_cons (s : Z) (e : Element) (exps : list Element) :
  of_shape s (e :: exps)
  = if GetGeomShapeType e =? s then e :: of_shape s exps
    else of_shape s exps.
Proof.
  unfold of_shape.
  destruct (Z.eqb_spec (GetGeomShapeType e) s) as [Heq|Hne].
  - by rewrite filter_cons_True.
  - by rewrite filter_cons_False.
Qed.

Lemma elements_loop_contents (s : Z) (exps : list Element) :
  forall l l',
    elements_loop s exps l = Ok l' ->
    elementIDs l' = elementIDs l ++ ids (of_shape s exps)
    /\ numModes l' = numModes l ++ (of_shape s exps ≫= modes)
    /\ (if first l
        then match of_shape s exps with
             | [] => l' = l
             | e :: _ =>
                 shape l' = s /\ basis l' = basis l ++ basis_types e
                 /\ first l' = false
             end
        else shape l' = shape l /\ basis l' = basis l /\ first l' = false).
Proof.
  induction exps as [|e exps IH]; intros l l' Hrun.
  - injection Hrun as <-. simpl. rewrite !app_nil_r.
    by destruct (first l) eqn:Hf.
  - rewrite of_shape_cons.
    change (elements_loop s (e :: exps) l)
      with (element_step s l e ≫= elements_loop s exps) in Hrun.
    unfold element_step in Hrun.
    destruct (Z.eqb_spec (GetGeomShapeType e) s) as [Heq|Hne]; simpl in Hrun.
    + destruct (first l) eqn:Hf.
      * destruct (IH _ _ Hrun) as (Hi & Hn & Hrest).
        rewrite first_element_fields in Hi, Hn, Hrest. simpl in *.
        rewrite Hi, Hn. destruct Hrest as (Hs & Hb & Hf').
        by rewrite <- !app_assoc.
      * destruct (ASSERTL0 _ _) as [[]|msg]; simpl in Hrun; [| done].
        destruct (IH _ _ Hrun) as (Hi & Hn & Hrest).
        match type of Hrun with
        | elements_loop _ _ (later_element e ?l1) = _ =>
            destruct (later_element_contents e l1)
              as (Hs1 & Hi1 & Hb1 & Hf1 & Hn1)
        end.
        simpl in Hs1, Hi1, Hb1, Hf1, Hn1.
        rewrite Hf1 in Hrest. destruct Hrest as (Hs & Hb & Hf').
        rewrite Hi, Hn, Hi1, Hn1, Hs, Hb, Hs1, Hb1. simpl.
        by rewrite <- !app_assoc.
    + by apply IH.
Qed.

Lemma shapes_loop_contents (m_exp : list Element) (ss : list Z) :
  forall ret defs,
    shapes_loop shape0 m_exp ss ret = Ok defs ->
    contents <$> defs
    = (contents <$> ret) ++ (ss ≫= contents_of_shape m_exp).
Proof.
  induction ss as [|s ss IH]; intros ret defs Hrun.
  - injection Hrun as <-. simpl. by rewrite app_nil_r.
  - change (shapes_loop shape0 m_exp (s :: ss) ret)
      with (shape_step shape0 m_exp ret s ≫= shapes_loop shape0 m_exp ss)
      in Hrun.
    change ((s :: ss) ≫= contents_of_shape m_exp)
      with (contents_of_shape m_exp s ++ (ss ≫= contents_of_shape m_exp)).
    unfold shape_step in Hrun.
    destruct (elements_loop s m_exp _) as [l|msg] eqn:Hl; simpl in Hrun;
      [| done].
    destruct (elements_loop_contents s m_exp _ _ Hl) as (Hi & Hn & Hrest).
    simpl in Hi, Hn, Hrest.
    unfold contents_of_shape.
    destruct (of_shape s m_exp) as [|e rest] eqn:Hof.
    + subst l. simpl in Hrun. by apply IH.
    + destruct Hrest as (Hs & Hb & Hf).
      rewrite Hi in Hrun. simpl in Hrun.
      rewrite (IH _ _ Hrun), fmap_app, <- app_assoc. simpl.
      unfold contents at 2. simpl. by rewrite Hn, Hs, Hb.
Qed.

(** [GetFieldDefinitions] returns one definition for every shape of
    the dimension that some element has, in the order of the shapes.
    The definition lists the ids of the elements of its shape in the
    order of the elements, the types of the bases of the first of
    them, and the numbers of modes of every one of them; its list of
    fields is empty. *)
Theorem GetFieldDefinitions_contents (m_exp : list Element)
    (defs : list FieldDefinitions) :
  GetFieldDefinitions startenum0 endenum0 shape0 m_exp = Ok defs ->
  contents <$> defs
  = shapes startenum0 endenum0 m_exp ≫= contents_of_shape m_exp.
Proof.
  intros Hrun. unfold GetFieldDefinitions in Hrun.
  by rewrite (shapes_loop_contents _ _ _ _ Hrun).
Qed.

Lemma elements_loop_UniOrder_later (s : Z) (e0 : Element)
    (exps : list Element) :
  forall l l' tail,
    elements_loop s exps l = Ok l' ->
    first l = false ->
    numModes l = modes e0 ++ tail ->
    Forall (fun e => GetNumBases e = GetNumBases e0) (of_shape s exps) ->
    (UniOrder l' = true
     <-> UniOrder l = true
         /\ Forall (fun e => modes e = modes e0) (of_shape s exps)).
Proof.
  induction exps as [|e exps IH]; intros l l' tail Hrun Hf Hmodes Hnb.
  - injection Hrun as <-. split; [by intros ? | by intros []].
  - rewrite of_shape_cons in Hnb |- *.
    change (elements_loop s (e :: exps) l)
      with (element_step s l e ≫= elements_loop s exps) in Hrun.
    unfold element_step in Hrun. rewrite Hf in Hrun.
    destruct (Z.eqb_spec (GetGeomShapeType e) s) as [Heq|Hne];
      simpl in Hrun; [| by apply (IH l l' tail)].
    destruct (ASSERTL0 _ _) as [[]|msg]; simpl in Hrun; [| done].
    apply Forall_cons in Hnb as [Hnbe Hnb].
    match type of Hrun with
    | elements_loop _ _ (later_element e ?l1) = _ =>
        destruct (later_element_fields e e0 tail l1 Hmodes Hnbe)
          as (_ & _ & _ & Hf1 & Hn1 & Hu1)
    end.
    simpl in Hf1, Hn1, Hu1.
    rewrite (IH _ _ (tail ++ modes e) Hrun Hf1); [| | done].
    + rewrite Hu1, Forall_cons. tauto.
    + by rewrite Hn1, Hmodes, <- app_assoc.
Qed.

Lemma elements_loop_UniOrder_first (s : Z) (e0 : Element)
    (rest exps : list Element) :
  forall l l',
    elements_loop s exps l = Ok l' ->
    first l = true ->
    numModes l = [] ->
    of_shape s exps = e0 :: rest ->
    Forall (fun e => GetNumBases e = GetNumBases e0) rest ->
    (UniOrder l' = true
     <-> UniOrder l = true /\ Forall (fun e => modes e = modes e0) rest).
Proof.
  induction exps as [|e exps IH]; intros l l' Hrun Hf Hmodes Hof Hnb;
    [done |].
  rewrite of_shape_cons in Hof.
  change (elements_loop s (e :: exps) l)
    with (element_step s l e ≫= elements_loop s exps) in Hrun.
  unfold element_step in Hrun. rewrite Hf in Hrun.
  destruct (Z.eqb_spec (GetGeomShapeType e) s) as [Heq|Hne];
    simpl in Hrun; [| by apply (IH l l')].
  injection Hof as -> <-.
  rewrite first_element_fields in Hrun. simpl in Hrun.
  rewrite (elements_loop_UniOrder_later s e0 exps _ _ [] Hrun); try done.
  simpl. by rewrite Hmodes, app_nil_r.
Qed.

Lemma shapes_loop_members (m_exp : list Element) (ss : list Z) :
  forall ret defs d,
    shapes_loop shape0 m_exp ss ret = Ok defs ->
    d ∈ defs ->
    d ∈ ret
    \/ exists s l,
         s ∈ ss
         /\ elements_loop s m_exp (mkLocals shape0 [] [] [] true true) = Ok l
         /\ elementIDs l <> []
         /\ d = mkFieldDefinitions (shape l) (elementIDs l) (basis l)
                                   (UniOrder l) (numModes l) [].
Proof.
  induction ss as [|s ss IH]; intros ret defs d Hrun Hd.
  - injection Hrun as <-. by left.
  - change (shapes_loop shape0 m_exp (s :: ss) ret)
      with (shape_step shape0 m_exp ret s ≫= shapes_loop shape0 m_exp ss)
      in Hrun.
    unfold shape_step in Hrun.
    destruct (elements_loop s m_exp _) as [l|msg] eqn:Hl; simpl in Hrun;
      [| done].
    destruct (elementIDs l) as [|i is'] eqn:Hids; simpl in Hrun.
    + destruct (IH _ _ _ Hrun Hd) as [Hret|(s' & l' & Hs' & Hrest)];
        [by left |].
      right. exists s', l'. split; [| done]. by apply elem_of_cons; right.
    + destruct (IH _ _ _ Hrun Hd) as [Hret|(s' & l' & Hs' & Hrest)].
      * apply elem_of_app in Hret as [Hret|Hret]; [by left |].
        apply list_elem_of_singleton in Hret. right. exists s, l.
        split; [by apply elem_of_cons; left |]. split; [done |].
        rewrite Hids. by split.
      * right. exists s', l'. split; [| done]. by apply elem_of_cons; right.
Qed.

(** When the elements of a shape have as many bases as the first of
    them, the definition of the shape is flagged as of uniform order
    exactly when all of them have the numbers of modes of the first. *)
Theorem GetFieldDefinitions_UniOrder (m_exp : list Element)
    (defs : list FieldDefinitions) (d : FieldDefinitions)
    (e0 : Element) (rest : list Element) :
  GetFieldDefinitions startenum0 endenum0 shape0 m_exp = Ok defs ->
  d ∈ defs ->
  of_shape (m_ShapeType d) m_exp = e0 :: rest ->
  Forall (fun e => GetNumBases e = GetNumBases e0) rest ->
  (m_UniOrder d = true <-> Forall (fun e => modes e = modes e0) rest).
Proof.
  intros Hrun Hd Hof Hnb. unfold GetFieldDefinitions in Hrun.
  destruct (shapes_loop_members _ _ _ _ _ Hrun Hd)
    as [Hnil|(s & l & _ & Hl & Hids & ->)];
    [by apply elem_of_nil in Hnil |].
  simpl in Hof |- *.
  destruct (elements_loop_contents s m_exp _ _ Hl) as (Hi & _ & Hrest).
  simpl in Hi, Hrest.
  destruct (of_shape s m_exp) as [|e r] eqn:Hs; [by rewrite Hi in Hids |].
  destruct Hrest as (Hshape & _). rewrite Hshape, Hs in Hof.
  injection Hof as -> ->.
  rewrite (elements_loop_UniOrder_first s e0 rest m_exp _ _ Hl); try done.
  simpl. tauto.
Qed.

Lemma elements_loop_fatal (s : Z) (exps : list Element) :
  checks ASSERTL0 ->
  forall l msg,
    elements_loop s exps l = Fatal msg ->
    msg = "Routine is not yet set up for multiple basese definitions"%string.
Proof.
  intros Hchk. induction exps as [|e exps IH]; intros l msg Hrun; [done |].
  change (elements_loop s (e :: exps) l)
    with (element_step s l e ≫= elements_loop s exps) in Hrun.
  unfold element_step in Hrun.
  destruct (GetGeomShapeType e =? s); simpl in Hrun; [| by apply (IH l)].
  destruct (first l); simpl in Hrun; [by apply IH in Hrun |].
  rewrite Hchk in Hrun.
  destruct (bool_decide _); simpl in Hrun; [by apply IH in Hrun |].
  by injection Hrun.
Qed.

Lemma elements_loop_later_ok (s b : Z) (exps : list Element) :
  checks ASSERTL0 ->
  forall l,
    first l = false ->
    basis l !! 0%nat = Some b ->
    (exists l', elements_loop s exps l = Ok l')
    <-> Forall (fun e => GetBasisType e 0 = b) (of_shape s exps).
Proof.
  intros Hchk. induction exps as [|e exps IH]; intros l Hf Hb.
  - split; [done | by exists l].
  - rewrite of_shape_cons.
    change (elements_loop s (e :: exps) l)
      with (element_step s l e ≫= elements_loop s exps).
    unfold element_step. rewrite Hf.
    destruct (Z.eqb_spec (GetGeomShapeType e) s) as [Heq|Hne]; simpl;
      [| by apply IH].
    rewrite Hchk, Hb.
    case_bool_decide as Hsame; simpl.
    + injection Hsame as ->.
      match goal with
      | |- context [later_element e ?l1] =>
          destruct (later_element_contents e l1) as (_ & _ & Hb1 & Hf1 & _)
      end.
      simpl in Hb1, Hf1.
      rewrite IH by (try done; by rewrite Hb1).
      rewrite Forall_cons. tauto.
    + split; [by intros [l' Hl'] |].
      intros Hall. apply Forall_cons in Hall as [Hbe _].
      destruct Hsame. by rewrite Hbe.
Qed.

Lemma basis_types_head (e : Element) :
  0 < GetNumBases e -> basis_types e !! 0%nat = Some (GetBasisType e 0).
Proof.
  intros Hnb. unfold basis_types, bases.
  rewrite list_lookup_fmap, lookup_seq_lt by lia. done.
Qed.

Lemma elements_loop_first_ok (s : Z) (exps : list Element) :
  checks ASSERTL0 ->
  Forall (fun e => 0 < GetNumBases e) exps ->
  forall l,
    first l = true ->
    basis l = [] ->
    (exists l', elements_loop s exps l = Ok l')
    <-> forall e0 rest,
          of_shape s exps = e0 :: rest ->
          Forall (fun e => GetBasisType e 0 = GetBasisType e0 0) rest.
Proof.
  intros Hchk. induction 1 as [|e exps Hnb _ IH]; intros l Hf Hb.
  - split; [done | by exists l].
  - rewrite of_shape_cons.
    change (elements_loop s (e :: exps) l)
      with (element_step s l e ≫= elements_loop s exps).
    unfold element_step. rewrite Hf.
    destruct (Z.eqb_spec (GetGeomShapeType e) s) as [Heq|Hne]; simpl;
      [| by apply IH].
    rewrite first_element_fields. simpl.
    rewrite (elements_loop_later_ok s (GetBasisType e 0) exps Hchk);
      [| done | by rewrite Hb; apply basis_types_head].
    split.
    + intros Hall e0 rest [= <- <-]. done.
    + intros Hall. by apply Hall.
Qed.

Lemma shapes_loop_ok (m_exp : list Element) (ss : list Z) :
  checks ASSERTL0 ->
  Forall (fun e => 0 < GetNumBases e) m_exp ->
  forall ret,
    (exists defs, shapes_loop shape0 m_exp ss ret = Ok defs)
    <-> forall s e0 rest,
          s ∈ ss -> of_shape s m_exp = e0 :: rest ->
          Forall (fun e => GetBasisType e 0 = GetBasisType e0 0) rest.
Proof.
  intros Hchk Hnb. induction ss as [|s ss IH]; intros ret.
  - split; [intros _ s e0 rest Hs; by apply elem_of_nil in Hs |].
    by exists ret.
  - change (shapes_loop shape0 m_exp (s :: ss) ret)
      with (shape_step shape0 m_exp ret s ≫= shapes_loop shape0 m_exp ss).
    unfold shape_step.
    pose proof (elements_loop_first_ok s m_exp Hchk Hnb
                  (mkLocals shape0 [] [] [] true true) eq_refl eq_refl)
      as Hfirst.
    destruct (elements_loop s m_exp _) as [l|msg] eqn:Hl; simpl.
    + assert (Hhere : forall e0 rest,
                of_shape s m_exp = e0 :: rest ->
                Forall (fun e => GetBasisType e 0 = GetBasisType e0 0) rest).
      { apply Hfirst. by exists l. }
      destruct (0 <? length (elementIDs l))%nat; simpl; rewrite IH.
      * split.
        -- intros Hall s' e0 rest Hs'.
           apply elem_of_cons in Hs' as [->|Hs']; [apply Hhere |].
           by apply Hall.
        -- intros Hall s' e0 rest Hs'. apply Hall.
           by apply elem_of_cons; right.
      * split.
        -- intros Hall s' e0 rest Hs'.
           apply elem_of_cons in Hs' as [->|Hs']; [apply Hhere |].
           by apply Hall.
        -- intros Hall s' e0 rest Hs'. apply Hall.
           by apply elem_of_cons; right.
    + split; [by intros [defs Hdefs] |].
      intros Hall.
      assert (Hex : exists l' : Locals, Fatal msg = Ok l').
      { apply Hfirst. intros e0 rest. apply Hall.
        by apply elem_of_cons; left. }
      by destruct Hex.
Qed.

Lemma shapes_loop_fatal (m_exp : list Element) (ss : list Z) :
  checks ASSERTL0 ->
  forall ret msg,
    shapes_loop shape0 m_exp ss ret = Fatal msg ->
    msg = "Routine is not yet set up for multiple basese definitions"%string.
Proof.
  intros Hchk. induction ss as [|s ss IH]; intros ret msg Hrun; [done |].
  change (shapes_loop shape0 m_exp (s :: ss) ret)
    with (shape_step shape0 m_exp ret s ≫= shapes_loop shape0 m_exp ss)
    in Hrun.
  unfold shape_step in Hrun.
  destruct (elements_loop s m_exp _) as [l|msg'] eqn:Hl; simpl in Hrun.
  - destruct (0 <? length (elementIDs l))%nat; by apply IH in Hrun.
  - injection Hrun as <-. by apply (elements_loop_fatal s m_exp Hchk _ _ Hl).
Qed.

End FieldProperties.

Lemma GetFieldDefinitions_contents_witness :
  ExpListFields.GetFieldDefinitions (H := Examples.checking)
    (H0 := Examples.shape_values) 0 0 0 Examples.mesh
  = Ok Examples.mesh_defs
  /\ ExpListFields.contents <$> Examples.mesh_defs
     = [(2, [10; 12], [1; 2], [3; 3; 3; 4], []);
        (3, [11], [5; 5], [4; 4], [])].
Proof.
  assert (Hrun : ExpListFields.GetFieldDefinitions (H := Examples.checking)
                   (H0 := Examples.shape_values) 0 0 0 Examples.mesh
                 = Ok Examples.mesh_defs) by reflexivity.
  split; [exact Hrun |].
  exact (GetFieldDefinitions_contents (H := Examples.checking)
           (H0 := Examples.shape_values) 0 0 0 Examples.mesh
           Examples.mesh_defs Hrun).
Defined.

Lemma GetFieldDefinitions_UniOrder_witness :
  false = true
  <-> Forall (fun e => ExpListFields.modes e
                       = ExpListFields.modes (Examples.e_tri 10 3))
             [Examples.e_tri 12 4].
Proof.
  assert (Hrun : ExpListFields.GetFieldDefinitions (H := Examples.checking)
                   (H0 := Examples.shape_values) 0 0 0 Examples.mesh
                 = Ok Examples.mesh_defs) by reflexivity.
  apply (GetFieldDefinitions_UniOrder (H := Examples.checking)
           (H0 := Examples.shape_values) 0 0 0 Examples.mesh
           Examples.mesh_defs
           (ExpListFields.mkFieldDefinitions 2 [10; 12] [1; 2] false
                                             [3; 3; 3; 4] [])
           (Examples.e_tri 10 3) [Examples.e_tri 12 4] Hrun).
  - apply elem_of_cons; by left.
  - reflexivity.
  - repeat constructor.
Defined.


(** ** The quadrature metric of a tetrahedron *)

Section MetricProperties.
Context {F : Type} `{Scalar F}.
Variables half quarter : F.
Import TetExpMetric.

Lemma pointwise_nat (g : Z -> F -> F) (off : Z) (n : nat) :
  0 <= off ->
  forall (x : list F) (p : nat),
    foldl (fun x i => alter (g (Z.of_nat i + 0))
                            (Z.to_nat (off + (Z.of_nat i + 0))) x)
          x (seq 0 n) !! p
    = if decide (off <= Z.of_nat p < off + Z.of_nat n)
      then g (Z.of_nat p - off) <$> x !! p else x !! p.
Proof.
  intros Hoff. induction n as [|n IH]; intros x p.
  - simpl. case_decide; [lia | done].
  - rewrite seq_S, foldl_app. simpl.
    destruct (decide (p = Z.to_nat (off + (Z.of_nat n + 0)))) as [->|Hne].
    + rewrite list_lookup_alter_eq, IH.
      rewrite decide_False by lia. rewrite decide_True by lia.
      by replace (Z.of_nat (Z.to_nat (off + (Z.of_nat n + 0))) - off)
        with (Z.of_nat n + 0) by lia.
    + rewrite list_lookup_alter_ne by done. rewrite IH.
      repeat case_decide; try done; lia.
Qed.

Lemma pointwise_lookup (g : Z -> F -> F) (off n : Z) (x : list F) (p : nat) :
  0 <= off ->
  pointwise g off n x !! p
  = if decide (off <= Z.of_nat p < off + n)
    then g (Z.of_nat p - off) <$> x !! p else x !! p.
Proof.
  intros Hoff. unfold pointwise, range, seqZ. rewrite foldl_fmap.
  rewrite (pointwise_nat g off (Z.to_nat n) Hoff).
  repeat case_decide; try done; lia.
Qed.

Lemma blocks_nat (g : Z -> Z -> F -> F) (base bs : Z) (nb : nat) :
  0 <= base -> 0 < bs ->
  forall (x : list F) (p : nat),
    foldl (fun x i => pointwise (g (Z.of_nat i + 0))
                                (base + (Z.of_nat i + 0) * bs) bs x)
          x (seq 0 nb) !! p
    = if decide (base <= Z.of_nat p < base + Z.of_nat nb * bs)
      then g ((Z.of_nat p - base) / bs) ((Z.of_nat p - base) mod bs)
           <$> x !! p
      else x !! p.
Proof.
  intros Hbase Hbs. induction nb as [|nb IH]; intros x p.
  - simpl. case_decide; [lia | done].
  - rewrite seq_S, foldl_app. simpl.
    rewrite pointwise_lookup by nia. rewrite IH.
    destruct (decide (base + (Z.of_nat nb + 0) * bs <= Z.of_nat p
                      < base + (Z.of_nat nb + 0) * bs + bs)) as [Hin|Hout].
    + rewrite decide_False by nia. rewrite decide_True by nia.
      assert (Hq : (Z.of_nat p - base) / bs = Z.of_nat nb + 0).
      { symmetry. apply (Z.div_unique_pos _ _ _
                           (Z.of_nat p - base - (Z.of_nat nb + 0) * bs));
          lia. }
      assert (Hr : (Z.of_nat p - base) mod bs
                   = Z.of_nat p - (base + (Z.of_nat nb + 0) * bs)).
      { symmetry. apply (Z.mod_unique_pos _ _ (Z.of_nat nb + 0)); lia. }
      by rewrite Hq, Hr.
    + repeat case_decide; try done; nia.
Qed.

Lemma blocks_pointwise (g : Z -> Z -> F -> F) (base bs nb : Z)
    (x : list F) :
  0 <= base -> 0 < bs ->
  foldl (fun x i => pointwise (g i) (base + i * bs) bs x) x (range nb)
  = pointwise (fun k => g (k / bs) (k mod bs)) base (nb * bs) x.
Proof.
  intros Hbase Hbs. apply list_eq. intros p.
  rewrite pointwise_lookup by done.
  unfold range, seqZ. rewrite foldl_fmap.
  rewrite (blocks_nat g base bs (Z.to_nat nb) Hbase Hbs).
  repeat case_decide; try done; nia.
Qed.

Lemma range_nonneg (n i : Z) : i ∈ range n -> 0 <= i < n.
Proof. unfold range. rewrite elem_of_seqZ. lia. Qed.

Lemma multiply_by_w0_pointwise (e : Exp F) (x : list F) :
  0 < nquad0 e ->
  multiply_by_w0 e x
  = pointwise (fun k v => (v * rd (w0 e) (k mod nquad0 e))%F) 0
              (nquad1 e * nquad2 e * nquad0 e) x.
Proof.
  intros Hq. unfold multiply_by_w0, Vmul_at.
  rewrite <- (blocks_pointwise
                (fun _ k v => (v * rd (w0 e) k)%F) 0 (nquad0 e)) by lia.
  apply foldl_ext_in. intros y i _. f_equal; lia.
Qed.

Lemma scale_direction2_pointwise (e : Exp F) (x : list F) :
  0 < nquad0 e -> 0 < nquad1 e ->
  scale_direction2 quarter e x
  = pointwise (fun k v => metric2 quarter e (k / (nquad0 e * nquad1 e)) v) 0
              (nquad2 e * (nquad0 e * nquad1 e)) x.
Proof.
  intros Hq0 Hq1. unfold scale_direction2, metric2, Smul_at.
  destruct (PointsType2 e).
  - rewrite <- (blocks_pointwise
                  (fun i _ v =>
                     (quarter * (fone - rd (z2 e) i) * (fone - rd (z2 e) i)
                      * rd (w2 e) i * v)%F) 0 (nquad0 e * nquad1 e))
      by nia.
    apply foldl_ext_in. intros y i _. f_equal; lia.
  - apply list_eq. intros p. rewrite pointwise_lookup by lia.
    case_decide; [| done]. by destruct (x !! p).
  - rewrite <- (blocks_pointwise
                  (fun i _ v => (quarter * rd (w2 e) i * v)%F) 0
                  (nquad0 e * nquad1 e)) by nia.
    apply foldl_ext_in. intros y i _. f_equal; lia.
  - apply list_eq. intros p. rewrite pointwise_lookup by lia.
    case_decide; [| done]. by destruct (x !! p).
Qed.

Lemma scale_direction1_pointwise (e : Exp F) (x : list F) :
  0 < nquad0 e -> 0 < nquad1 e ->
  scale_direction1 half e x
  = pointwise (fun k v => metric1 half e ((k / nquad0 e) mod nquad1 e)
                                  (k / nquad0 e / nquad1 e) v) 0
              (nquad2 e * nquad1 e * nquad0 e) x.
Proof.
  intros Hq0 Hq1. unfold scale_direction1, metric1, Smul_at.
  destruct (PointsType1 e).
  - transitivity
      (foldl (fun x j =>
                pointwise (fun k v =>
                             (half * (fone - rd (z1 e) (k / nquad0 e))
                              * rd (w1 e) (k / nquad0 e) * v)%F)
                          (0 + j * (nquad1 e * nquad0 e))
                          (nquad1 e * nquad0 e) x)
             x (range (nquad2 e))).
    + apply foldl_ext_in. intros y j Hj. apply range_nonneg in Hj.
      rewrite <- (blocks_pointwise
                    (fun i _ v =>
                       (half * (fone - rd (z1 e) i) * rd (w1 e) i * v)%F)
                    (0 + j * (nquad1 e * nquad0 e)) (nquad0 e)) by nia.
      apply foldl_ext_in. intros y' i _. f_equal; lia.
    + rewrite (blocks_pointwise
                 (fun _ k v =>
                    (half * (fone - rd (z1 e) (k / nquad0 e))
                     * rd (w1 e) (k / nquad0 e) * v)%F)
                 0 (nquad1 e * nquad0 e)) by nia.
      apply list_eq. intros p. rewrite !pointwise_lookup by lia.
      replace (nquad2 e * (nquad1 e * nquad0 e))
        with (nquad2 e * nquad1 e * nquad0 e) by lia.
      case_decide as Hp; [| done].
      replace (Z.of_nat p - 0) with (Z.of_nat p) by lia.
      assert (Hidx : Z.of_nat p mod (nquad1 e * nquad0 e) / nquad0 e
                     = (Z.of_nat p / nquad0 e) mod nquad1 e).
      { rewrite (Z.mul_comm (nquad1 e) (nquad0 e)).
        rewrite Z.rem_mul_r by lia.
        rewrite (Z.mul_comm (nquad0 e)), Z.div_add by lia.
        rewrite (Z.div_small (_ mod nquad0 e))
          by (apply Z.mod_pos_bound; lia).
        lia. }
      by rewrite Hidx.
  - transitivity
      (foldl (fun x i =>
                pointwise (fun _ v =>
                             (half * rd (w1 e) (Z.rem i (nquad2 e)) * v)%F)
                          (0 + i * nquad0 e) (nquad0 e) x)
             x (range (nquad1 e * nquad2 e)));
      [apply foldl_ext_in; intros y i _; f_equal; lia |].
    replace (nquad2 e * nquad1 e * nquad0 e)
      with (nquad1 e * nquad2 e * nquad0 e) by lia.
    rewrite (blocks_pointwise
               (fun i _ v => (half * rd (w1 e) (Z.rem i (nquad2 e)) * v)%F)
               0 (nquad0 e)) by lia.
    apply list_eq. intros p. rewrite !pointwise_lookup by lia.
    case_decide as Hp; [| done].
    replace (Z.of_nat p - 0) with (Z.of_nat p) by lia.
    assert (Hidx : (Z.of_nat p / nquad0 e) mod nquad1 e
                   + Z.of_nat p / nquad0 e / nquad1 e * nquad1 e
                   = Z.of_nat p / nquad0 e).
    { pose proof (Z.div_mod (Z.of_nat p / nquad0 e) (nquad1 e)). lia. }
    by rewrite Hidx.
  - apply list_eq. intros p. rewrite pointwise_lookup by lia.
    case_decide; [| done]. by destruct (x !! p).
  - apply list_eq. intros p. rewrite pointwise_lookup by lia.
    case_decide; [| done]. by destruct (x !! p).
Qed.

Lemma assign_lookup (h : Z -> F) (n : Z) (z : list F) (p : nat) :
  foldl (fun z i => <[Z.to_nat i := h i]> z) z (range n) !! p
  = if decide (Z.of_nat p < n /\ (p < length z)%nat)
    then Some (h (Z.of_nat p)) else z !! p.
Proof.
  unfold range, seqZ. rewrite foldl_fmap.
  rewrite (foldl_ext_in _ (fun z i => <[i := h (Z.of_nat i)]> z)).
  - rewrite (foldl_insert_lookup (fun i => h (Z.of_nat i))).
    repeat case_decide; try done; lia.
  - intros y i _. rewrite Z.add_0_r, Nat2Z.id. done.
Qed.

Lemma multiply_by_jacobian_lookup (e : Exp F) (inarray outarray : list F)
    (p : nat) :
  multiply_by_jacobian e inarray outarray !! p
  = if decide (Z.of_nat p < nquad0 e * nquad1 e * nquad2 e
               /\ (p < length outarray)%nat)
    then Some (jac_at e (Z.of_nat p) * rd inarray (Z.of_nat p))%F
    else outarray !! p.
Proof.
  unfold multiply_by_jacobian, jac_at, Vmul, Smul.
  destruct (GetGtype e);
    first [ rewrite (assign_lookup
                       (fun i => (rd (GetJac e) 0 * rd inarray i)%F))
          | rewrite (assign_lookup
                       (fun i => (rd (GetJac e) i * rd inarray i)%F)) ];
    done.
Qed.

(** [MultiplyByQuadratureMetric] multiplies the value at the point
    [(i0, i1, i2)] by the Jacobian, by the weight of [i0] and by the
    factors of the second and third direction, in this order, and
    leaves what lies behind the points of the element as it is.  The
    Gauss-Radau factor of the second direction is looked up at
    [(i1 + i2 * nquad1) % nquad2], which is [i1] when the two
    directions have as many points. *)
Theorem MultiplyByQuadratureMetric_point (e : Exp F)
    (inarray outarray : list F) (i0 i1 i2 : Z) :
  let p := i0 + nquad0 e * (i1 + nquad1 e * i2) in
  let nqtot := nquad0 e * nquad1 e * nquad2 e in
  let res := MultiplyByQuadratureMetric half quarter e inarray outarray in
  0 <= i0 < nquad0 e -> 0 <= i1 < nquad1 e -> 0 <= i2 < nquad2 e ->
  nqtot <= Z.of_nat (length outarray) ->
  res !! Z.to_nat p
  = Some (metric2 quarter e i2
            (metric1 half e i1 i2
               (jac_at e p * rd inarray p * rd (w0 e) i0)%F))
  /\ (forall q : nat, nqtot <= Z.of_nat q -> res !! q = outarray !! q)
  /\ (nquad1 e = nquad2 e ->
      Z.rem (i1 + i2 * nquad1 e) (nquad2 e) = i1).
Proof.
  intros p nqtot res H0 H1 H2 Hlen.
  assert (Hb : 0 <= i1 + nquad1 e * i2 <= nquad1 e * nquad2 e - 1) by nia.
  assert (Hp : 0 <= p < nqtot).
  { unfold p, nqtot.
    assert (Hm : nquad0 e * (i1 + nquad1 e * i2)
                 <= nquad0 e * (nquad1 e * nquad2 e - 1))
      by (apply Z.mul_le_mono_nonneg_l; lia).
    assert (Hn : 0 <= nquad0 e * (i1 + nquad1 e * i2))
      by (apply Z.mul_nonneg_nonneg; lia).
    lia. }
  assert (Hres : forall q : nat,
            res !! q
            = if decide (Z.of_nat q < nqtot)
              then Some (metric2 quarter e
                           (Z.of_nat q / (nquad0 e * nquad1 e))
                           (metric1 half e
                              ((Z.of_nat q / nquad0 e) mod nquad1 e)
                              (Z.of_nat q / nquad0 e / nquad1 e)
                              (jac_at e (Z.of_nat q)
                               * rd inarray (Z.of_nat q)
                               * rd (w0 e) (Z.of_nat q mod nquad0 e))%F))
              else outarray !! q).
  { intros q. unfold res, MultiplyByQuadratureMetric.
    rewrite scale_direction2_pointwise, scale_direction1_pointwise,
      multiply_by_w0_pointwise by lia.
    rewrite !pointwise_lookup by lia.
    rewrite multiply_by_jacobian_lookup. fold nqtot.
    replace (Z.of_nat q - 0) with (Z.of_nat q) by lia.
    destruct (decide (Z.of_nat q < nqtot)) as [Hq|Hq].
    - rewrite !decide_True by (unfold nqtot in *; lia). done.
    - rewrite !decide_False by (unfold nqtot in *; lia). done. }
  split; [| split].
  - rewrite Hres, decide_True by lia.
    replace (Z.of_nat (Z.to_nat p)) with p by lia.
    assert (Hd0 : p / nquad0 e = i1 + nquad1 e * i2).
    { symmetry. apply (Z.div_unique_pos _ _ _ i0); unfold p; lia. }
    assert (Hm0 : p mod nquad0 e = i0).
    { symmetry. apply (Z.mod_unique_pos _ _ (i1 + nquad1 e * i2));
        unfold p; lia. }
    assert (Hd1 : (i1 + nquad1 e * i2) / nquad1 e = i2).
    { symmetry. apply (Z.div_unique_pos _ _ _ i1); lia. }
    assert (Hm1 : (i1 + nquad1 e * i2) mod nquad1 e = i1).
    { symmetry. apply (Z.mod_unique_pos _ _ i2); lia. }
    assert (Hd2 : p / (nquad0 e * nquad1 e) = i2).
    { rewrite <- Z.div_div by lia. by rewrite Hd0, Hd1. }
    by rewrite Hd0, Hm0, Hd1, Hm1, Hd2.
  - intros q Hq. rewrite Hres, decide_False by lia. done.
  - intros Hsame. rewrite Z.rem_mod_nonneg by nia.
    rewrite Hsame, Z.mod_add by lia. apply Z.mod_small. lia.
Qed.
End MetricProperties.

Lemma MultiplyByQuadratureMetric_point_witness :
  let res := TetExpMetric.MultiplyByQuadratureMetric 2 4 Examples.tet_metric
               [1; 2; 3; 4; 5; 6; 7; 8] [0; 0; 0; 0; 0; 0; 0; 0; 9] in
  res !! 3%nat = Some 3840 /\ res !! 8%nat = Some 9.
Proof.
  assert (H0 : 0 <= 1 < 2) by lia. assert (H2 : 0 <= 0 < 2) by lia.
  assert (Hlen : 2 * 2 * 2 <= Z.of_nat 9) by lia.
  destruct (MultiplyByQuadratureMetric_point 2 4 Examples.tet_metric
              [1; 2; 3; 4; 5; 6; 7; 8] [0; 0; 0; 0; 0; 0; 0; 0; 9]
              1 1 0 H0 H0 H2 Hlen) as (Hv & Ht & _).
  split; [exact Hv |].
  assert (Hq : 2 * 2 * 2 <= Z.of_nat 8) by lia.
  exact (Ht 8%nat Hq).
Defined.

(** ** The local matrices of a tetrahedron *)

Section CreateMatrixProperties.
Context {F : Type} `{Scalar F} `{ErrorUtil}.
Variable Invert : DNekMat F -> result (DNekMat F).
Import TetExpMatrix.

Lemma GetValue_tabulate (r c : nat) (f : nat -> nat -> F) (i j : nat) :
  GetValue (tabulate r c f) i j
  = if decide (i < r /\ j < c)%nat then f i j else fzero.
Proof.
  unfold GetValue, tabulate. simpl.
  change (map ?g ?l) with (g <$> l).
  rewrite list_lookup_fmap.
  destruct (decide (i < r)%nat) as [Hi|Hi].
  - rewrite lookup_seq_lt by done. simpl.
    change (map ?g ?l) with (g <$> l).
    rewrite list_lookup_fmap.
    destruct (decide (j < c)%nat) as [Hj|Hj].
    + rewrite lookup_seq_lt by done. simpl. by rewrite decide_True.
    + rewrite lookup_seq_ge by lia. simpl. by rewrite decide_False by lia.
  - rewrite lookup_seq_ge by lia. simpl. by rewrite decide_False by lia.
Qed.

Lemma madd_square (n : nat) (a b : DNekMat F) :
  square n a -> square n (madd a b).
Proof. by intros [Hr Hc]. Qed.

Lemma mscale_square (n : nat) (s : F) (a : DNekMat F) :
  square n a -> square n (mscale s a).
Proof. by intros [Hr Hc]. Qed.

Lemma madd_symmetric (n : nat) (a b : DNekMat F) :
  symmetric n a ->
  (forall i j, GetValue b i j = GetValue b j i) ->
  symmetric n (madd a b).
Proof.
  intros (Hr & Hc & Ha) Hb. split; [done |]. split; [done |].
  intros i j. unfold madd. rewrite !GetValue_tabulate, Hr, Hc.
  repeat case_decide; try done; try lia. by rewrite Ha, Hb.
Qed.

Lemma mscale_symmetric (n : nat) (s : F) (a : DNekMat F) :
  symmetric n a -> symmetric n (mscale s a).
Proof.
  intros (Hr & Hc & Ha). split; [done |]. split; [done |].
  intros i j. unfold mscale. rewrite !GetValue_tabulate, Hr, Hc.
  repeat case_decide; try done; try lia. by rewrite Ha.
Qed.

Lemma symmetrised (n : nat) (a : DNekMat F) :
  (forall x y : F, (x + y)%F = (y + x)%F) ->
  square n a -> symmetric n (madd a (Transpose a)).
Proof.
  intros Hcomm [Hr Hc]. split; [done |]. split; [done |].
  intros i j. unfold madd, Transpose.
  rewrite !GetValue_tabulate, Hr, Hc.
  repeat case_decide; try done; try lia; try apply Hcomm.
Qed.

Lemma regular_Laplacian_symmetric (e : Exp F) (n : nat) :
  (forall x y : F, (x + y)%F = (y + x)%F) ->
  symmetric n (GetStdMatrix e (mkMatrixKey eLaplacian00 [])) ->
  symmetric n (GetStdMatrix e (mkMatrixKey eLaplacian11 [])) ->
  symmetric n (GetStdMatrix e (mkMatrixKey eLaplacian22 [])) ->
  square n (GetStdMatrix e (mkMatrixKey eLaplacian01 [])) ->
  square n (GetStdMatrix e (mkMatrixKey eLaplacian02 [])) ->
  square n (GetStdMatrix e (mkMatrixKey eLaplacian12 [])) ->
  symmetric n (regular_Laplacian e).
Proof.
  intros Hcomm H00 H11 H22 H01 H02 H12. unfold regular_Laplacian.
  repeat (apply madd_symmetric;
          [| apply (mscale_symmetric n); first [done | by apply symmetrised]]).
  by apply mscale_symmetric.
Qed.

Lemma helmholtz_sum_symmetric (n : nat) (LapMat MassMat : DNekScalMat F)
    (factor : F) :
  GetRows LapMat = n -> GetColumns LapMat = n ->
  (forall i j, ScalGet LapMat i j = ScalGet LapMat j i) ->
  (forall i j, ScalGet MassMat i j = ScalGet MassMat j i) ->
  symmetric n (helmholtz_sum LapMat MassMat factor).
Proof.
  intros Hr Hc Hlap Hmass. split; [done |]. split; [done |].
  intros i j. unfold helmholtz_sum.
  rewrite !GetValue_tabulate, Hr, Hc.
  repeat case_decide; try done; try lia. by rewrite Hlap, Hmass.
Qed.

(** For an element of regular geometry the Laplacian and the Helmholtz
    matrix that [CreateMatrix] builds are symmetric as soon as the
    mass matrix and the three pure second-derivative matrices of the
    standard element are, whatever the three mixed ones hold: each of
    those enters as the sum with its transpose.  Addition needs to be
    commutative; nothing is inverted or generated. *)
Theorem CreateMatrix_regular_symmetric (e : Exp F) (mkey : MatrixKey F)
    (n : nat) :
  passes ASSERTL2 ->
  GetGtype e = eRegular ->
  (forall x y : F, (x + y)%F = (y + x)%F) ->
  symmetric n (GetStdMatrix e (mkMatrixKey eMass [])) ->
  symmetric n (GetStdMatrix e (mkMatrixKey eLaplacian00 [])) ->
  symmetric n (GetStdMatrix e (mkMatrixKey eLaplacian11 [])) ->
  symmetric n (GetStdMatrix e (mkMatrixKey eLaplacian22 [])) ->
  square n (GetStdMatrix e (mkMatrixKey eLaplacian01 [])) ->
  square n (GetStdMatrix e (mkMatrixKey eLaplacian02 [])) ->
  square n (GetStdMatrix e (mkMatrixKey eLaplacian12 [])) ->
  GetMatrixType mkey = eLaplacian \/ GetMatrixType mkey = eHelmholtz ->
  exists M,
    CreateMatrix Invert e mkey = Ok M
    /\ GetRows M = n /\ GetColumns M = n
    /\ forall i j, ScalGet M i j = ScalGet M j i.
Proof.
  intros Hpass Hreg Hcomm Hmass H00 H11 H22 H01 H02 H12 Htype.
  destruct (regular_Laplacian_symmetric e n Hcomm H00 H11 H22 H01 H02 H12)
    as (Hr & Hc & Hlap).
  destruct Htype as [Htype|Htype].
  - exists (mkScal (GetJac0 e) (regular_Laplacian e)).
    split; [| split; [done | split; [done |]]].
    + unfold CreateMatrix, create. rewrite Htype, Hreg. simpl.
      by rewrite Hpass.
    + intros i j. unfold ScalGet. simpl. by rewrite Hlap.
  - set (LapMat := mkScal (GetJac0 e) (regular_Laplacian e)).
    set (MassMat := mkScal (GetJac0 e)
                           (GetStdMatrix e (mkMatrixKey eMass []))).
    destruct (helmholtz_sum_symmetric n LapMat MassMat
                (GetConstant mkey 0%nat))
      as (Hhr & Hhc & Hhelm); try done.
    { intros i j. unfold ScalGet. simpl. by rewrite Hlap. }
    { intros i j. unfold ScalGet. simpl.
      destruct Hmass as (_ & _ & Hmass). by rewrite Hmass. }
    exists (mkScal fone (helmholtz_sum LapMat MassMat
                           (GetConstant mkey 0%nat))).
    split; [| split; [done | split; [done |]]].
    + unfold CreateMatrix, m_matrixManager, create.
      rewrite Htype, Hreg. simpl. by rewrite !Hpass.
    + intros i j. unfold ScalGet. simpl. by rewrite Hhelm.
Qed.
End CreateMatrixProperties.

Lemma CreateMatrix_regular_symmetric_witness :
  match TetExpMatrix.CreateMatrix Examples.no_Invert Examples.tet_std
          (TetExpMatrix.mkMatrixKey eHelmholtz [3]) with
  | Ok M => ScalGet M 0 1 = ScalGet M 1 0 /\ GetRows M = 2%nat
  | Fatal _ => False
  end.
Proof.
  assert (Hpass : passes (@ASSERTL2 Examples.checking))
    by (intros msg; reflexivity).
  assert (Hcomm : forall x y : Z, (x + y)%F = (y + x)%F)
    by (intros x y; simpl; lia).
  assert (Hsym : forall t,
            t = eMass \/ t = TetExpMatrix.eLaplacian00
            \/ t = TetExpMatrix.eLaplacian11
            \/ t = TetExpMatrix.eLaplacian22 ->
            TetExpMatrix.symmetric 2
              (TetExpMatrix.GetStdMatrix Examples.tet_std
                 (TetExpMatrix.mkMatrixKey t []))).
  { intros t [-> | [-> | [-> | ->]]];
      (split; [reflexivity | split; [reflexivity |]]);
      intros [|[|i]] [|[|j]]; reflexivity. }
  destruct (CreateMatrix_regular_symmetric (H0 := Examples.checking)
              Examples.no_Invert Examples.tet_std
              (TetExpMatrix.mkMatrixKey eHelmholtz [3]) 2
              Hpass eq_refl Hcomm
              (Hsym _ (or_introl eq_refl))
              (Hsym _ (or_intror (or_introl eq_refl)))
              (Hsym _ (or_intror (or_intror (or_introl eq_refl))))
              (Hsym _ (or_intror (or_intror (or_intror eq_refl))))
              (conj eq_refl eq_refl) (conj eq_refl eq_refl)
              (conj eq_refl eq_refl) (or_intror eq_refl))
    as (M & -> & Hr & _ & Hs).
  split; [apply Hs | exact Hr].
Defined.

(** ** The block matrix of the local matrices *)

Section BlockMatrixProperties.
Context {F : Type} `{Scalar F}.
Import ExpListBlock.
Variable unset : nat -> nat -> F.

Lemma totnq_before_S (m_exp : list (Element F)) (i : nat) (e : Element F) :
  m_exp !! i = Some e ->
  totnq_before m_exp (S i)
  = totnq_before m_exp i + GetCoordim e * GetTotPoints e.
Proof.
  intros He. unfold totnq_before.
  rewrite (take_S_r _ _ _ He), fmap_app, foldr_app. simpl.
  generalize (GetCoordim e * GetTotPoints e).
  generalize ((fun e0 => GetCoordim e0 * GetTotPoints e0) <$> take i m_exp).
  intros l x. induction l as [|y l IH]; simpl; [lia |]. rewrite IH. lia.
Qed.

Lemma block_loop_blocks (gkey : GlobalMatrixKey F)
    (m_exp : list (Element F)) :
  forall (rest front : list (Element F)) (st : Loop F),
    m_exp = front ++ rest ->
    cnt1 st = (if 0 <? GetNvariableCoefficients gkey
               then totnq_before m_exp (length front) else 0) ->
    matrixid st = (if 0 <? GetNvariableCoefficients gkey
                   then Z.of_nat (length front) else 0) ->
    (GetNvariableCoefficients gkey = 0 -> varcoeffs st = []) ->
    let B := BlkMatrix (block_loop unset gkey rest (length front) st) in
    blk_storage B = blk_storage (BlkMatrix st)
    /\ blk_row_sizes B = blk_row_sizes (BlkMatrix st)
    /\ blk_col_sizes B = blk_col_sizes (BlkMatrix st)
    /\ forall i j,
         GetBlock B i j
         = if decide (i = j /\ length front <= i)%nat
           then match m_exp !! i with
                | Some e => Some (GetLocMatrix e (key_of unset gkey m_exp i e))
                | None => GetBlock (BlkMatrix st) i j
                end
           else GetBlock (BlkMatrix st) i j.
Proof.
  induction rest as [|e rest IH]; intros front st Hexp Hcnt Hid Hvar.
  - simpl. split; [done |]. split; [done |]. split; [done |].
    intros i j. case_decide as Hij; [| done].
    destruct Hij as [-> Hi]. rewrite app_nil_r in Hexp. subst front.
    by rewrite (lookup_ge_None_2 m_exp j) by done.
  - assert (He : m_exp !! length front = Some e).
    { rewrite Hexp. by apply list_lookup_middle. }
    change (block_loop unset gkey (e :: rest) (length front) st)
      with (block_loop unset gkey rest (S (length front))
              (block_step unset gkey st (length front) e)).
    replace (S (length front)) with (length (front ++ [e]))
      by (rewrite length_app; simpl; lia).
    assert (Hstep : block_step unset gkey st (length front) e
                    = mkLoop
                        (if 0 <? GetNvariableCoefficients gkey
                         then totnq_before m_exp (length (front ++ [e]))
                         else 0)
                        (if 0 <? GetNvariableCoefficients gkey
                         then Z.of_nat (length (front ++ [e])) else 0)
                        (key_varcoeffs (key_of unset gkey m_exp (length front) e))
                        (SetBlock (BlkMatrix st) (length front)
                           (length front)
                           (GetLocMatrix e
                              (key_of unset gkey m_exp (length front) e)))).
    { unfold block_step, key_of. rewrite Hcnt, Hid.
      rewrite length_app. simpl.
      replace (length front + 1)%nat with (S (length front)) by lia.
      rewrite (totnq_before_S m_exp _ e He).
      destruct (Z.ltb_spec 0 (GetNvariableCoefficients gkey)) as [Hpos|Hzero];
        simpl.
      - f_equal. lia.
      - rewrite Hvar by (unfold GetNvariableCoefficients in *; lia).
        assert (Hnil : GetVariableCoefficient gkey = []).
        { unfold GetNvariableCoefficients in Hzero.
          destruct (GetVariableCoefficient gkey); [done | simpl in Hzero; lia]. }
        rewrite Hnil. simpl. by rewrite Hcnt, Hid. }
    rewrite Hstep.
    destruct (IH (front ++ [e])
                (mkLoop
                   (if 0 <? GetNvariableCoefficients gkey
                    then totnq_before m_exp (length (front ++ [e])) else 0)
                   (if 0 <? GetNvariableCoefficients gkey
                    then Z.of_nat (length (front ++ [e])) else 0)
                   (key_varcoeffs (key_of unset gkey m_exp (length front) e))
                   (SetBlock (BlkMatrix st) (length front) (length front)
                      (GetLocMatrix e
                         (key_of unset gkey m_exp (length front) e)))))
      as (Hs & Hr & Hc & Hblocks); try done.
    + by rewrite <- app_assoc.
    + intros Hzero. simpl.
      destruct (GetVariableCoefficient gkey) eqn:Hv; [done |].
      unfold GetNvariableCoefficients in Hzero. rewrite Hv in Hzero.
      simpl in Hzero. lia.
    + split; [done |]. split; [done |]. split; [done |].
      intros i j. rewrite Hblocks. simpl.
      rewrite length_app. simpl. unfold GetBlock, SetBlock. simpl.
      destruct (decide (i = j /\ length front <= i)%nat) as [[-> Hi]|Hno].
      * destruct (decide (j = length front)) as [->|Hne].
        -- rewrite decide_False by lia. rewrite He.
           by rewrite lookup_insert_eq.
        -- rewrite decide_True by lia.
           destruct (m_exp !! j); [done |].
           rewrite lookup_insert_ne; [done |]. intros [= ?]. lia.
      * rewrite decide_False by lia.
        rewrite lookup_insert_ne; [done |]. intros [= <- <-]. lia.
Qed.

End BlockMatrixProperties.


(** ** Packing the forcing and unpacking the solution *)

Section PackingProperties.
Context {F : Type} `{Scalar F}.
Import CoupledSolve.

Lemma write_block_lookup (h : Z -> F) (cnt : Z) (len : nat) (x : list F)
    (p : nat) :
  0 <= cnt ->
  foldl (fun x k => <[Z.to_nat (cnt + k) := h k]> x) x
        (range (Z.of_nat len)) !! p
  = if decide ((Z.to_nat cnt <= p < Z.to_nat cnt + len)%nat
               /\ (p < length x)%nat)
    then Some (h (Z.of_nat (p - Z.to_nat cnt))) else x !! p.
Proof.
  intros Hcnt. unfold range, seqZ. rewrite foldl_fmap, Nat2Z.id.
  rewrite (foldl_ext_in _
             (fun x i => <[(Z.to_nat cnt + i)%nat
                             := h (Z.of_nat (Z.to_nat cnt + i
                                             - Z.to_nat cnt))]> x)).
  - rewrite <- (foldl_fmap
                  (fun x j => <[j := h (Z.of_nat (j - Z.to_nat cnt))]> x)
                  x (seq 0 len) (fun i => (Z.to_nat cnt + i)%nat)).
    rewrite fmap_add_seq, Nat.add_0_r.
    by rewrite (foldl_insert_lookup
                  (fun j => h (Z.of_nat (j - Z.to_nat cnt)))).
  - intros y i _. f_equal; [lia |]. f_equal. lia.
Qed.

Lemma write_block (h : Z -> F) (cnt : Z) (len : nat) (x : list F) :
  0 <= cnt ->
  (Z.to_nat cnt + len <= length x)%nat ->
  foldl (fun x k => <[Z.to_nat (cnt + k) := h k]> x) x
        (range (Z.of_nat len))
  = take (Z.to_nat cnt) x
    ++ ((fun i => h (Z.of_nat i)) <$> seq 0 len)
    ++ drop (Z.to_nat cnt + len) x.
Proof.
  intros Hcnt Hlen. apply list_eq. intros p.
  rewrite write_block_lookup by done.
  destruct (decide (p < Z.to_nat cnt)%nat) as [Hlt|Hge].
  - rewrite decide_False by lia.
    rewrite lookup_app_l by (rewrite length_take; lia).
    by rewrite lookup_take_lt.
  - rewrite lookup_app_r by (rewrite length_take; lia).
    rewrite length_take, Nat.min_l by lia.
    destruct (decide (p < Z.to_nat cnt + len)%nat) as [Hin|Hout].
    + rewrite decide_True by lia.
      rewrite lookup_app_l by (rewrite length_fmap, length_seq; lia).
      rewrite list_lookup_fmap, lookup_seq_lt by lia. done.
    + rewrite decide_False by lia.
      rewrite lookup_app_r by (rewrite length_fmap, length_seq; lia).
      rewrite length_fmap, length_seq, lookup_drop. f_equal. lia.
Qed.

Lemma through_map {B : Type} (g : Z -> B) (m : list Z) :
  (fun i => g (map_at m (Z.of_nat i))) <$> seq 0 (length m) = g <$> m.
Proof.
  apply list_eq. intros p. rewrite !list_lookup_fmap.
  destruct (decide (p < length m)%nat) as [Hp|Hp].
  - rewrite lookup_seq_lt by done. simpl.
    unfold map_at. rewrite Nat2Z.id.
    by destruct (lookup_lt_is_Some_2 m p Hp) as [v ->].
  - rewrite lookup_seq_ge by lia. by rewrite (lookup_ge_None_2 m p) by lia.
Qed.

Lemma assemble_plane_blocks (f : Fields) (forcing : list (list F))
    (e : Elmt) (j n : Z) (a : Assembly F) :
  let c := Z.to_nat (a_cnt a) in
  let c1 := Z.to_nat (a_cnt1 a) in
  let nb := length (GetBoundaryMap e) in
  let ni := length (GetInteriorMap e) in
  0 <= a_cnt a -> 0 <= a_cnt1 a ->
  (c + nb <= length (f_bnd a))%nat -> (c1 + ni <= length (f_int a))%nat ->
  assemble_plane f forcing e j a n
  = mkAssembly (a_cnt a + Z.of_nat nb) (a_cnt1 a + Z.of_nat ni)
      (take c (f_bnd a) ++ bnd_values f forcing (e, j, n)
       ++ drop (c + nb) (f_bnd a))
      (take c1 (f_int a) ++ int_values f forcing (e, j, n)
       ++ drop (c1 + ni) (f_int a)).
Proof.
  intros c c1 nb ni Hc Hc1 Hb Hi. unfold assemble_plane.
  rewrite (write_block
             (fun k => rd2 forcing j
                         (coeff_index f e n (map_at (GetBoundaryMap e) k))))
    by done.
  rewrite (write_block
             (fun k => rd2 forcing j
                         (coeff_index f e n (map_at (GetInteriorMap e) k))))
    by done.
  unfold bnd_values, int_values. simpl.
  by rewrite (through_map (fun mapk => rd2 forcing j (coeff_index f e n mapk))),
    (through_map (fun mapk => rd2 forcing j (coeff_index f e n mapk))).
Qed.

Lemma middle_block {A : Type} (c n m : nat) (x vs : list A) :
  (c + n + m <= length x)%nat -> length vs = n ->
  let x' := take c x ++ vs ++ drop (c + n) x in
  length x' = length x
  /\ take (c + n) x' = take c x ++ vs
  /\ drop (c + n + m) x' = drop (c + n + m) x.
Proof.
  intros Hlen Hvs x'.
  assert (Hl : (c + n)%nat = length (take c x ++ vs))
    by (rewrite length_app, length_take; lia).
  unfold x'. rewrite app_assoc.
  split; [| split].
  - rewrite !length_app, length_take, length_drop. lia.
  - by rewrite (take_app_length' _ _ _ Hl).
  - by rewrite (drop_app_add' _ _ _ _ Hl), drop_drop.
Qed.

Lemma assemble_fold (f : Fields) (forcing : list (list F))
    (T : list (Elmt * Z * Z)) :
  forall a : Assembly F,
    let c := Z.to_nat (a_cnt a) in
    let c1 := Z.to_nat (a_cnt1 a) in
    0 <= a_cnt a -> 0 <= a_cnt1 a ->
    (c + bnd_count T <= length (f_bnd a))%nat ->
    (c1 + int_count T <= length (f_int a))%nat ->
    foldl (fun a t => assemble_plane f forcing t.1.1 t.1.2 a t.2) a T
    = mkAssembly (a_cnt a + Z.of_nat (bnd_count T))
        (a_cnt1 a + Z.of_nat (int_count T))
        (take c (f_bnd a) ++ (T ≫= bnd_values f forcing)
         ++ drop (c + bnd_count T) (f_bnd a))
        (take c1 (f_int a) ++ (T ≫= int_values f forcing)
         ++ drop (c1 + int_count T) (f_int a)).
Proof.
  induction T as [|[[e j] n] T IH]; intros a c c1 Hc Hc1 Hb Hi.
  - simpl. unfold bnd_count, int_count. simpl.
    rewrite !Nat.add_0_r, !Z.add_0_r, !take_drop. by destruct a.
  - change (bnd_count (((e, j), n) :: T))
      with (length (GetBoundaryMap e) + bnd_count T)%nat in *.
    change (int_count (((e, j), n) :: T))
      with (length (GetInteriorMap e) + int_count T)%nat in *.
    change (((e, j, n) :: T) ≫= bnd_values f forcing)
      with (bnd_values f forcing (e, j, n) ++ (T ≫= bnd_values f forcing)).
    change (((e, j, n) :: T) ≫= int_values f forcing)
      with (int_values f forcing (e, j, n) ++ (T ≫= int_values f forcing)).
    cbn [foldl fst snd].
    rewrite assemble_plane_blocks by (fold c c1; lia).
    fold c c1.
    destruct (middle_block c (length (GetBoundaryMap e)) (bnd_count T)
                (f_bnd a) (bnd_values f forcing (e, j, n)))
      as (Hlb & Htb & Hdb);
      [lia | by unfold bnd_values; rewrite length_fmap |].
    destruct (middle_block c1 (length (GetInteriorMap e)) (int_count T)
                (f_int a) (int_values f forcing (e, j, n)))
      as (Hli & Hti & Hdi);
      [lia | by unfold int_values; rewrite length_fmap |].
    rewrite IH; simpl; try lia;
      rewrite ?Z2Nat.inj_add, ?Nat2Z.id by lia; fold c c1;
      rewrite ?Hlb, ?Hli; try lia.
    rewrite Htb, Hti, Hdb, Hdi, !Nat2Z.inj_add, <- !app_assoc.
    by rewrite !Nat.add_assoc, !Z.add_assoc.
Qed.

Lemma assemble_flat (f : Fields) (nz_loc : Z) (forcing : list (list F))
    (f_bnd0 f_int0 : list F) :
  assemble f nz_loc forcing f_bnd0 f_int0
  = foldl (fun a t => assemble_plane f forcing t.1.1 t.1.2 a t.2)
          (mkAssembly 0 0 f_bnd0 f_int0) (passes_of f nz_loc).
Proof.
  unfold assemble, passes_of. rewrite foldl_bind.
  apply foldl_ext_in. intros a i _. rewrite foldl_bind.
  apply foldl_ext_in. intros a' j _. rewrite foldl_bind.
  by apply foldl_ext_in.
Qed.

Lemma copy_through_map (forcing : list (list F)) (j : Z) (idx : Z -> Z)
    (v : Z -> F) (m : list Z) (coeffs : list (list F)) :
  (forall k, (k < length m)%nat ->
     v (Z.of_nat k) = rd2 forcing j (idx (map_at m (Z.of_nat k)))) ->
  foldl (fun coeffs k => SetCoeff coeffs j (idx (map_at m k)) (v k))
        coeffs (range (Z.of_nat (length m)))
  = foldl (copy_coeff forcing) coeffs ((fun mapk => (j, idx mapk)) <$> m).
Proof.
  intros Hv.
  rewrite <- (through_map (fun mapk => (j, idx mapk)) m), foldl_fmap.
  unfold range, seqZ. rewrite foldl_fmap, Nat2Z.id.
  apply foldl_ext_in. intros cs k Hk.
  apply list_elem_of_lookup_1 in Hk as [p Hp].
  apply lookup_seq in Hp as [-> Hp].
  rewrite Z.add_0_r. unfold copy_coeff. simpl. by rewrite Hv.
Qed.

Lemma read_block (pre vs post : list F) (cnt : Z) (k : nat) :
  0 <= cnt -> length pre = Z.to_nat cnt -> (k < length vs)%nat ->
  rd (pre ++ vs ++ post) (cnt + Z.of_nat k) = default fzero (vs !! k).
Proof.
  intros Hcnt Hpre Hk. unfold rd.
  replace (Z.to_nat (cnt + Z.of_nat k)) with (length pre + k)%nat by lia.
  rewrite lookup_app_r by lia.
  replace (length pre + k - length pre)%nat with k by lia.
  by rewrite lookup_app_l by done.
Qed.

Lemma unpack_plane_copies (f : Fields) (forcing : list (list F))
    (e : Elmt) (j n : Z) (u : Unpacking F)
    (pre post pre1 post1 : list F) :
  0 <= u_cnt u -> 0 <= u_cnt1 u ->
  length pre = Z.to_nat (u_cnt u) -> length pre1 = Z.to_nat (u_cnt1 u) ->
  unpack_plane f (pre ++ bnd_values f forcing (e, j, n) ++ post)
               (pre1 ++ int_values f forcing (e, j, n) ++ post1) e j u n
  = mkUnpacking (u_cnt u + Z.of_nat (length (GetBoundaryMap e)))
      (u_cnt1 u + Z.of_nat (length (GetInteriorMap e)))
      (foldl (copy_coeff forcing) (v_coeffs u) (touched_by f (e, j, n))).
Proof.
  intros Hc Hc1 Hpre Hpre1. unfold unpack_plane, touched_by.
  rewrite foldl_app. simpl. f_equal.
  rewrite (copy_through_map forcing j (coeff_index f e n)
             (fun k => rd (pre ++ bnd_values f forcing (e, j, n) ++ post)
                          (u_cnt u + k))).
  - rewrite (copy_through_map forcing j (coeff_index f e n)
               (fun k => rd (pre1 ++ int_values f forcing (e, j, n)
                             ++ post1) (u_cnt1 u + k))); [done |].
    intros k Hk.
    rewrite read_block
      by (try done; by unfold int_values; rewrite length_fmap).
    unfold int_values. simpl. rewrite list_lookup_fmap.
    unfold map_at. rewrite Nat2Z.id.
    by destruct (lookup_lt_is_Some_2 _ k Hk) as [v ->].
  - intros k Hk.
    rewrite read_block
      by (try done; by unfold bnd_values; rewrite length_fmap).
    unfold bnd_values. simpl. rewrite list_lookup_fmap.
    unfold map_at. rewrite Nat2Z.id.
    by destruct (lookup_lt_is_Some_2 _ k Hk) as [v ->].
Qed.

Lemma unpack_fold (f : Fields) (forcing : list (list F))
    (T : list (Elmt * Z * Z)) :
  forall (u : Unpacking F) (pre post pre1 post1 : list F),
    0 <= u_cnt u -> 0 <= u_cnt1 u ->
    length pre = Z.to_nat (u_cnt u) -> length pre1 = Z.to_nat (u_cnt1 u) ->
    v_coeffs
      (foldl (fun u t =>
                unpack_plane f (pre ++ (T ≫= bnd_values f forcing) ++ post)
                             (pre1 ++ (T ≫= int_values f forcing) ++ post1)
                             t.1.1 t.1.2 u t.2)
             u T)
    = foldl (copy_coeff forcing) (v_coeffs u) (T ≫= touched_by f).
Proof.
  assert (Hgen : forall (T front : list (Elmt * Z * Z))
                   (u : Unpacking F) (pre post pre1 post1 : list F),
            0 <= u_cnt u -> 0 <= u_cnt1 u ->
            length pre = Z.to_nat (u_cnt u) ->
            length pre1 = Z.to_nat (u_cnt1 u) ->
            v_coeffs
              (foldl (fun u t =>
                        unpack_plane f
                          (pre ++ (T ≫= bnd_values f forcing) ++ post)
                          (pre1 ++ (T ≫= int_values f forcing) ++ post1)
                          t.1.1 t.1.2 u t.2)
                     u T)
            = foldl (copy_coeff forcing) (v_coeffs u) (T ≫= touched_by f)).
  { clear T. induction T as [|[[e j] n] T IH];
      intros front u pre post pre1 post1 Hc Hc1 Hpre Hpre1; [done |].
    change (((e, j, n) :: T) ≫= bnd_values f forcing)
      with (bnd_values f forcing (e, j, n) ++ (T ≫= bnd_values f forcing)).
    change (((e, j, n) :: T) ≫= int_values f forcing)
      with (int_values f forcing (e, j, n) ++ (T ≫= int_values f forcing)).
    change (((e, j, n) :: T) ≫= touched_by f)
      with (touched_by f (e, j, n) ++ (T ≫= touched_by f)).
    rewrite foldl_app. cbn [foldl fst snd].
    rewrite <- !(app_assoc (bnd_values f forcing (e, j, n))),
      <- !(app_assoc (int_values f forcing (e, j, n))).
    rewrite unpack_plane_copies by done.
    rewrite !(app_assoc pre), !(app_assoc pre1).
    rewrite (IH front); simpl; try lia; try done.
    - rewrite length_app. unfold bnd_values. rewrite length_fmap. simpl. lia.
    - rewrite length_app. unfold int_values. rewrite length_fmap. simpl. lia. }
  intros u pre post pre1 post1. by apply (Hgen T []).
Qed.

Lemma unpack_flat (f : Fields) (nz_loc : Z) (f_bnd0 f_int0 : list F)
    (coeffs : list (list F)) :
  (forall i, (i < nel f)%nat ->
     fields0_GetExp f (GetOffset_Elmt_Id f i)
     = velocity_GetExp f (GetOffset_Elmt_Id f i)) ->
  unpack f nz_loc f_bnd0 f_int0 coeffs
  = foldl (fun u t => unpack_plane f f_bnd0 f_int0 t.1.1 t.1.2 u t.2)
          (mkUnpacking 0 0 coeffs) (passes_of f nz_loc).
Proof.
  intros Hsame. unfold unpack, passes_of. rewrite foldl_bind.
  apply foldl_ext_in. intros u i Hi.
  apply elem_of_seq in Hi. rewrite Hsame by lia.
  rewrite foldl_bind.
  apply foldl_ext_in. intros u' j _. rewrite foldl_bind.
  by apply foldl_ext_in.
Qed.

Lemma SetCoeff_lookup (coeffs : list (list F)) (jw iw : Z) (v : F)
    (j q : nat) :
  0 <= jw -> 0 <= iw ->
  SetCoeff coeffs jw iw v !! j ≫= (.!! q)
  = if decide (jw = Z.of_nat j /\ iw = Z.of_nat q)
    then (fun _ => v) <$> (coeffs !! j ≫= (.!! q))
    else coeffs !! j ≫= (.!! q).
Proof.
  intros Hj Hi. unfold SetCoeff.
  destruct (decide (Z.to_nat jw = j)) as [<-|Hne].
  - rewrite list_lookup_alter_eq.
    destruct (coeffs !! Z.to_nat jw) as [row|]; simpl;
      [| by case_decide].
    destruct (decide (Z.to_nat iw = q)) as [<-|Hneq].
    + rewrite decide_True by lia.
      destruct (decide (Z.to_nat iw < length row)%nat) as [Hlt|Hge].
      * rewrite list_lookup_insert_eq by done.
        by destruct (lookup_lt_is_Some_2 row _ Hlt) as [x ->].
      * rewrite list_insert_ge by lia.
        by rewrite (lookup_ge_None_2 row) by lia.
    + rewrite list_lookup_insert_ne by done.
      by rewrite decide_False by lia.
  - rewrite list_lookup_alter_ne by done.
    by rewrite decide_False by lia.
Qed.

Lemma copy_coeff_lookup (forcing : list (list F)) (W : list (Z * Z)) :
  Forall (fun w => 0 <= w.1 /\ 0 <= w.2) W ->
  forall (coeffs : list (list F)) (j q : nat),
    foldl (copy_coeff forcing) coeffs W !! j ≫= (.!! q)
    = if decide ((Z.of_nat j, Z.of_nat q) ∈ W)
      then (fun _ => rd2 forcing (Z.of_nat j) (Z.of_nat q))
           <$> (coeffs !! j ≫= (.!! q))
      else coeffs !! j ≫= (.!! q).
Proof.
  induction 1 as [|[jw iw] W [Hj Hi] _ IH]; intros coeffs j q.
  - cbn [foldl]. rewrite decide_False; [done |]. apply not_elem_of_nil.
  - cbn [foldl]. rewrite IH. unfold copy_coeff at 1 2.
    cbn [fst snd] in Hj, Hi |- *.
    rewrite SetCoeff_lookup by done.
    destruct (decide (jw = Z.of_nat j /\ iw = Z.of_nat q)) as [[-> ->]|Hno].
    + rewrite (decide_True (P := (_ ∈ _ :: _)))
        by (apply elem_of_cons; by left).
      case_decide; by destruct (coeffs !! j ≫= (.!! q)).
    + destruct (decide ((Z.of_nat j, Z.of_nat q) ∈ W)) as [Hin|Hout].
      * rewrite decide_True; [done |]. apply elem_of_cons. by right.
      * rewrite decide_False; [done |].
        intros Hin. apply elem_of_cons in Hin as [[= <- <-]|Hin]; tauto.
Qed.

Lemma touched_nonneg (f : Fields) (nz_loc : Z) :
  Forall (fun w => 0 <= w.1 /\ 0 <= w.2) (touched f nz_loc).
Proof.
  apply list.Forall_forall. intros w Hw. unfold touched, passes_of in Hw.
  apply list_elem_of_bind in Hw as (t & Hw & Ht).
  apply list_elem_of_bind in Ht as (i & Ht & _).
  apply list_elem_of_bind in Ht as (j & Ht & Hj).
  apply list_elem_of_bind in Ht as (n & Ht & _).
  apply list_elem_of_singleton in Ht as ->.
  apply elem_of_seqZ in Hj.
  unfold touched_by in Hw. simpl in Hw.
  apply elem_of_app in Hw as [Hw|Hw];
    apply list_elem_of_fmap in Hw as (mapk & -> & _); simpl;
    (split; [lia |]); unfold coeff_index;
    by apply to_unsigned_range.
Qed.

(** Unpacking what has just been assembled, with nothing solved in
    between, copies the forcing to the coefficients: taking an element
    by the same number, component and plane, the two loop nests count
    through [f_bnd] and [f_int] alike and address the same
    coefficient.  Every coefficient a boundary or interior map points
    at ends up with the value of the forcing at its own index, and
    every other coefficient is left as it was.  The elements of
    [fields[0]], which the unpacking reads, need to have the maps and
    offsets of those of the first velocity field. *)
Theorem unpack_assemble_round_trip (f : Fields) (nz_loc : Z)
    (forcing coeffs : list (list F)) (f_bnd0 f_int0 : list F)
    (j q : nat) :
  let a := assemble f nz_loc forcing f_bnd0 f_int0 in
  let res := v_coeffs (unpack f nz_loc (f_bnd a) (f_int a) coeffs) in
  (forall i, (i < nel f)%nat ->
     fields0_GetExp f (GetOffset_Elmt_Id f i)
     = velocity_GetExp f (GetOffset_Elmt_Id f i)) ->
  (total_bnd f nz_loc <= length f_bnd0)%nat ->
  (total_int f nz_loc <= length f_int0)%nat ->
  res !! j ≫= (.!! q)
  = if decide ((Z.of_nat j, Z.of_nat q) ∈ touched f nz_loc)
    then (fun _ => rd2 forcing (Z.of_nat j) (Z.of_nat q))
         <$> (coeffs !! j ≫= (.!! q))
    else coeffs !! j ≫= (.!! q).
Proof.
  intros a res Hsame Hb Hi. unfold res, a.
  rewrite assemble_flat, assemble_fold by (simpl; done).
  cbn [f_bnd f_int a_cnt a_cnt1].
  rewrite unpack_flat by done.
  rewrite (unpack_fold f forcing (passes_of f nz_loc)
             (mkUnpacking 0 0 coeffs)) by done.
  apply copy_coeff_lookup, touched_nonneg.
Qed.
End PackingProperties.

Lemma unpack_assemble_round_trip_witness :
  let a := CoupledSolve.assemble Examples.packed_fields 1
             Examples.packed_forcing (replicate 8 0) (replicate 6 0) in
  let res := CoupledSolve.v_coeffs
               (CoupledSolve.unpack Examples.packed_fields 1
                  (CoupledSolve.f_bnd a) (CoupledSolve.f_int a)
                  Examples.zero_coeffs) in
  res !! 1%nat ≫= (.!! 5%nat) = Some 205
  /\ res !! 1%nat ≫= (.!! 8%nat) = Some 0.
Proof.
  assert (Hsame : forall i, (i < 2)%nat ->
            Examples.packed_elmt (1 - i) = Examples.packed_elmt (1 - i))
    by done.
  assert (Hb : (8 <= length (replicate 8 0))%nat) by (simpl; lia).
  assert (Hi : (6 <= length (replicate 6 0))%nat) by (simpl; lia).
  split.
  - exact (unpack_assemble_round_trip Examples.packed_fields 1
             Examples.packed_forcing Examples.zero_coeffs
             (replicate 8 0) (replicate 6 0) 1 5 Hsame Hb Hi).
  - exact (unpack_assemble_round_trip Examples.packed_fields 1
             Examples.packed_forcing Examples.zero_coeffs
             (replicate 8 0) (replicate 6 0) 1 8 Hsame Hb Hi).
Defined.
